(** * SimpleHTMLParser: a shallow embedding of the parser and selector engine

    The development follows the TypeScript namespace [SimpleHTMLParser]:
    strings are sequences of UTF-16 code units, nodes live in a store and
    are referred to by their index (the object identity of the source),
    loops carry fuel and return [None] when it runs out, and a dereference
    of [undefined] is a [None] as well. *)

From Stdlib Require Import ZArith Lia String Ascii.
From stdpp Require Import base option list gmap.

Local Open Scope Z_scope.
Local Open Scope nat_scope.

(** * The program

    The module follows the namespace of the source. *)
Module SimpleHTMLParser.

(** ** Strings *)

(** A JavaScript string is a sequence of 16-bit code units. *)
Abbreviation jsstring := (list Z).

(** String literals of the source, as code units (ASCII literals only). *)
Fixpoint js (s : string) : jsstring :=
  match s with
  | EmptyString => []
  | String a s' => Z.of_N (N_of_ascii a) :: js s'
  end.

Arguments js : simpl never.

Definition str_eqb (a b : jsstring) : bool := bool_decide (a = b).

(** [s.slice(a, b)] for [0 <= a] and [0 <= b]; an empty string when [b <= a]. *)
Definition slice (s : jsstring) (a b : nat) : jsstring := take (b - a) (drop a s).

(** [s.slice(a)] *)
Definition slice_from (s : jsstring) (a : nat) : jsstring := drop a s.

Fixpoint starts_with (pat s : jsstring) : bool :=
  match pat, s with
  | [], _ => true
  | _ :: _, [] => false
  | p :: pat', c :: s' => (p =? c)%Z && starts_with pat' s'
  end.

(** First position [k' >= k] of [pat] in a string whose suffix from [k] is [s]. *)
Fixpoint find_from (pat s : jsstring) (k : nat) : option nat :=
  if starts_with pat s then Some k
  else match s with
       | [] => None
       | _ :: s' => find_from pat s' (S k)
       end.

(** [s.indexOf(pat, from)]; [None] is the source's [-1]. *)
Definition indexOf (pat s : jsstring) (from : nat) : option nat :=
  find_from pat (drop from s) (Nat.min from (length s)).

(** Length of the longest prefix whose code units all satisfy [p]. *)
Fixpoint span_len (p : Z -> bool) (s : jsstring) : nat :=
  match s with
  | [] => 0
  | c :: s' => if p c then S (span_len p s') else 0
  end.

(** [while (j < s.length && p(s.charCodeAt(j))) j++] *)
Definition skip_while (p : Z -> bool) (s : jsstring) (j : nat) : nat :=
  j + span_len p (drop j s).

Definition isWhitespace (code : Z) : bool := (code <=? 32)%Z.

Definition isIdentifierChar (code : Z) : bool :=
  ((48 <=? code) && (code <=? 57) ||
   (65 <=? code) && (code <=? 90) ||
   (97 <=? code) && (code <=? 122) ||
   (code =? 45) || (code =? 95) || (code =? 58))%Z.

(** ** Lower case

    [String.prototype.toLowerCase] works on the code points of the string:
    a high surrogate followed by a low surrogate is one code point, every
    other code unit is a code point of its own.  It follows the case
    mappings of the Unicode Character Database that do not depend on a
    language, here those of Unicode 14.0: the lower-case mappings of
    UnicodeData.txt, and from SpecialCasing.txt the mapping of U+0130
    (capital I with dot above) to U+0069 U+0307 and the condition
    Final_Sigma, under which U+03A3 (capital sigma) becomes U+03C2 instead
    of U+03C3: a cased letter stands before it and none after it,
    case-ignorable code points skipped on both sides. *)

(** The code points with a lower case of their own in UnicodeData.txt, as
    runs [(first, last, step, delta)]: every [step]-th code point from
    [first] to [last] has the lower case that lies [delta] above it. *)
Definition lower_runs : list (Z * Z * Z * Z) :=
  [
   (65, 90, 1, 32); (192, 214, 1, 32); (216, 222, 1, 32); (256, 302, 2, 1);
   (306, 310, 2, 1); (313, 327, 2, 1); (330, 374, 2, 1); (376, 376, 1, -121);
   (377, 381, 2, 1); (385, 385, 1, 210); (386, 388, 2, 1);
   (390, 390, 1, 206); (391, 391, 1, 1); (393, 394, 1, 205);
   (395, 395, 1, 1); (398, 398, 1, 79); (399, 399, 1, 202);
   (400, 400, 1, 203); (401, 401, 1, 1); (403, 403, 1, 205);
   (404, 404, 1, 207); (406, 406, 1, 211); (407, 407, 1, 209);
   (408, 408, 1, 1); (412, 412, 1, 211); (413, 413, 1, 213);
   (415, 415, 1, 214); (416, 420, 2, 1); (422, 422, 1, 218);
   (423, 423, 1, 1); (425, 425, 1, 218); (428, 428, 1, 1);
   (430, 430, 1, 218); (431, 431, 1, 1); (433, 434, 1, 217);
   (435, 437, 2, 1); (439, 439, 1, 219); (440, 440, 1, 1); (444, 444, 1, 1);
   (452, 452, 1, 2); (453, 453, 1, 1); (455, 455, 1, 2); (456, 456, 1, 1);
   (458, 458, 1, 2); (459, 475, 2, 1); (478, 494, 2, 1); (497, 497, 1, 2);
   (498, 500, 2, 1); (502, 502, 1, -97); (503, 503, 1, -56);
   (504, 542, 2, 1); (544, 544, 1, -130); (546, 562, 2, 1);
   (570, 570, 1, 10795); (571, 571, 1, 1); (573, 573, 1, -163);
   (574, 574, 1, 10792); (577, 577, 1, 1); (579, 579, 1, -195);
   (580, 580, 1, 69); (581, 581, 1, 71); (582, 590, 2, 1); (880, 882, 2, 1);
   (886, 886, 1, 1); (895, 895, 1, 116); (902, 902, 1, 38);
   (904, 906, 1, 37); (908, 908, 1, 64); (910, 911, 1, 63);
   (913, 929, 1, 32); (931, 939, 1, 32); (975, 975, 1, 8); (984, 1006, 2, 1);
   (1012, 1012, 1, -60); (1015, 1015, 1, 1); (1017, 1017, 1, -7);
   (1018, 1018, 1, 1); (1021, 1023, 1, -130); (1024, 1039, 1, 80);
   (1040, 1071, 1, 32); (1120, 1152, 2, 1); (1162, 1214, 2, 1);
   (1216, 1216, 1, 15); (1217, 1229, 2, 1); (1232, 1326, 2, 1);
   (1329, 1366, 1, 48); (4256, 4293, 1, 7264); (4295, 4295, 1, 7264);
   (4301, 4301, 1, 7264); (5024, 5103, 1, 38864); (5104, 5109, 1, 8);
   (7312, 7354, 1, -3008); (7357, 7359, 1, -3008); (7680, 7828, 2, 1);
   (7838, 7838, 1, -7615); (7840, 7934, 2, 1); (7944, 7951, 1, -8);
   (7960, 7965, 1, -8); (7976, 7983, 1, -8); (7992, 7999, 1, -8);
   (8008, 8013, 1, -8); (8025, 8031, 2, -8); (8040, 8047, 1, -8);
   (8072, 8079, 1, -8); (8088, 8095, 1, -8); (8104, 8111, 1, -8);
   (8120, 8121, 1, -8); (8122, 8123, 1, -74); (8124, 8124, 1, -9);
   (8136, 8139, 1, -86); (8140, 8140, 1, -9); (8152, 8153, 1, -8);
   (8154, 8155, 1, -100); (8168, 8169, 1, -8); (8170, 8171, 1, -112);
   (8172, 8172, 1, -7); (8184, 8185, 1, -128); (8186, 8187, 1, -126);
   (8188, 8188, 1, -9); (8486, 8486, 1, -7517); (8490, 8490, 1, -8383);
   (8491, 8491, 1, -8262); (8498, 8498, 1, 28); (8544, 8559, 1, 16);
   (8579, 8579, 1, 1); (9398, 9423, 1, 26); (11264, 11311, 1, 48);
   (11360, 11360, 1, 1); (11362, 11362, 1, -10743); (11363, 11363, 1, -3814);
   (11364, 11364, 1, -10727); (11367, 11371, 2, 1);
   (11373, 11373, 1, -10780); (11374, 11374, 1, -10749);
   (11375, 11375, 1, -10783); (11376, 11376, 1, -10782);
   (11378, 11378, 1, 1); (11381, 11381, 1, 1); (11390, 11391, 1, -10815);
   (11392, 11490, 2, 1); (11499, 11501, 2, 1); (11506, 11506, 1, 1);
   (42560, 42604, 2, 1); (42624, 42650, 2, 1); (42786, 42798, 2, 1);
   (42802, 42862, 2, 1); (42873, 42875, 2, 1); (42877, 42877, 1, -35332);
   (42878, 42886, 2, 1); (42891, 42891, 1, 1); (42893, 42893, 1, -42280);
   (42896, 42898, 2, 1); (42902, 42920, 2, 1); (42922, 42922, 1, -42308);
   (42923, 42923, 1, -42319); (42924, 42924, 1, -42315);
   (42925, 42925, 1, -42305); (42926, 42926, 1, -42308);
   (42928, 42928, 1, -42258); (42929, 42929, 1, -42282);
   (42930, 42930, 1, -42261); (42931, 42931, 1, 928); (42932, 42946, 2, 1);
   (42948, 42948, 1, -48); (42949, 42949, 1, -42307);
   (42950, 42950, 1, -35384); (42951, 42953, 2, 1); (42960, 42960, 1, 1);
   (42966, 42968, 2, 1); (42997, 42997, 1, 1); (65313, 65338, 1, 32);
   (66560, 66599, 1, 40); (66736, 66771, 1, 40); (66928, 66938, 1, 39);
   (66940, 66954, 1, 39); (66956, 66962, 1, 39); (66964, 66965, 1, 39);
   (68736, 68786, 1, 64); (71840, 71871, 1, 32); (93760, 93791, 1, 32);
   (125184, 125217, 1, 34)
  ]%Z.

(** The code points with the property Cased, as ranges [(first, last)]. *)
Definition cased_ranges : list (Z * Z) :=
  [
   (65, 90); (97, 122); (170, 170); (181, 181); (186, 186); (192, 214);
   (216, 246); (248, 442); (444, 447); (452, 659); (661, 696); (704, 705);
   (736, 740); (837, 837); (880, 883); (886, 887); (890, 893); (895, 895);
   (902, 902); (904, 906); (908, 908); (910, 929); (931, 1013); (1015, 1153);
   (1162, 1327); (1329, 1366); (1376, 1416); (4256, 4293); (4295, 4295);
   (4301, 4301); (4304, 4346); (4349, 4351); (5024, 5109); (5112, 5117);
   (7296, 7304); (7312, 7354); (7357, 7359); (7424, 7615); (7680, 7957);
   (7960, 7965); (7968, 8005); (8008, 8013); (8016, 8023); (8025, 8025);
   (8027, 8027); (8029, 8029); (8031, 8061); (8064, 8116); (8118, 8124);
   (8126, 8126); (8130, 8132); (8134, 8140); (8144, 8147); (8150, 8155);
   (8160, 8172); (8178, 8180); (8182, 8188); (8305, 8305); (8319, 8319);
   (8336, 8348); (8450, 8450); (8455, 8455); (8458, 8467); (8469, 8469);
   (8473, 8477); (8484, 8484); (8486, 8486); (8488, 8488); (8490, 8493);
   (8495, 8500); (8505, 8505); (8508, 8511); (8517, 8521); (8526, 8526);
   (8544, 8575); (8579, 8580); (9398, 9449); (11264, 11492); (11499, 11502);
   (11506, 11507); (11520, 11557); (11559, 11559); (11565, 11565);
   (42560, 42605); (42624, 42653); (42786, 42887); (42891, 42894);
   (42896, 42954); (42960, 42961); (42963, 42963); (42965, 42969);
   (42997, 42998); (43000, 43002); (43824, 43866); (43868, 43880);
   (43888, 43967); (64256, 64262); (64275, 64279); (65313, 65338);
   (65345, 65370); (66560, 66639); (66736, 66771); (66776, 66811);
   (66928, 66938); (66940, 66954); (66956, 66962); (66964, 66965);
   (66967, 66977); (66979, 66993); (66995, 67001); (67003, 67004);
   (67456, 67456); (67459, 67461); (67463, 67504); (67506, 67514);
   (68736, 68786); (68800, 68850); (71840, 71903); (93760, 93823);
   (119808, 119892); (119894, 119964); (119966, 119967); (119970, 119970);
   (119973, 119974); (119977, 119980); (119982, 119993); (119995, 119995);
   (119997, 120003); (120005, 120069); (120071, 120074); (120077, 120084);
   (120086, 120092); (120094, 120121); (120123, 120126); (120128, 120132);
   (120134, 120134); (120138, 120144); (120146, 120485); (120488, 120512);
   (120514, 120538); (120540, 120570); (120572, 120596); (120598, 120628);
   (120630, 120654); (120656, 120686); (120688, 120712); (120714, 120744);
   (120746, 120770); (120772, 120779); (122624, 122633); (122635, 122654);
   (125184, 125251); (127280, 127305); (127312, 127337); (127344, 127369)
  ]%Z.

(** The code points with the property Case_Ignorable. *)
Definition case_ignorable_ranges : list (Z * Z) :=
  [
   (39, 39); (46, 46); (58, 58); (94, 94); (96, 96); (168, 168); (173, 173);
   (175, 175); (180, 180); (183, 184); (688, 879); (884, 885); (890, 890);
   (900, 901); (903, 903); (1155, 1161); (1369, 1369); (1375, 1375);
   (1425, 1469); (1471, 1471); (1473, 1474); (1476, 1477); (1479, 1479);
   (1524, 1524); (1536, 1541); (1552, 1562); (1564, 1564); (1600, 1600);
   (1611, 1631); (1648, 1648); (1750, 1757); (1759, 1768); (1770, 1773);
   (1807, 1807); (1809, 1809); (1840, 1866); (1958, 1968); (2027, 2037);
   (2042, 2042); (2045, 2045); (2070, 2093); (2137, 2139); (2184, 2184);
   (2192, 2193); (2200, 2207); (2249, 2306); (2362, 2362); (2364, 2364);
   (2369, 2376); (2381, 2381); (2385, 2391); (2402, 2403); (2417, 2417);
   (2433, 2433); (2492, 2492); (2497, 2500); (2509, 2509); (2530, 2531);
   (2558, 2558); (2561, 2562); (2620, 2620); (2625, 2626); (2631, 2632);
   (2635, 2637); (2641, 2641); (2672, 2673); (2677, 2677); (2689, 2690);
   (2748, 2748); (2753, 2757); (2759, 2760); (2765, 2765); (2786, 2787);
   (2810, 2815); (2817, 2817); (2876, 2876); (2879, 2879); (2881, 2884);
   (2893, 2893); (2901, 2902); (2914, 2915); (2946, 2946); (3008, 3008);
   (3021, 3021); (3072, 3072); (3076, 3076); (3132, 3132); (3134, 3136);
   (3142, 3144); (3146, 3149); (3157, 3158); (3170, 3171); (3201, 3201);
   (3260, 3260); (3263, 3263); (3270, 3270); (3276, 3277); (3298, 3299);
   (3328, 3329); (3387, 3388); (3393, 3396); (3405, 3405); (3426, 3427);
   (3457, 3457); (3530, 3530); (3538, 3540); (3542, 3542); (3633, 3633);
   (3636, 3642); (3654, 3662); (3761, 3761); (3764, 3772); (3782, 3782);
   (3784, 3789); (3864, 3865); (3893, 3893); (3895, 3895); (3897, 3897);
   (3953, 3966); (3968, 3972); (3974, 3975); (3981, 3991); (3993, 4028);
   (4038, 4038); (4141, 4144); (4146, 4151); (4153, 4154); (4157, 4158);
   (4184, 4185); (4190, 4192); (4209, 4212); (4226, 4226); (4229, 4230);
   (4237, 4237); (4253, 4253); (4348, 4348); (4957, 4959); (5906, 5908);
   (5938, 5939); (5970, 5971); (6002, 6003); (6068, 6069); (6071, 6077);
   (6086, 6086); (6089, 6099); (6103, 6103); (6109, 6109); (6155, 6159);
   (6211, 6211); (6277, 6278); (6313, 6313); (6432, 6434); (6439, 6440);
   (6450, 6450); (6457, 6459); (6679, 6680); (6683, 6683); (6742, 6742);
   (6744, 6750); (6752, 6752); (6754, 6754); (6757, 6764); (6771, 6780);
   (6783, 6783); (6823, 6823); (6832, 6862); (6912, 6915); (6964, 6964);
   (6966, 6970); (6972, 6972); (6978, 6978); (7019, 7027); (7040, 7041);
   (7074, 7077); (7080, 7081); (7083, 7085); (7142, 7142); (7144, 7145);
   (7149, 7149); (7151, 7153); (7212, 7219); (7222, 7223); (7288, 7293);
   (7376, 7378); (7380, 7392); (7394, 7400); (7405, 7405); (7412, 7412);
   (7416, 7417); (7468, 7530); (7544, 7544); (7579, 7679); (8125, 8125);
   (8127, 8129); (8141, 8143); (8157, 8159); (8173, 8175); (8189, 8190);
   (8203, 8207); (8216, 8217); (8228, 8228); (8231, 8231); (8234, 8238);
   (8288, 8292); (8294, 8303); (8305, 8305); (8319, 8319); (8336, 8348);
   (8400, 8432); (11388, 11389); (11503, 11505); (11631, 11631);
   (11647, 11647); (11744, 11775); (11823, 11823); (12293, 12293);
   (12330, 12333); (12337, 12341); (12347, 12347); (12441, 12446);
   (12540, 12542); (40981, 40981); (42232, 42237); (42508, 42508);
   (42607, 42610); (42612, 42621); (42623, 42623); (42652, 42655);
   (42736, 42737); (42752, 42785); (42864, 42864); (42888, 42890);
   (42994, 42996); (43000, 43001); (43010, 43010); (43014, 43014);
   (43019, 43019); (43045, 43046); (43052, 43052); (43204, 43205);
   (43232, 43249); (43263, 43263); (43302, 43309); (43335, 43345);
   (43392, 43394); (43443, 43443); (43446, 43449); (43452, 43453);
   (43471, 43471); (43493, 43494); (43561, 43566); (43569, 43570);
   (43573, 43574); (43587, 43587); (43596, 43596); (43632, 43632);
   (43644, 43644); (43696, 43696); (43698, 43700); (43703, 43704);
   (43710, 43711); (43713, 43713); (43741, 43741); (43756, 43757);
   (43763, 43764); (43766, 43766); (43867, 43871); (43881, 43883);
   (44005, 44005); (44008, 44008); (44013, 44013); (64286, 64286);
   (64434, 64450); (65024, 65039); (65043, 65043); (65056, 65071);
   (65106, 65106); (65109, 65109); (65279, 65279); (65287, 65287);
   (65294, 65294); (65306, 65306); (65342, 65342); (65344, 65344);
   (65392, 65392); (65438, 65439); (65507, 65507); (65529, 65531);
   (66045, 66045); (66272, 66272); (66422, 66426); (67456, 67461);
   (67463, 67504); (67506, 67514); (68097, 68099); (68101, 68102);
   (68108, 68111); (68152, 68154); (68159, 68159); (68325, 68326);
   (68900, 68903); (69291, 69292); (69446, 69456); (69506, 69509);
   (69633, 69633); (69688, 69702); (69744, 69744); (69747, 69748);
   (69759, 69761); (69811, 69814); (69817, 69818); (69821, 69821);
   (69826, 69826); (69837, 69837); (69888, 69890); (69927, 69931);
   (69933, 69940); (70003, 70003); (70016, 70017); (70070, 70078);
   (70089, 70092); (70095, 70095); (70191, 70193); (70196, 70196);
   (70198, 70199); (70206, 70206); (70367, 70367); (70371, 70378);
   (70400, 70401); (70459, 70460); (70464, 70464); (70502, 70508);
   (70512, 70516); (70712, 70719); (70722, 70724); (70726, 70726);
   (70750, 70750); (70835, 70840); (70842, 70842); (70847, 70848);
   (70850, 70851); (71090, 71093); (71100, 71101); (71103, 71104);
   (71132, 71133); (71219, 71226); (71229, 71229); (71231, 71232);
   (71339, 71339); (71341, 71341); (71344, 71349); (71351, 71351);
   (71453, 71455); (71458, 71461); (71463, 71467); (71727, 71735);
   (71737, 71738); (71995, 71996); (71998, 71998); (72003, 72003);
   (72148, 72151); (72154, 72155); (72160, 72160); (72193, 72202);
   (72243, 72248); (72251, 72254); (72263, 72263); (72273, 72278);
   (72281, 72283); (72330, 72342); (72344, 72345); (72752, 72758);
   (72760, 72765); (72767, 72767); (72850, 72871); (72874, 72880);
   (72882, 72883); (72885, 72886); (73009, 73014); (73018, 73018);
   (73020, 73021); (73023, 73029); (73031, 73031); (73104, 73105);
   (73109, 73109); (73111, 73111); (73459, 73460); (78896, 78904);
   (92912, 92916); (92976, 92982); (92992, 92995); (94031, 94031);
   (94095, 94111); (94176, 94177); (94179, 94180); (110576, 110579);
   (110581, 110587); (110589, 110590); (113821, 113822); (113824, 113827);
   (118528, 118573); (118576, 118598); (119143, 119145); (119155, 119170);
   (119173, 119179); (119210, 119213); (119362, 119364); (121344, 121398);
   (121403, 121452); (121461, 121461); (121476, 121476); (121499, 121503);
   (121505, 121519); (122880, 122886); (122888, 122904); (122907, 122913);
   (122915, 122916); (122918, 122922); (123184, 123197); (123566, 123566);
   (123628, 123631); (125136, 125142); (125252, 125259); (127995, 127999);
   (917505, 917505); (917536, 917631); (917760, 917999)
  ]%Z.

Fixpoint lookup_run (runs : list (Z * Z * Z * Z)) (c : Z) : option Z :=
  match runs with
  | [] => None
  | (first, last, step, delta) :: runs' =>
      if ((first <=? c) && (c <=? last) && ((c - first) mod step =? 0))%Z
      then Some (c + delta)%Z
      else lookup_run runs' c
  end.

(** The lower case of a code point by UnicodeData.txt. *)
Definition simple_lower (c : Z) : Z := default c (lookup_run lower_runs c).

Definition in_ranges (ranges : list (Z * Z)) (c : Z) : bool :=
  existsb (fun '(first, last) => ((first <=? c) && (c <=? last))%Z) ranges.

Definition cased (c : Z) : bool := in_ranges cased_ranges c.

Definition case_ignorable (c : Z) : bool := in_ranges case_ignorable_ranges c.

(** A code point of a string: a code unit on its own or a surrogate pair. *)
Inductive Point :=
| Single (c : Z)
| Surrogates (hi lo : Z).

Definition is_high (c : Z) : bool := ((55296 <=? c) && (c <=? 56319))%Z.

Definition is_low (c : Z) : bool := ((56320 <=? c) && (c <=? 57343))%Z.

Fixpoint code_points (s : jsstring) : list Point :=
  match s with
  | [] => []
  | c :: rest =>
      match rest with
      | lo :: rest' =>
          if is_high c && is_low lo then Surrogates c lo :: code_points rest'
          else Single c :: code_points rest
      | [] => [Single c]
      end
  end.

Definition point_value (p : Point) : Z :=
  match p with
  | Single c => c
  | Surrogates hi lo => (65536 + (hi - 55296) * 1024 + (lo - 56320))%Z
  end.

(** The surrogate pair of a code point above U+FFFF. *)
Definition surrogates_of (v : Z) : Point :=
  Surrogates (55296 + (v - 65536) / 1024)%Z (56320 + (v - 65536) mod 1024)%Z.

Definition code_units (p : Point) : jsstring :=
  match p with
  | Single c => [c]
  | Surrogates hi lo => [hi; lo]
  end.

(** Whether a cased letter follows, case-ignorable code points skipped. *)
Fixpoint cased_follows (ps : list Point) : bool :=
  match ps with
  | [] => false
  | p :: ps' =>
      if case_ignorable (point_value p) then cased_follows ps'
      else cased (point_value p)
  end.

(** The lower case of the code point [p]; [after_cased] says whether a
    cased letter stands before it, case-ignorable code points skipped, and
    [rest] is what follows it. *)
Definition lower_point (after_cased : bool) (p : Point) (rest : list Point)
  : list Point :=
  match p with
  | Single c =>
      if (c =? 931)%Z then
        [Single (if after_cased && negb (cased_follows rest) then 962 else 963)%Z]
      else if (c =? 304)%Z then [Single 105%Z; Single 775%Z]
      else [Single (simple_lower c)]
  | Surrogates _ _ =>
      let v := simple_lower (point_value p) in
      if (v =? point_value p)%Z then [p] else [surrogates_of v]
  end.

Fixpoint lower_points (after_cased : bool) (ps : list Point) : list Point :=
  match ps with
  | [] => []
  | p :: ps' =>
      lower_point after_cased p ps' ++
      lower_points (if case_ignorable (point_value p) then after_cased
                    else cased (point_value p)) ps'
  end.

Definition toLowerCase (s : jsstring) : jsstring :=
  flat_map code_units (lower_points false (code_points s)).

Arguments toLowerCase : simpl never.

(** White space and line terminators of ECMAScript: what [trim] strips and
    what [\s] matches. *)
Definition is_js_space (c : Z) : bool :=
  ((9 <=? c) && (c <=? 13) || (c =? 32) || (c =? 160) || (c =? 5760) ||
   (8192 <=? c) && (c <=? 8202) || (c =? 8232) || (c =? 8233) ||
   (c =? 8239) || (c =? 8287) || (c =? 12288) || (c =? 65279))%Z.

Definition trim_start (s : jsstring) : jsstring := drop (span_len is_js_space s) s.

Definition trim (s : jsstring) : jsstring :=
  reverse (trim_start (reverse (trim_start s))).

(** ** Objects used as tables

    [VOID_ELEMENTS], [RAWTEXT_ELEMENTS] and [ENTITY_MAP] are object literals:
    a lookup [table[key]] that finds no own property goes on to
    [Object.prototype]. *)

Definition VOID_ELEMENTS : list jsstring :=
  map js ["area"; "base"; "br"; "col"; "embed"; "hr"; "img"; "input";
          "link"; "meta"; "param"; "source"; "track"; "wbr"]%string.

Definition RAWTEXT_ELEMENTS : list jsstring :=
  map js ["script"; "style"; "textarea"]%string.

Definition ENTITY_MAP : list (jsstring * jsstring) :=
  [(js "amp", js "&"); (js "lt", js "<"); (js "gt", js ">");
   (js "quot", [34%Z]); (js "apos", js "'"); (js "nbsp", js " ")].

(** The properties of [Object.prototype], each with the string that
    [ToString] gives for its value: a built-in function, but for
    [__proto__], an accessor that yields [Object.prototype] itself. *)
Definition native (name : string) : jsstring :=
  js ("function " ++ name ++ "() { [native code] }")%string.

Definition Object_prototype : list (jsstring * jsstring) :=
  [(js "constructor", native "Object");
   (js "__defineGetter__", native "__defineGetter__");
   (js "__defineSetter__", native "__defineSetter__");
   (js "hasOwnProperty", native "hasOwnProperty");
   (js "__lookupGetter__", native "__lookupGetter__");
   (js "__lookupSetter__", native "__lookupSetter__");
   (js "isPrototypeOf", native "isPrototypeOf");
   (js "propertyIsEnumerable", native "propertyIsEnumerable");
   (js "toString", native "toString");
   (js "valueOf", native "valueOf");
   (js "__proto__", js "[object Object]");
   (js "toLocaleString", native "toLocaleString")].

Definition mem_str (k : jsstring) (l : list jsstring) : bool :=
  existsb (str_eqb k) l.

Fixpoint assoc (k : jsstring) (l : list (jsstring * jsstring)) : option jsstring :=
  match l with
  | [] => None
  | (k', v) :: l' => if str_eqb k k' then Some v else assoc k l'
  end.

(** Truth value of [table[key]] for a table of [true] entries: every value
    found on [Object.prototype] is an object, hence true. *)
Definition table_truthy (table : list jsstring) (key : jsstring) : bool :=
  mem_str key table || bool_decide (is_Some (assoc key Object_prototype)).

(** ** Entity decoding *)

Definition is_hex_digit (c : Z) : bool :=
  ((48 <=? c) && (c <=? 57) || (97 <=? c) && (c <=? 102) ||
   (65 <=? c) && (c <=? 70))%Z.

Definition is_letter (c : Z) : bool :=
  ((97 <=? c) && (c <=? 122) || (65 <=? c) && (c <=? 90))%Z.

(** One attempt of [/&(#x?[0-9a-fA-F]+|[a-zA-Z]+);/] at a position that
    holds [&]; [s] is the text after the [&].  The result is the captured
    body and the text after the match.  Both repetitions are greedy and are
    followed by [;], which is in neither class, and [x] is not a hexadecimal
    digit: no backtracking finds a match the first attempt misses. *)
Definition match_entity (s : jsstring) : option (jsstring * jsstring) :=
  match s with
  | c :: s1 =>
      if (c =? 35)%Z then
        let '(x, s2) := match s1 with
                        | c1 :: s2 => if (c1 =? 120)%Z then ([c1], s2) else ([], s1)
                        | [] => ([], s1)
                        end in
        let n := span_len is_hex_digit s2 in
        if (0 <? n) && bool_decide (s2 !! n = Some 59%Z)
        then Some (c :: x ++ take n s2, drop (S n) s2)
        else None
      else
        let n := span_len is_letter s in
        if (0 <? n) && bool_decide (s !! n = Some 59%Z)
        then Some (take n s, drop (S n) s)
        else None
  | [] => None
  end.

(** Value of a digit; 36 for a code unit that is no digit in any radix. *)
Definition digit_value (c : Z) : Z :=
  if ((48 <=? c) && (c <=? 57))%Z then c - 48
  else if ((97 <=? c) && (c <=? 122))%Z then c - 87
  else if ((65 <=? c) && (c <=? 90))%Z then c - 55
  else 36.

(** [parseInt(s, radix)] on a string of digits and letters: the value of the
    longest prefix of digits of the radix, [None] (the source's [NaN]) when
    that prefix is empty. *)
Definition parseInt (s : jsstring) (radix : Z) : option Z :=
  let n := span_len (fun c => (digit_value c <? radix)%Z) s in
  if n =? 0 then None
  else Some (foldl (fun a c => a * radix + digit_value c)%Z 0%Z (take n s)).

(** The Number nearest to a non-negative integer (ties to even).  An integer
    that overflows to [Infinity] is given a multiple of 2^971 instead:
    [ToUint16] is 0 for both. *)
Definition round_double (n : Z) : Z :=
  let k := (Z.log2 n - 52)%Z in
  if (k <=? 0)%Z then n
  else
    let q := Z.shiftr n k in
    let r := (n mod 2 ^ k)%Z in
    let half := (2 ^ (k - 1))%Z in
    let q' := if (half <? r)%Z || ((r =? half)%Z && Z.odd q) then (q + 1)%Z else q in
    (q' * 2 ^ k)%Z.

(** [String.fromCharCode(num)]: one code unit, [ToUint16(num)]. *)
Definition fromCharCode (num : Z) : jsstring := [(round_double num mod 65536)%Z].

(** The replacement callback of [decodeEntities]. *)
Definition entity_callback (mtch body : jsstring) : jsstring :=
  if bool_decide (body !! 0 = Some 35%Z) then
    let hex := bool_decide (body !! 1 = Some 120%Z) || bool_decide (body !! 1 = Some 88%Z) in
    match parseInt (slice_from body (if hex then 2 else 1)) (if hex then 16 else 10)%Z with
    | Some num => fromCharCode num
    | None => mtch
    end
  else
    match assoc body ENTITY_MAP with
    | Some decoded => if bool_decide (decoded = []) then mtch else decoded
    | None =>
        match assoc body Object_prototype with
        | Some shown => shown
        | None => mtch
        end
    end.

(** [text.replace(re, callback)] for the global expression above: matches
    are sought left to right, each search resuming after the previous
    match.  Every step consumes a code unit, so [length text] is enough
    fuel. *)
Fixpoint replace_entities (fuel : nat) (text : jsstring) : jsstring :=
  match fuel with
  | 0 => []
  | S fuel' =>
      match text with
      | [] => []
      | c :: rest =>
          if (c =? 38)%Z then
            match match_entity rest with
            | Some (body, rest') =>
                entity_callback (c :: take (length rest - length rest') rest) body
                  ++ replace_entities fuel' rest'
            | None => c :: replace_entities fuel' rest
            end
          else c :: replace_entities fuel' rest
      end
  end.

Definition decodeEntities (text : jsstring) : jsstring :=
  match indexOf (js "&") text 0 with
  | None => text
  | Some _ => replace_entities (length text) text
  end.

(** ** Node model *)

Inductive NodeType := Element | Text | Document.

Abbreviation Attributes := (gmap jsstring jsstring).

(** The three classes that extend [NodeBase], with the fields each adds. *)
Inductive NodeKind :=
| KElement (tagName : jsstring) (attributes : Attributes)
| KText (data : jsstring)
| KDocument.

(** An object of class [NodeBase]; [parent] and [children] hold references,
    which are indices into the store. *)
Record Node := mkNode {
  kind : NodeKind;
  parent : option nat;
  children : list nat
}.

Definition nodeType (n : Node) : NodeType :=
  match kind n with
  | KElement _ _ => Element
  | KText _ => Text
  | KDocument => Document
  end.

(** The store: every object ever constructed, in order of construction. *)
Abbreviation Store := (list Node).

Definition new_node (k : NodeKind) : Node :=
  {| kind := k; parent := None; children := [] |}.

(** [new Element(tagName, attributes)]: the constructor lower-cases the tag
    name and copies the attributes. *)
Definition new_Element (h : Store) (tagName : jsstring) (attributes : Attributes)
  : Store * nat :=
  (h ++ [new_node (KElement (toLowerCase tagName) attributes)], length h).

Definition new_TextNode (h : Store) (text : jsstring) : Store * nat :=
  (h ++ [new_node (KText text)], length h).

Definition new_Document (h : Store) : Store * nat :=
  (h ++ [new_node KDocument], length h).

Definition set_parent (p : nat) (n : Node) : Node :=
  {| kind := kind n; parent := Some p; children := children n |}.

Definition push_child (c : nat) (n : Node) : Node :=
  {| kind := kind n; parent := parent n; children := children n ++ [c] |}.

(** [p.appendChild(c)]: [c.parent = p; p.children.push(c)]. *)
Definition appendChild (h : Store) (p c : nat) : Store :=
  alter (push_child c) p (alter (set_parent p) c h).

(** [attrs[name] = value] on an object literal: the key [__proto__] reaches
    the accessor of [Object.prototype], which ignores a string. *)
Definition attrs_set (name value : jsstring) (attrs : Attributes) : Attributes :=
  if str_eqb name (js "__proto__") then attrs else <[name := value]> attrs.

(** ** The tokenizer and tree builder *)

Definition is_code (s : jsstring) (j : nat) (c : Z) : bool :=
  bool_decide (s !! j = Some c).

(** One attribute token of a start tag, from the attribute name on; the
    result is the name, the raw value and the position after the token. *)
Definition read_attribute (html : jsstring) (j : nat) : jsstring * jsstring * nat :=
  let len := length html in
  let nameStart := j in
  let j := skip_while (fun c => negb (isWhitespace c || (c =? 61) || (c =? 47) || (c =? 62))%Z)
                      html j in
  let name := toLowerCase (slice html nameStart j) in
  let j := skip_while isWhitespace html j in
  if (j <? len) && is_code html j 61 then
    let j := S j in
    let j := skip_while isWhitespace html j in
    if (j <? len) && (is_code html j 34 || is_code html j 39) then
      let quote := default 0%Z (html !! j) in
      let j := S j in
      let valueStart := j in
      let j := skip_while (fun c => negb (c =? quote)%Z) html j in
      let value := slice html valueStart j in
      let j := if (j <? len) && is_code html j quote then S j else j in
      (name, value, j)
    else
      let valueStart := j in
      let j := skip_while (fun c => negb (isWhitespace c || (c =? 47) || (c =? 62))%Z) html j in
      (name, slice html valueStart j, j)
  else (name, [], j).

(** The attribute loop of a start tag: [while (j < len) { ... }]. *)
Fixpoint read_attributes (fuel : nat) (html : jsstring) (j : nat)
    (attrs : Attributes) (selfClosing : bool) : option (Attributes * bool * nat) :=
  match fuel with
  | 0 => None
  | S fuel' =>
      let len := length html in
      if len <=? j then Some (attrs, selfClosing, j)
      else
        code ← html !! j;
        if isWhitespace code then read_attributes fuel' html (S j) attrs selfClosing
        else if (code =? 47)%Z then
          let j := skip_while isWhitespace html (S j) in
          if (j <? len) && is_code html j 62 then Some (attrs, true, S j)
          else read_attributes fuel' html j attrs true
        else if (code =? 62)%Z then Some (attrs, selfClosing, S j)
        else
          let '(name, value, j) := read_attribute html j in
          let attrs := if bool_decide (name = []) then attrs
                       else attrs_set name (decodeEntities value) attrs in
          read_attributes fuel' html j attrs selfClosing
  end.

(** The state of the main loop of [parse]: the store, the stack of open
    containers (the document at index 0, the current container last) and the
    cursor [i]. *)
Record PState := mkPState {
  store : Store;
  stack : list nat;
  pos : nat
}.

Inductive Flow := Continue | Break.

Definition is_element_named (h : Store) (id : nat) (tagName : jsstring) : option bool :=
  n ← h !! id;
  Some match kind n with
       | KElement t _ => str_eqb t tagName
       | _ => false
       end.

(** [for (let s = ...; s > 0; s--) { if (stack[s] ...) { stack.length = s; break; } }] *)
Fixpoint close_scan (h : Store) (stack : list nat) (tagName : jsstring) (s : nat)
  : option (list nat) :=
  match s with
  | 0 => Some stack
  | S s' =>
      node ← stack !! s;
      match is_element_named h node tagName with
      | None => None
      | Some true => Some (take s stack)
      | Some false => close_scan h stack tagName s'
      end
  end.

Definition end_tag (html : jsstring) (st : PState) : option (Flow * PState) :=
  let i := pos st in
  match indexOf (js ">") html (i + 2) with
  | None => Some (Break, st)
  | Some e =>
      let tagName := toLowerCase (trim (slice html (i + 2) e)) in
      stack' ← (if bool_decide (tagName = []) then Some (stack st)
                else close_scan (store st) (stack st) tagName (length (stack st) - 1));
      Some (Continue, {| store := store st; stack := stack'; pos := e + 1 |})
  end.

Definition tag_name_char (c : Z) : bool :=
  negb (isWhitespace c) && negb (c =? 47)%Z && negb (c =? 62)%Z.

(** [if (rawText) { element.appendChild(new TextNode(rawText)); }] *)
Definition append_raw_text (h : Store) (element : nat) (rawText : jsstring) : Store :=
  if bool_decide (rawText = []) then h
  else let '(h, t) := new_TextNode h rawText in appendChild h element t.

(** The end of a start tag, once its name and attributes are read: the
    element is created and appended, then pushed, filled with raw text, or
    left closed. *)
Definition open_element (html lowerHtml : jsstring) (st : PState)
    (tagName : jsstring) (attrs : Attributes) (selfClosing : bool) (j : nat)
  : option (Flow * PState) :=
  let len := length html in
  let '(h, element) := new_Element (store st) tagName attrs in
  parent ← last (stack st);
  let h := appendChild h parent element in
  if negb selfClosing && negb (table_truthy VOID_ELEMENTS tagName) then
    if table_truthy RAWTEXT_ELEMENTS tagName then
      let closeTag := js "</" ++ tagName ++ js ">" in
      match indexOf closeTag lowerHtml j with
      | None =>
          let rawText := slice_from html j in
          Some (Continue, {| store := append_raw_text h element rawText;
                             stack := stack st; pos := len |})
      | Some closeIndex =>
          let rawText := slice html j closeIndex in
          Some (Continue, {| store := append_raw_text h element rawText;
                             stack := stack st;
                             pos := closeIndex + length closeTag |})
      end
    else
      Some (Continue, {| store := h; stack := stack st ++ [element]; pos := j |})
  else
    Some (Continue, {| store := h; stack := stack st; pos := j |}).

(** The name, the attributes, the self-closing mark and the end of the
    start tag at [i]; [None] inside when no name follows the [<]. *)
Definition read_start_tag (html : jsstring) (i : nat)
  : option (option (jsstring * Attributes * bool * nat)) :=
  let j := skip_while tag_name_char html (i + 1) in
  let rawTagName := slice html (i + 1) j in
  if bool_decide (rawTagName = []) then Some None
  else
    let tagName := toLowerCase rawTagName in
    r ← read_attributes (S (length html)) html j ∅ false;
    let '(attrs, selfClosing, j) := r in
    Some (Some (tagName, attrs, selfClosing, j)).

Definition start_tag (html lowerHtml : jsstring) (st : PState) : option (Flow * PState) :=
  let i := pos st in
  r ← read_start_tag html i;
  match r with
  | None => Some (Continue, {| store := store st; stack := stack st; pos := i + 1 |})
  | Some (tagName, attrs, selfClosing, j) =>
      open_element html lowerHtml st tagName attrs selfClosing j
  end.

Definition text_run (html : jsstring) (st : PState) : option (Flow * PState) :=
  let i := pos st in
  let len := length html in
  let e := default len (indexOf (js "<") html i) in
  let rawText := slice html i e in
  h ← (if bool_decide (rawText = []) then Some (store st)
       else
         let text := decodeEntities rawText in
         if bool_decide (text = []) then Some (store st)
         else
           parent ← last (stack st);
           let '(h, t) := new_TextNode (store st) text in
           Some (appendChild h parent t));
  Some (Continue, {| store := h; stack := stack st; pos := e |}).

(** One turn of [while (i < len) { ... }]. *)
Definition parse_step (html lowerHtml : jsstring) (st : PState) : option (Flow * PState) :=
  let i := pos st in
  let len := length html in
  ch ← html !! i;
  if (ch =? 60)%Z then
    if (i + 3 <? len) && str_eqb (slice html i (i + 4)) (js "<!--") then
      let i' := match indexOf (js "-->") html (i + 4) with
                | None => len
                | Some e => e + 3
                end in
      Some (Continue, {| store := store st; stack := stack st; pos := i' |})
    else if (i + 1 <? len) && is_code html (i + 1) 33 then
      let i' := match indexOf (js ">") html (i + 2) with
                | None => len
                | Some e => e + 1
                end in
      Some (Continue, {| store := store st; stack := stack st; pos := i' |})
    else if (i + 1 <? len) && is_code html (i + 1) 47 then end_tag html st
    else start_tag html lowerHtml st
  else text_run html st.

Fixpoint parse_loop (fuel : nat) (html lowerHtml : jsstring) (st : PState)
  : option PState :=
  match fuel with
  | 0 => None
  | S fuel' =>
      if length html <=? pos st then Some st
      else
        r ← parse_step html lowerHtml st;
        match r with
        | (Break, st') => Some st'
        | (Continue, st') => parse_loop fuel' html lowerHtml st'
        end
  end.

(** The state on entry to the loop: [doc = new Document(); stack = [doc]; i = 0]. *)
Definition parse_init : PState :=
  let '(h, doc) := new_Document [] in
  {| store := h; stack := [doc]; pos := 0 |}.

(** The state in which the loop of [parse(html)] ends. *)
Definition parse_run (html : jsstring) : option PState :=
  parse_loop (S (length html)) html (toLowerCase html) parse_init.

(** [parse(html)]: the store on return; the document is the object 0. *)
Definition parse (html : jsstring) : option Store :=
  store <$> parse_run html.

(** * The selector compiler *)

Inductive Combinator := Descendant | Child.

(** [SelectorAttr]: a name and, when the selector gives one, a value. *)
Record SelectorAttr := mkAttr {
  attr_name : jsstring;
  attr_value : option jsstring
}.

(** [SelectorPart]; [None] is the source's [undefined]. *)
Record SelectorPart := mkPart {
  part_tag : option jsstring;
  part_id : option jsstring;
  part_classes : list jsstring;
  part_attrs : list SelectorAttr
}.

Record SelectorStep := mkStep {
  combinator : Combinator;
  part : SelectorPart
}.

Definition empty_part : SelectorPart :=
  {| part_tag := None; part_id := None; part_classes := []; part_attrs := [] |}.

Definition readIdentifier (input : jsstring) (start : nat) : jsstring * nat :=
  let i := skip_while isIdentifierChar input start in
  (slice input start i, i).

Definition readAttributeSelector (input : jsstring) (start : nat) : SelectorAttr * nat :=
  let len := length input in
  let i := skip_while isWhitespace input (start + 1) in
  let '(nameValue, i) := readIdentifier input i in
  let name := toLowerCase nameValue in
  let i := skip_while isWhitespace input i in
  let '(value, i) :=
    if (i <? len) && is_code input i 61 then
      let i := skip_while isWhitespace input (S i) in
      if (i <? len) && (is_code input i 34 || is_code input i 39) then
        let quote := default 0%Z (input !! i) in
        let valueStart := S i in
        let i := skip_while (fun c => negb (c =? quote)%Z) input valueStart in
        let value := slice input valueStart i in
        (Some value, if (i <? len) && is_code input i quote then S i else i)
      else
        let valueStart := i in
        let i := skip_while (fun c => negb (isWhitespace c || (c =? 93)%Z)) input i in
        (Some (slice input valueStart i), i)
    else (None, i) in
  let i := skip_while isWhitespace input i in
  let i := if (i <? len) && is_code input i 93 then S i else i in
  ({| attr_name := name; attr_value := value |}, i).

(** A string is true when it is not empty; [undefined] is false. *)
Definition truthy (s : option jsstring) : bool :=
  match s with
  | Some (_ :: _) => true
  | _ => false
  end.

(** The loop of [parseSimpleSelector]. *)
Fixpoint parseSimpleSelector_loop (fuel : nat) (input : jsstring) (i : nat)
    (p : SelectorPart) : option (SelectorPart * nat) :=
  match fuel with
  | 0 => None
  | S fuel' =>
      if length input <=? i then Some (p, i)
      else
        code ← input !! i;
        if isWhitespace code || (code =? 62)%Z || (code =? 44)%Z then Some (p, i)
        else if (code =? 35)%Z then
          let '(value, next) := readIdentifier input (S i) in
          let p := if truthy (Some value)
                   then {| part_tag := part_tag p; part_id := Some value;
                           part_classes := part_classes p; part_attrs := part_attrs p |}
                   else p in
          parseSimpleSelector_loop fuel' input next p
        else if (code =? 46)%Z then
          let '(value, next) := readIdentifier input (S i) in
          let p := if truthy (Some value)
                   then {| part_tag := part_tag p; part_id := part_id p;
                           part_classes := part_classes p ++ [value];
                           part_attrs := part_attrs p |}
                   else p in
          parseSimpleSelector_loop fuel' input next p
        else if (code =? 91)%Z then
          let '(attr, next) := readAttributeSelector input i in
          let p := if truthy (Some (attr_name attr))
                   then {| part_tag := part_tag p; part_id := part_id p;
                           part_classes := part_classes p;
                           part_attrs := part_attrs p ++ [attr] |}
                   else p in
          parseSimpleSelector_loop fuel' input next p
        else if (code =? 42)%Z then
          parseSimpleSelector_loop fuel' input (S i)
            {| part_tag := Some (js "*"); part_id := part_id p;
               part_classes := part_classes p; part_attrs := part_attrs p |}
        else
          let '(value, next) := readIdentifier input i in
          if truthy (Some value) then
            let p := if truthy (part_tag p) then p
                     else {| part_tag := Some (toLowerCase value); part_id := part_id p;
                             part_classes := part_classes p;
                             part_attrs := part_attrs p |} in
            parseSimpleSelector_loop fuel' input next p
          else parseSimpleSelector_loop fuel' input (S i) p
  end.

Definition parseSimpleSelector (input : jsstring) (start : nat)
  : option (SelectorPart * nat) :=
  parseSimpleSelector_loop (S (length input)) input start empty_part.

(** The loop of [parseSelectorGroup]; it may go on for ever, and [None]
    stands for a run that the fuel does not cover. *)
Fixpoint parseSelectorGroup_loop (fuel : nat) (input : jsstring) (i : nat)
    (comb : Combinator) (steps : list SelectorStep) : option (list SelectorStep) :=
  match fuel with
  | 0 => None
  | S fuel' =>
      let len := length input in
      if len <=? i then Some steps
      else
        let i := skip_while isWhitespace input i in
        if len <=? i then Some steps
        else if is_code input i 62 then
          parseSelectorGroup_loop fuel' input (S i) Child steps
        else
          '(p, next) ← parseSimpleSelector input i;
          parseSelectorGroup_loop fuel' input next Descendant
            (steps ++ [{| combinator := comb; part := p |}])
  end.

Definition parseSelectorGroup (fuel : nat) (input : jsstring)
  : option (list SelectorStep) :=
  parseSelectorGroup_loop fuel input 0 Descendant [].

(** The loop of [splitSelectorGroups] over the code units from [i] on. *)
Fixpoint splitSelectorGroups_loop (selector rest : jsstring) (i start depth : nat)
    (quote : Z) (groups : list jsstring) : list jsstring :=
  match rest with
  | [] => groups ++ [slice_from selector start]
  | code :: rest' =>
      if negb (quote =? 0)%Z then
        splitSelectorGroups_loop selector rest' (S i) start depth
          (if (code =? quote)%Z then 0%Z else quote) groups
      else if (code =? 34)%Z || (code =? 39)%Z then
        splitSelectorGroups_loop selector rest' (S i) start depth code groups
      else if (code =? 91)%Z then
        splitSelectorGroups_loop selector rest' (S i) start (S depth) quote groups
      else if (code =? 93)%Z && negb (depth =? 0) then
        splitSelectorGroups_loop selector rest' (S i) start (depth - 1) quote groups
      else if (code =? 44)%Z && (depth =? 0) then
        splitSelectorGroups_loop selector rest' (S i) (S i) depth quote
          (groups ++ [slice selector start i])
      else
        splitSelectorGroups_loop selector rest' (S i) start depth quote groups
  end.

Definition splitSelectorGroups (selector : jsstring) : list jsstring :=
  splitSelectorGroups_loop selector selector 0 0 0 0%Z [].

(** The loop of [parseSelectorList] over the groups. *)
Fixpoint parseSelectorList_loop (fuel : nat) (groups : list jsstring)
    (lst : list (list SelectorStep)) : option (list (list SelectorStep)) :=
  match groups with
  | [] => Some lst
  | g :: groups' =>
      let group := trim g in
      if bool_decide (group = []) then parseSelectorList_loop fuel groups' lst
      else
        steps ← parseSelectorGroup fuel group;
        parseSelectorList_loop fuel groups'
          match steps with
          | [] => lst
          | _ :: _ => lst ++ [steps]
          end
  end.

Definition parseSelectorList (fuel : nat) (selector : jsstring)
  : option (list (list SelectorStep)) :=
  parseSelectorList_loop fuel (splitSelectorGroups selector) [].

(** * The matcher and the traversals *)

(** [getAttribute], [hasAttribute], [id], [className], [classList] of an
    element with the attributes [a]. *)
Definition getAttribute (a : Attributes) (name : jsstring) : option jsstring :=
  a !! toLowerCase name.

Definition hasAttribute (a : Attributes) (name : jsstring) : bool :=
  bool_decide (is_Some (a !! toLowerCase name)).

(** [v || ""] for [v] a string or [null]. *)
Definition or_empty (v : option jsstring) : jsstring := default [] v.

(** [s.split(/\s+/)]: the pieces between the maximal runs of white space. *)
Fixpoint split_spaces (s cur : jsstring) (in_space : bool) : list jsstring :=
  match s with
  | [] => [cur]
  | c :: s' =>
      if is_js_space c then
        if in_space then split_spaces s' [] true
        else cur :: split_spaces s' [] true
      else split_spaces s' (cur ++ [c]) false
  end.

Definition splitClassList (value : jsstring) : list jsstring :=
  let trimmed := trim value in
  if bool_decide (trimmed = []) then [] else split_spaces trimmed [] false.

Definition classList (a : Attributes) : list jsstring :=
  splitClassList (or_empty (getAttribute a (js "class"))).

Definition matches_attr (a : Attributes) (attr : SelectorAttr) : bool :=
  hasAttribute a (attr_name attr) &&
  match attr_value attr with
  | None => true
  | Some v => bool_decide (getAttribute a (attr_name attr) = Some v)
  end.

(** [matchesSelectorPart(el, part)] for an element with the tag name [t]
    and the attributes [a]. *)
Definition matchesSelectorPart (t : jsstring) (a : Attributes) (p : SelectorPart) : bool :=
  if truthy (part_tag p) && negb (bool_decide (part_tag p = Some (js "*")))
     && negb (bool_decide (Some t = part_tag p)) then false
  else if truthy (part_id p)
          && negb (bool_decide (Some (or_empty (getAttribute a (js "id"))) = part_id p))
  then false
  else if negb (forallb (fun c => mem_str c (classList a)) (part_classes p)) then false
  else forallb (matches_attr a) (part_attrs p).

(** [matchesSelectorPart] on the object [id] of the store, an element. *)
Definition matches_at (h : Store) (id : nat) (p : SelectorPart) : option bool :=
  n ← h !! id;
  match kind n with
  | KElement t a => Some (matchesSelectorPart t a p)
  | _ => None
  end.

(** [node.parentElement] *)
Definition parentElement (h : Store) (id : nat) : option nat :=
  n ← h !! id;
  p ← parent n;
  pn ← h !! p;
  match nodeType pn with
  | Element => Some p
  | _ => None
  end.

(** [while (parent && !matchesSelectorPart(parent, target)) parent = parent.parentElement] *)
Fixpoint find_ancestor (fuel : nat) (h : Store) (parent : option nat)
    (target : SelectorPart) : option (option nat) :=
  match fuel with
  | 0 => None
  | S fuel' =>
      match parent with
      | None => Some None
      | Some p =>
          match matches_at h p target with
          | None => None
          | Some true => Some (Some p)
          | Some false => find_ancestor fuel' h (parentElement h p) target
          end
      end
  end.

(** [while (index > 0) { ... }] of [matchesSelectorChain]. *)
Fixpoint matchesSelectorChain_loop (fuel : nat) (h : Store) (steps : list SelectorStep)
    (index : nat) (current : nat) : option bool :=
  match index with
  | 0 => Some true
  | S index' =>
      s ← steps !! index;
      t ← steps !! index';
      let target := part t in
      match combinator s with
      | Child =>
          match parentElement h current with
          | None => Some false
          | Some c =>
              match matches_at h c target with
              | None => None
              | Some true => matchesSelectorChain_loop fuel h steps index' c
              | Some false => Some false
              end
          end
      | Descendant =>
          match find_ancestor fuel h (parentElement h current) target with
          | None => None
          | Some None => Some false
          | Some (Some p) => matchesSelectorChain_loop fuel h steps index' p
          end
      end
  end.

Definition matchesSelectorChain (fuel : nat) (h : Store) (element : nat)
    (steps : list SelectorStep) : option bool :=
  match steps with
  | [] => Some false
  | _ :: _ =>
      let index := length steps - 1 in
      s ← steps !! index;
      match matches_at h element (part s) with
      | None => None
      | Some false => Some false
      | Some true => matchesSelectorChain_loop fuel h steps index element
      end
  end.

(** [for (i ...) if (matchesSelectorChain(el, groups[i])) ...]: whether some
    group matches, the groups tried in order. *)
Fixpoint matches_any (fuel : nat) (h : Store) (el : nat)
    (groups : list (list SelectorStep)) : option bool :=
  match groups with
  | [] => Some false
  | g :: groups' =>
      match matchesSelectorChain fuel h el g with
      | None => None
      | Some true => Some true
      | Some false => matches_any fuel h el groups'
      end
  end.

(** [for (let i = cs.length - 1; i >= 0; i--) stack.push(cs[i])], for a
    stack that is kept top first. *)
Definition push_children (cs stack : list nat) : list nat :=
  foldl (fun st c => c :: st) stack (reverse cs).

(** [walkElements]: the loop over the stack.  The callback works on the
    variables it closes over, here the accumulator, and tells whether to go
    on ([false]: the source's [return false]). *)
Fixpoint walkElements_loop {A} (fuel : nat) (h : Store)
    (cb : nat -> A -> option (A * bool)) (stack : list nat) (acc : A) : option A :=
  match fuel with
  | 0 => None
  | S fuel' =>
      match stack with
      | [] => Some acc
      | node :: stack =>
          n ← h !! node;
          match nodeType n with
          | Element =>
              match cb node acc with
              | None => None
              | Some (acc, true) =>
                  walkElements_loop fuel' h cb (push_children (children n) stack) acc
              | Some (acc, false) => Some acc
              end
          | _ => walkElements_loop fuel' h cb (push_children (children n) stack) acc
          end
      end
  end.

Definition walkElements {A} (fuel : nat) (h : Store) (root : nat) (includeRoot : bool)
    (cb : nat -> A -> option (A * bool)) (acc : A) : option A :=
  if includeRoot then walkElements_loop fuel h cb [root] acc
  else
    n ← h !! root;
    walkElements_loop fuel h cb (push_children (children n) []) acc.

Definition querySelectorOne (fuel : nat) (h : Store) (root : nat) (selector : jsstring)
    (includeRoot : bool) : option (option nat) :=
  groups ← parseSelectorList fuel selector;
  walkElements fuel h root includeRoot
    (fun el found =>
       match matches_any fuel h el groups with
       | None => None
       | Some true => Some (Some el, false)
       | Some false => Some (found, true)
       end)
    None.

Definition querySelectorAll (fuel : nat) (h : Store) (root : nat) (selector : jsstring)
    (includeRoot : bool) : option (list nat) :=
  groups ← parseSelectorList fuel selector;
  walkElements fuel h root includeRoot
    (fun el results =>
       match matches_any fuel h el groups with
       | None => None
       | Some true => Some (results ++ [el], true)
       | Some false => Some (results, true)
       end)
    [].

(** [Document.getElementById] *)
Definition getElementById (fuel : nat) (h : Store) (doc : nat) (id : jsstring)
  : option (option nat) :=
  querySelectorOne fuel h doc (js "#" ++ id) false.

(** [Element.matches] *)
Definition matchesSelector (fuel : nat) (h : Store) (element : nat) (selector : jsstring)
  : option bool :=
  groups ← parseSelectorList fuel selector;
  matches_any fuel h element groups.

(** The loop of [NodeBase.textContent]. *)
Fixpoint textContent_loop (fuel : nat) (h : Store) (stack : list nat) (out : jsstring)
  : option jsstring :=
  match fuel with
  | 0 => None
  | S fuel' =>
      match stack with
      | [] => Some out
      | node :: stack =>
          n ← h !! node;
          match kind n with
          | KText d => textContent_loop fuel' h stack (out ++ d)
          | _ => textContent_loop fuel' h (push_children (children n) stack) out
          end
      end
  end.

(** [node.textContent]: the getter of [NodeBase], overridden in [TextNode]. *)
Definition textContent (fuel : nat) (h : Store) (id : nat) : option jsstring :=
  n ← h !! id;
  match kind n with
  | KText d => Some d
  | _ => textContent_loop fuel h (push_children (children n) []) []
  end.

(** * The rest of the interface *)

(** [Element.setAttribute]: [this.attributes[name.toLowerCase()] = value].
    The key [__proto__], when the object has no own property of that name,
    reaches the accessor of [Object.prototype], which ignores a string. *)
Definition setAttribute (a : Attributes) (name value : jsstring) : Attributes :=
  let key := toLowerCase name in
  if str_eqb key (js "__proto__") && negb (bool_decide (is_Some (a !! key))) then a
  else <[key := value]> a.

(** [Element.removeAttribute]: [delete this.attributes[name.toLowerCase()]]. *)
Definition removeAttribute (a : Attributes) (name : jsstring) : Attributes :=
  delete (toLowerCase name) a.

(** [Element.id] and [Element.className] *)
Definition Element_id (a : Attributes) : jsstring := or_empty (getAttribute a (js "id")).

Definition className (a : Attributes) : jsstring :=
  or_empty (getAttribute a (js "class")).

(** [Document.documentElement]: the first child that is an element. *)
Fixpoint first_element_child (h : Store) (cs : list nat) : option (option nat) :=
  match cs with
  | [] => Some None
  | c :: cs' =>
      n ← h !! c;
      match nodeType n with
      | Element => Some (Some c)
      | _ => first_element_child h cs'
      end
  end.

Definition documentElement (h : Store) (doc : nat) : option (option nat) :=
  n ← h !! doc;
  first_element_child h (children n).

(** [AttrFilterValue]: a string or [true]. *)
Inductive AttrFilterValue :=
| FilterTrue
| FilterString (value : jsstring).

(** [AttrFilter]: the own properties of the object, in the order in which
    [for ... in] meets them. *)
Abbreviation AttrFilter := (list (jsstring * AttrFilterValue)).

(** One turn of the loop of [matchesTagAndAttrs] over the filter: whether
    the element passes the entry [rawKey: value]. *)
Definition matches_filter (a : Attributes) (rawKey : jsstring) (value : AttrFilterValue)
  : bool :=
  let key := toLowerCase rawKey in
  if str_eqb key (js "class") || str_eqb key (js "classname") then
    match value with
    | FilterTrue => hasAttribute a (js "class")
    | FilterString v => forallb (fun w => mem_str w (classList a)) (splitClassList v)
    end
  else if str_eqb key (js "id") then
    match value with
    | FilterTrue => hasAttribute a (js "id")
    | FilterString v => str_eqb (Element_id a) v
    end
  else
    match value with
    | FilterTrue => hasAttribute a key
    | FilterString v => bool_decide (getAttribute a key = Some v)
    end.

(** [matchesTagAndAttrs(el, tagName, attrs)] for an element with the tag
    name [t] and the attributes [a]; [None] is an [attrs] left out. *)
Definition matchesTagAndAttrs (t : jsstring) (a : Attributes) (tagName : jsstring)
    (attrs : option AttrFilter) : bool :=
  if negb (str_eqb tagName []) && negb (str_eqb tagName (js "*"))
     && negb (str_eqb t tagName) then false
  else match attrs with
       | None => true
       | Some filter => forallb (fun '(k, v) => matches_filter a k v) filter
       end.

(** [matchesTagAndAttrs] on the object [id] of the store, an element. *)
Definition matches_filter_at (h : Store) (id : nat) (tagName : jsstring)
    (attrs : option AttrFilter) : option bool :=
  n ← h !! id;
  match kind n with
  | KElement t a => Some (matchesTagAndAttrs t a tagName attrs)
  | _ => None
  end.

(** [tag ? tag.toLowerCase() : ""] *)
Definition filter_tag (tag : option jsstring) : jsstring :=
  match tag with
  | Some (c :: t) => toLowerCase (c :: t)
  | _ => []
  end.

Definition findInTree (fuel : nat) (h : Store) (root : nat) (tag : option jsstring)
    (attrs : option AttrFilter) (includeRoot : bool) : option (option nat) :=
  let tagName := filter_tag tag in
  walkElements fuel h root includeRoot
    (fun el found =>
       match matches_filter_at h el tagName attrs with
       | None => None
       | Some true => Some (Some el, false)
       | Some false => Some (found, true)
       end)
    None.

Definition findAllInTree (fuel : nat) (h : Store) (root : nat) (tag : option jsstring)
    (attrs : option AttrFilter) (includeRoot : bool) : option (list nat) :=
  let tagName := filter_tag tag in
  walkElements fuel h root includeRoot
    (fun el results =>
       match matches_filter_at h el tagName attrs with
       | None => None
       | Some true => Some (results ++ [el], true)
       | Some false => Some (results, true)
       end)
    [].

(** [find] and [findAll] of [Element] and of [Document]: the node itself is
    in the scope of the search. *)
Definition find (fuel : nat) (h : Store) (node : nat) (tag : option jsstring)
    (attrs : option AttrFilter) : option (option nat) :=
  findInTree fuel h node tag attrs true.

Definition findAll (fuel : nat) (h : Store) (node : nat) (tag : option jsstring)
    (attrs : option AttrFilter) : option (list nat) :=
  findAllInTree fuel h node tag attrs true.

End SimpleHTMLParser.

Import SimpleHTMLParser.

(** * Properties *)

(** ** Strings *)

Lemma skip_while_ge p s j : j <= skip_while p s j.
Proof. unfold skip_while. lia. Qed.

Lemma span_len_le p s : span_len p s <= length s.
Proof. induction s as [|c s IH]; simpl; [lia|]. destruct (p c); simpl; lia. Qed.

Lemma skip_while_le p s j : j <= length s -> skip_while p s j <= length s.
Proof.
  intros Hj. unfold skip_while.
  pose proof (span_len_le p (drop j s)) as H. rewrite length_drop in H. lia.
Qed.

Lemma span_len_pos p s c : s !! 0 = Some c -> p c = true -> 0 < span_len p s.
Proof. destruct s as [|c' s]; simpl; [done|]. intros [= ->] ->. lia. Qed.

Lemma skip_while_step p s j c :
  s !! j = Some c -> p c = true -> j < skip_while p s j.
Proof.
  intros Hc Hp. unfold skip_while.
  assert (0 < span_len p (drop j s)); [|lia].
  apply span_len_pos with c; [|done]. rewrite lookup_drop. by rewrite Nat.add_0_r.
Qed.

Lemma find_from_ge pat s k r : find_from pat s k = Some r -> k <= r.
Proof.
  revert k. induction s as [|c s IH]; intros k; simpl.
  - destruct (starts_with pat []); [intros [= <-]; lia | done].
  - destruct (starts_with pat (c :: s)); [intros [= <-]; lia|].
    intros H. apply IH in H. lia.
Qed.

Lemma find_from_lt pat s k r :
  pat <> [] -> find_from pat s k = Some r -> r < k + length s.
Proof.
  intros Hpat. revert k. induction s as [|c s IH]; intros k; simpl.
  - destruct pat; [done|]. simpl. done.
  - destruct (starts_with pat (c :: s)); [intros [= <-]; lia|].
    intros H. apply IH in H. lia.
Qed.

Lemma indexOf_ge pat s from r :
  pat <> [] -> indexOf pat s from = Some r -> from <= r < length s.
Proof.
  intros Hpat H. unfold indexOf in H.
  pose proof (find_from_ge _ _ _ _ H) as Hge.
  pose proof (find_from_lt _ _ _ _ Hpat H) as Hlt.
  rewrite length_drop in Hlt. lia.
Qed.

(** ** Lower case *)

(** The pairs of a code point and its lower case that a run stands for. *)
Definition run_members (run : Z * Z * Z * Z) : list (Z * Z) :=
  let '(first, last, step, delta) := run in
  map (fun k => (first + step * Z.of_nat k, first + step * Z.of_nat k + delta)%Z)
      (seq 0 (S (Z.to_nat ((last - first) / step)))).

Lemma lookup_run_member runs c c' :
  Forall (fun run => (0 < run.1.2)%Z) runs ->
  lookup_run runs c = Some c' -> (c, c') ∈ flat_map run_members runs.
Proof.
  induction 1 as [|[[[first last] step] delta] runs Hstep _ IH]; [done|].
  cbn [lookup_run flat_map]. simpl in Hstep.
  destruct ((first <=? c)%Z && (c <=? last)%Z && ((c - first) mod step =? 0)%Z) eqn:Hin.
  - intros [= <-]. apply elem_of_app. left.
    apply andb_true_iff in Hin as [[Hf%Z.leb_le Hl%Z.leb_le]%andb_true_iff Hm%Z.eqb_eq].
    unfold run_members. apply list_elem_of_fmap.
    exists (Z.to_nat ((c - first) / step)).
    assert (Hq : (0 <= (c - first) / step)%Z) by (apply Z.div_pos; lia).
    assert (Hc : (c - first = step * ((c - first) / step))%Z)
      by (apply Z.div_exact; lia).
    rewrite Z2Nat.id by done. split; [f_equal; lia|].
    apply elem_of_seq. split; [lia|].
    assert (Hle : ((c - first) / step <= (last - first) / step)%Z)
      by (apply Z.div_le_mono; lia).
    lia.
  - intros Hrest. apply elem_of_app. right. by apply IH.
Qed.

(** What holds of every pair of the table holds of every code point that
    has a lower case of its own. *)
Lemma lower_runs_check (Q : Z -> Z -> bool) c c' :
  forallb (fun '(x, x') => Q x x') (flat_map run_members lower_runs) = true ->
  lookup_run lower_runs c = Some c' -> Q c c' = true.
Proof.
  intros Hall Hrun.
  assert (Hsteps : Forall (fun run => (0 < run.1.2)%Z) lower_runs).
  { apply Forall_forall. intros run Hin%list_elem_of_In.
    assert (H : forallb (fun run => (0 <? run.1.2)%Z) lower_runs = true)
      by (vm_compute; reflexivity).
    rewrite forallb_forall in H. by apply Z.ltb_lt, H. }
  apply lookup_run_member in Hrun; [|done].
  rewrite forallb_forall in Hall. by apply (Hall (c, c')), list_elem_of_In.
Qed.

(** What the table says of a code point [c] with the lower case [c']:
    [c'] has no other lower case and is neither of the two code points with a
    rule of their own; both are code points, none of them a surrogate, on the
    same side of U+FFFF; and [c'] is a Basic Latin letter only for the
    capital Basic Latin letter and for the Kelvin sign. *)
Definition lower_pair_ok (c c' : Z) : bool :=
  (match lookup_run lower_runs c' with None => true | Some _ => false end &&
   negb (c' =? 931) && negb (c' =? 304) &&
   (0 <=? c) && (c <? 1114112) && (0 <=? c') && (c' <? 1114112) &&
   negb ((55296 <=? c) && (c <=? 57343)) && negb ((55296 <=? c') && (c' <=? 57343)) &&
   Bool.eqb (c <? 65536) (c' <? 65536) &&
   (if c' <? 128 then (65 <=? c) && (c <=? 90) && (c' =? c + 32) || (c =? 8490) && (c' =? 107)
    else true))%Z.

Lemma lower_pairs_ok c c' :
  lookup_run lower_runs c = Some c' -> lower_pair_ok c c' = true.
Proof. apply lower_runs_check. vm_compute. reflexivity. Qed.

Lemma lower_pair_facts c c' :
  lower_pair_ok c c' = true ->
  lookup_run lower_runs c' = None /\ c' <> 931%Z /\ c' <> 304%Z /\
  (0 <= c < 1114112)%Z /\ (0 <= c' < 1114112)%Z /\
  ~ (55296 <= c <= 57343)%Z /\ ~ (55296 <= c' <= 57343)%Z /\
  ((c < 65536)%Z <-> (c' < 65536)%Z) /\
  ((c' < 128)%Z -> (65 <= c <= 90)%Z /\ c' = (c + 32)%Z \/ c = 8490%Z /\ c' = 107%Z).
Proof.
  unfold lower_pair_ok. rewrite !andb_true_iff, !negb_true_iff, !andb_false_iff.
  rewrite !Z.leb_le, !Z.ltb_lt, !Z.leb_gt, !Z.eqb_neq.
  intros ((((((((((Hnone & ?) & ?) & ?) & ?) & ?) & ?) & ?) & ?) & Hside) & Hlatin).
  split; [by destruct (lookup_run lower_runs c')|].
  do 6 (split; [lia|]). split.
  - apply Bool.eqb_prop in Hside. rewrite <- !Z.ltb_lt. by rewrite Hside.
  - intros Hsmall. apply Z.ltb_lt in Hsmall. rewrite Hsmall in Hlatin.
    rewrite orb_true_iff, !andb_true_iff, !Z.leb_le, !Z.eqb_eq in Hlatin. tauto.
Qed.

Lemma simple_lower_cases c :
  simple_lower c = c /\ lookup_run lower_runs c = None \/
  lookup_run lower_runs c = Some (simple_lower c) /\ lower_pair_ok c (simple_lower c) = true.
Proof.
  unfold simple_lower. destruct (lookup_run lower_runs c) as [c'|] eqn:Hrun.
  - right. split; [done|]. by apply lower_pairs_ok.
  - by left.
Qed.

(** The lower case of a code point has no other lower case. *)
Lemma simple_lower_stable c :
  c <> 931%Z -> c <> 304%Z ->
  let c' := simple_lower c in
  simple_lower c' = c' /\ c' <> 931%Z /\ c' <> 304%Z.
Proof.
  intros H931 H304 c'. unfold c'.
  destruct (simple_lower_cases c) as [[Heq ?]|[_ Hok%lower_pair_facts]];
    [by rewrite !Heq|].
  destruct Hok as (Hnone & ? & ? & _). split; [|done].
  unfold simple_lower at 1. by rewrite Hnone.
Qed.

(** A surrogate has no lower case of its own, and no lower case is a
    surrogate. *)
Lemma simple_lower_surrogate c :
  is_high (simple_lower c) = is_high c /\ is_low (simple_lower c) = is_low c.
Proof.
  destruct (simple_lower_cases c) as [[-> ?]|[_ Hok%lower_pair_facts]]; [done|].
  destruct Hok as (_ & _ & _ & _ & _ & Hc & Hc' & _). unfold is_high, is_low.
  split; apply Bool.eq_true_iff_eq; rewrite !andb_true_iff, !Z.leb_le; lia.
Qed.

(** The lower case of a code point above U+FFFF lies above U+FFFF. *)
Lemma simple_lower_astral v :
  (65536 <= v < 1114112)%Z -> (65536 <= simple_lower v < 1114112)%Z.
Proof.
  intros Hv. destruct (simple_lower_cases v) as [[-> ?]|[_ Hok%lower_pair_facts]]; [done|].
  destruct Hok as (_ & _ & _ & _ & ? & _ & _ & Hside & _). lia.
Qed.

(** The Basic Latin letter that a code unit is but for case, and the code
    unit itself when it is none: only the capital Basic Latin letters and
    the Kelvin sign (U+212A) have a Basic Latin lower case. *)
Definition fold_latin (c : Z) : Z :=
  if ((65 <=? c) && (c <=? 90))%Z then (c + 32)%Z
  else if (c =? 8490)%Z then 107%Z
  else c.

Definition basic_latin (c : Z) : Prop := (0 <= c < 128)%Z.

#[global] Instance basic_latin_dec c : Decision (basic_latin c).
Proof. unfold basic_latin. apply _. Defined.

(** [c'] is the Basic Latin code unit [a] exactly when [c] is [a] but for
    case. *)
Definition latin_same (c c' : Z) : Prop :=
  forall a, basic_latin a -> c' = a <-> fold_latin c = a.

Lemma simple_lower_basic_latin c : basic_latin c -> simple_lower c = fold_latin c.
Proof.
  intros Hc. unfold basic_latin in Hc.
  assert (Hin : c ∈ Z.of_nat <$> seq 0 128).
  { apply list_elem_of_fmap. exists (Z.to_nat c). split; [lia|]. apply elem_of_seq. lia. }
  assert (Hall : forallb (fun x => simple_lower x =? fold_latin x)%Z
                         (Z.of_nat <$> seq 0 128) = true)
    by (vm_compute; reflexivity).
  rewrite forallb_forall in Hall. by apply Z.eqb_eq, Hall, list_elem_of_In.
Qed.

Lemma fold_latin_other c :
  ~ basic_latin c -> c <> 8490%Z -> fold_latin c = c.
Proof.
  unfold basic_latin, fold_latin. intros Hc Hk.
  destruct ((65 <=? c)%Z && (c <=? 90)%Z) eqn:Hup.
  { apply andb_true_iff in Hup as [?%Z.leb_le ?%Z.leb_le]. lia. }
  by rewrite (proj2 (Z.eqb_neq c 8490)).
Qed.

Lemma simple_lower_latin c : latin_same c (simple_lower c).
Proof.
  intros a Ha.
  destruct (decide (basic_latin c)) as [Hc|Hc].
  { by rewrite (simple_lower_basic_latin c Hc). }
  destruct (decide (c = 8490%Z)) as [->|Hk]; [done|].
  rewrite (fold_latin_other c Hc Hk). unfold basic_latin in *.
  destruct (simple_lower_cases c) as [[-> ?]|[_ Hok%lower_pair_facts]]; [done|].
  destruct Hok as (_ & _ & _ & _ & _ & _ & _ & _ & Hlatin).
  split; [intros Heq; rewrite Heq in Hlatin; lia|lia].
Qed.

(** *** Code points and code units *)

(** Induction on a string, two code units at a time. *)
Lemma jsstring_pair_ind (P : jsstring -> Prop) :
  P [] -> (forall c, P [c]) ->
  (forall c lo rest, P (lo :: rest) -> P rest -> P (c :: lo :: rest)) ->
  forall s, P s.
Proof.
  intros Hnil Hone Hstep s.
  assert (H : P s /\ forall c, P (c :: s)); [|by destruct H].
  induction s as [|lo rest [IH1 IH2]]; [by split|].
  split; [apply IH2|]. intros c. by apply Hstep.
Qed.

Lemma code_points_units s : flat_map code_units (code_points s) = s.
Proof.
  induction s as [|c|c lo rest IH1 IH2] using jsstring_pair_ind; [done|done|].
  cbn [code_points]. destruct (is_high c && is_low lo); simpl.
  - by rewrite IH2.
  - f_equal. exact IH1.
Qed.

Lemma high_not_low c : is_high c = true -> is_low c = false.
Proof.
  unfold is_high, is_low. rewrite andb_true_iff, andb_false_iff, !Z.leb_le, !Z.leb_gt. lia.
Qed.

(** A high surrogate on its own with a low surrogate on its own behind it. *)
Definition splits_pair (p : Point) (ps : list Point) : bool :=
  match p, ps with
  | Single c, Single lo :: _ => is_high c && is_low lo
  | _, _ => false
  end.

(** The code points as [code_points] returns them: a pair is made of a
    high and a low surrogate, and no pair is left apart. *)
Fixpoint well_paired (ps : list Point) : Prop :=
  match ps with
  | [] => True
  | p :: ps' =>
      match p with
      | Single _ => True
      | Surrogates hi lo => is_high hi = true /\ is_low lo = true
      end /\ splits_pair p ps' = false /\ well_paired ps'
  end.

Lemma code_points_well_paired s : well_paired (code_points s).
Proof.
  induction s as [|c|c lo rest IH1 IH2] using jsstring_pair_ind; [done|done|].
  cbn [code_points]. destruct (is_high c && is_low lo) eqn:Hpair.
  - apply andb_true_iff in Hpair. by split.
  - split; [done|]. split; [|done].
    cbn [code_points] in IH1 |- *.
    destruct rest as [|c2 rest]; [done|].
    destruct (is_high lo && is_low c2) eqn:Hnext; [done|]. done.
Qed.

Lemma well_paired_points ps :
  well_paired ps -> code_points (flat_map code_units ps) = ps.
Proof.
  induction ps as [|p ps IH]; [done|]. intros (Hp & Hsplit & Hps).
  specialize (IH Hps). destruct p as [c|hi lo].
  - cbn [flat_map code_units app]. destruct ps as [|q ps]; [done|].
    destruct q as [lo|hi lo].
    + cbn [flat_map code_units app code_points] in IH |- *.
      simpl in Hsplit. rewrite Hsplit. by rewrite IH.
    + destruct Hps as ((Hhi & Hlo) & _).
      cbn [flat_map code_units app code_points] in IH |- *.
      rewrite (high_not_low hi Hhi), andb_false_r. by rewrite IH.
  - destruct Hp as [Hhi Hlo].
    cbn [flat_map code_units app code_points]. by rewrite Hhi, Hlo, IH.
Qed.

(** *** The lower case of a code point *)

(** A code point that is its own lower case, whatever stands around it. *)
Definition settled (p : Point) : Prop :=
  match p with
  | Single c => simple_lower c = c /\ c <> 931%Z /\ c <> 304%Z
  | Surrogates _ _ => simple_lower (point_value p) = point_value p
  end.

Lemma lower_point_settled b p rest : settled p -> lower_point b p rest = [p].
Proof.
  destruct p as [c|hi lo]; simpl.
  - intros (-> & H931 & H304).
    by rewrite (proj2 (Z.eqb_neq c 931)), (proj2 (Z.eqb_neq c 304)).
  - intros ->. by rewrite Z.eqb_refl.
Qed.

Lemma lower_points_settled ps : Forall settled ps -> forall b, lower_points b ps = ps.
Proof.
  induction 1 as [|p ps Hp _ IH]; intros b; [done|].
  cbn [lower_points]. by rewrite (lower_point_settled b p ps Hp), IH.
Qed.

Lemma surrogates_of_value v :
  (65536 <= v < 1114112)%Z ->
  exists hi lo, surrogates_of v = Surrogates hi lo /\
    is_high hi = true /\ is_low lo = true /\ point_value (Surrogates hi lo) = v.
Proof.
  intros Hv. eexists _, _. split; [reflexivity|].
  pose proof (Z.mod_pos_bound (v - 65536) 1024 ltac:(lia)) as Hmod.
  pose proof (Z.div_mod (v - 65536) 1024 ltac:(lia)) as Hdiv.
  assert (Hq : (0 <= (v - 65536) / 1024 < 1024)%Z).
  { split; [apply Z.div_pos; lia|apply Z.div_lt_upper_bound; lia]. }
  unfold is_high, is_low. rewrite !andb_true_iff, !Z.leb_le. simpl. lia.
Qed.

Lemma point_value_astral hi lo :
  is_high hi = true -> is_low lo = true ->
  (65536 <= point_value (Surrogates hi lo) < 1114112)%Z.
Proof.
  unfold is_high, is_low. rewrite !andb_true_iff, !Z.leb_le. simpl. lia.
Qed.

(** What [lower_point] returns for a code point of a well-paired string:
    code points that are their own lower case; a surrogate on its own
    stays as it is and nothing else becomes one; a pair gives a pair. *)
Lemma lower_point_shape b p rest :
  match p with
  | Single _ => True
  | Surrogates hi lo => is_high hi = true /\ is_low lo = true
  end ->
  let out := lower_point b p rest in
  Forall settled out /\
  match p with
  | Single c =>
      exists c' more, out = Single c' :: more /\
        is_low c' = is_low c /\
        (forall x, last out = Some x -> exists y, x = Single y /\ is_high y = is_high c) /\
        Forall (fun q => exists y, q = Single y /\ (q <> Single c' -> is_low y = false)) out /\
        well_paired out
  | Surrogates _ _ =>
      exists hi' lo', out = [Surrogates hi' lo'] /\
        is_high hi' = true /\ is_low lo' = true
  end.
Proof.
  intros Hp out. unfold out. destruct p as [c|hi lo]; cbn [lower_point].
  - destruct (Z.eqb_spec c 931) as [->|H931].
    { split; [constructor; [by destruct (b && _)|constructor]|].
      eexists _, []. split; [done|]. split; [by destruct (b && _)|].
      split; [|split].
      - intros x [= <-]. eexists. split; [done|]. by destruct (b && _).
      - constructor; [|constructor]. eexists. by split.
      - done. }
    destruct (Z.eqb_spec c 304) as [->|H304].
    { split; [by repeat constructor|].
      eexists _, [_]. split; [done|]. split; [done|]. split; [|split].
      - intros x [= <-]. by eexists.
      - repeat constructor; eexists; by split.
      - done. }
    destruct (simple_lower_stable c H931 H304) as (Hs & H1 & H2).
    destruct (simple_lower_surrogate c) as [Hh Hl].
    split; [by repeat constructor|].
    eexists _, []. split; [done|]. split; [done|]. split; [|split].
    + intros x [= <-]. by eexists.
    + constructor; [|constructor]. eexists. by split.
    + done.
  - destruct Hp as [Hhi Hlo].
    pose proof (point_value_astral hi lo Hhi Hlo) as Hv.
    destruct (Z.eqb_spec (simple_lower (point_value (Surrogates hi lo)))
                         (point_value (Surrogates hi lo))) as [Heq|Hne].
    { split; [by repeat constructor|]. by eexists _, _. }
    pose proof (simple_lower_astral _ Hv) as Hv'.
    destruct (surrogates_of_value _ Hv') as (hi' & lo' & -> & Hhi' & Hlo' & Hval).
    split; [|by eexists _, _].
    constructor; [|constructor]. unfold settled. rewrite Hval.
    assert (H931 : point_value (Surrogates hi lo) <> 931%Z) by lia.
    assert (H304 : point_value (Surrogates hi lo) <> 304%Z) by lia.
    by destruct (simple_lower_stable _ H931 H304) as (Hs & _).
Qed.

Lemma lower_points_all_settled ps :
  well_paired ps -> forall b, Forall settled (lower_points b ps).
Proof.
  induction ps as [|p ps IH]; [by constructor|]. intros (Hp & _ & Hps) b.
  cbn [lower_points]. apply Forall_app. split; [|by apply IH].
  by destruct (lower_point_shape b p ps Hp) as [Hs _].
Qed.

(** The head of the lower case is a low surrogate on its own only where
    the head of the string is one. *)
Lemma lower_points_head_low ps b :
  well_paired ps ->
  match lower_points b ps with
  | Single c' :: _ => is_low c' = true -> exists c ps', ps = Single c :: ps' /\ is_low c = true
  | _ => True
  end.
Proof.
  destruct ps as [|p ps]; [done|]. intros (Hp & _ & _). cbn [lower_points].
  destruct (lower_point_shape b p ps Hp) as [_ Hshape].
  destruct p as [c|hi lo].
  - destruct Hshape as (c' & more & -> & Hlow & _). simpl.
    intros Hc'. exists c, ps. split; [done|]. by rewrite <- Hlow.
  - by destruct Hshape as (hi' & lo' & -> & _).
Qed.

Lemma well_paired_app l1 l2 :
  well_paired l1 -> well_paired l2 ->
  (forall x, last l1 = Some x -> splits_pair x l2 = false) ->
  well_paired (l1 ++ l2).
Proof.
  induction l1 as [|p l1 IH]; intros H1 H2 Hlast; [done|].
  destruct H1 as (Hp & Hsplit & H1). cbn [app well_paired].
  split; [done|]. split.
  - destruct l1 as [|q l1]; [|done]. simpl. apply Hlast. done.
  - apply IH; [done|done|]. intros x Hx. apply Hlast.
    destruct l1; [done|]. done.
Qed.

Lemma lower_points_well_paired ps :
  well_paired ps -> forall b, well_paired (lower_points b ps).
Proof.
  induction ps as [|p ps IH]; intros Hall b; [done|].
  pose proof Hall as (Hp & Hsplit & Hps). cbn [lower_points].
  set (b' := if case_ignorable (point_value p) then b else cased (point_value p)).
  pose proof (lower_points_head_low ps b' Hps) as Hhead.
  destruct (lower_point_shape b p ps Hp) as [_ Hshape].
  apply well_paired_app; [| by apply IH |].
  - destruct p as [c|hi lo].
    + by destruct Hshape as (_ & _ & _ & _ & _ & _ & Hwp).
    + destruct Hshape as (hi' & lo' & -> & Hhi & Hlo). by repeat split.
  - intros x Hx. destruct p as [c|hi lo].
    + destruct Hshape as (c' & more & Hout & _ & Hlast & _).
      destruct (Hlast x Hx) as (y & -> & Hy).
      destruct (lower_points b' ps) as [|[lo|? ?] rest]; [done| |done].
      simpl. destruct (is_low lo) eqn:Hlo; [|apply andb_false_r].
      destruct (Hhead eq_refl) as (c2 & ps' & -> & Hc2).
      simpl in Hsplit. rewrite Hc2, andb_true_r in Hsplit.
      by rewrite Hy, Hsplit.
    + destruct Hshape as (hi' & lo' & Hout & _). rewrite Hout in Hx.
      by injection Hx as <-.
Qed.

(** *** The lower case of a string *)

Lemma length_lower_points ps b :
  length (flat_map code_units ps) <= length (flat_map code_units (lower_points b ps)).
Proof.
  revert b. induction ps as [|p ps IH]; intros b; [done|].
  cbn [lower_points flat_map]. rewrite flat_map_app, !length_app.
  set (b' := if case_ignorable (point_value p) then b else cased (point_value p)).
  specialize (IH b').
  assert (Hp : length (code_units p) <= length (flat_map code_units (lower_point b p ps))).
  { destruct p as [c|hi lo]; cbn [lower_point].
    - by repeat case_match; simpl; lia.
    - by case_match; simpl; lia. }
  lia.
Qed.

Lemma length_toLowerCase s : length s <= length (toLowerCase s).
Proof.
  unfold toLowerCase. rewrite <- (code_points_units s) at 1.
  apply length_lower_points.
Qed.

Lemma toLowerCase_nil s : toLowerCase s = [] -> s = [].
Proof.
  intros H. pose proof (length_toLowerCase s) as Hl. rewrite H in Hl.
  destruct s; [done|simpl in Hl; lia].
Qed.

(** Lower-casing twice is lower-casing once: the tag name that [parse]
    lower-cases is the one the [Element] constructor stores. *)
Lemma toLowerCase_idemp s : toLowerCase (toLowerCase s) = toLowerCase s.
Proof.
  unfold toLowerCase.
  pose proof (code_points_well_paired s) as Hwp.
  rewrite (well_paired_points _ (lower_points_well_paired _ Hwp false)).
  by rewrite (lower_points_settled _ (lower_points_all_settled _ Hwp false)).
Qed.

(** *** Lower case and Basic Latin *)

Lemma latin_same_surrogate c c' :
  (55296 <= c)%Z -> (55296 <= c')%Z -> latin_same c c'.
Proof.
  intros Hc Hc' a Ha. unfold basic_latin in Ha.
  rewrite (fold_latin_other c) by (unfold basic_latin; lia). lia.
Qed.

Lemma latin_same_pair hi lo hi' lo' :
  (55296 <= hi)%Z -> (55296 <= lo)%Z -> (55296 <= hi')%Z -> (55296 <= lo')%Z ->
  Forall2 latin_same [hi; lo] [hi'; lo'].
Proof.
  intros. constructor; [by apply latin_same_surrogate|].
  constructor; [by apply latin_same_surrogate|constructor].
Qed.

Lemma lower_points_latin ps :
  well_paired ps -> Forall (fun c => c <> 304%Z) (flat_map code_units ps) ->
  forall b, Forall2 latin_same (flat_map code_units ps)
                    (flat_map code_units (lower_points b ps)).
Proof.
  induction ps as [|p ps IH]; [by constructor|]. intros (Hp & _ & Hps) H304 b.
  cbn [flat_map lower_points] in *. rewrite flat_map_app.
  apply Forall_app in H304 as [Hp304 H304].
  apply Forall2_app; [|by apply IH].
  destruct p as [c|hi lo]; cbn [lower_point code_units].
  - cbn [code_units] in Hp304. rewrite Forall_singleton in Hp304.
    destruct (Z.eqb_spec c 931) as [->|H931].
    { constructor; [|constructor]. intros a Ha. unfold basic_latin in Ha.
      change (fold_latin 931) with 931%Z. destruct (b && _); lia. }
    rewrite (proj2 (Z.eqb_neq c 304)) by done.
    constructor; [apply simple_lower_latin|constructor].
  - destruct Hp as [Hhi Hlo].
    pose proof (point_value_astral hi lo Hhi Hlo) as Hv.
    unfold is_high, is_low in Hhi, Hlo.
    rewrite !andb_true_iff, !Z.leb_le in Hhi, Hlo.
    destruct (_ =? _)%Z.
    { simpl. apply latin_same_pair; lia. }
    pose proof (simple_lower_astral _ Hv) as Hv'.
    destruct (surrogates_of_value _ Hv') as (hi' & lo' & -> & Hhi' & Hlo' & _).
    unfold is_high, is_low in Hhi', Hlo'.
    rewrite !andb_true_iff, !Z.leb_le in Hhi', Hlo'.
    simpl. apply latin_same_pair; lia.
Qed.

(** In a string without U+0130 the lower case keeps every position, and
    its code unit at a position is a Basic Latin one exactly when the code
    unit of the string is that one but for case. *)
Lemma toLowerCase_latin s :
  Forall (fun c => c <> 304%Z) s -> Forall2 latin_same s (toLowerCase s).
Proof.
  intros H304. unfold toLowerCase. rewrite <- (code_points_units s) at 1.
  apply lower_points_latin; [apply code_points_well_paired|].
  by rewrite code_points_units.
Qed.


(** The lower case of a string is the Basic Latin string [pat] exactly
    when the string is [pat] but for case. *)
Lemma latin_same_eq u u' pat :
  Forall2 latin_same u u' -> Forall basic_latin pat ->
  u' = pat <-> fold_latin <$> u = pat.
Proof.
  intros Hsame. revert pat. induction Hsame as [|c c' u u' Hc _ IH]; intros pat Hpat.
  - done.
  - destruct pat as [|a pat]; [done|].
    apply Forall_cons in Hpat as [Ha Hpat]. specialize (IH pat Hpat).
    specialize (Hc a Ha). cbn [fmap list_fmap].
    split; intros [= H1 H2]; f_equal; tauto.
Qed.

(** Basic Latin strings are lower-cased code unit by code unit. *)
Lemma toLowerCase_basic_latin s :
  Forall basic_latin s -> toLowerCase s = fold_latin <$> s.
Proof.
  intros Hs.
  assert (H304 : Forall (fun c => c <> 304%Z) s).
  { eapply Forall_impl; [exact Hs|]. unfold basic_latin. intros c Hc. lia. }
  pose proof (toLowerCase_latin s H304) as Hsame. symmetry.
  apply (latin_same_eq s (toLowerCase s) (toLowerCase s) Hsame); [|done].
  clear H304. revert Hsame Hs. generalize (toLowerCase s).
  intros u' Hsame. induction Hsame as [|c c' u u' Hc _ IH]; intros Hs; [constructor|].
  apply Forall_cons in Hs as [Hc0 Hs]. constructor; [|by apply IH].
  assert (Hf : basic_latin (fold_latin c)).
  { unfold basic_latin, fold_latin in *.
    destruct ((65 <=? c)%Z && (c <=? 90)%Z) eqn:Hup.
    - apply andb_true_iff in Hup as [?%Z.leb_le ?%Z.leb_le]. lia.
    - destruct (c =? 8490)%Z; lia. }
  by rewrite (proj2 (Hc _ Hf) eq_refl).
Qed.

(** The lower case beyond Basic Latin and Latin-1: the Kelvin sign, a
    Cyrillic, a Latin Extended-A and a Greek letter; the capital sigma at
    the end of a word, before another cased letter and after a full stop; a
    letter above U+FFFF, U+0130, and surrogates that form no pair. *)
Example toLowerCase_beyond_latin :
  toLowerCase [8490; 1044; 256; 913]%Z = [107; 1076; 257; 945]%Z /\
  toLowerCase [913; 931; 32; 931; 913; 931; 46; 931]%Z =
    [945; 962; 32; 963; 945; 963; 46; 962]%Z /\
  toLowerCase [55297; 56320; 304; 55297; 65; 56320]%Z =
    [55297; 56360; 105; 775; 55297; 97; 56320]%Z.
Proof. repeat split; vm_compute; reflexivity. Qed.

Lemma skip_while_stop p s j c :
  s !! j = Some c -> p c = false -> skip_while p s j = j.
Proof.
  intros Hc Hp. unfold skip_while.
  assert (Hd : drop j s !! 0 = Some c) by (rewrite lookup_drop; by rewrite Nat.add_0_r).
  destruct (drop j s) as [|c' l]; [done|]. simpl in *. injection Hd as ->.
  rewrite Hp. lia.
Qed.

(** ** The attribute loop terminates *)

Lemma read_attribute_ge html j : j <= (read_attribute html j).2.
Proof.
  unfold read_attribute.
  repeat match goal with
         | |- context [skip_while ?p ?s ?k] =>
             lazymatch goal with
             | _ : k <= skip_while p s k |- _ => fail
             | _ => pose proof (skip_while_ge p s k)
             end
         end.
  repeat case_match; simpl; lia.
Qed.

Lemma read_attribute_progress html j code :
  html !! j = Some code ->
  isWhitespace code = false -> code <> 47%Z -> code <> 62%Z ->
  j < (read_attribute html j).2.
Proof.
  intros Hc Hws H47 H62.
  destruct (decide (code = 61%Z)) as [->|H61].
  - unfold read_attribute.
    rewrite (skip_while_stop _ html j 61%Z) by done.
    rewrite (skip_while_stop isWhitespace html j 61%Z) by done.
    assert (Hlt : (j <? length html) = true).
    { apply Nat.ltb_lt. apply lookup_lt_is_Some. eauto. }
    rewrite Hlt. unfold is_code at 1. rewrite bool_decide_eq_true_2 by done. simpl.
    repeat match goal with
           | |- context [skip_while ?p ?s ?k] =>
               lazymatch goal with
               | _ : k <= skip_while p s k |- _ => fail
               | _ => pose proof (skip_while_ge p s k)
               end
           end.
    repeat case_match; simpl; lia.
  - pose proof (read_attribute_ge html j) as Hge.
    unfold read_attribute in *.
    set (nm := fun c : Z => negb (isWhitespace c || (c =? 61)%Z || (c =? 47)%Z || (c =? 62)%Z)) in *.
    assert (Hstep : j < skip_while nm html j).
    { apply skip_while_step with code; [done|]. unfold nm. rewrite Hws. simpl.
      repeat (rewrite (proj2 (Z.eqb_neq _ _)) by done). done. }
    repeat match goal with
           | |- context [skip_while ?p ?s ?k] =>
               lazymatch goal with
               | _ : k <= skip_while p s k |- _ => fail
               | _ => pose proof (skip_while_ge p s k)
               end
           end.
    repeat case_match; simpl; lia.
Qed.

Lemma read_attributes_total fuel html j attrs sc :
  length html - j < fuel ->
  exists attrs' sc' j',
    read_attributes fuel html j attrs sc = Some (attrs', sc', j') /\ j <= j'.
Proof.
  revert j attrs sc. induction fuel as [|fuel IH]; intros j attrs sc Hf; [lia|].
  simpl. destruct (length html <=? j) eqn:Hlen.
  { eauto 6. }
  apply Nat.leb_gt in Hlen.
  destruct (lookup_lt_is_Some_2 html j Hlen) as [code Hcode]. rewrite Hcode. simpl.
  destruct (isWhitespace code) eqn:Hws.
  { destruct (IH (S j) attrs sc) as (a & s & j' & -> & ?); [lia|]. eauto 6 with lia. }
  destruct (code =? 47)%Z eqn:H47.
  { pose proof (skip_while_ge isWhitespace html (S j)).
    case_match; [eauto 8 with lia|].
    destruct (IH (skip_while isWhitespace html (S j)) attrs true) as (a & s & j' & -> & ?);
      [lia|]. eauto 6 with lia. }
  destruct (code =? 62)%Z eqn:H62.
  { eauto 6. }
  pose proof (read_attribute_progress html j code Hcode Hws) as Hp.
  destruct (read_attribute html j) as [[name value] j1]. simpl in Hp.
  assert (j < j1) by (apply Hp; lia).
  match goal with |- context [read_attributes fuel html j1 ?a sc] =>
    destruct (IH j1 a sc) as (a' & s & j' & -> & ?); [lia|] end.
  eauto 6 with lia.
Qed.

Lemma find_from_starts pat s k r :
  find_from pat s k = Some r -> starts_with pat (drop (r - k) s) = true.
Proof.
  revert k. induction s as [|c s IH]; intros k; simpl.
  - destruct (starts_with pat []) eqn:E; [|done]. intros _. by rewrite drop_nil.
  - destruct (starts_with pat (c :: s)) eqn:E.
    + intros [= <-]. by rewrite Nat.sub_diag.
    + intros H. pose proof (find_from_ge _ _ _ _ H).
      apply IH in H. replace (r - k) with (S (r - S k)) by lia. done.
Qed.

Lemma indexOf_starts pat s from r :
  pat <> [] -> indexOf pat s from = Some r -> starts_with pat (drop r s) = true.
Proof.
  intros Hpat H. pose proof (indexOf_ge _ _ _ _ Hpat H) as Hr.
  unfold indexOf in H. apply find_from_starts in H.
  rewrite drop_drop in H. rewrite Nat.min_l in H by lia.
  by replace (from + (r - from)) with r in H by lia.
Qed.

Lemma indexOf_code c s from r :
  indexOf [c] s from = Some r -> s !! r = Some c.
Proof.
  intros H. apply indexOf_starts in H; [|done].
  rewrite <- (Nat.add_0_r r), <- lookup_drop.
  destruct (drop r s) as [|c' l]; simpl in *; [done|].
  apply andb_true_iff in H as [H _]. apply Z.eqb_eq in H. by subst.
Qed.

(** ** The effect of one turn of the loop *)

(** The stack is never empty and holds references to constructed objects. *)
Definition stack_ok (st : PState) : Prop :=
  stack st <> [] /\ Forall (fun id => id < length (store st)) (stack st).

Lemma close_scan_spec h stk t s :
  Forall (fun id => id < length h) stk -> s < length stk ->
  exists k, 0 < k <= length stk /\ close_scan h stk t s = Some (take k stk).
Proof.
  intros Hall. induction s as [|s IH]; intros Hs; simpl.
  - exists (length stk). split; [lia|]. by rewrite firstn_all.
  - destruct (lookup_lt_is_Some_2 stk (S s) Hs) as [node Hnode]. rewrite Hnode. simpl.
    assert (Hlt : node < length h).
    { rewrite Forall_lookup in Hall. by apply (Hall (S s)). }
    destruct (lookup_lt_is_Some_2 h node Hlt) as [n Hn].
    unfold is_element_named. rewrite Hn. simpl.
    case_match; [exists (S s); split; [lia|done] | apply IH; lia].
Qed.

(** What a turn of the loop does to the store and to the stack. *)
Inductive effect (st st' : PState) : Prop :=
| eff_skip :
    store st' = store st -> stack st' = stack st -> effect st st'
| eff_close k :
    0 < k <= length (stack st) ->
    store st' = store st -> stack st' = take k (stack st) -> effect st st'
| eff_element top tagName attrs (push : bool) :
    last (stack st) = Some top ->
    tagName <> [] -> toLowerCase tagName = tagName ->
    (push = true -> table_truthy VOID_ELEMENTS tagName = false) ->
    store st' = appendChild (store st ++ [new_node (KElement tagName attrs)])
                            top (length (store st)) ->
    stack st' = (if push then stack st ++ [length (store st)] else stack st) ->
    effect st st'
| eff_raw top tagName attrs rawText :
    last (stack st) = Some top ->
    tagName <> [] -> toLowerCase tagName = tagName ->
    table_truthy VOID_ELEMENTS tagName = false ->
    rawText <> [] ->
    store st' = appendChild
                  (appendChild (store st ++ [new_node (KElement tagName attrs)])
                               top (length (store st))
                   ++ [new_node (KText rawText)])
                  (length (store st)) (S (length (store st))) ->
    stack st' = stack st ->
    effect st st'
| eff_text top text :
    last (stack st) = Some top ->
    text <> [] ->
    store st' = appendChild (store st ++ [new_node (KText text)])
                            top (length (store st)) ->
    stack st' = stack st ->
    effect st st'.

Lemma length_appendChild h p c : length (appendChild h p c) = length h.
Proof. unfold appendChild. by rewrite !length_alter. Qed.

Lemma append_raw_text_cases h e rawText :
  (rawText = [] /\ append_raw_text h e rawText = h) \/
  (rawText <> [] /\
   append_raw_text h e rawText = appendChild (h ++ [new_node (KText rawText)]) e (length h)).
Proof.
  unfold append_raw_text. case_bool_decide; [left|right]; done.
Qed.

Lemma open_element_effect html lowerHtml st tagName attrs sc j :
  stack_ok st -> tagName <> [] -> toLowerCase tagName = tagName ->
  exists st',
    open_element html lowerHtml st tagName attrs sc j = Some (Continue, st') /\
    effect st st'.
Proof.
  intros [Hne Hall] Hname Hlow. unfold open_element, new_Element.
  destruct (last (stack st)) as [top|] eqn:Htop; [|by apply last_None in Htop].
  simpl. rewrite Hlow.
  set (h1 := appendChild _ top _).
  assert (Hlen1 : length h1 = S (length (store st))).
  { unfold h1. rewrite length_appendChild, length_app. simpl. lia. }
  destruct (negb sc && negb (table_truthy VOID_ELEMENTS tagName)) eqn:Hopen.
  - apply andb_true_iff in Hopen as [_ Hvoid]. apply negb_true_iff in Hvoid.
    destruct (table_truthy RAWTEXT_ELEMENTS tagName).
    + destruct (indexOf _ lowerHtml j) as [closeIndex|];
        eexists; (split; [reflexivity|]);
        match goal with |- context [append_raw_text h1 ?e ?r] =>
          destruct (append_raw_text_cases h1 e r) as [[Hr Heq]|[Hr Heq]] end.
      * eapply (eff_element _ _ top tagName attrs false); simpl; eauto; done.
      * eapply (eff_raw _ _ top tagName attrs); simpl; eauto.
        rewrite Heq, Hlen1. done.
      * eapply (eff_element _ _ top tagName attrs false); simpl; eauto; done.
      * eapply (eff_raw _ _ top tagName attrs); simpl; eauto.
        rewrite Heq, Hlen1. done.
    + eexists; split; [reflexivity|].
      eapply (eff_element _ _ top tagName attrs true); simpl; eauto.
  - eexists; split; [reflexivity|].
    eapply (eff_element _ _ top tagName attrs false); simpl; eauto; done.
Qed.

Lemma open_element_pos html lowerHtml st tagName attrs sc j f st' :
  open_element html lowerHtml st tagName attrs sc j = Some (f, st') ->
  f = Continue /\ (pos st' = length html \/ j <= pos st').
Proof.
  unfold open_element, new_Element.
  destruct (last (stack st)) as [top|]; [|done]. simpl.
  repeat case_match; intros [= <- <-]; simpl; (split; [done|]); auto.
  right. match goal with H : indexOf _ _ _ = Some _ |- _ =>
    apply indexOf_ge in H; [lia|by destruct tagName] end.
Qed.

Lemma read_start_tag_total html i :
  exists r, read_start_tag html i = Some r /\
    match r with
    | None => True
    | Some (tagName, _, _, j) =>
        tagName <> [] /\ toLowerCase tagName = tagName /\ i < j
    end.
Proof.
  unfold read_start_tag.
  pose proof (skip_while_ge tag_name_char html (i + 1)) as Hj.
  case_bool_decide as Hraw; [by eexists|].
  destruct (read_attributes_total (S (length html)) html
              (skip_while tag_name_char html (i + 1)) ∅ false)
    as (attrs & sc & j & -> & Hge); [lia|].
  simpl. eexists; split; [reflexivity|]. simpl.
  split; [by intros ?%toLowerCase_nil|]. split; [apply toLowerCase_idemp|lia].
Qed.

Lemma end_tag_effect html st :
  stack_ok st ->
  exists f st', end_tag html st = Some (f, st') /\ effect st st' /\
    match f with
    | Continue => pos st < pos st'
    | Break => st' = st /\ indexOf (js ">") html (pos st + 2) = None
    end.
Proof.
  intros [Hne Hall]. unfold end_tag.
  destruct (indexOf (js ">") html (pos st + 2)) as [e|] eqn:He.
  - apply indexOf_ge in He; [|done].
    case_bool_decide.
    + simpl. do 2 eexists; split; [reflexivity|]. split; [|simpl; lia].
      by apply eff_skip.
    + destruct (close_scan_spec (store st) (stack st)
                  (toLowerCase (trim (slice html (pos st + 2) e)))
                  (length (stack st) - 1) Hall) as (k & Hk & ->).
      { destruct (stack st); [done|simpl; lia]. }
      simpl. do 2 eexists; split; [reflexivity|]. split; [|simpl; lia].
      by apply (eff_close _ _ k).
  - do 2 eexists; split; [reflexivity|]. split; [by apply eff_skip|done].
Qed.

Lemma text_run_effect html st ch :
  stack_ok st -> html !! pos st = Some ch -> ch <> 60%Z ->
  exists st', text_run html st = Some (Continue, st') /\ effect st st' /\ pos st < pos st'.
Proof.
  intros [Hne Hall] Hch H60. unfold text_run.
  assert (Hlt : pos st < length html) by (apply lookup_lt_is_Some; eauto).
  assert (He : pos st < default (length html) (indexOf (js "<") html (pos st))).
  { destruct (indexOf (js "<") html (pos st)) as [e|] eqn:He; simpl; [|done].
    assert (Hge : pos st <= e < length html) by (by apply indexOf_ge in He).
    apply (indexOf_code 60%Z) in He.
    destruct (decide (e = pos st)) as [->|]; [congruence|lia]. }
  destruct (last (stack st)) as [top|] eqn:Htop; [|by apply last_None in Htop].
  generalize dependent (default (length html) (indexOf (js "<") html (pos st))).
  intros e He.
  repeat case_bool_decide; simpl;
    (eexists; split; [reflexivity|]; split; [|simpl; lia]);
    try (by apply eff_skip).
  by apply (eff_text _ _ top (decodeEntities (slice html (pos st) e))).
Qed.

(** Every turn of the loop returns, moves the cursor forward unless it
    leaves the loop, and has one of the listed effects. *)
Lemma parse_step_effect html st :
  stack_ok st -> pos st < length html ->
  exists f st',
    parse_step html (toLowerCase html) st = Some (f, st') /\ effect st st' /\
    match f with
    | Continue => pos st < pos st'
    | Break => st' = st /\ is_code html (pos st) 60 = true /\
               is_code html (pos st + 1) 47 = true /\
               indexOf (js ">") html (pos st + 2) = None
    end.
Proof.
  intros Hok Hlt. unfold parse_step.
  destruct (lookup_lt_is_Some_2 html (pos st) Hlt) as [ch Hch]. rewrite Hch. simpl.
  destruct (ch =? 60)%Z eqn:H60.
  - apply Z.eqb_eq in H60. subst ch.
    destruct ((pos st + 3 <? length html) && _) eqn:Hcomment.
    { do 2 eexists; split; [reflexivity|]. split; [by apply eff_skip|]. simpl.
      destruct (indexOf (js "-->") html (pos st + 4)) as [e|] eqn:He; [|lia].
      apply indexOf_ge in He; [lia|done]. }
    destruct ((pos st + 1 <? length html) && is_code html (pos st + 1) 33) eqn:Hdecl.
    { do 2 eexists; split; [reflexivity|]. split; [by apply eff_skip|]. simpl.
      destruct (indexOf (js ">") html (pos st + 2)) as [e|] eqn:He; [|lia].
      apply indexOf_ge in He; [lia|done]. }
    destruct ((pos st + 1 <? length html) && is_code html (pos st + 1) 47) eqn:Hend.
    { destruct (end_tag_effect html st Hok) as (f & st' & -> & Heff & Hf).
      exists f, st'. split; [done|]. split; [done|].
      destruct f; [done|]. destruct Hf as [-> Hidx]. split; [done|].
      apply andb_true_iff in Hend as [_ Hend]. split; [|done].
      unfold is_code. by rewrite bool_decide_eq_true_2. }
    unfold start_tag.
    destruct (read_start_tag_total html (pos st)) as (r & -> & Hr). simpl.
    destruct r as [[[[tagName attrs] sc] j]|].
    + destruct Hr as (Hname & Hlow & Hj).
      destruct (open_element_effect html (toLowerCase html) st tagName attrs sc j Hok Hname Hlow)
        as (st' & Hopen & Heff).
      rewrite Hopen. exists Continue, st'. split; [done|]. split; [done|].
      apply open_element_pos in Hopen as [_ [->| ?]]; lia.
    + do 2 eexists; split; [reflexivity|]. split; [by apply eff_skip|simpl; lia].
  - apply Z.eqb_neq in H60.
    destruct (text_run_effect html st ch Hok Hch H60) as (st' & -> & Heff & Hpos).
    by exists Continue, st'.
Qed.

(** ** The store under [appendChild] *)

Lemma lookup_appendChild_other h p c id :
  id <> p -> id <> c -> appendChild h p c !! id = h !! id.
Proof.
  intros Hp Hc. unfold appendChild.
  rewrite list_lookup_alter_ne by done. by rewrite list_lookup_alter_ne.
Qed.

Lemma lookup_appendChild_parent h p c :
  p <> c -> appendChild h p c !! p = push_child c <$> h !! p.
Proof.
  intros Hpc. unfold appendChild.
  rewrite list_lookup_alter_eq. by rewrite list_lookup_alter_ne.
Qed.

Lemma lookup_appendChild_child h p c :
  p <> c -> appendChild h p c !! c = set_parent p <$> h !! c.
Proof.
  intros Hpc. unfold appendChild.
  rewrite list_lookup_alter_ne by done. by rewrite list_lookup_alter_eq.
Qed.

(** A fresh object appended to [top]: what becomes of the objects that
    were there, and what the new one looks like. *)
Lemma lookup_append_new_old h k top id :
  top < length h -> id < length h ->
  appendChild (h ++ [new_node k]) top (length h) !! id =
  (if decide (id = top) then push_child (length h) <$> h !! id else h !! id).
Proof.
  intros Htop Hid. case_decide as Heq.
  - subst id. rewrite lookup_appendChild_parent by lia. by rewrite lookup_app_l.
  - rewrite lookup_appendChild_other by lia. by rewrite lookup_app_l.
Qed.

Lemma lookup_append_new_new h k top :
  top < length h ->
  appendChild (h ++ [new_node k]) top (length h) !! length h =
  Some {| kind := k; parent := Some top; children := [] |}.
Proof.
  intros Htop. rewrite lookup_appendChild_child by lia.
  rewrite lookup_app_r by lia. by rewrite Nat.sub_diag.
Qed.

Lemma stack_ok_top st top :
  stack_ok st -> last (stack st) = Some top -> top < length (store st).
Proof.
  intros [_ Hall] Htop. rewrite Forall_forall in Hall.
  apply Hall. by apply last_Some_elem_of.
Qed.

(** An object that exists keeps its class and its parent; its children
    change only if it is the current container, by one new last child. *)
Lemma effect_old st st' id n :
  stack_ok st -> effect st st' -> store st !! id = Some n ->
  exists n', store st' !! id = Some n' /\ kind n' = kind n /\ parent n' = parent n /\
    (children n' = children n \/
     (last (stack st) = Some id /\ children n' = children n ++ [length (store st)])).
Proof.
  intros Hok Heff Hn.
  assert (Hid : id < length (store st)) by (apply lookup_lt_is_Some; eauto).
  destruct Heff as [Hs _|k _ Hs _|top t a push Htop _ _ _ Hs _
                   |top t a raw Htop _ _ _ _ Hs _|top text Htop _ Hs _];
    rewrite Hs; try (exists n; by auto).
  - pose proof (stack_ok_top _ _ Hok Htop).
    rewrite lookup_append_new_old by done. case_decide; subst; rewrite Hn; simpl.
    + eexists; split; [done|]. simpl. auto.
    + exists n; auto.
  - pose proof (stack_ok_top _ _ Hok Htop).
    rewrite lookup_appendChild_other by lia.
    rewrite lookup_app_l by (rewrite length_appendChild, length_app; simpl; lia).
    rewrite lookup_append_new_old by done. case_decide; subst; rewrite Hn; simpl.
    + eexists; split; [done|]. simpl. auto.
    + exists n; auto.
  - pose proof (stack_ok_top _ _ Hok Htop).
    rewrite lookup_append_new_old by done. case_decide; subst; rewrite Hn; simpl.
    + eexists; split; [done|]. simpl. auto.
    + exists n; auto.
Qed.

Lemma effect_length st st' : effect st st' -> length (store st) <= length (store st').
Proof.
  intros [Hs _|k _ Hs _|top t a push _ _ _ _ Hs _
         |top t a raw _ _ _ _ _ Hs _|top text _ _ Hs _]; rewrite Hs;
    rewrite ?length_appendChild, ?length_app, ?length_appendChild, ?length_app; simpl; lia.
Qed.

Lemma effect_stack_ok st st' : stack_ok st -> effect st st' -> stack_ok st'.
Proof.
  intros Hok Heff. pose proof (effect_length _ _ Heff) as Hlen.
  destruct Hok as [Hne Hall].
  assert (Hall' : Forall (fun id => id < length (store st')) (stack st)).
  { eapply Forall_impl; [done|]. simpl. intros; lia. }
  destruct Heff as [_ Hk|k Hk _ Hk'|top t a push _ _ _ _ Hs Hk
                   |top t a raw _ _ _ _ _ _ Hk|top text _ _ _ Hk];
    split; rewrite ?Hk; try done.
  - rewrite Hk'. destruct (stack st), k; simpl; try done; lia.
  - rewrite Hk'. by apply Forall_take.
  - destruct push; [|done]. by destruct (stack st).
  - destruct push; [|done]. apply Forall_app. split; [done|].
    apply Forall_singleton. rewrite Hs, length_appendChild, length_app. simpl. lia.
Qed.


(** ** Runs of the loop *)

(** [steps html st st']: the loop goes from [st] to [st'] in some number of
    turns, none of which leaves it. *)
Inductive steps (html : jsstring) : PState -> PState -> Prop :=
| steps_refl st : steps html st st
| steps_cons st st' st'' :
    pos st < length html ->
    parse_step html (toLowerCase html) st = Some (Continue, st') ->
    steps html st' st'' ->
    steps html st st''.

(** An end tag that no [>] closes: here the loop is left by [break]. *)
Definition truncated_end_tag (html : jsstring) (i : nat) : Prop :=
  is_code html i 60 = true /\ is_code html (i + 1) 47 = true /\
  indexOf (js ">") html (i + 2) = None.

(** The loop is over: the cursor is at the end of the input or on an end
    tag that runs to the end of the input. *)
Definition finished (html : jsstring) (st : PState) : Prop :=
  length html <= pos st \/ (pos st < length html /\ truncated_end_tag html (pos st)).

Lemma parse_init_ok : stack_ok parse_init.
Proof. split; [done|]. repeat constructor. Qed.


Lemma steps_snoc html a b c :
  steps html a b -> pos b < length html ->
  parse_step html (toLowerCase html) b = Some (Continue, c) ->
  steps html a c.
Proof.
  induction 1 as [|? ? ? ? ? ? IH]; intros Hlt Hstep.
  - eapply steps_cons; [done|done|constructor].
  - eapply steps_cons; [done|done|]. by apply IH.
Qed.

Lemma parse_loop_total html fuel st :
  stack_ok st -> length html - pos st < fuel ->
  exists fin, parse_loop fuel html (toLowerCase html) st = Some fin /\
              steps html st fin /\ finished html fin.
Proof.
  revert st. induction fuel as [|fuel IH]; intros st Hok Hfuel; [lia|].
  simpl. destruct (length html <=? pos st) eqn:Hlen.
  { apply Nat.leb_le in Hlen. exists st. split; [done|]. split; [constructor|by left]. }
  apply Nat.leb_gt in Hlen.
  destruct (parse_step_effect html st Hok Hlen) as (f & st' & Hs & Heff & Hf).
  rewrite Hs. simpl. destruct f.
  - destruct (IH st') as (fin & Hfin & Hsteps & Hdone).
    { by eapply effect_stack_ok. } { lia. }
    exists fin. split; [done|]. split; [|done]. by eapply steps_cons.
  - destruct Hf as (-> & H1 & H2 & H3). exists st. split; [done|].
    split; [constructor|]. right. done.
Qed.

Lemma parse_loop_fuel html lowerHtml fuel fuel' st fin :
  parse_loop fuel html lowerHtml st = Some fin -> fuel <= fuel' ->
  parse_loop fuel' html lowerHtml st = Some fin.
Proof.
  revert fuel' st. induction fuel as [|fuel IH]; intros fuel' st; [done|].
  destruct fuel' as [|fuel']; [lia|]. simpl.
  destruct (length html <=? pos st); [done|].
  destruct (parse_step html lowerHtml st) as [[[] st']|]; simpl; try done.
  intros H ?. apply IH; [done|lia].
Qed.

(** The shape of an object made in a turn of the loop. *)
Lemma effect_new st st' id n' :
  stack_ok st -> effect st st' ->
  store st' !! id = Some n' -> length (store st) <= id ->
  (exists top t a,
      id = length (store st) /\ kind n' = KElement t a /\ parent n' = Some top /\
      last (stack st) = Some top /\ t <> [] /\ toLowerCase t = t /\
      (children n' = [] \/
       (table_truthy VOID_ELEMENTS t = false /\ children n' = [S id])) /\
      (id ∈ stack st' -> table_truthy VOID_ELEMENTS t = false)) \/
  (exists d p, kind n' = KText d /\ d <> [] /\ children n' = [] /\ parent n' = Some p /\
               id ∉ stack st').
Proof.
  intros Hok Heff Hn' Hid.
  assert (Hold : forall x, x ∈ stack st -> x < length (store st)).
  { destruct Hok as [_ Hall]. by rewrite Forall_forall in Hall. }
  destruct Heff as [Hs _|k _ Hs _|top t a push Htop Ht Hlow Hpush Hs Hk
                   |top t a raw Htop Ht Hlow Hvoid Hraw Hs Hk|top text Htop Ht Hs Hk];
    rewrite Hs in Hn'.
  - apply lookup_lt_Some in Hn'. lia.
  - apply lookup_lt_Some in Hn'. lia.
  - pose proof (stack_ok_top _ _ Hok Htop) as Hlt.
    assert (id = length (store st)) as ->.
    { apply lookup_lt_Some in Hn'. rewrite length_appendChild, length_app in Hn'.
      simpl in Hn'. lia. }
    rewrite lookup_append_new_new in Hn' by done. injection Hn' as <-. simpl.
    left. exists top, t, a. repeat split; auto.
    rewrite Hk. destruct push; [auto|]. intros Hin%Hold. lia.
  - pose proof (stack_ok_top _ _ Hok Htop) as Hlt.
    set (h1 := appendChild (store st ++ [new_node (KElement t a)]) top (length (store st))) in *.
    assert (Hlen1 : length h1 = S (length (store st))).
    { unfold h1. rewrite length_appendChild, length_app. simpl. lia. }
    rewrite <- Hlen1 in Hn'.
    assert (Hcases : id = length (store st) \/ id = length h1).
    { apply lookup_lt_Some in Hn'. rewrite length_appendChild, length_app in Hn'.
      simpl in Hn'. lia. }
    destruct Hcases as [->| ->].
    + rewrite lookup_appendChild_parent in Hn' by lia.
      rewrite lookup_app_l in Hn' by lia. unfold h1 in Hn' at 2.
      rewrite lookup_append_new_new in Hn' by done. injection Hn' as <-. simpl.
      left. exists top, t, a. repeat split; auto. rewrite Hlen1. auto.
    + rewrite lookup_appendChild_child in Hn' by lia.
      rewrite lookup_app_r in Hn' by lia. rewrite Nat.sub_diag in Hn'.
      injection Hn' as <-. simpl. right. exists raw, (length (store st)).
      repeat split; auto. rewrite Hk. intros Hin%Hold. lia.
  - pose proof (stack_ok_top _ _ Hok Htop) as Hlt.
    assert (id = length (store st)) as ->.
    { apply lookup_lt_Some in Hn'. rewrite length_appendChild, length_app in Hn'.
      simpl in Hn'. lia. }
    rewrite lookup_append_new_new in Hn' by done. injection Hn' as <-. simpl.
    right. exists text, top. repeat split; auto. rewrite Hk. intros Hin%Hold. lia.
Qed.

Lemma effect_stack st st' x :
  effect st st' -> x ∈ stack st' -> x ∈ stack st \/ x = length (store st).
Proof.
  intros [_ Hk|k _ _ Hk|top t a push _ _ _ _ _ Hk
         |top t a raw _ _ _ _ _ _ Hk|top text _ _ _ Hk]; rewrite Hk; auto.
  - intros Hin. left. by eapply subseteq_take.
  - destruct push; [|auto]. rewrite elem_of_app, list_elem_of_singleton. tauto.
Qed.

(** ** Invariants of the store *)

(** Elements have a non-empty, lower-case tag name; text nodes are leaves
    and are never open; an element whose name is in the void set has no
    child and is never open. *)
Record store_ok (st : PState) : Prop := {
  ok_stack : stack_ok st;
  ok_names : forall id n t a,
    store st !! id = Some n -> kind n = KElement t a -> t <> [] /\ toLowerCase t = t;
  ok_text : forall id n d,
    store st !! id = Some n -> kind n = KText d -> children n = [] /\ id ∉ stack st;
  ok_void : forall id n t a,
    store st !! id = Some n -> kind n = KElement t a ->
    table_truthy VOID_ELEMENTS t = true -> children n = [] /\ id ∉ stack st
}.

Lemma lookup_old_or_new st st' id n' :
  store st' !! id = Some n' ->
  (exists n, store st !! id = Some n) \/ length (store st) <= id.
Proof.
  intros _. destruct (store st !! id) eqn:E; [eauto|].
  right. by apply lookup_ge_None.
Qed.

(** A closed object of the old store stays closed and keeps its children. *)
Lemma effect_closed st st' id n n' :
  stack_ok st -> effect st st' ->
  store st !! id = Some n -> id ∉ stack st -> store st' !! id = Some n' ->
  n' = n /\ id ∉ stack st'.
Proof.
  intros Hok Heff Hn Hclosed Hn'.
  destruct (effect_old _ _ _ _ Hok Heff Hn) as (n1 & Hn1 & Hk & Hp & Hch).
  rewrite Hn1 in Hn'. injection Hn' as ->. split.
  - destruct Hch as [Hch|[Htop _]].
    + destruct n, n'; simpl in *; congruence.
    + exfalso. apply Hclosed. by apply last_Some_elem_of.
  - intros [Hin| ->]%(effect_stack st st'); [done| |done].
    apply lookup_lt_Some in Hn. lia.
Qed.

Lemma effect_store_ok st st' : store_ok st -> effect st st' -> store_ok st'.
Proof.
  intros [Hok Hnames Htext Hvoid] Heff. split.
  - by eapply effect_stack_ok.
  - intros id n' t a Hn' Hkind.
    destruct (lookup_old_or_new st st' id n' Hn') as [[n Hn]|Hnew].
    + destruct (effect_old _ _ _ _ Hok Heff Hn) as (n1 & Hn1 & Hk & _).
      rewrite Hn1 in Hn'. injection Hn' as ->. rewrite Hk in Hkind. eauto.
    + destruct (effect_new _ _ _ _ Hok Heff Hn' Hnew)
        as [(top & t' & a' & _ & Hk & _ & _ & ? & ? & _)|(d & p & Hk & _)];
        rewrite Hk in Hkind; [by injection Hkind as <- <-|done].
  - intros id n' d Hn' Hkind.
    destruct (lookup_old_or_new st st' id n' Hn') as [[n Hn]|Hnew].
    + assert (Hk : kind n = KText d).
      { destruct (effect_old _ _ _ _ Hok Heff Hn) as (n1 & Hn1 & Hk & _).
        rewrite Hn1 in Hn'. injection Hn' as ->. by rewrite <- Hk. }
      destruct (Htext _ _ _ Hn Hk) as [Hch Hclosed].
      destruct (effect_closed _ _ _ _ _ Hok Heff Hn Hclosed Hn') as [-> ?]. done.
    + destruct (effect_new _ _ _ _ Hok Heff Hn' Hnew)
        as [(top & t' & a' & _ & Hk & _)|(d' & p & Hk & _ & ? & _ & ?)];
        rewrite Hk in Hkind; done.
  - intros id n' t a Hn' Hkind Hv.
    destruct (lookup_old_or_new st st' id n' Hn') as [[n Hn]|Hnew].
    + assert (Hk : kind n = KElement t a).
      { destruct (effect_old _ _ _ _ Hok Heff Hn) as (n1 & Hn1 & Hk & _).
        rewrite Hn1 in Hn'. injection Hn' as ->. by rewrite <- Hk. }
      destruct (Hvoid _ _ _ _ Hn Hk Hv) as [Hch Hclosed].
      destruct (effect_closed _ _ _ _ _ Hok Heff Hn Hclosed Hn') as [-> ?]. done.
    + destruct (effect_new _ _ _ _ Hok Heff Hn' Hnew)
        as [(top & t' & a' & _ & Hk & _ & _ & _ & _ & Hch & Hopen)|(d' & p & Hk & _)];
        rewrite Hk in Hkind; [|done]. injection Hkind as -> ->. split.
      * destruct Hch as [|[? _]]; [done|congruence].
      * intros ?%Hopen. congruence.
Qed.

Lemma parse_init_store_ok : store_ok parse_init.
Proof.
  split; [apply parse_init_ok|..]; intros [|id] n; intros; by simplify_eq/=.
Qed.

Lemma steps_store_ok html st st' : steps html st st' -> store_ok st -> store_ok st'.
Proof.
  induction 1 as [|st st' st'' Hlt Hstep _ IH]; [done|]. intros Hok. apply IH.
  destruct (parse_step_effect html st (ok_stack _ Hok) Hlt) as (f & st1 & Hs & Heff & _).
  rewrite Hs in Hstep. injection Hstep as -> ->. by eapply effect_store_ok.
Qed.

(** An object keeps its class and its parent for the rest of the run. *)
Lemma steps_old html st st' id n :
  steps html st st' -> stack_ok st -> store st !! id = Some n ->
  exists n', store st' !! id = Some n' /\ kind n' = kind n /\ parent n' = parent n.
Proof.
  intros Hsteps. revert n. induction Hsteps as [|st st' st'' Hlt Hstep _ IH];
    intros n Hok Hn; [eauto|].
  destruct (parse_step_effect html st Hok Hlt) as (f & st1 & Hs & Heff & _).
  rewrite Hs in Hstep. injection Hstep as -> ->.
  destruct (effect_old _ _ _ _ Hok Heff Hn) as (n1 & Hn1 & Hk & Hp & _).
  destruct (IH n1) as (n2 & ? & ? & ?); [by eapply effect_stack_ok|done|].
  exists n2. repeat split; congruence.
Qed.


Lemma parse_run_steps html :
  exists fin, parse_run html = Some fin /\ steps html parse_init fin /\
              finished html fin /\ store_ok fin.
Proof.
  destruct (parse_loop_total html (S (length html)) parse_init parse_init_ok)
    as (fin & Hfin & Hsteps & Hdone); [simpl; lia|].
  exists fin. split; [done|]. split; [done|]. split; [done|].
  eapply steps_store_ok; [done|apply parse_init_store_ok].
Qed.

(** ** Termination of [parse] *)

(** C1. For every input, [parse] returns: no loop runs out of fuel and no
    [undefined] is dereferenced.  The loop ends with the cursor at the end of
    the input, or on an end tag that no [>] closes and that therefore runs
    to the end of the input.  The value returned is the store, whose object
    0 is the document.  More fuel gives the same result. *)
Theorem parse_terminates (html : jsstring) :
  exists fin,
    parse_run html = Some fin /\
    parse html = Some (store fin) /\
    finished html fin /\
    (exists cs, store fin !! 0 =
                Some {| kind := KDocument; parent := None; children := cs |}) /\
    (forall fuel, length html < fuel ->
       parse_loop fuel html (toLowerCase html) parse_init = Some fin).
Proof.
  destruct (parse_run_steps html) as (fin & Hrun & Hsteps & Hdone & Hok).
  exists fin. split; [done|]. split; [unfold parse; by rewrite Hrun|].
  split; [done|]. split.
  - destruct (steps_old html parse_init fin 0 (new_node KDocument) Hsteps parse_init_ok)
      as ([k p cs] & Hn & Hk & Hp); [done|].
    simpl in *. subst. eauto.
  - intros fuel Hfuel. eapply parse_loop_fuel; [exact Hrun|lia].
Qed.

(** ** Void elements *)

Lemma mem_str_spec k l : mem_str k l = true <-> k ∈ l.
Proof.
  unfold mem_str. rewrite existsb_exists. split.
  - intros (x & Hin & Hx). apply bool_decide_eq_true in Hx. subst.
    by apply list_elem_of_In.
  - intros Hin. exists k. split; [by apply list_elem_of_In|].
    by apply bool_decide_eq_true.
Qed.

(** C3. In the store that [parse] returns, an element whose tag name is in
    the void set has no children, whatever the input. *)
Theorem void_elements_childless (html : jsstring) (h : Store) (id : nat)
    (n : Node) (t : jsstring) (a : Attributes) :
  parse html = Some h ->
  h !! id = Some n -> kind n = KElement t a -> t ∈ VOID_ELEMENTS ->
  children n = [].
Proof.
  intros Hparse Hn Hkind Hvoid.
  destruct (parse_run_steps html) as (fin & Hrun & _ & _ & Hok).
  unfold parse in Hparse. rewrite Hrun in Hparse. injection Hparse as <-.
  apply (ok_void _ Hok id n t a Hn Hkind).
  unfold table_truthy. apply orb_true_iff. left. by apply mem_str_spec.
Qed.

Lemma void_elements_childless_witness :
  exists h n,
    parse (js "<br>x</br><img/>") = Some h /\ h !! 1 = Some n /\
    kind n = KElement (js "br") ∅ /\ children n = [].
Proof.
  eexists _, _. split; [vm_compute; reflexivity|].
  split; [reflexivity|]. split; [reflexivity|].
  eapply (void_elements_childless (js "<br>x</br><img/>") _ 1 _ (js "br") ∅).
  - vm_compute. reflexivity.
  - reflexivity.
  - reflexivity.
  - apply mem_str_spec. vm_compute. reflexivity.
Defined.


(** ** End tags *)





Lemma not_comment_start html i c :
  html !! (i + 1) = Some c -> c <> 33%Z ->
  str_eqb (slice html i (i + 4)) (js "<!--") = false.
Proof.
  intros Hc Hne. apply bool_decide_eq_false. intros Heq.
  assert (H : slice html i (i + 4) !! 1 = Some 33%Z) by by rewrite Heq.
  unfold slice in H. rewrite lookup_take_lt in H by lia.
  rewrite lookup_drop in H. congruence.
Qed.



Example end_tag_closes_open_elements :
  stack <$> parse_run (js "<a><b><c></B>x") = Some [0; 1] /\
  stack <$> parse_run (js "<a><b></z>x") = Some [0; 1; 2].
Proof. split; vm_compute; reflexivity. Qed.

(** The names are compared by their lower case in every script: the end
    tag with the capital Cyrillic letter U+0414 closes the element that
    the small letter U+0434 opened. *)
Example end_tag_closes_in_every_script :
  stack <$> parse_run (js "<a><" ++ [1076%Z] ++ js "><b></" ++ [1044%Z] ++ js ">x") =
  Some [0; 1].
Proof. vm_compute. reflexivity. Qed.

(** ** Start tags *)

(** A start tag begins at [i]: its name [tagName] (lower-cased), its
    attributes, its self-closing mark, and the position [j] behind it. *)
Definition start_tag_at (html : jsstring) (i : nat)
    (tagName : jsstring) (attrs : Attributes) (selfClosing : bool) (j : nat) : Prop :=
  html !! i = Some 60%Z /\ html !! (i + 1) <> Some 33%Z /\
  read_start_tag html i = Some (Some (tagName, attrs, selfClosing, j)).

Lemma span_len_head p s : 0 < span_len p s -> exists c, s !! 0 = Some c /\ p c = true.
Proof.
  destruct s as [|c s]; simpl; [lia|]. destruct (p c) eqn:E; [eauto|lia].
Qed.

Lemma read_start_tag_name html i tagName attrs sc j :
  read_start_tag html i = Some (Some (tagName, attrs, sc, j)) ->
  tagName <> [] /\ toLowerCase tagName = tagName /\ i < j /\
  exists c, html !! (i + 1) = Some c /\ tag_name_char c = true.
Proof.
  intros Hread.
  destruct (read_start_tag_total html i) as (r & Hr & Hspec).
  rewrite Hread in Hr. injection Hr as <-. destruct Hspec as (? & ? & ?).
  repeat split; auto.
  unfold read_start_tag in Hread. case_bool_decide as Hraw; [done|].
  clear Hread. unfold slice, skip_while in Hraw.
  destruct (span_len_head tag_name_char (drop (i + 1) html)) as (c & Hc & Hp).
  { destruct (span_len tag_name_char (drop (i + 1) html)); [|lia].
    exfalso. apply Hraw. by rewrite Nat.add_0_r, Nat.sub_diag. }
  exists c. split; [|done]. rewrite lookup_drop in Hc. by rewrite Nat.add_0_r in Hc.
Qed.

Lemma parse_step_start_tag html lowerHtml st tagName attrs sc j :
  start_tag_at html (pos st) tagName attrs sc j ->
  parse_step html lowerHtml st = open_element html lowerHtml st tagName attrs sc j.
Proof.
  intros (H60 & H33 & Hread).
  destruct (read_start_tag_name _ _ _ _ _ _ Hread) as (_ & _ & _ & c & Hc & Hp).
  unfold parse_step. rewrite H60. simpl.
  rewrite (not_comment_start html (pos st) c) by congruence.
  rewrite andb_false_r.
  replace (is_code html (pos st + 1) 33) with false
    by (symmetry; by apply bool_decide_eq_false).
  rewrite andb_false_r.
  replace (is_code html (pos st + 1) 47) with false.
  2:{ symmetry. apply bool_decide_eq_false. rewrite Hc. intros [= ->]. done. }
  rewrite andb_false_r. unfold start_tag. by rewrite Hread.
Qed.


Ltac not_member :=
  let Hin := fresh in intros Hin%mem_str_spec; vm_compute in Hin; discriminate.




(** The same slip of the table lookup makes [<constructor>] a void element:
    [VOID_ELEMENTS["constructor"]] is the function [Object]. *)
Example constructor_tag_not_pushed :
  stack <$> parse_run (js "<constructor>x") = Some [0] /\
  js "constructor" ∉ VOID_ELEMENTS.
Proof. split; [vm_compute; reflexivity|not_member]. Qed.

(** The name is looked up in its lower case: with the Kelvin sign
    (U+212A) for its last letter, [<LINK>] is the void element [link] and is
    not pushed. *)
Example kelvin_link_not_pushed :
  parse (js "<LIN" ++ [8490%Z] ++ js ">x") =
  Some [ {| kind := KDocument; parent := None; children := [1; 2] |};
         {| kind := KElement (js "link") ∅; parent := Some 0; children := [] |};
         {| kind := KText (js "x"); parent := Some 0; children := [] |} ].
Proof. vm_compute. reflexivity. Qed.

(** ** Raw text *)








Lemma truncated_breaks html lowerHtml st :
  truncated_end_tag html (pos st) ->
  parse_step html lowerHtml st = Some (Break, st).
Proof.
  intros (H60%bool_decide_eq_true & H47%bool_decide_eq_true & Hidx).
  unfold parse_step. rewrite H60. simpl.
  rewrite (not_comment_start html (pos st) 47%Z) by done.
  rewrite andb_false_r.
  replace (is_code html (pos st + 1) 33) with false
    by (symmetry; apply bool_decide_eq_false; congruence).
  rewrite andb_false_r.
  assert (Hin : pos st + 1 < length html) by (apply lookup_lt_is_Some; eauto).
  apply Nat.ltb_lt in Hin. rewrite Hin.
  replace (is_code html (pos st + 1) 47) with true
    by (symmetry; by apply bool_decide_eq_true).
  simpl. unfold end_tag. by rewrite Hidx.
Qed.

(** The loop is deterministic: every state on the way lies before the end. *)
Lemma steps_to_final html a b fin :
  steps html a b -> steps html a fin -> finished html fin -> steps html b fin.
Proof.
  induction 1 as [|a a1 b Hlt Hstep _ IH]; [done|].
  intros Hfin Hdone. apply IH; [|done].
  inversion Hfin as [|? a1' ? _ Hstep' Hrest]; subst.
  - exfalso. destruct Hdone as [?|[_ Htr]]; [lia|].
    rewrite (truncated_breaks _ _ _ Htr) in Hstep. done.
  - rewrite Hstep in Hstep'. by injection Hstep' as <-.
Qed.








Example self_closing_script_text :
  parse (js "<script/>a&amp;b</script>") =
  Some [ {| kind := KDocument; parent := None; children := [1; 2] |};
         {| kind := KElement (js "script") ∅; parent := Some 0; children := [] |};
         {| kind := KText (js "a&b"); parent := Some 0; children := [] |} ].
Proof. vm_compute. reflexivity. Qed.

(** An empty raw-text element has no text child. *)
Example empty_script_no_child :
  parse (js "<script></script>") =
  Some [ {| kind := KDocument; parent := None; children := [1] |};
         {| kind := KElement (js "script") ∅; parent := Some 0; children := [] |} ].
Proof. vm_compute. reflexivity. Qed.

(** With U+0130 before the tag, the position found in the lower-cased copy
    is one too far for the input: the text child takes the [<] of the end
    tag along. *)
Example dotted_I_shifts_raw_text :
  parse (304%Z :: js "<script>ab</script>") =
  Some [ {| kind := KDocument; parent := None; children := [1; 2] |};
         {| kind := KText [304%Z]; parent := Some 0; children := [] |};
         {| kind := KElement (js "script") ∅; parent := Some 0; children := [3] |};
         {| kind := KText (js "ab<"); parent := Some 2; children := [] |} ].
Proof. vm_compute. reflexivity. Qed.

(** * Document order *)

(** The nodes of the subtree of [id] in document order: depth first, left
    to right, a node before its children.  [d] bounds the depth. *)
Fixpoint subtree (d : nat) (h : Store) (id : nat) : option (list nat) :=
  match d with
  | 0 => None
  | S d' =>
      n ← h !! id;
      kids ← mapM (subtree d' h) (children n);
      Some (id :: concat kids)
  end.

Definition in_order (h : Store) (id : nat) (order : list nat) : Prop :=
  exists d, subtree d h id = Some order.

(** The data of a text node, the empty string for another node. *)
Definition text_of (h : Store) (id : nat) : jsstring :=
  match h !! id with
  | Some n => match kind n with
              | KText d => d
              | _ => []
              end
  | None => []
  end.

Definition is_element (h : Store) (id : nat) : bool :=
  match h !! id with
  | Some n => match kind n with
              | KElement _ _ => true
              | _ => false
              end
  | None => false
  end.

Lemma push_children_app cs stack : push_children cs stack = cs ++ stack.
Proof.
  unfold push_children. revert stack. induction cs as [|c cs IH]; intros stack; [done|].
  rewrite reverse_cons, foldl_app. simpl. by rewrite IH.
Qed.

(** The callback of [walkElements] applied to the elements of [order], one
    after the other, until it asks to stop. *)
Fixpoint visit {A} (h : Store) (cb : nat -> A -> option (A * bool))
    (order : list nat) (acc : A) : option A :=
  match order with
  | [] => Some acc
  | x :: rest =>
      if is_element h x then
        match cb x acc with
        | None => None
        | Some (acc, true) => visit h cb rest acc
        | Some (acc, false) => Some acc
        end
      else visit h cb rest acc
  end.

(** ** The loops over an explicit stack

    Both traversals keep the nodes still to visit on a stack.  When each
    node of the stack has a finite subtree, the loop visits these subtrees
    one after the other, each in document order. *)
Section Traversal.
Context (h : Store).

Lemma in_order_inv id order :
  in_order h id order ->
  exists n kids, h !! id = Some n /\ Forall2 (in_order h) (children n) kids /\
                 order = id :: concat kids.
Proof.
  intros [[|d] Hd]; [done|]. simpl in Hd.
  destruct (h !! id) as [n|]; [|done]. simpl in Hd.
  destruct (mapM (subtree d h) (children n)) as [kids|] eqn:Hkids; [|done].
  injection Hd as <-. exists n, kids. split; [done|]. split; [|done].
  apply mapM_Some_1 in Hkids. eapply Forall2_impl; [done|].
  intros x o Hx. by exists d.
Qed.

Lemma in_order_stack node stack orders :
  Forall2 (in_order h) (node :: stack) orders ->
  exists n kids rest,
    h !! node = Some n /\ orders = (node :: concat kids) :: rest /\
    Forall2 (in_order h) (children n) kids /\
    Forall2 (in_order h) stack rest.
Proof.
  intros (o & rest & Ho & Hrest & ->)%Forall2_cons_inv_l.
  destruct (in_order_inv _ _ Ho) as (n & kids & Hn & Hkids & ->).
  by exists n, kids, rest.
Qed.

Section TextContent.
Hypothesis Hleaf :
  forall x n d, h !! x = Some n -> kind n = KText d -> children n = [].

Lemma textContent_loop_order bound :
  forall fuel stack orders out,
    Forall2 (in_order h) stack orders ->
    length (concat orders) <= bound -> bound < fuel ->
    textContent_loop fuel h stack out =
    Some (out ++ flat_map (text_of h) (concat orders)).
Proof.
  induction bound as [|bound IH];
    intros fuel stack orders out Hall Hlen Hfuel;
    (destruct fuel as [|fuel]; [lia|]); simpl;
    destruct stack as [|node stack].
  - apply Forall2_nil_inv_l in Hall as ->. by rewrite app_nil_r.
  - destruct (in_order_stack _ _ _ Hall) as (n & kids & rest & _ & -> & _).
    simpl in Hlen. lia.
  - apply Forall2_nil_inv_l in Hall as ->. by rewrite app_nil_r.
  - destruct (in_order_stack _ _ _ Hall)
      as (n & kids & rest & Hn & -> & Hkids & Hrest).
    rewrite Hn. simpl. simpl in Hlen. rewrite length_app in Hlen.
    assert (Htext : text_of h node = match kind n with KText d => d | _ => [] end).
    { unfold text_of. by rewrite Hn. }
    rewrite push_children_app.
    assert (Hnext : Forall2 (in_order h) (children n ++ stack) (kids ++ rest))
      by by apply Forall2_app.
    destruct (kind n) as [t a|d|] eqn:Hk.
    + rewrite (IH fuel _ (kids ++ rest) out Hnext);
        [|rewrite concat_app, length_app; lia|lia].
      rewrite Htext. simpl. by rewrite concat_app.
    + rewrite (Hleaf node n d Hn Hk) in Hkids.
      apply Forall2_nil_inv_l in Hkids as ->.
      rewrite (IH fuel stack rest (out ++ d) Hrest); [|simpl in Hlen; lia|lia].
      rewrite Htext. simpl. by rewrite <- app_assoc.
    + rewrite (IH fuel _ (kids ++ rest) out Hnext);
        [|rewrite concat_app, length_app; lia|lia].
      rewrite Htext. simpl. by rewrite concat_app.
Qed.
End TextContent.

Section WalkElements.
Context {A : Type} (cb : nat -> A -> option (A * bool)).

Lemma walkElements_loop_visit bound :
  forall fuel stack orders acc,
    Forall2 (in_order h) stack orders ->
    length (concat orders) <= bound -> bound < fuel ->
    walkElements_loop fuel h cb stack acc = visit h cb (concat orders) acc.
Proof.
  induction bound as [|bound IH];
    intros fuel stack orders acc Hall Hlen Hfuel;
    (destruct fuel as [|fuel]; [lia|]); simpl;
    destruct stack as [|node stack].
  - by apply Forall2_nil_inv_l in Hall as ->.
  - destruct (in_order_stack _ _ _ Hall) as (n & kids & rest & _ & -> & _).
    simpl in Hlen. lia.
  - by apply Forall2_nil_inv_l in Hall as ->.
  - destruct (in_order_stack _ _ _ Hall)
      as (n & kids & rest & Hn & -> & Hkids & Hrest).
    rewrite Hn. simpl. simpl in Hlen. rewrite length_app in Hlen.
    rewrite push_children_app.
    assert (Hnext : Forall2 (in_order h) (children n ++ stack) (kids ++ rest))
      by by apply Forall2_app.
    assert (Hgo : forall acc',
      walkElements_loop fuel h cb (children n ++ stack) acc' =
      visit h cb (concat kids ++ concat rest) acc').
    { intros acc'. rewrite (IH fuel _ (kids ++ rest) acc' Hnext);
        [by rewrite concat_app|rewrite concat_app, length_app; lia|lia]. }
    unfold is_element, nodeType. rewrite ?Hn.
    destruct (kind n); try apply Hgo.
    destruct (cb node acc) as [[acc' []]|]; [apply Hgo|done|done].
Qed.

(** [walkElements] visits the subtree of the root in document order,
    with the root or without it. *)
Lemma walkElements_visit root d order fuel acc (includeRoot : bool) :
  subtree d h root = Some (root :: order) -> S (length order) < fuel ->
  walkElements fuel h root includeRoot cb acc =
  visit h cb (if includeRoot then root :: order else order) acc.
Proof.
  intros Hsub Hfuel. destruct includeRoot.
  - unfold walkElements.
    rewrite (walkElements_loop_visit (S (length order)) fuel [root] [root :: order]);
      [simpl; by rewrite app_nil_r| |simpl; rewrite app_nil_r; simpl; lia|lia].
    constructor; [by exists d|constructor].
  - destruct (in_order_inv root (root :: order)) as (n & kids & Hn & Hkids & Heq);
      [by exists d|].
    injection Heq as ->.
    unfold walkElements. rewrite Hn. simpl. rewrite push_children_app, app_nil_r.
    apply (walkElements_loop_visit (length (concat kids))); [done|lia|lia].
Qed.
End WalkElements.
End Traversal.

(** Text nodes are leaves: an invariant of the data model. *)
Definition text_leaf (n : Node) : bool :=
  match kind n with
  | KText _ => bool_decide (children n = [])
  | _ => true
  end.

Definition text_leaves (h : Store) : Prop := forallb text_leaf h = true.

Lemma text_leaves_lookup h x n t :
  text_leaves h -> h !! x = Some n -> kind n = KText t -> children n = [].
Proof.
  unfold text_leaves. rewrite forallb_forall. intros Hall Hn Hk.
  assert (Hin : In n h) by (apply list_elem_of_In, list_elem_of_lookup; eauto).
  apply Hall in Hin. unfold text_leaf in Hin. rewrite Hk in Hin.
  by apply bool_decide_eq_true in Hin.
Qed.

(** C8. For a node whose subtree is finite, in a store whose text nodes
    are leaves, [textContent] returns the data of the text nodes of the
    subtree, concatenated in document order; for a text node that is its own
    data. *)
Theorem textContent_document_order (h : Store) (id d : nat) (order : list nat) :
  text_leaves h ->
  subtree d h id = Some order ->
  (forall fuel, length order <= fuel ->
     textContent fuel h id = Some (flat_map (text_of h) order)) /\
  (forall n t fuel, h !! id = Some n -> kind n = KText t ->
     textContent fuel h id = Some t).
Proof.
  intros Hleaves Hsub.
  assert (Hleaf : forall x n t, h !! x = Some n -> kind n = KText t -> children n = []).
  { intros x n t. by apply text_leaves_lookup. }
  split.
  - intros fuel Hfuel.
    destruct (in_order_inv h id order) as (n & kids & Hn & Hkids & ->); [by exists d|].
    unfold textContent. rewrite Hn. simpl.
    assert (Htext : text_of h id = match kind n with KText t => t | _ => [] end).
    { unfold text_of. by rewrite Hn. }
    rewrite Htext, push_children_app, app_nil_r.
    simpl in Hfuel.
    destruct (kind n) as [t a|t|] eqn:Hk.
    + by rewrite (textContent_loop_order h Hleaf (length (concat kids)) fuel _ kids [])
        by (done || lia).
    + rewrite (Hleaf id n t Hn Hk) in Hkids.
      apply Forall2_nil_inv_l in Hkids as ->. simpl. by rewrite app_nil_r.
    + by rewrite (textContent_loop_order h Hleaf (length (concat kids)) fuel _ kids [])
        by (done || lia).
  - intros n t fuel Hn Hk. unfold textContent. rewrite Hn. simpl. by rewrite Hk.
Qed.

Lemma textContent_document_order_witness :
  let h := [ {| kind := KDocument; parent := None; children := [1; 4] |};
             {| kind := KElement (js "p") ∅; parent := Some 0; children := [2; 3] |};
             {| kind := KText (js "a"); parent := Some 1; children := [] |};
             {| kind := KElement (js "b") ∅; parent := Some 1; children := [5] |};
             {| kind := KText (js "d"); parent := Some 0; children := [] |};
             {| kind := KText (js "c"); parent := Some 3; children := [] |} ] in
  (forall fuel, 6 <= fuel -> textContent fuel h 0 = Some (js "acd")) /\
  (forall n t fuel, h !! 0 = Some n -> kind n = KText t ->
     textContent fuel h 0 = Some t).
Proof.
  intros h.
  apply (textContent_document_order h 0 4 [0; 1; 2; 3; 5; 4]); reflexivity.
Defined.

(** ** Chain matching *)

(** The ancestor elements of [el], nearest first; [d] bounds their number. *)
Fixpoint ancestors (d : nat) (h : Store) (el : nat) : option (list nat) :=
  match d with
  | 0 => None
  | S d' =>
      match parentElement h el with
      | None => Some []
      | Some p => anc ← ancestors d' h p; Some (p :: anc)
      end
  end.

Inductive ancestor_chain (h : Store) : nat -> list nat -> Prop :=
| chain_root el : parentElement h el = None -> ancestor_chain h el []
| chain_parent el p anc :
    parentElement h el = Some p -> ancestor_chain h p anc ->
    ancestor_chain h el (p :: anc).

Lemma ancestors_chain d h el anc :
  ancestors d h el = Some anc -> ancestor_chain h el anc.
Proof.
  revert el anc. induction d as [|d IH]; intros el anc; [done|]. simpl.
  destruct (parentElement h el) as [p|] eqn:Hp.
  - destruct (ancestors d h p) as [anc'|] eqn:Hanc; [|done]. simpl.
    intros [= <-]. apply chain_parent; [done|]. by apply IH.
  - intros [= <-]. by apply chain_root.
Qed.

(** Whether the element [id] satisfies a simple selector. *)
Definition elem_matches (h : Store) (id : nat) (p : SelectorPart) : bool :=
  default false (matches_at h id p).

Lemma matches_at_element h id p :
  is_element h id = true -> matches_at h id p = Some (elem_matches h id p).
Proof.
  unfold is_element, elem_matches, matches_at.
  destruct (h !! id) as [n|]; [|done]. simpl. by destruct (kind n).
Qed.

Lemma parentElement_element h el p : parentElement h el = Some p -> is_element h p = true.
Proof.
  unfold parentElement, is_element, nodeType.
  destruct (h !! el) as [n|]; [|done]. simpl.
  destruct (parent n) as [q|]; [|done]. simpl.
  destruct (h !! q) as [pn|] eqn:Hq; [|done]. simpl.
  destruct (kind pn) eqn:Hk; try done. intros [= <-]. by rewrite Hq, Hk.
Qed.

(** The list from its first member that satisfies [f] on. *)
Fixpoint from_nearest (f : nat -> bool) (anc : list nat) : list nat :=
  match anc with
  | [] => []
  | p :: anc' => if f p then p :: anc' else from_nearest f anc'
  end.

(** The walk of the specification, right to left.  [rsteps] holds the steps
    from the one the current element has satisfied leftwards, [anc] the
    ancestors of the current element, nearest first.  A child combinator
    asks the parent to satisfy the next step; a descendant combinator goes
    to the nearest ancestor that satisfies it, and never looks further up
    when the rest of the walk then fails. *)
Fixpoint walk_left (h : Store) (rsteps : list SelectorStep) (anc : list nat) : bool :=
  match rsteps with
  | [] => true
  | s :: rest =>
      match rest with
      | [] => true
      | t :: _ =>
          match combinator s with
          | Child =>
              match anc with
              | [] => false
              | p :: anc' => elem_matches h p (part t) && walk_left h rest anc'
              end
          | Descendant =>
              match from_nearest (fun p => elem_matches h p (part t)) anc with
              | [] => false
              | p :: anc' => walk_left h rest anc'
              end
          end
      end
  end.

(** Matching as the specification describes it: the element satisfies the
    rightmost step and the walk succeeds; no step, no match. *)
Definition chain_matches (h : Store) (el : nat) (anc : list nat)
    (steps : list SelectorStep) : bool :=
  match reverse steps with
  | [] => false
  | s :: _ => elem_matches h el (part s) && walk_left h (reverse steps) anc
  end.

Lemma find_ancestor_nearest h x anc target fuel :
  ancestor_chain h x anc -> length anc < fuel ->
  let found := from_nearest (fun p => elem_matches h p target) anc in
  find_ancestor fuel h (parentElement h x) target = Some (head found) /\
  (forall p anc', found = p :: anc' -> ancestor_chain h p anc').
Proof.
  intros Hchain. revert fuel.
  induction Hchain as [el Hp|el p anc Hp Hchain IH]; intros fuel Hfuel;
    (destruct fuel as [|fuel]; [lia|]); simpl; rewrite Hp.
  - split; [done|]. by intros.
  - rewrite (matches_at_element h p target) by by eapply parentElement_element.
    destruct (elem_matches h p target) eqn:Hm.
    + split; [done|]. by intros ? ? [= <- <-].
    + simpl in Hfuel. destruct (IH fuel) as [Hfind Hrest]; [lia|]. done.
Qed.

Lemma reverse_take_S (steps : list SelectorStep) i s :
  steps !! i = Some s -> reverse (take (S i) steps) = s :: reverse (take i steps).
Proof. intros Hs. by rewrite (take_S_r _ _ _ Hs), reverse_snoc. Qed.

Lemma walk_left_step h s t rest anc :
  walk_left h (s :: t :: rest) anc =
  match combinator s with
  | Child =>
      match anc with
      | [] => false
      | p :: anc' => elem_matches h p (part t) && walk_left h (t :: rest) anc'
      end
  | Descendant =>
      match from_nearest (fun p => elem_matches h p (part t)) anc with
      | [] => false
      | p :: anc' => walk_left h (t :: rest) anc'
      end
  end.
Proof. done. Qed.

Lemma matchesSelectorChain_loop_walk h steps fuel index current anc :
  index < length steps ->
  ancestor_chain h current anc -> length anc < fuel ->
  matchesSelectorChain_loop fuel h steps index current =
  Some (walk_left h (reverse (take (S index) steps)) anc).
Proof.
  revert current anc. induction index as [|index IH]; intros current anc Hi Hchain Hfuel.
  - destruct (lookup_lt_is_Some_2 steps 0 Hi) as [s Hs].
    rewrite (reverse_take_S _ _ _ Hs). done.
  - destruct (lookup_lt_is_Some_2 steps (S index) Hi) as [s Hs].
    destruct (lookup_lt_is_Some_2 steps index) as [t Ht]; [lia|].
    rewrite (reverse_take_S _ _ _ Hs), (reverse_take_S _ _ _ Ht).
    rewrite walk_left_step.
    rewrite <- (reverse_take_S _ _ _ Ht).
    cbn [matchesSelectorChain_loop]. rewrite Hs, Ht. cbn [mbind option_bind].
    destruct (combinator s).
    + destruct (find_ancestor_nearest h current anc (part t) fuel Hchain Hfuel)
        as [Hfind Hrest].
      rewrite Hfind.
      destruct (from_nearest _ anc) as [|p anc'] eqn:Hnear; [done|]. simpl.
      apply IH; [lia|by eapply Hrest|].
      assert (Hsuffix : forall f l, length (from_nearest f l) <= length l).
      { intros f l. induction l as [|x l IHl]; simpl; [lia|].
        destruct (f x); simpl; lia. }
      pose proof (Hsuffix (fun p0 => elem_matches h p0 (part t)) anc) as Hle.
      rewrite Hnear in Hle. simpl in Hle. lia.
    + inversion Hchain as [? Hp|? p anc' Hp Hchain']; subst; rewrite Hp; [done|].
      rewrite (matches_at_element h p (part t)) by by eapply parentElement_element.
      destruct (elem_matches h p (part t)); [|done]. simpl.
      apply IH; [lia|done|simpl in Hfuel; lia].
Qed.

Lemma matchesSelectorChain_matches h el anc steps fuel :
  is_element h el = true -> ancestor_chain h el anc -> length anc < fuel ->
  matchesSelectorChain fuel h el steps = Some (chain_matches h el anc steps).
Proof.
  intros Hel Hchain Hfuel. unfold chain_matches.
  assert (Hunfold : steps <> [] ->
    matchesSelectorChain fuel h el steps =
    s ← steps !! (length steps - 1);
    match matches_at h el (part s) with
    | None => None
    | Some false => Some false
    | Some true => matchesSelectorChain_loop fuel h steps (length steps - 1) el
    end) by by destruct steps.
  destruct (decide (steps = [])) as [->|Hne]; [done|].
  rewrite (Hunfold Hne). clear Hunfold.
  assert (Hlen : length steps - 1 < length steps) by (destruct steps; simpl; [done|lia]).
  destruct (lookup_lt_is_Some_2 steps _ Hlen) as [s Hs]. rewrite Hs.
  cbn [mbind option_bind].
  assert (Hrev : reverse steps = s :: reverse (take (length steps - 1) steps)).
  { rewrite <- (reverse_take_S _ _ _ Hs).
    rewrite take_ge; [done|lia]. }
  rewrite (matches_at_element h el (part s) Hel).
  rewrite Hrev. destruct (elem_matches h el (part s)); [|done].
  rewrite (matchesSelectorChain_loop_walk h steps fuel _ el anc Hlen Hchain Hfuel).
  rewrite andb_true_l, <- Hrev. rewrite take_ge; [done|lia].
Qed.

(** C7. For an element with finitely many ancestors, [matchesSelectorChain]
    returns what the walk of the specification gives: the element must
    satisfy the rightmost step; then, right to left, a child combinator
    needs the parent element of the current element to exist and to satisfy
    the next step, and a descendant combinator goes to the nearest ancestor
    that satisfies it, without a second try further up.  A chain without
    steps matches nothing. *)
Theorem chain_matching (h : Store) (el d : nat) (anc : list nat)
    (steps : list SelectorStep) (fuel : nat) :
  is_element h el = true ->
  ancestors d h el = Some anc ->
  length anc < fuel ->
  matchesSelectorChain fuel h el steps = Some (chain_matches h el anc steps) /\
  matchesSelectorChain fuel h el [] = Some false.
Proof.
  intros Hel Hanc Hfuel. split; [|done].
  apply matchesSelectorChain_matches; [done| |done]. by eapply ancestors_chain.
Qed.

(** ** Queries *)

(** Whether some group of the list matches the element, by the walk of the
    specification. *)
Definition selected (d : nat) (h : Store) (groups : list (list SelectorStep))
    (el : nat) : bool :=
  is_element h el &&
  existsb (chain_matches h el (default [] (ancestors d h el))) groups.

Lemma ancestors_length d h el anc : ancestors d h el = Some anc -> length anc < d.
Proof.
  revert el anc. induction d as [|d IH]; intros el anc; [done|]. simpl.
  destruct (parentElement h el) as [p|]; [|intros [= <-]; simpl; lia].
  destruct (ancestors d h p) as [anc'|] eqn:Hanc; [|done]. simpl.
  intros [= <-]. apply IH in Hanc. simpl. lia.
Qed.

Lemma matches_any_selected d h groups el fuel :
  is_element h el = true -> is_Some (ancestors d h el) -> d <= fuel ->
  matches_any fuel h el groups = Some (selected d h groups el).
Proof.
  intros Hel [anc Hanc] Hfuel. unfold selected. rewrite Hel, Hanc. simpl.
  pose proof (ancestors_length _ _ _ _ Hanc) as Hlen.
  induction groups as [|g groups IH]; [done|]. simpl.
  rewrite (matchesSelectorChain_matches h el anc g fuel Hel);
    [|by eapply ancestors_chain|lia].
  by destruct (chain_matches h el anc g).
Qed.

Lemma visit_all d h groups fuel order results :
  Forall (fun el => is_Some (ancestors d h el)) order -> d <= fuel ->
  visit h (fun el results =>
             match matches_any fuel h el groups with
             | None => None
             | Some true => Some (results ++ [el], true)
             | Some false => Some (results, true)
             end) order results =
  Some (results ++ List.filter (selected d h groups) order).
Proof.
  intros Hanc Hfuel. revert results.
  induction Hanc as [|el order Hel _ IH]; intros results; simpl.
  - by rewrite app_nil_r.
  - destruct (is_element h el) eqn:Helem.
    + rewrite (matches_any_selected d h groups el fuel Helem Hel Hfuel).
      destruct (selected d h groups el); [|apply IH].
      rewrite IH. by rewrite <- app_assoc.
    + unfold selected at 1. rewrite Helem. simpl. apply IH.
Qed.

Lemma visit_first d h groups fuel order :
  Forall (fun el => is_Some (ancestors d h el)) order -> d <= fuel ->
  visit h (fun el (found : option nat) =>
             match matches_any fuel h el groups with
             | None => None
             | Some true => Some (Some el, false)
             | Some false => Some (found, true)
             end) order None =
  Some (head (List.filter (selected d h groups) order)).
Proof.
  intros Hanc Hfuel.
  induction Hanc as [|el order Hel _ IH]; simpl; [done|].
  destruct (is_element h el) eqn:Helem.
  - rewrite (matches_any_selected d h groups el fuel Helem Hel Hfuel).
    by destruct (selected d h groups el).
  - unfold selected at 1. rewrite Helem. simpl. apply IH.
Qed.

(** When the selector list compiles, [querySelectorAll] returns the elements
    of the subtree (below the root, or with it when [includeRoot] is set)
    that some group matches, in document order, each once for each place it
    has in the tree; [querySelectorOne] returns the first of them, or
    [null]. *)
Lemma querySelectorAll_selected h root selector groups d order fuel (includeRoot : bool) :
  parseSelectorList fuel selector = Some groups ->
  subtree d h root = Some (root :: order) ->
  let scope := if includeRoot then root :: order else order in
  Forall (fun el => is_Some (ancestors d h el)) scope ->
  S (length order) < fuel -> d <= fuel ->
  querySelectorAll fuel h root selector includeRoot =
    Some (List.filter (selected d h groups) scope) /\
  querySelectorOne fuel h root selector includeRoot =
    Some (head (List.filter (selected d h groups) scope)).
Proof.
  intros Hcompile Hsub scope Hanc Hlen Hd.
  unfold querySelectorAll, querySelectorOne. rewrite Hcompile.
  cbn [mbind option_bind]. split.
  - rewrite (walkElements_visit h _ root d order fuel [] includeRoot Hsub Hlen).
    fold scope. by rewrite (visit_all d h groups fuel scope [] Hanc Hd).
  - rewrite (walkElements_visit h _ root d order fuel None includeRoot Hsub Hlen).
    fold scope. by rewrite (visit_first d h groups fuel scope Hanc Hd).
Qed.

(** ** [getElementById] with an empty identifier *)

Lemma compile_hash fuel :
  2 <= fuel ->
  parseSelectorList fuel (js "#" ++ js "") =
  Some [[ {| combinator := Descendant; part := empty_part |} ]].
Proof.
  intros Hfuel. destruct fuel as [|[|fuel]]; [lia|lia|]. reflexivity.
Qed.

Lemma matches_any_empty_part fuel h el :
  is_element h el = true ->
  matches_any fuel h el [[ {| combinator := Descendant; part := empty_part |} ]] = Some true.
Proof.
  intros Hel. unfold matches_any, matchesSelectorChain. simpl.
  rewrite (matches_at_element h el empty_part Hel).
  unfold elem_matches, matches_at, is_element in *.
  destruct (h !! el) as [n|]; [|done]. simpl. by destruct (kind n).
Qed.

Lemma visit_first_element fuel h order :
  visit h (fun el (found : option nat) =>
             match matches_any fuel h el
                     [[ {| combinator := Descendant; part := empty_part |} ]] with
             | None => None
             | Some true => Some (Some el, false)
             | Some false => Some (found, true)
             end) order None =
  Some (head (List.filter (is_element h) order)).
Proof.
  induction order as [|el order IH]; [done|].
  cbn [visit List.filter]. destruct (is_element h el) eqn:Hel; [|done].
  by rewrite (matches_any_empty_part fuel h el Hel).
Qed.

(** C10. [getElementById("")] is [querySelector("#")]; the selector [#]
    compiles to one group of one step with no constraint, which every
    element satisfies: the result is the first element below the document in
    document order, and not [null] when there is an element. *)
Theorem getElementById_empty (h : Store) (doc d : nat) (order : list nat) (fuel : nat) :
  subtree d h doc = Some (doc :: order) ->
  S (length order) < fuel ->
  parseSelectorList fuel (js "#" ++ js "") =
    Some [[ {| combinator := Descendant; part := empty_part |} ]] /\
  getElementById fuel h doc (js "") = querySelectorOne fuel h doc (js "#") false /\
  getElementById fuel h doc (js "") = Some (head (List.filter (is_element h) order)) /\
  (forall el, el ∈ order -> is_element h el = true ->
     exists first, getElementById fuel h doc (js "") = Some (Some first)).
Proof.
  intros Hsub Hlen.
  assert (Hfuel : 2 <= fuel) by lia.
  assert (Hget : getElementById fuel h doc (js "") =
                 Some (head (List.filter (is_element h) order))).
  { unfold getElementById, querySelectorOne. rewrite (compile_hash fuel Hfuel).
    cbn [mbind option_bind].
    rewrite (walkElements_visit h _ doc d order fuel None false Hsub Hlen).
    apply visit_first_element. }
  split; [by apply compile_hash|]. split; [done|]. split; [done|].
  intros el Hin Hel. rewrite Hget.
  assert (Hmem : In el (List.filter (is_element h) order)).
  { apply filter_In. split; [by apply list_elem_of_In|done]. }
  destruct (List.filter (is_element h) order) as [|first l]; [done|]. by exists first.
Qed.

Lemma getElementById_empty_witness :
  let h := [ {| kind := KDocument; parent := None; children := [1; 2] |};
             {| kind := KText (js "x"); parent := Some 0; children := [] |};
             {| kind := KElement (js "p") ∅; parent := Some 0; children := [3] |};
             {| kind := KElement (js "b") ∅; parent := Some 2; children := [] |} ] in
  getElementById 5 h 0 (js "") = Some (Some 2).
Proof.
  intros h.
  destruct (getElementById_empty h 0 3 [1; 2; 3] 5) as (_ & _ & Hget & _).
  - reflexivity.
  - simpl. lia.
  - exact Hget.
Defined.

(** ** Selectors that compile *)

Arguments readIdentifier : simpl never.
Arguments readAttributeSelector : simpl never.

Lemma readIdentifier_ge input start : start <= (readIdentifier input start).2.
Proof. unfold readIdentifier. simpl. apply skip_while_ge. Qed.

Lemma readAttributeSelector_gt input start : start < (readAttributeSelector input start).2.
Proof.
  unfold readAttributeSelector, readIdentifier.
  repeat case_match; simplify_eq/=;
    repeat match goal with
           | |- context [skip_while ?p ?s ?k] =>
               lazymatch goal with
               | _ : k <= skip_while p s k |- _ => fail
               | _ => pose proof (skip_while_ge p s k)
               end
           end; lia.
Qed.

(** [parseSimpleSelector] returns, at or behind its start, and behind it
    when the start holds none of the code units that end a step. *)
Lemma parseSimpleSelector_loop_total fuel input i p :
  length input - i < fuel ->
  exists p' next,
    parseSimpleSelector_loop fuel input i p = Some (p', next) /\ i <= next /\
    (forall code, input !! i = Some code ->
       (isWhitespace code || (code =? 62)%Z || (code =? 44)%Z) = false -> i < next).
Proof.
  revert i p. induction fuel as [|fuel IH]; intros i p Hfuel; [lia|].
  simpl. destruct (length input <=? i) eqn:Hlen.
  { apply Nat.leb_le in Hlen. exists p, i. split; [done|]. split; [done|].
    intros code Hcode. apply lookup_lt_Some in Hcode. lia. }
  apply Nat.leb_gt in Hlen.
  destruct (lookup_lt_is_Some_2 input i Hlen) as [code Hcode]. rewrite Hcode. simpl.
  destruct (isWhitespace code || (code =? 62)%Z || (code =? 44)%Z) eqn:Hend.
  { exists p, i. split; [done|]. split; [done|]. intros ? [= <-]. congruence. }
  assert (Hnext : forall next q, i < next ->
    exists p' next',
      parseSimpleSelector_loop fuel input next q = Some (p', next') /\ i <= next' /\
      (forall code0, Some code = Some code0 ->
         (isWhitespace code0 || (code0 =? 62)%Z || (code0 =? 44)%Z) = false -> i < next')).
  { intros next q Hlt. destruct (IH next q) as (p' & next' & Hrun & Hge & _); [lia|].
    exists p', next'. split; [done|]. split; [lia|]. intros; lia. }
  pose proof (skip_while_ge isIdentifierChar input (S i)) as H1.
  pose proof (skip_while_ge isIdentifierChar input i) as H2.
  pose proof (readAttributeSelector_gt input i) as H3.
  destruct (readAttributeSelector input i) as [a3 n3]. simpl in H3.
  destruct (code =? 35)%Z; [apply Hnext; lia|].
  destruct (code =? 46)%Z; [apply Hnext; lia|].
  destruct (code =? 91)%Z; [apply Hnext; lia|].
  destruct (code =? 42)%Z; [apply Hnext; lia|].
  destruct (slice input i (skip_while isIdentifierChar input i)) as [|c v] eqn:Hv;
    [apply Hnext; lia|].
  apply Hnext.
  assert (skip_while isIdentifierChar input i <> i); [|lia]. intros Heq.
  rewrite Heq in Hv. unfold slice in Hv. rewrite Nat.sub_diag in Hv. done.
Qed.

(** A group without a comma compiles: each turn of the loop of
    [parseSelectorGroup] moves the cursor. *)
Lemma parseSelectorGroup_loop_total fuel input i comb steps :
  Forall (fun c => c <> 44%Z) input ->
  length input - i < fuel ->
  is_Some (parseSelectorGroup_loop fuel input i comb steps).
Proof.
  intros Hcomma. revert i comb steps.
  induction fuel as [|fuel IH]; intros i comb steps Hfuel; [lia|].
  simpl. destruct (length input <=? i) eqn:Hlen; [by eexists|].
  apply Nat.leb_gt in Hlen.
  pose proof (skip_while_ge isWhitespace input i) as Hskip.
  set (i' := skip_while isWhitespace input i) in *.
  destruct (length input <=? i') eqn:Hlen'; [by eexists|].
  apply Nat.leb_gt in Hlen'.
  destruct (is_code input i' 62) eqn:Hgt; [apply IH; lia|].
  destruct (lookup_lt_is_Some_2 input i' Hlen') as [code Hcode].
  destruct (parseSimpleSelector_loop_total (S (length input)) input i' empty_part)
    as (p' & next & Hrun & _ & Hprogress); [lia|].
  unfold parseSimpleSelector. rewrite Hrun. simpl.
  apply IH.
  assert (i' < next); [|lia]. apply (Hprogress code Hcode).
  assert (Hws : isWhitespace code = false).
  { destruct (isWhitespace code) eqn:Hws; [|done]. exfalso.
    pose proof (skip_while_step isWhitespace input i' code Hcode Hws) as Hstep.
    unfold i' in Hstep at 2. unfold skip_while in Hstep.
    fold (skip_while isWhitespace input i) in Hstep. fold i' in Hstep.
    assert (Hidem : span_len isWhitespace (drop i' input) = 0).
    { unfold i', skip_while. rewrite <- drop_drop.
      generalize (drop i input). intros l.
      induction l as [|c l IHl]; [done|]. simpl.
      destruct (isWhitespace c) eqn:Hc; simpl; [done|by rewrite Hc]. }
    lia. }
  rewrite Hws. simpl.
  replace (code =? 62)%Z with false.
  2:{ symmetry. apply Z.eqb_neq. intros ->.
      apply bool_decide_eq_false in Hgt. done. }
  simpl. apply Z.eqb_neq. intros ->.
  rewrite Forall_lookup in Hcomma. by apply (Hcomma i' 44%Z).
Qed.

(** ** Selectors on which the compiler does not return *)

(** In [parseSelectorGroup], a comma at the cursor stops [parseSimpleSelector]
    at once and the cursor stays where it is: the loop goes on for ever,
    adding a step each turn.  Commas reach a group when they stand between
    brackets or quotes, where [splitSelectorGroups] does not split. *)
Definition stuck_selector : jsstring := js "[title*='a,b']".

Lemma stuck_selector_loop fuel steps :
  parseSelectorGroup_loop fuel stuck_selector 10 Descendant steps = None.
Proof.
  revert steps. induction fuel as [|fuel IH]; intros steps; [done|].
  cbn [parseSelectorGroup_loop].
  replace (length stuck_selector <=? 10) with false by reflexivity.
  replace (skip_while isWhitespace stuck_selector 10) with 10 by reflexivity.
  replace (length stuck_selector <=? 10) with false by reflexivity.
  replace (is_code stuck_selector 10 62) with false by reflexivity.
  replace (parseSimpleSelector stuck_selector 10) with (Some (empty_part, 10))
    by (vm_compute; reflexivity).
  cbn [mbind option_bind]. apply IH.
Qed.

Lemma stuck_selector_diverges fuel : parseSelectorList fuel stuck_selector = None.
Proof.
  unfold parseSelectorList.
  replace (splitSelectorGroups stuck_selector) with [stuck_selector]
    by (vm_compute; reflexivity).
  cbn [parseSelectorList_loop].
  replace (trim stuck_selector) with stuck_selector by (vm_compute; reflexivity).
  rewrite bool_decide_eq_false_2 by done.
  unfold parseSelectorGroup. destruct fuel as [|fuel]; [done|].
  cbn [parseSelectorGroup_loop].
  replace (length stuck_selector <=? 0) with false by reflexivity.
  replace (skip_while isWhitespace stuck_selector 0) with 0 by reflexivity.
  replace (length stuck_selector <=? 0) with false by reflexivity.
  replace (is_code stuck_selector 0 62) with false by reflexivity.
  replace (parseSimpleSelector stuck_selector 0) with
    (Some ({| part_tag := Some (js "*"); part_id := None; part_classes := [];
              part_attrs := [ {| attr_name := js "title"; attr_value := None |} ] |}, 10))
    by (vm_compute; reflexivity).
  cbn [mbind option_bind]. by rewrite stuck_selector_loop.
Qed.

(** C6, where the code fails it: on the selector [[title*='a,b']]
    [querySelectorAll] and [querySelector] do not return, whatever the
    tree and however much fuel. *)
Theorem querySelectorAll_diverges (fuel : nat) (h : Store) (root : nat) :
  querySelectorAll fuel h root stuck_selector false = None /\
  querySelectorOne fuel h root stuck_selector false = None.
Proof.
  unfold querySelectorAll, querySelectorOne.
  by rewrite stuck_selector_diverges.
Qed.

(** * The documents that [parse] returns are trees *)

(** Parents are made before their children: every reference to a child
    points forward in the store and every reference to a parent backward. *)
Definition ordered (h : Store) : Prop :=
  forall id n, h !! id = Some n ->
    Forall (fun c => id < c < length h) (children n) /\
    (forall p, parent n = Some p -> p < id).

Lemma ordered_append h k top :
  ordered h -> top < length h ->
  ordered (appendChild (h ++ [new_node k]) top (length h)).
Proof.
  intros Hord Htop id n' Hn'.
  assert (Hlen : length (appendChild (h ++ [new_node k]) top (length h)) = S (length h)).
  { rewrite length_appendChild, length_app. simpl. lia. }
  rewrite Hlen.
  destruct (decide (id < length h)) as [Hid|Hid].
  - rewrite lookup_append_new_old in Hn' by done.
    destruct (lookup_lt_is_Some_2 h id Hid) as [n Hn].
    destruct (Hord id n Hn) as [Hch Hpar].
    assert (Hch' : Forall (fun c => id < c < S (length h)) (children n)).
    { eapply Forall_impl; [done|]. simpl. intros; lia. }
    case_decide; subst; rewrite Hn in Hn'; simpl in Hn'; injection Hn' as <-.
    + split; [|done]. simpl. apply Forall_app. split; [done|].
      apply Forall_singleton. lia.
    + done.
  - assert (id = length h) as ->.
    { apply lookup_lt_Some in Hn'. rewrite Hlen in Hn'. lia. }
    rewrite lookup_append_new_new in Hn' by done. injection Hn' as <-. simpl.
    split; [constructor|]. by intros p [= <-].
Qed.

Lemma effect_ordered st st' :
  stack_ok st -> ordered (store st) -> effect st st' -> ordered (store st').
Proof.
  intros Hok Hord Heff.
  destruct Heff as [Hs _|k _ Hs _|top t a push Htop _ _ _ Hs _
                   |top t a raw Htop _ _ _ _ Hs _|top text Htop _ Hs _];
    rewrite Hs; try done;
    pose proof (stack_ok_top _ _ Hok Htop) as Hlt.
  - by apply ordered_append.
  - set (h1 := appendChild (store st ++ [new_node (KElement t a)]) top (length (store st))).
    assert (Hlen1 : length h1 = S (length (store st))).
    { unfold h1. rewrite length_appendChild, length_app. simpl. lia. }
    rewrite <- Hlen1. apply ordered_append; [by apply ordered_append|lia].
  - by apply ordered_append.
Qed.

Lemma steps_ordered html st st' :
  steps html st st' -> stack_ok st -> ordered (store st) -> ordered (store st').
Proof.
  induction 1 as [|st st' st'' Hlt Hstep _ IH]; [done|]. intros Hok Hord.
  destruct (parse_step_effect html st Hok Hlt) as (f & st1 & Hs & Heff & _).
  rewrite Hs in Hstep. injection Hstep as -> ->.
  apply IH; [by eapply effect_stack_ok|by eapply effect_ordered].
Qed.

Lemma ordered_subtree h :
  ordered h ->
  forall d id, id < length h -> length h - id <= d -> is_Some (subtree d h id).
Proof.
  intros Hord d. induction d as [|d IH]; intros id Hid Hd; [lia|].
  simpl. destruct (lookup_lt_is_Some_2 h id Hid) as [n Hn]. rewrite Hn. simpl.
  destruct (Hord id n Hn) as [Hch _].
  assert (Hkids : is_Some (mapM (subtree d h) (children n))).
  { apply mapM_is_Some. eapply Forall_impl; [done|]. simpl.
    intros c Hc. apply IH; lia. }
  destruct Hkids as [kids ->]. by eexists.
Qed.

Lemma ordered_ancestors h :
  ordered h -> forall d el, el < d -> is_Some (ancestors d h el).
Proof.
  intros Hord d. induction d as [|d IH]; intros el Hel; [lia|].
  simpl. destruct (parentElement h el) as [p|] eqn:Hp; [|by eexists].
  assert (Hlt : p < el).
  { unfold parentElement in Hp. destruct (h !! el) as [n|] eqn:Hn; [|done].
    simpl in Hp. destruct (parent n) as [q|] eqn:Hq; [|done]. simpl in Hp.
    destruct (h !! q) as [pn|]; [|done]. simpl in Hp.
    destruct (nodeType pn); try done. injection Hp as <-.
    destruct (Hord el n Hn) as [_ Hpar]. by apply Hpar. }
  destruct (IH p) as [anc ->]; [lia|]. by eexists.
Qed.

(** Every store that [parse] returns meets what the theorems on the
    traversals and on chain matching assume: text nodes are leaves, every
    node has a finite subtree and every element finitely many ancestors. *)
Lemma parse_returns_tree html h :
  parse html = Some h ->
  text_leaves h /\
  (forall id, id < length h -> is_Some (subtree (length h) h id)) /\
  (forall el, el < length h -> is_Some (ancestors (length h) h el)).
Proof.
  intros Hparse.
  destruct (parse_run_steps html) as (fin & Hrun & Hsteps & _ & Hok).
  unfold parse in Hparse. rewrite Hrun in Hparse. injection Hparse as <-.
  assert (Hord : ordered (store fin)).
  { eapply steps_ordered; [done|apply parse_init_ok|].
    intros [|id] n; simpl; [|done]. intros [= <-]. simpl. split; [constructor|done]. }
  split; [|split].
  - unfold text_leaves. apply forallb_forall. intros n Hin.
    apply list_elem_of_In, list_elem_of_lookup in Hin as [x Hx].
    unfold text_leaf. destruct (kind n) as [| t |] eqn:Hk; try done.
    apply bool_decide_eq_true. by destruct (ok_text _ Hok x n t Hx Hk).
  - intros id Hid. apply ordered_subtree; [done|done|lia].
  - intros el Hel. by apply ordered_ancestors.
Qed.

(** * Examples *)

(** ** Chain matching does not backtrack *)

Definition tag_part (t : string) : SelectorPart :=
  {| part_tag := Some (js t); part_id := None; part_classes := []; part_attrs := [] |}.

Lemma chain_matching_witness :
  let h := [ {| kind := KDocument; parent := None; children := [1] |};
             {| kind := KElement (js "section") ∅; parent := Some 0; children := [2] |};
             {| kind := KElement (js "div") ∅; parent := Some 1; children := [3] |};
             {| kind := KElement (js "div") ∅; parent := Some 2; children := [4] |};
             {| kind := KElement (js "span") ∅; parent := Some 3; children := [] |} ] in
  let steps := [ {| combinator := Descendant; part := tag_part "section" |};
                 {| combinator := Child; part := tag_part "div" |};
                 {| combinator := Descendant; part := tag_part "span" |} ] in
  matchesSelectorChain 4 h 4 steps = Some false /\
  matchesSelectorChain 4 h 4 [] = Some false.
Proof.
  intros h steps.
  apply (chain_matching h 4 4 [3; 2; 1] steps 4).
  - reflexivity.
  - reflexivity.
  - simpl. lia.
Defined.

(** The span lies in a [div] that is a child of the [section], but not the
    nearest [div] above it: [section > div span] does not match, while
    [section div span] does. *)
Example nearest_ancestor_only :
  let h := default [] (parse (js "<section><div><div><span>")) in
  querySelectorAll 9 h 0 (js "section > div span") false = Some [] /\
  querySelectorAll 9 h 0 (js "section div span") false = Some [4] /\
  querySelectorAll 9 h 0 (js "section > div") false = Some [2].
Proof. repeat split; vm_compute; reflexivity. Qed.

(** ** The scenarios of the specification *)

Example scenario_1 :
  let h := default [] (parse (js "<div id='app'><span class='x'>hi</span></div>")) in
  getElementById 9 h 0 (js "app") = Some (Some 1) /\
  querySelectorOne 9 h 1 (js "span") false = Some (Some 2) /\
  (n ← h !! 2;
   match kind n with
   | KElement _ a => Some (or_empty (getAttribute a (js "class")))
   | _ => None
   end) = Some (js "x") /\
  textContent 9 h 2 = Some (js "hi").
Proof. repeat split; vm_compute; reflexivity. Qed.

Example scenario_2 :
  let h := default []
    (parse (js "<div><span class='a'></span><section><span class='b'></span></section></div>")) in
  querySelectorAll 9 h 0 (js "div span") false = Some [2; 4] /\
  querySelectorAll 9 h 0 (js "div > span") false = Some [2].
Proof. repeat split; vm_compute; reflexivity. Qed.

Example scenario_3 :
  let h := default [] (parse (js "<p>&amp;&lt;&#65;</p>")) in
  textContent 9 h 0 = Some (js "&<A").
Proof. vm_compute. reflexivity. Qed.

Example scenario_4 :
  let h := default [] (parse (js "<div><img src='a'/><br>tail</div>")) in
  querySelectorAll 9 h 1 (js "img") false = Some [2] /\
  querySelectorAll 9 h 1 (js "br") false = Some [3] /\
  textContent 9 h 1 = Some (js "tail").
Proof. repeat split; vm_compute; reflexivity. Qed.

Example scenario_5 :
  let h := default [] (parse (js "<div><script>var x = '<span>y</span>';</script></div>")) in
  textContent 9 h 2 = Some (js "var x = '<span>y</span>';") /\
  querySelectorAll 9 h 0 (js "span") false = Some [] /\
  querySelectorAll 9 h 0 (js "a, script, div, SCRIPT") false = Some [1; 2].
Proof. repeat split; vm_compute; reflexivity. Qed.

(** ** Entity decoding *)

Example decode_named_entities :
  decodeEntities (js "&amp;&lt;&gt;&quot;&apos;&nbsp;") = js "&<>" ++ [34%Z] ++ js "' ".
Proof. vm_compute. reflexivity. Qed.

Example decode_numeric_references :
  decodeEntities (js "&#65;&#x41;&#x3bb;&#955;&#0065;") = [65; 65; 955; 955; 65]%Z.
Proof. vm_compute. reflexivity. Qed.

Example decode_leaves_verbatim :
  decodeEntities (js "&foo; &#a; &#x; &#; &#xg; & &amp") = js "&foo; &#a; &#x; &#; &#xg; & &amp".
Proof. vm_compute. reflexivity. Qed.

(** A decimal reference may hold hexadecimal letters: [parseInt] stops at
    the first of them and the digits before it are decoded. *)
Example decode_decimal_prefix : decodeEntities (js "&#1a;") = [1%Z].
Proof. vm_compute. reflexivity. Qed.

(** The upper-case [X] that the callback provides for never gets past the
    regular expression. *)
Example decode_upper_case_x : decodeEntities (js "&#X41;") = js "&#X41;".
Proof. vm_compute. reflexivity. Qed.

(** [&constructor;] names no entity, yet it is replaced, by the text of the
    function that [ENTITY_MAP] inherits from [Object.prototype] under that
    name. *)
Example entity_lookup_reaches_prototype :
  assoc (js "constructor") ENTITY_MAP = None /\
  decodeEntities (js "&constructor;") = js "function Object() { [native code] }".
Proof. split; vm_compute; reflexivity. Qed.

(** *** The scan from left to right *)

Lemma match_entity_shorter rest body rest' :
  match_entity rest = Some (body, rest') -> length rest' <= length rest.
Proof.
  unfold match_entity. destruct rest as [|c s1]; [done|].
  destruct (c =? 35)%Z.
  - destruct s1 as [|c1 s2]; [done|].
    destruct (c1 =? 120)%Z;
      match goal with |- context [if ?b then _ else _] => destruct b end;
      try done; intros [= _ <-]; rewrite length_drop; simpl; lia.
  - match goal with |- context [if ?b then _ else _] => destruct b end; [|done].
    intros [= _ <-]. rewrite length_drop. simpl. lia.
Qed.

Lemma replace_entities_fuel bound :
  forall s f1 f2, length s <= bound -> length s <= f1 -> length s <= f2 ->
    replace_entities f1 s = replace_entities f2 s.
Proof.
  induction bound as [|bound IH]; intros s f1 f2 Hb H1 H2.
  - destruct s; [|simpl in Hb; lia]. by destruct f1, f2.
  - destruct s as [|c rest]; [by destruct f1, f2|].
    destruct f1 as [|f1]; [simpl in H1; lia|].
    destruct f2 as [|f2]; [simpl in H2; lia|].
    simpl in *. destruct (c =? 38)%Z.
    + destruct (match_entity rest) as [[body rest']|] eqn:Hm.
      * apply match_entity_shorter in Hm. f_equal. apply IH; lia.
      * f_equal. apply IH; lia.
    + f_equal. apply IH; lia.
Qed.

Lemma replace_entities_plain f s :
  Forall (fun c => c <> 38%Z) s -> length s <= f -> replace_entities f s = s.
Proof.
  intros Hs. revert f. induction Hs as [|c s Hc _ IH]; intros f Hf.
  - by destruct f.
  - destruct f as [|f]; [simpl in Hf; lia|]. simpl.
    rewrite (proj2 (Z.eqb_neq _ _)) by done. rewrite IH; [done|simpl in Hf; lia].
Qed.

Lemma find_amp_None s k :
  find_from (js "&") s k = None -> Forall (fun c => c <> 38%Z) s.
Proof.
  revert k. induction s as [|c s IH]; intros k; [constructor|].
  unfold find_from; fold find_from.
  change (starts_with (js "&") (c :: s)) with ((38 =? c)%Z && true).
  destruct (Z.eqb_spec 38 c) as [<-|Hne]; [done|]. simpl.
  intros H. constructor; [congruence|by eapply IH].
Qed.

Lemma decodeEntities_replace s :
  decodeEntities s = replace_entities (length s) s.
Proof.
  unfold decodeEntities, indexOf. rewrite drop_0.
  destruct (find_from (js "&") s _) eqn:Hfind; [done|].
  apply find_amp_None in Hfind. by rewrite replace_entities_plain.
Qed.

(** Code units before the first [&] stay as they are. *)
Lemma decode_plain_prefix pre s :
  Forall (fun c => c <> 38%Z) pre ->
  decodeEntities (pre ++ s) = pre ++ decodeEntities s.
Proof.
  rewrite !decodeEntities_replace. induction 1 as [|c pre Hc _ IH]; [done|].
  simpl. rewrite (proj2 (Z.eqb_neq _ _)) by done. by rewrite IH.
Qed.

(** An [&] where the expression matches is replaced with its match by the
    callback, and the scan goes on behind the match. *)
Lemma decode_match pre body post :
  Forall (fun c => c <> 38%Z) pre ->
  match_entity (body ++ 59%Z :: post) = Some (body, post) ->
  decodeEntities (pre ++ 38%Z :: body ++ 59%Z :: post) =
  pre ++ entity_callback (38%Z :: body ++ [59%Z]) body ++ decodeEntities post.
Proof.
  intros Hpre Hmatch. rewrite decode_plain_prefix by done. f_equal.
  rewrite !decodeEntities_replace. simpl. rewrite Hmatch.
  rewrite length_app. simpl.
  replace (length body + S (length post) - length post) with (length body + 1) by lia.
  replace (take (length body + 1) (body ++ 59%Z :: post)) with (body ++ [59%Z]).
  2:{ rewrite take_app_add'; [done|done]. }
  f_equal. apply (replace_entities_fuel (length post)); lia.
Qed.

(** An [&] where the expression does not match stays. *)
Lemma decode_no_match pre rest :
  Forall (fun c => c <> 38%Z) pre ->
  match_entity rest = None ->
  decodeEntities (pre ++ 38%Z :: rest) = pre ++ 38%Z :: decodeEntities rest.
Proof.
  intros Hpre Hmatch. rewrite decode_plain_prefix by done. f_equal.
  rewrite !decodeEntities_replace. simpl. by rewrite Hmatch.
Qed.

(** *** What matches, and what it is replaced with *)

Lemma span_len_all p s c rest :
  Forall (fun x => p x = true) s -> p c = false -> span_len p (s ++ c :: rest) = length s.
Proof.
  intros Hs Hc. induction Hs as [|x s Hx _ IH]; simpl; [by rewrite Hc|].
  by rewrite Hx, IH.
Qed.

Lemma span_len_whole p s :
  Forall (fun x => p x = true) s -> span_len p s = length s.
Proof. induction 1 as [|x s Hx _ IH]; simpl; [done|]. by rewrite Hx, IH. Qed.

Lemma match_name c name post :
  is_letter c = true -> Forall (fun x => is_letter x = true) name ->
  match_entity ((c :: name) ++ 59%Z :: post) = Some (c :: name, post).
Proof.
  intros Hc Hname.
  assert (Hspan : span_len is_letter (c :: name ++ 59%Z :: post) = S (length name)).
  { apply (span_len_all is_letter (c :: name)); [by constructor|done]. }
  assert (Hlook : (c :: name ++ 59%Z :: post) !! S (length name) = Some 59%Z).
  { simpl. rewrite lookup_app_r by done. by rewrite Nat.sub_diag. }
  assert (Htake : take (S (length name)) (c :: name ++ 59%Z :: post) = c :: name).
  { simpl. by rewrite take_app_length. }
  assert (Hdrop : drop (S (S (length name))) (c :: name ++ 59%Z :: post) = post).
  { simpl. rewrite <- (Nat.add_1_r (length name)). by rewrite drop_app_add. }
  unfold match_entity.
  change ((c :: name) ++ 59%Z :: post) with (c :: name ++ 59%Z :: post). cbv beta iota.
  replace (c =? 35)%Z with false
    by (symmetry; apply Z.eqb_neq; intros ->; done).
  rewrite Hspan, Htake, Hdrop. by rewrite bool_decide_eq_true_2.
Qed.

Lemma match_numeric x digits post :
  (x = [] \/ x = [120%Z]) ->
  digits <> [] -> Forall (fun c => is_hex_digit c = true) digits ->
  match_entity ((35%Z :: x ++ digits) ++ 59%Z :: post) = Some (35%Z :: x ++ digits, post).
Proof.
  intros Hx Hne Hdigits. unfold match_entity.
  change ((35%Z :: x ++ digits) ++ 59%Z :: post)
    with (35%Z :: (x ++ digits) ++ 59%Z :: post).
  cbv beta iota. cbn [Z.eqb Pos.eqb].
  assert (Hrest : match (x ++ digits) ++ 59%Z :: post with
                  | c1 :: s2 => if (c1 =? 120)%Z then ([c1], s2)
                                else ([], (x ++ digits) ++ 59%Z :: post)
                  | [] => ([], (x ++ digits) ++ 59%Z :: post)
                  end = (x, digits ++ 59%Z :: post)).
  { destruct Hx as [-> | ->]; [|done]. simpl.
    destruct digits as [|c digits]; [done|]. simpl.
    assert (Hc : is_hex_digit c = true) by by inversion Hdigits.
    replace (c =? 120)%Z with false; [done|].
    symmetry. apply Z.eqb_neq. intros ->. done. }
  rewrite Hrest. rewrite span_len_all by done.
  replace (0 <? length digits) with true
    by (symmetry; apply Nat.ltb_lt; destruct digits; simpl; [done|lia]).
  rewrite bool_decide_eq_true_2
    by (rewrite lookup_app_r by done; by rewrite Nat.sub_diag).
  cbn [andb]. rewrite take_app_length.
  rewrite <- (Nat.add_1_r (length digits)). by rewrite drop_app_add.
Qed.

(** The value of a string of digits. *)
Definition digits_value (radix : Z) (digits : jsstring) : Z :=
  foldl (fun a c => a * radix + digit_value c)%Z 0%Z digits.

Definition is_decimal_digit (c : Z) : bool := ((48 <=? c) && (c <=? 57))%Z.

Lemma parseInt_digits radix digits :
  digits <> [] -> Forall (fun c => (digit_value c <? radix)%Z = true) digits ->
  parseInt digits radix = Some (digits_value radix digits).
Proof.
  intros Hne Hdigits. unfold parseInt.
  rewrite span_len_whole by done.
  destruct digits as [|c digits]; [done|]. simpl length.
  cbn [Nat.eqb]. by rewrite take_ge by (simpl; lia).
Qed.

Lemma callback_decimal mtch digits :
  digits <> [] -> Forall (fun c => is_decimal_digit c = true) digits ->
  entity_callback mtch (35%Z :: [] ++ digits) = fromCharCode (digits_value 10 digits).
Proof.
  intros Hne Hdigits. unfold entity_callback. simpl app.
  rewrite bool_decide_eq_true_2 by done.
  destruct digits as [|c digits]; [done|].
  assert (Hc : is_decimal_digit c = true) by by inversion Hdigits.
  rewrite (bool_decide_eq_false_2 ((35%Z :: c :: digits) !! 1 = Some 120%Z)).
  2:{ simpl. intros [= ->]. done. }
  rewrite (bool_decide_eq_false_2 ((35%Z :: c :: digits) !! 1 = Some 88%Z)).
  2:{ simpl. intros [= ->]. done. }
  simpl orb. cbv iota. unfold slice_from. simpl drop.
  rewrite parseInt_digits; [done|done|].
  eapply Forall_impl; [done|]. intros x. unfold is_decimal_digit, digit_value.
  intros Hx. rewrite Hx. apply andb_true_iff in Hx as [?%Z.leb_le ?%Z.leb_le].
  apply Z.ltb_lt. lia.
Qed.

Lemma callback_hexadecimal mtch digits :
  digits <> [] -> Forall (fun c => is_hex_digit c = true) digits ->
  entity_callback mtch (35%Z :: [120%Z] ++ digits) = fromCharCode (digits_value 16 digits).
Proof.
  intros Hne Hdigits. unfold entity_callback. simpl app.
  rewrite bool_decide_eq_true_2 by done.
  rewrite (bool_decide_eq_true_2 ((35%Z :: 120%Z :: digits) !! 1 = Some 120%Z)) by done.
  simpl orb. cbv iota. unfold slice_from. simpl drop.
  rewrite parseInt_digits; [done|done|].
  eapply Forall_impl; [done|]. intros x. unfold is_hex_digit, digit_value.
  intros Hx. apply Z.ltb_lt.
  repeat case_match; lia.
Qed.

(** A decimal payload that begins with a letter: [parseInt] gives [NaN]. *)
Lemma callback_not_a_number mtch c digits :
  is_hex_digit c = true -> is_decimal_digit c = false ->
  entity_callback mtch (35%Z :: [] ++ c :: digits) = mtch.
Proof.
  intros Hhex Hdec. unfold entity_callback. simpl app.
  rewrite bool_decide_eq_true_2 by done.
  rewrite (bool_decide_eq_false_2 ((35%Z :: c :: digits) !! 1 = Some 120%Z)).
  2:{ simpl. intros [= ->]. done. }
  rewrite (bool_decide_eq_false_2 ((35%Z :: c :: digits) !! 1 = Some 88%Z)).
  2:{ simpl. intros [= ->]. done. }
  simpl orb. cbv iota. unfold slice_from, parseInt. simpl drop. simpl span_len.
  replace (digit_value c <? 10)%Z with false; [done|].
  symmetry. apply Z.ltb_ge. unfold is_hex_digit, is_decimal_digit, digit_value in *.
  repeat case_match; lia.
Qed.

Lemma callback_name mtch name :
  name <> [] -> Forall (fun c => is_letter c = true) name ->
  entity_callback mtch name =
  match assoc name ENTITY_MAP with
  | Some decoded => decoded
  | None => default mtch (assoc name Object_prototype)
  end.
Proof.
  intros Hne Hletters. unfold entity_callback.
  rewrite bool_decide_eq_false_2.
  2:{ destruct name as [|c rest]; [done|]. simpl. intros [= ->]. by inversion Hletters. }
  destruct (assoc name ENTITY_MAP) as [decoded|] eqn:Hmap; [|by destruct (assoc _ _)].
  rewrite bool_decide_eq_false_2; [done|].
  intros ->. revert Hmap. unfold ENTITY_MAP. simpl.
  repeat (case_match; [intros [=]|]). done.
Qed.

(** The code unit of a value below 2^16 is the value. *)
Lemma fromCharCode_code_unit v : (0 <= v < 65536)%Z -> fromCharCode v = [v].
Proof.
  intros Hv. unfold fromCharCode, round_double.
  assert (Hlog : (Z.log2 v <= 52)%Z).
  { destruct (decide (v = 0%Z)) as [->|]; [done|].
    transitivity (Z.log2 65536); [apply Z.log2_le_mono; lia|done]. }
  rewrite (proj2 (Z.leb_le _ _)) by lia. by rewrite Z.mod_small.
Qed.

(** *** Decoding, reference by reference *)

(** The string of a code point ([String.fromCodePoint]): one code unit
    below 2^16, a surrogate pair from there on. *)
Definition code_point_string (n : Z) : jsstring :=
  if (n <? 65536)%Z then [n]
  else [55296 + (n - 65536) / 1024; 56320 + (n - 65536) mod 1024]%Z.

(** C5. Three references that [decodeEntities] does not decode as
    stated.  A decimal reference to a character above U+FFFF is replaced by
    one code unit, the low 16 bits of the value, and not by the character,
    which is a surrogate pair; a decimal payload with a letter in it is
    decoded up to the letter and not left as it is; the unknown name
    [constructor] is replaced and not passed through. *)
Theorem references_not_decoded_as_stated :
  decodeEntities (js "&#128512;") = [62976%Z] /\
  code_point_string (digits_value 10 (js "128512")) = [55357; 56832]%Z /\
  decodeEntities (js "&#1a;") = [1%Z] /\
  decodeEntities (js "&constructor;") = js "function Object() { [native code] }".
Proof. repeat split; vm_compute; reflexivity. Qed.

Lemma ENTITY_MAP_names name decoded :
  (name, decoded) ∈ ENTITY_MAP ->
  name <> [] /\ Forall (fun c => is_letter c = true) name /\
  assoc name ENTITY_MAP = Some decoded.
Proof.
  unfold ENTITY_MAP. rewrite !elem_of_cons, elem_of_nil.
  intros [H|[H|[H|[H|[H|[H|[]]]]]]]; injection H as -> ->;
    (split; [done|]); (split; [|reflexivity]); by repeat constructor.
Qed.

(** What [decodeEntities] does apart from these: references to code units
    and names that [Object.prototype] does not have.  In a text, after code
    units [pre] without [&]: a reference to
    one of the six names of the table is replaced by the character of the
    table ([nbsp] by U+0020); a decimal reference made of decimal digits and
    a hexadecimal reference are replaced by one code unit, which for a
    value below 2^16 is the value; a decimal payload that begins with one of
    the letters a to f is left as it is; so is a name of letters that is
    neither in the table nor a property of [Object.prototype]; and decoding
    goes on behind the reference.  A text without [&] is left as it is. *)
Theorem entities_decoded (pre post : jsstring) :
  Forall (fun c => c <> 38%Z) pre ->
  (forall name decoded, (name, decoded) ∈ ENTITY_MAP ->
     decodeEntities (pre ++ js "&" ++ name ++ js ";" ++ post) =
     pre ++ decoded ++ decodeEntities post) /\
  assoc (js "nbsp") ENTITY_MAP = Some [32%Z] /\
  (forall digits, digits <> [] -> Forall (fun c => is_decimal_digit c = true) digits ->
     decodeEntities (pre ++ js "&#" ++ digits ++ js ";" ++ post) =
     pre ++ fromCharCode (digits_value 10 digits) ++ decodeEntities post) /\
  (forall digits, digits <> [] -> Forall (fun c => is_hex_digit c = true) digits ->
     decodeEntities (pre ++ js "&#x" ++ digits ++ js ";" ++ post) =
     pre ++ fromCharCode (digits_value 16 digits) ++ decodeEntities post) /\
  (forall v, (0 <= v < 65536)%Z -> fromCharCode v = [v]) /\
  (forall c digits,
     is_hex_digit c = true -> is_decimal_digit c = false ->
     Forall (fun c => is_hex_digit c = true) digits ->
     decodeEntities (pre ++ js "&#" ++ c :: digits ++ js ";" ++ post) =
     pre ++ js "&#" ++ c :: digits ++ js ";" ++ decodeEntities post) /\
  (forall name, name <> [] -> Forall (fun c => is_letter c = true) name ->
     assoc name ENTITY_MAP = None -> assoc name Object_prototype = None ->
     decodeEntities (pre ++ js "&" ++ name ++ js ";" ++ post) =
     pre ++ js "&" ++ name ++ js ";" ++ decodeEntities post) /\
  decodeEntities pre = pre.
Proof.
  intros Hpre.
  split; [|split; [reflexivity|split; [|split; [|split; [|split; [|split]]]]]].
  - intros name decoded (Hne & Hletters & Hmap)%ENTITY_MAP_names.
    change (pre ++ js "&" ++ name ++ js ";" ++ post)
      with (pre ++ 38%Z :: name ++ 59%Z :: post).
    destruct name as [|c name]; [done|].
    rewrite decode_match; [|done|by inversion Hletters; subst; apply match_name].
    by rewrite callback_name, Hmap.
  - intros digits Hne Hdigits.
    change (pre ++ js "&#" ++ digits ++ js ";" ++ post)
      with (pre ++ 38%Z :: (35%Z :: [] ++ digits) ++ 59%Z :: post).
    rewrite decode_match; [by rewrite callback_decimal|done|].
    apply match_numeric; [by left|done|].
    eapply Forall_impl; [done|]. intros c. unfold is_decimal_digit, is_hex_digit.
    by intros ->.
  - intros digits Hne Hdigits.
    change (pre ++ js "&#x" ++ digits ++ js ";" ++ post)
      with (pre ++ 38%Z :: (35%Z :: [120%Z] ++ digits) ++ 59%Z :: post).
    rewrite decode_match; [by rewrite callback_hexadecimal|done|].
    by apply match_numeric; [right|..].
  - apply fromCharCode_code_unit.
  - intros c digits Hhex Hdec Hdigits.
    change (pre ++ js "&#" ++ c :: digits ++ js ";" ++ post)
      with (pre ++ 38%Z :: (35%Z :: [] ++ c :: digits) ++ 59%Z :: post).
    rewrite decode_match; [|done|apply match_numeric; [by left|done|by constructor]].
    rewrite callback_not_a_number by done. f_equal. simpl. by rewrite <- app_assoc.
  - intros name Hne Hletters Hmap Hproto.
    change (pre ++ js "&" ++ name ++ js ";" ++ post)
      with (pre ++ 38%Z :: name ++ 59%Z :: post).
    destruct name as [|c name]; [done|].
    rewrite decode_match; [|done|by inversion Hletters; subst; apply match_name].
    rewrite callback_name, Hmap, Hproto by done. f_equal. simpl.
    by rewrite <- app_assoc.
  - rewrite decodeEntities_replace. by apply replace_entities_plain.
Qed.

Lemma entities_decoded_witness :
  decodeEntities (js "a" ++ js "&" ++ js "lt" ++ js ";" ++ js "b") =
    js "a" ++ js "<" ++ decodeEntities (js "b") /\
  decodeEntities (js "a" ++ js "&#" ++ js "955" ++ js ";" ++ js "b") =
    js "a" ++ fromCharCode (digits_value 10 (js "955")) ++ decodeEntities (js "b") /\
  decodeEntities (js "a" ++ js "&#x" ++ js "3bb" ++ js ";" ++ js "b") =
    js "a" ++ fromCharCode (digits_value 16 (js "3bb")) ++ decodeEntities (js "b") /\
  decodeEntities (js "a" ++ js "&" ++ js "foo" ++ js ";" ++ js "b") =
    js "a" ++ js "&" ++ js "foo" ++ js ";" ++ decodeEntities (js "b").
Proof.
  destruct (entities_decoded (js "a") (js "b"))
    as (Hname & _ & Hdec & Hhex & _ & _ & Hunknown & _).
  - repeat constructor. vm_compute. discriminate.
  - split; [|split; [|split]].
    + apply Hname. unfold ENTITY_MAP. rewrite !elem_of_cons. auto.
    + apply Hdec; [vm_compute; discriminate|by repeat constructor].
    + apply Hhex; [vm_compute; discriminate|by repeat constructor].
    + apply Hunknown; [vm_compute; discriminate|by repeat constructor|
                       vm_compute; reflexivity..].
Defined.

(** * The documents that [parse] returns: links and contents *)

(** A property of the state that the entry to the loop has and that every
    turn keeps holds on return. *)
Lemma steps_preserve (P : PState -> Prop) html st st' :
  (forall a b, stack_ok a -> P a -> effect a b -> P b) ->
  steps html st st' -> stack_ok st -> P st -> P st'.
Proof.
  intros Hkeep. induction 1 as [|st st' st'' Hlt Hstep _ IH]; [done|].
  intros Hok HP.
  destruct (parse_step_effect html st Hok Hlt) as (f & st1 & Hs & Heff & _).
  rewrite Hs in Hstep. injection Hstep as -> ->.
  apply IH; [by eapply effect_stack_ok|by eapply Hkeep].
Qed.

Lemma parse_run_invariant (P : PState -> Prop) html :
  P parse_init ->
  (forall a b, stack_ok a -> P a -> effect a b -> P b) ->
  exists fin, parse_run html = Some fin /\ P fin.
Proof.
  intros Hinit Hkeep.
  destruct (parse_run_steps html) as (fin & Hrun & Hsteps & _ & _).
  exists fin. split; [done|].
  eapply steps_preserve; [done|done|apply parse_init_ok|done].
Qed.

(** The node that a lookup in a store with one fresh child finds. *)
Lemma lookup_append_cases h k top id n' :
  top < length h ->
  appendChild (h ++ [new_node k]) top (length h) !! id = Some n' ->
  (exists n, h !! id = Some n /\ kind n' = kind n /\ parent n' = parent n /\
             children n' = if decide (id = top) then children n ++ [length h]
                           else children n) \/
  (id = length h /\ n' = {| kind := k; parent := Some top; children := [] |}).
Proof.
  intros Htop Hn'.
  destruct (decide (id < length h)) as [Hid|Hid].
  - left. rewrite lookup_append_new_old in Hn' by done.
    destruct (lookup_lt_is_Some_2 h id Hid) as [n Hn]. exists n.
    case_decide; rewrite Hn in Hn'; simpl in Hn'; by injection Hn' as <-.
  - right. assert (id = length h) as ->.
    { apply lookup_lt_Some in Hn'. rewrite length_appendChild, length_app in Hn'.
      simpl in Hn'. lia. }
    rewrite lookup_append_new_new in Hn' by done. by injection Hn' as <-.
Qed.

(** The links between the nodes: the object 0 is the document, the one
    node without a parent; a node is a child of its parent and of no other
    node, once. *)
Record linked (h : Store) : Prop := {
  linked_root : exists n, h !! 0 = Some n /\ kind n = KDocument /\ parent n = None;
  linked_rest : forall id n,
    h !! id = Some n -> id <> 0 -> kind n <> KDocument /\ is_Some (parent n);
  linked_child : forall id n c,
    h !! id = Some n -> c ∈ children n ->
    exists cn, h !! c = Some cn /\ parent cn = Some id;
  linked_parent : forall id n p,
    h !! id = Some n -> parent n = Some p ->
    exists pn, h !! p = Some pn /\ id ∈ children pn;
  linked_once : forall id n, h !! id = Some n -> NoDup (children n)
}.

Lemma linked_append h k top :
  linked h -> top < length h -> k <> KDocument ->
  linked (appendChild (h ++ [new_node k]) top (length h)).
Proof.
  intros [Hroot Hrest Hchild Hparent Honce] Htop Hk.
  set (h' := appendChild (h ++ [new_node k]) top (length h)).
  assert (Hkeep : forall id n, h !! id = Some n ->
            exists n', h' !! id = Some n' /\ kind n' = kind n /\ parent n' = parent n /\
                       forall c, c ∈ children n -> c ∈ children n').
  { intros id n Hn. unfold h'. rewrite lookup_append_new_old;
      [|done|by eapply lookup_lt_Some].
    case_decide; rewrite Hn; simpl; eexists; (split; [done|]); simpl;
      repeat split; auto. intros c Hc. apply elem_of_app. by left. }
  split.
  - destruct Hroot as (n & Hn & Hkind & Hpar).
    destruct (Hkeep 0 n Hn) as (n' & Hn' & Hk' & Hp' & _).
    exists n'. rewrite Hk', Hp'. done.
  - intros id n' Hn' Hid.
    destruct (lookup_append_cases h k top id n' Htop Hn')
      as [(n & Hn & Hk' & Hp' & _)|[-> ->]].
    + rewrite Hk', Hp'. by eapply Hrest.
    + simpl. split; [done|by eexists].
  - intros id n' c Hn' Hc.
    destruct (lookup_append_cases h k top id n' Htop Hn')
      as [(n & Hn & _ & _ & Hch)|[-> ->]]; [|by apply elem_of_nil in Hc].
    rewrite Hch in Hc.
    assert (Hold : c ∈ children n -> exists cn, h' !! c = Some cn /\ parent cn = Some id).
    { intros Hin. destruct (Hchild id n c Hn Hin) as (cn & Hcn & Hp).
      destruct (Hkeep c cn Hcn) as (cn' & Hcn' & _ & Hp' & _).
      exists cn'. by rewrite Hp'. }
    case_decide as Heq; [|by apply Hold].
    apply elem_of_app in Hc as [Hc|Hc%list_elem_of_singleton]; [by apply Hold|].
    subst c id. unfold h'. rewrite lookup_append_new_new by done. by eexists.
  - intros id n' p Hn' Hp.
    destruct (lookup_append_cases h k top id n' Htop Hn')
      as [(n & Hn & _ & Hp' & _)|[-> ->]].
    + rewrite Hp' in Hp. destruct (Hparent id n p Hn Hp) as (pn & Hpn & Hin).
      destruct (Hkeep p pn Hpn) as (pn' & Hpn' & _ & _ & Hsub).
      exists pn'. auto.
    + simpl in Hp. injection Hp as <-.
      destruct (lookup_lt_is_Some_2 h top Htop) as [tn Htn].
      exists (push_child (length h) tn). split.
      * unfold h'. rewrite lookup_append_new_old by done.
        rewrite decide_True by done. by rewrite Htn.
      * simpl. apply elem_of_app. right. by apply list_elem_of_singleton.
  - intros id n' Hn'.
    destruct (lookup_append_cases h k top id n' Htop Hn')
      as [(n & Hn & _ & _ & Hch)|[-> ->]]; [|constructor].
    rewrite Hch. case_decide; [|by eapply Honce].
    apply NoDup_app. split; [by eapply Honce|]. split; [|apply NoDup_singleton].
    intros c Hc ->%list_elem_of_singleton.
    destruct (Hchild id n _ Hn Hc) as (cn & Hcn%lookup_lt_Some & _). lia.
Qed.

Lemma effect_linked st st' :
  stack_ok st -> linked (store st) -> effect st st' -> linked (store st').
Proof.
  intros Hok Hl Heff.
  destruct Heff as [Hs _|k _ Hs _|top t a push Htop _ _ _ Hs _
                   |top t a raw Htop _ _ _ _ Hs _|top text Htop _ Hs _];
    rewrite Hs; try done;
    pose proof (stack_ok_top _ _ Hok Htop) as Hlt.
  - by apply linked_append.
  - set (h1 := appendChild (store st ++ [new_node (KElement t a)]) top (length (store st))).
    assert (Hlen1 : length h1 = S (length (store st))).
    { unfold h1. rewrite length_appendChild, length_app. simpl. lia. }
    rewrite <- Hlen1. apply linked_append; [by apply linked_append|lia|done].
  - by apply linked_append.
Qed.

Lemma linked_init : linked (store parse_init).
Proof.
  split.
  - by eexists.
  - by intros [|id] n Hn.
  - intros [|[|id]] n c; simpl; try done. intros [= <-]. simpl.
    by intros ?%elem_of_nil.
  - by intros [|[|id]] n p [= <-].
  - intros [|[|id]] n; simpl; try done. intros [= <-]. constructor.
Qed.
(** ** What the nodes hold *)

(** Text nodes hold a non-empty string. *)
Definition text_nonempty (h : Store) : Prop :=
  forall id n d, h !! id = Some n -> kind n = KText d -> d <> [].

Lemma effect_text_nonempty st st' :
  stack_ok st -> text_nonempty (store st) -> effect st st' -> text_nonempty (store st').
Proof.
  intros Hok Htext Heff id n' d Hn' Hkind.
  destruct (lookup_old_or_new st st' id n' Hn') as [[n Hn]|Hnew].
  - destruct (effect_old _ _ _ _ Hok Heff Hn) as (n1 & Hn1 & Hk & _).
    rewrite Hn1 in Hn'. injection Hn' as ->. rewrite Hk in Hkind. by eapply Htext.
  - destruct (effect_new _ _ _ _ Hok Heff Hn' Hnew)
      as [(top & t & a & _ & Hk & _)|(d' & p & Hk & Hd & _)]; congruence.
Qed.
(** ** Document order is the order of construction

    [parse] appends every new node to the current container, the last
    node of the right-most branch that is still open: the nodes of the
    document, in document order, are the objects of the store in the order
    in which they were made.  [size id] counts the nodes of the subtree of
    [id]; the subtrees of the children of a node tile the interval after
    the node. *)

Fixpoint tiles (size : nat -> nat) (a : nat) (cs : list nat) (b : nat) : Prop :=
  match cs with
  | [] => a = b
  | c :: cs' => c = a /\ tiles size (a + size a) cs' b
  end.

Record preorder (size : nat -> nat) (h : Store) (stk : list nat) : Prop := {
  po_root : size 0 = length h;
  po_pos : forall id, 1 <= size id;
  po_bound : forall id, id < length h -> id + size id <= length h;
  po_tiles : forall id n, h !! id = Some n -> tiles size (S id) (children n) (id + size id);
  po_open : forall s id, s ∈ stk -> id < length h -> id <= s < id + size id ->
            id + size id = length h;
  po_stack : forall s, s ∈ stk -> s < length h;
  po_sorted : forall i j x y, stk !! i = Some x -> stk !! j = Some y -> i < j -> x < y
}.

Lemma tiles_bounds size a cs b :
  (forall x, 1 <= size x) -> tiles size a cs b ->
  a <= b /\ forall c, c ∈ cs -> a <= c /\ c + size c <= b.
Proof.
  intros Hpos. revert a. induction cs as [|c cs IH]; intros a; simpl.
  - intros ->. split; [done|]. by intros c ?%elem_of_nil.
  - intros [-> Hrest]. destruct (IH _ Hrest) as [Hle Hin].
    pose proof (Hpos a). split; [lia|].
    intros c [->|Hc]%elem_of_cons; [lia|]. apply Hin in Hc. lia.
Qed.

Lemma tiles_ext f g a cs b :
  (forall c, c ∈ cs -> g c = f c) -> tiles f a cs b -> tiles g a cs b.
Proof.
  revert a. induction cs as [|c cs IH]; intros a Heq; simpl; [done|].
  intros [-> Hrest]. split; [done|].
  rewrite (Heq a) by (by left). apply IH; [|done].
  intros c Hc. apply Heq. by right.
Qed.

Lemma tiles_snoc f a cs c b :
  tiles f a cs c -> c + f c = b -> tiles f a (cs ++ [c]) b.
Proof.
  revert a. induction cs as [|x cs IH]; intros a; simpl.
  - by intros -> <-.
  - intros [-> Hrest] Hb. split; [done|]. by apply IH.
Qed.

(** The node [top] gets a new descendant at [e], the end of the store:
    the subtree that holds [top] (the last one) grows by one. *)
Lemma tiles_bump f g a cs e top :
  (forall x, 1 <= f x) -> tiles f a cs e -> a <= top < e ->
  (forall c, c <= top < c + f c -> c + f c = e /\ g c = S (f c)) ->
  (forall c, c < e -> ~ (c <= top < c + f c) -> g c = f c) ->
  tiles g a cs (S e).
Proof.
  intros Hpos. revert a. induction cs as [|c cs IH]; intros a; simpl.
  - intros ->. lia.
  - intros [-> Hrest] Htop Hin Hout.
    split; [done|].
    destruct (decide (top < a + f a)) as [Hlt|Hge].
    + destruct (Hin a) as [Hend ->]; [lia|].
      destruct cs as [|c' cs].
      * simpl in *. lia.
      * destruct Hrest as [-> Hrest].
        destruct (tiles_bounds f _ _ _ Hpos Hrest) as [Hle _].
        pose proof (Hpos (a + f a)). lia.
    + rewrite (Hout a) by lia. apply IH; [done|lia|done|done].
Qed.

Lemma tiles_concat f a cs b :
  (forall x, 1 <= f x) -> tiles f a cs b ->
  concat (map (fun c => seq c (f c)) cs) = seq a (b - a).
Proof.
  intros Hpos. revert a. induction cs as [|c cs IH]; intros a; simpl.
  - intros ->. by rewrite Nat.sub_diag.
  - intros [-> Hrest]. destruct (tiles_bounds f _ _ _ Hpos Hrest) as [Hle _].
    rewrite (IH _ Hrest).
    replace (b - a) with (f a + (b - (a + f a))) by lia.
    by rewrite seq_app.
Qed.

(** With these sizes, the subtree of a node is an interval of the store. *)
Lemma preorder_subtree size h stk :
  preorder size h stk ->
  forall d id, size id <= d -> id < length h ->
    subtree d h id = Some (seq id (size id)).
Proof.
  intros Hpo d. induction d as [|d IH]; intros id Hd Hid.
  { pose proof (po_pos _ _ _ Hpo id). lia. }
  simpl. destruct (lookup_lt_is_Some_2 h id Hid) as [n Hn]. rewrite Hn. simpl.
  pose proof (po_tiles _ _ _ Hpo id n Hn) as Htiles.
  pose proof (po_bound _ _ _ Hpo id Hid) as Hbound.
  destruct (tiles_bounds size _ _ _ (po_pos _ _ _ Hpo) Htiles) as [_ Hin].
  assert (Hkids : mapM (subtree d h) (children n) =
                  Some (map (fun c => seq c (size c)) (children n))).
  { apply mapM_Some. apply Forall2_fmap_r, Forall_Forall2_diag, Forall_forall.
    intros c Hc. destruct (Hin c Hc) as [Hge Hle].
    pose proof (po_pos _ _ _ Hpo c). apply IH; lia. }
  rewrite Hkids. simpl.
  rewrite (tiles_concat size _ _ _ (po_pos _ _ _ Hpo) Htiles).
  pose proof (po_pos _ _ _ Hpo id).
  replace (id + size id - S id) with (size id - 1) by lia.
  destruct (size id) as [|m]; [lia|]. simpl. by rewrite Nat.sub_0_r.
Qed.

Lemma preorder_take size h stk k :
  preorder size h stk -> preorder size h (take k stk).
Proof.
  intros [Hroot Hpos Hbound Htiles Hopen Hstack Hsorted]. split; try done.
  - intros s id Hs. apply Hopen. by eapply subseteq_take.
  - intros s Hs. apply Hstack. by eapply subseteq_take.
  - intros i j x y [Hx _]%lookup_take_Some [Hy _]%lookup_take_Some. by apply Hsorted.
Qed.

Lemma preorder_top size h stk top s :
  preorder size h stk -> last stk = Some top -> s ∈ stk -> s <= top.
Proof.
  intros Hpo Htop [i Hi]%list_elem_of_lookup.
  rewrite last_lookup in Htop.
  pose proof (lookup_lt_Some _ _ _ Hi) as Hlt.
  destruct (decide (i = pred (length stk))) as [->|Hne].
  - rewrite Hi in Htop. injection Htop as ->. done.
  - assert (s < top); [|lia].
    apply (po_sorted _ _ _ Hpo i (pred (length stk))); [done|done|lia].
Qed.

(** A fresh node appended to the current container and pushed. *)
Lemma preorder_append size h stk k top :
  preorder size h stk -> last stk = Some top ->
  exists size',
    preorder size' (appendChild (h ++ [new_node k]) top (length h)) (stk ++ [length h]).
Proof.
  intros Hpo Htop.
  pose proof (po_pos _ _ _ Hpo) as Hpos.
  assert (Hlt : top < length h).
  { apply (po_stack _ _ _ Hpo). by apply last_Some_elem_of. }
  assert (Hend : forall id, id < length h -> id <= top < id + size id ->
                 id + size id = length h).
  { intros id. apply (po_open _ _ _ Hpo). by apply last_Some_elem_of. }
  set (e := length h) in *.
  set (h' := appendChild (h ++ [new_node k]) top e).
  assert (Hlen : length h' = S e).
  { unfold h'. rewrite length_appendChild, length_app. simpl. lia. }
  set (size' := fun id =>
         if decide (id = e) then 1
         else if decide (id <= top < id + size id) then S (size id) else size id).
  assert (Hin : forall c, c <= top < c + size c -> c + size c = e /\ size' c = S (size c)).
  { intros c Hc. assert (c < e) by lia. split; [by apply Hend|].
    unfold size'. rewrite decide_False by lia. by rewrite decide_True. }
  assert (Hout : forall c, c < e -> ~ (c <= top < c + size c) -> size' c = size c).
  { intros c Hc Hno. unfold size'. rewrite decide_False by lia.
    by rewrite decide_False. }
  exists size'. split.
  - rewrite Hlen. destruct (Hin 0) as [_ ->]; rewrite (po_root _ _ _ Hpo); fold e; lia.
  - intros id. unfold size'. repeat case_decide; auto.
  - intros id Hid. rewrite Hlen in Hid. rewrite Hlen.
    destruct (decide (id = e)) as [->|Hne].
    + unfold size'. rewrite decide_True by done. lia.
    + assert (Hide : id < e) by lia.
      pose proof (po_bound _ _ _ Hpo id Hide).
      destruct (decide (id <= top < id + size id)) as [Hc|Hc].
      * destruct (Hin id Hc) as [? ->]. lia.
      * rewrite (Hout id Hide Hc). fold e in H. lia.
  - intros id n' Hn'.
    destruct (lookup_append_cases h k top id n' Hlt Hn')
      as [(n & Hn & _ & _ & Hch)|[-> ->]].
    + pose proof (po_tiles _ _ _ Hpo id n Hn) as Ht.
      pose proof (lookup_lt_Some _ _ _ Hn) as Hide. fold e in Hide.
      pose proof (po_bound _ _ _ Hpo id Hide) as Hb. fold e in Hb.
      destruct (tiles_bounds size _ _ _ Hpos Ht) as [_ Hcs].
      rewrite Hch. case_decide as Heq.
      * subst id. destruct (Hin top) as [Hte ->]; [pose proof (Hpos top); lia|].
        rewrite Hte in Ht. apply tiles_snoc with (c := e).
        -- eapply tiles_ext; [|done]. intros c Hc. destruct (Hcs c Hc).
           apply Hout; [pose proof (Hpos c); lia|lia].
        -- unfold size'. rewrite decide_True by done. lia.
      * destruct (decide (id <= top < id + size id)) as [Hc|Hc].
        -- destruct (Hin id Hc) as [Hie ->]. rewrite Hie in Ht.
           replace (id + S (size id)) with (S e) by lia.
           apply (tiles_bump size size' _ _ e top); [done|done|lia|done|done].
        -- rewrite (Hout id Hide Hc). eapply tiles_ext; [|done].
           intros c Hin'. destruct (Hcs c Hin'). pose proof (Hpos c).
           apply Hout; lia.
    + simpl. unfold size'. rewrite decide_True by done. lia.
  - intros s id Hs Hid Hrange. rewrite Hlen in Hid. rewrite Hlen.
    destruct (decide (id = e)) as [->|Hne].
    { unfold size'. rewrite decide_True by done. lia. }
    assert (Hide : id < e) by lia.
    pose proof (po_bound _ _ _ Hpo id Hide) as Hb. fold e in Hb.
    destruct (decide (id <= top < id + size id)) as [Hc|Hc].
    { destruct (Hin id Hc) as [? ->]. lia. }
    exfalso. rewrite (Hout id Hide Hc) in Hrange.
    apply elem_of_app in Hs as [Hs|Hs%list_elem_of_singleton]; [|lia].
    pose proof (preorder_top _ _ _ _ _ Hpo Htop Hs) as Hle.
    pose proof (po_open _ _ _ Hpo s id Hs Hide Hrange) as Hreach. fold e in Hreach.
    apply Hc. lia.
  - intros s Hs. rewrite Hlen.
    apply elem_of_app in Hs as [Hs|Hs%list_elem_of_singleton]; [|lia].
    pose proof (po_stack _ _ _ Hpo s Hs). fold e in H. lia.
  - intros i j x y Hx Hy Hij.
    pose proof (lookup_lt_Some _ _ _ Hy) as Hj. rewrite length_app in Hj. simpl in Hj.
    rewrite lookup_app_l in Hx by lia.
    assert (Hxe : x < e).
    { apply (po_stack _ _ _ Hpo). by eapply list_elem_of_lookup_2. }
    destruct (decide (j < length stk)) as [Hlt'|Hge].
    + rewrite lookup_app_l in Hy by done. by eapply (po_sorted _ _ _ Hpo).
    + rewrite lookup_app_r in Hy by lia.
      replace (j - length stk) with 0 in Hy by lia. injection Hy as <-. done.
Qed.

(** A fresh node appended to the current container and left closed. *)
Lemma preorder_append_closed size h stk k top :
  preorder size h stk -> last stk = Some top ->
  exists size', preorder size' (appendChild (h ++ [new_node k]) top (length h)) stk.
Proof.
  intros Hpo Htop. destruct (preorder_append size h stk k top Hpo Htop) as [size' Hpo'].
  exists size'. apply (preorder_take _ _ _ (length stk)) in Hpo'.
  by rewrite take_app_length in Hpo'.
Qed.

Lemma effect_preorder st st' :
  stack_ok st ->
  (exists size, preorder size (store st) (stack st)) -> effect st st' ->
  exists size, preorder size (store st') (stack st').
Proof.
  intros Hok [size Hpo] Heff.
  destruct Heff as [Hs Hk|k _ Hs Hk|top t a push Htop _ _ _ Hs Hk
                   |top t a raw Htop _ _ _ _ Hs Hk|top text Htop _ Hs Hk];
    rewrite Hs, Hk.
  - by exists size.
  - exists size. by apply preorder_take.
  - destruct push; [by eapply preorder_append|by eapply preorder_append_closed].
  - destruct (preorder_append size _ _ (KElement t a) top Hpo Htop) as [size1 Hpo1].
    set (h1 := appendChild (store st ++ [new_node (KElement t a)]) top (length (store st)))
      in *.
    assert (Hlen1 : length h1 = S (length (store st))).
    { unfold h1. rewrite length_appendChild, length_app. simpl. lia. }
    rewrite <- Hlen1.
    destruct (preorder_append_closed size1 h1 _ (KText raw) (length (store st)) Hpo1)
      as [size2 Hpo2]; [by rewrite last_snoc|].
    exists size2. apply (preorder_take _ _ _ (length (stack st))) in Hpo2.
    by rewrite take_app_length in Hpo2.
  - by eapply preorder_append_closed.
Qed.

Lemma preorder_init : preorder (fun _ => 1) (store parse_init) (stack parse_init).
Proof.
  split; simpl; try done.
  - intros id Hid. lia.
  - intros [|id] n; [|done]. by intros [= <-].
  - intros s id ->%list_elem_of_singleton Hid. lia.
  - intros s ->%list_elem_of_singleton. lia.
  - intros [|i] [|j] x y; simpl; try done. lia.
Qed.

(** ** The shape of the result

    The invariants together, on the state in which the loop ends. *)
Record shaped (st : PState) : Prop := {
  shaped_ok : store_ok st;
  shaped_linked : linked (store st);
  shaped_text : text_nonempty (store st);
  shaped_order : exists size, preorder size (store st) (stack st)
}.

Lemma parse_run_shaped html : exists fin, parse_run html = Some fin /\ shaped fin.
Proof.
  apply parse_run_invariant.
  - split; [apply parse_init_store_ok|apply linked_init| |].
    + by intros [|id] n d [= <-].
    + eexists. apply preorder_init.
  - intros a b Hstack [Hok Hl Htext Hpo] Heff. split.
    + by eapply effect_store_ok.
    + by eapply effect_linked.
    + by eapply effect_text_nonempty.
    + by eapply effect_preorder.
Qed.

Lemma parse_shaped html h :
  parse html = Some h -> exists fin, parse_run html = Some fin /\ store fin = h /\ shaped fin.
Proof.
  intros Hparse. destruct (parse_run_shaped html) as (fin & Hrun & Hshape).
  exists fin. unfold parse in Hparse. rewrite Hrun in Hparse.
  by injection Hparse as <-.
Qed.

Lemma shaped_subtree st :
  shaped st ->
  subtree (length (store st)) (store st) 0 = Some (seq 0 (length (store st))).
Proof.
  intros [_ _ _ [size Hpo]].
  pose proof (po_root _ _ _ Hpo) as Hroot. pose proof (po_pos _ _ _ Hpo 0) as Hpos.
  rewrite (preorder_subtree _ _ _ Hpo (length (store st)) 0) by lia.
  by rewrite Hroot.
Qed.

(** The document order of a parsed document, the document left out. *)
Lemma parse_order html h :
  parse html = Some h ->
  0 < length h /\
  subtree (length h) h 0 = Some (0 :: seq 1 (length h - 1)).
Proof.
  intros (fin & _ & <- & Hshape)%parse_shaped.
  pose proof (shaped_subtree fin Hshape) as Hsub.
  destruct (shaped_order _ Hshape) as [size Hpo].
  pose proof (po_root _ _ _ Hpo) as Hroot. pose proof (po_pos _ _ _ Hpo 0) as Hpos.
  split; [lia|]. rewrite Hsub.
  destruct (length (store fin)) as [|n]; [lia|]. simpl. by rewrite Nat.sub_0_r.
Qed.

(** X1. In the document that [parse] returns, the object 0 is the
    document and has no parent; every other node is an element or a text
    node and has a parent; a node is in the child list of its parent, once,
    and every child names the node as its parent. *)
Theorem parse_links_nodes (html : jsstring) :
  exists h, parse html = Some h /\ linked h.
Proof.
  destruct (parse_run_shaped html) as (fin & Hrun & Hshape).
  exists (store fin). unfold parse. rewrite Hrun. split; [done|apply Hshape].
Qed.

(** X2. In the document that [parse] returns, the only [Document] node
    is the object 0, every element has a non-empty lower-case tag name, and
    every text node holds a non-empty string and has no children. *)
Theorem parse_node_contents (html : jsstring) :
  exists h, parse html = Some h /\
    forall id n, h !! id = Some n ->
      match kind n with
      | KDocument => id = 0
      | KElement tagName _ => tagName <> [] /\ toLowerCase tagName = tagName
      | KText data => data <> [] /\ children n = []
      end.
Proof.
  destruct (parse_run_shaped html) as (fin & Hrun & [Hok Hl Htext _]).
  exists (store fin). split; [unfold parse; by rewrite Hrun|].
  intros id n Hn. destruct (kind n) as [t a|d|] eqn:Hk.
  - by eapply (ok_names _ Hok).
  - split; [by eapply Htext|]. by destruct (ok_text _ Hok id n d Hn Hk).
  - destruct (decide (id = 0)) as [|Hid]; [done|].
    by destruct (linked_rest _ Hl id n Hn Hid).
Qed.

(** X3. The nodes of the document that [parse] returns, in document
    order, are the objects of the store in the order of their construction:
    every node that [parse] makes is in the tree, once, and the traversal
    meets the nodes in the order in which the source opens them. *)
Theorem parse_document_order (html : jsstring) :
  exists h, parse html = Some h /\
    subtree (length h) h 0 = Some (seq 0 (length h)).
Proof.
  destruct (parse_run_shaped html) as (fin & Hrun & Hshape).
  exists (store fin). unfold parse. rewrite Hrun. split; [done|].
  by apply shaped_subtree.
Qed.
(** ** The attributes that [parse] stores *)

(** The names under which [parse] stores attributes: not empty, in lower
    case, and never [__proto__]. *)
Definition stored_names (a : Attributes) : Prop :=
  forall k v, a !! k = Some v ->
    k <> [] /\ toLowerCase k = k /\ k <> js "__proto__".

Lemma read_attribute_name html j :
  exists name, (read_attribute html j).1.1 = toLowerCase name.
Proof.
  unfold read_attribute. repeat case_match; simpl; eauto.
Qed.

Lemma stored_names_set name value a :
  stored_names a -> name <> [] -> toLowerCase name = name ->
  stored_names (attrs_set name value a).
Proof.
  intros Ha Hne Hlow. unfold attrs_set, str_eqb. case_bool_decide as Hproto; [done|].
  intros k v. destruct (decide (k = name)) as [->|Hk].
  - done.
  - rewrite lookup_insert_ne by done. apply Ha.
Qed.

Lemma read_attributes_names fuel html j attrs sc attrs' sc' j' :
  stored_names attrs ->
  read_attributes fuel html j attrs sc = Some (attrs', sc', j') ->
  stored_names attrs'.
Proof.
  revert j attrs sc. induction fuel as [|fuel IH]; intros j attrs sc Ha; [done|].
  simpl. destruct (length html <=? j); [by intros [= <- _ _]|].
  destruct (html !! j) as [code|]; [|done]. simpl.
  destruct (isWhitespace code); [by apply IH|].
  destruct (code =? 47)%Z.
  { case_match; [by intros [= <- _ _]|by apply IH]. }
  destruct (code =? 62)%Z; [by intros [= <- _ _]|].
  destruct (read_attribute_name html j) as [raw Hname].
  destruct (read_attribute html j) as [[name value] j1]. simpl in Hname. subst name.
  apply IH. case_bool_decide as Hempty; [done|].
  apply stored_names_set; [done|done|apply toLowerCase_idemp].
Qed.

Definition attrs_ok (h : Store) : Prop :=
  forall id n t a, h !! id = Some n -> kind n = KElement t a -> stored_names a.

Lemma lookup_appendChild_kind h p c id n' :
  appendChild h p c !! id = Some n' -> exists n, h !! id = Some n /\ kind n' = kind n.
Proof.
  unfold appendChild. intros Hn'.
  assert (Halter : forall (f : Node -> Node) i (l : Store) m,
            (forall x, kind (f x) = kind x) -> alter f i l !! id = Some m ->
            exists x, l !! id = Some x /\ kind m = kind x).
  { intros f i l m Hf Hm. destruct (decide (i = id)) as [->|Hne].
    - rewrite list_lookup_alter_eq in Hm.
      apply fmap_Some in Hm as (x & Hx & ->). exists x. by rewrite Hf.
    - rewrite list_lookup_alter_ne in Hm by done. by exists m. }
  apply Halter in Hn' as (x & Hx & ->); [|done].
  apply Halter in Hx as (y & Hy & ->); [|done]. by exists y.
Qed.

Lemma attrs_ok_appendChild h p c : attrs_ok h -> attrs_ok (appendChild h p c).
Proof.
  intros Hok id n' t a Hn' Hk.
  destruct (lookup_appendChild_kind _ _ _ _ _ Hn') as (n & Hn & Hkind).
  rewrite Hkind in Hk. by eapply Hok.
Qed.

Lemma attrs_ok_new h k :
  attrs_ok h -> (forall t a, k = KElement t a -> stored_names a) ->
  attrs_ok (h ++ [new_node k]).
Proof.
  intros Hok Hk id n t a Hn Hkind.
  apply lookup_app_Some in Hn as [Hn|[_ Hn]]; [by eapply Hok|].
  apply list_lookup_singleton_Some in Hn as [_ <-]. by eapply Hk.
Qed.

Lemma attrs_ok_raw_text h e rawText :
  attrs_ok h -> attrs_ok (append_raw_text h e rawText).
Proof.
  intros Hok. unfold append_raw_text, new_TextNode. case_bool_decide; [done|].
  apply attrs_ok_appendChild, attrs_ok_new; done.
Qed.

Lemma open_element_attrs html lowerHtml st tagName attrs sc j f st' :
  attrs_ok (store st) -> stored_names attrs ->
  open_element html lowerHtml st tagName attrs sc j = Some (f, st') ->
  attrs_ok (store st').
Proof.
  intros Hok Ha. unfold open_element, new_Element.
  destruct (last (stack st)) as [top|]; [|done]. simpl.
  assert (Hnew : attrs_ok (appendChild
            (store st ++ [new_node (KElement (toLowerCase tagName) attrs)])
            top (length (store st)))).
  { apply attrs_ok_appendChild, attrs_ok_new; [done|]. by intros t a [= _ <-]. }
  repeat case_match; intros [= _ <-]; simpl; try done; by apply attrs_ok_raw_text.
Qed.

Lemma parse_step_attrs html lowerHtml st f st' :
  attrs_ok (store st) -> parse_step html lowerHtml st = Some (f, st') ->
  attrs_ok (store st').
Proof.
  intros Hok. unfold parse_step.
  destruct (html !! pos st) as [ch|]; [|done]. simpl.
  destruct (ch =? 60)%Z.
  - case_match; [by intros [= _ <-]|].
    case_match; [by intros [= _ <-]|].
    case_match.
    + unfold end_tag. case_match; [|by intros [= _ <-]].
      case_match; simpl; [by intros [= _ <-]|].
      destruct (close_scan _ _ _ _); [|done]. by intros [= _ <-].
    + unfold start_tag, read_start_tag. case_bool_decide.
      * by intros [= _ <-].
      * destruct (read_attributes _ html _ ∅ false) as [[[attrs sc] j]|] eqn:Hread;
          [|done]. cbn [mbind option_bind].
        apply open_element_attrs; [done|].
        eapply read_attributes_names; [|done]. by intros k v.
  - unfold text_run. case_bool_decide; simpl; [by intros [= _ <-]|].
    case_bool_decide; simpl; [by intros [= _ <-]|].
    destruct (last (stack st)) as [top|]; [|done]. simpl. intros [= _ <-]. simpl.
    by apply attrs_ok_appendChild, attrs_ok_new.
Qed.

Lemma steps_attrs html st st' :
  steps html st st' -> attrs_ok (store st) -> attrs_ok (store st').
Proof.
  induction 1 as [|st st' st'' _ Hstep _ IH]; [done|]. intros Hok.
  apply IH. by eapply parse_step_attrs.
Qed.

(** X4. Every attribute that [parse] stores on an element has a name
    that is not empty, is in lower case and is not [__proto__]; so
    [getAttribute] and [hasAttribute] find it under the name it is stored
    under. *)
Theorem parse_attribute_names (html : jsstring) :
  exists h, parse html = Some h /\
    forall id n tagName a name value,
      h !! id = Some n -> kind n = KElement tagName a -> a !! name = Some value ->
      name <> [] /\ toLowerCase name = name /\ name <> js "__proto__" /\
      getAttribute a name = Some value /\ hasAttribute a name = true.
Proof.
  destruct (parse_run_steps html) as (fin & Hrun & Hsteps & _ & _).
  exists (store fin). split; [unfold parse; by rewrite Hrun|].
  intros id n t a name value Hn Hk Hname.
  assert (Hok : attrs_ok (store fin)).
  { eapply steps_attrs; [done|]. by intros [|i] m t' a' [= <-]. }
  destruct (Hok id n t a Hn Hk name value Hname) as (Hne & Hlow & Hproto).
  split; [done|]. split; [done|]. split; [done|].
  unfold hasAttribute, getAttribute. rewrite Hlow, Hname.
  split; [done|]. by apply bool_decide_eq_true.
Qed.
(** ** The attribute methods of [Element] *)



(** Attribute names are lower-cased in every script: the capital and the
    small A with macron (U+0100, U+0101) name the same attribute. *)
Example attribute_names_in_every_script :
  getAttribute (setAttribute ∅ [256%Z] (js "v")) [257%Z] = Some (js "v") /\
  getAttribute (removeAttribute (setAttribute ∅ [257%Z] (js "v")) [256%Z]) [257%Z] = None.
Proof. split; vm_compute; reflexivity. Qed.

(** ** Splitting a selector list *)

(** The groups put together again, with a comma between two groups. *)
Fixpoint join_groups (groups : list jsstring) : jsstring :=
  match groups with
  | [] => []
  | [g] => g
  | g :: groups' => g ++ 44%Z :: join_groups groups'
  end.

Lemma join_groups_cons g groups :
  groups <> [] -> join_groups (g :: groups) = g ++ 44%Z :: join_groups groups.
Proof. by destruct groups. Qed.

Lemma splitSelectorGroups_loop_join selector rest :
  forall i start depth quote groups,
    rest = drop i selector -> start <= i ->
    exists pieces,
      splitSelectorGroups_loop selector rest i start depth quote groups =
        groups ++ pieces /\
      pieces <> [] /\ join_groups pieces = drop start selector.
Proof.
  induction rest as [|code rest IH]; intros i start depth quote groups Hrest Hstart.
  - exists [drop start selector]. by simpl.
  - assert (Hnext : rest = drop (S i) selector).
    { rewrite <- Nat.add_1_r, <- drop_drop, <- Hrest. done. }
    assert (Hcode : selector !! i = Some code).
    { rewrite <- (Nat.add_0_r i), <- lookup_drop, <- Hrest. done. }
    assert (Hgo : forall depth' quote', exists pieces,
              splitSelectorGroups_loop selector rest (S i) start depth' quote' groups =
                groups ++ pieces /\
              pieces <> [] /\ join_groups pieces = drop start selector).
    { intros depth' quote'. apply IH; [done|lia]. }
    simpl. repeat case_match; try apply Hgo.
    destruct (IH (S i) (S i) depth quote (groups ++ [slice selector start i]))
      as (pieces & Heq & Hne & Hjoin); [done|lia|].
    exists (slice selector start i :: pieces). rewrite Heq, <- app_assoc.
    split; [done|]. split; [done|].
    rewrite join_groups_cons, Hjoin by done.
    match goal with H : _ && _ = true |- _ =>
      apply andb_true_iff in H as [->%Z.eqb_eq _] end.
    unfold slice.
    rewrite <- (take_drop (i - start) (drop start selector)) at 2.
    f_equal. rewrite drop_drop.
    replace (start + (i - start)) with i by lia.
    by rewrite (drop_S selector 44%Z i Hcode).
Qed.

(** X8. [splitSelectorGroups] loses nothing: it returns at least one
    group, and the groups joined by commas are the selector. *)
Theorem splitSelectorGroups_join (selector : jsstring) :
  splitSelectorGroups selector <> [] /\
  join_groups (splitSelectorGroups selector) = selector.
Proof.
  destruct (splitSelectorGroups_loop_join selector selector 0 0 0 0%Z [])
    as (pieces & Heq & Hne & Hjoin); [done|done|].
  unfold splitSelectorGroups. rewrite Heq. simpl. by rewrite Hjoin.
Qed.

(** ** Selector lists that compile *)

Definition plain_selector_char (c : Z) : Prop :=
  c <> 34%Z /\ c <> 39%Z /\ c <> 91%Z.

(** Without quotes and brackets every comma ends a group. *)
Lemma splitSelectorGroups_loop_plain selector rest :
  Forall plain_selector_char rest ->
  forall i start groups,
    rest = drop i selector -> start <= i ->
    Forall (fun c => c <> 44%Z) (slice selector start i) ->
    Forall (fun g => Forall (fun c => c <> 44%Z) g /\ length g <= length selector) groups ->
    Forall (fun g => Forall (fun c => c <> 44%Z) g /\ length g <= length selector)
           (splitSelectorGroups_loop selector rest i start 0 0%Z groups).
Proof.
  induction 1 as [|code rest (H34 & H39 & H91) _ IH];
    intros i start groups Hrest Hstart Hcur Hgroups.
  - simpl. apply Forall_app. split; [done|]. apply Forall_singleton.
    assert (Hlen : length selector <= i).
    { destruct (decide (length selector <= i)); [done|].
      assert (Hd : length (drop i selector) = 0) by by rewrite <- Hrest.
      rewrite length_drop in Hd. lia. }
    unfold slice in Hcur. rewrite take_ge in Hcur by (rewrite length_drop; lia).
    split; [done|]. unfold slice_from. rewrite length_drop. lia.
  - assert (Hnext : rest = drop (S i) selector).
    { rewrite <- Nat.add_1_r, <- drop_drop, <- Hrest. done. }
    assert (Hcode : selector !! i = Some code).
    { rewrite <- (Nat.add_0_r i), <- lookup_drop, <- Hrest. done. }
    simpl.
    rewrite (proj2 (Z.eqb_neq code 34)), (proj2 (Z.eqb_neq code 39)),
            (proj2 (Z.eqb_neq code 91)) by done.
    rewrite andb_false_r. simpl. rewrite andb_true_r.
    destruct (code =? 44)%Z eqn:H44.
    + apply IH; [done|lia| |].
      * unfold slice. rewrite Nat.sub_diag. constructor.
      * apply Forall_app. split; [done|]. apply Forall_singleton. split; [done|].
        unfold slice. rewrite length_take, length_drop. lia.
    + apply IH; [done|lia| |done].
      unfold slice in *. replace (S i - start) with (S (i - start)) by lia.
      rewrite (take_S_r _ _ code).
      * apply Forall_app. split; [done|]. apply Forall_singleton.
        by apply Z.eqb_neq.
      * rewrite lookup_drop. by replace (start + (i - start)) with i by lia.
Qed.

Lemma trim_Forall (P : Z -> Prop) s : Forall P s -> Forall P (trim s).
Proof.
  intros Hs. unfold trim, trim_start.
  apply Forall_reverse, Forall_drop, Forall_reverse, Forall_drop. done.
Qed.

Lemma length_trim s : length (trim s) <= length s.
Proof.
  unfold trim, trim_start. rewrite length_reverse, length_drop, length_reverse, length_drop.
  lia.
Qed.

Lemma parseSelectorList_loop_total fuel groups lst :
  Forall (fun g => Forall (fun c => c <> 44%Z) g /\ length g < fuel) groups ->
  is_Some (parseSelectorList_loop fuel groups lst).
Proof.
  intros Hgroups. revert lst.
  induction Hgroups as [|g groups [Hcomma Hlen] _ IH]; intros lst; simpl; [by eexists|].
  case_bool_decide; [apply IH|].
  destruct (parseSelectorGroup_loop_total fuel (trim g) 0 Descendant [])
    as [steps Hsteps]; [by apply trim_Forall|pose proof (length_trim g); lia|].
  unfold parseSelectorGroup. rewrite Hsteps. simpl. apply IH.
Qed.

(** X9. A selector list without quotes and brackets compiles:
    [parseSelectorList] returns, with fuel above the length of the
    selector. *)
Theorem parseSelectorList_plain_total (fuel : nat) (selector : jsstring) :
  Forall plain_selector_char selector -> length selector < fuel ->
  is_Some (parseSelectorList fuel selector).
Proof.
  intros Hplain Hfuel. unfold parseSelectorList, splitSelectorGroups.
  apply parseSelectorList_loop_total.
  eapply Forall_impl.
  - apply (splitSelectorGroups_loop_plain selector selector Hplain 0 0 []);
      [done|done| |constructor].
    unfold slice. constructor.
  - simpl. intros g [? ?]. split; [done|lia].
Qed.

Lemma parseSelectorList_plain_total_witness :
  is_Some (parseSelectorList 16 (js "div > p, .a #b")).
Proof.
  apply parseSelectorList_plain_total.
  - repeat constructor; vm_compute; discriminate.
  - vm_compute. lia.
Defined.
(** ** Selectors of one name *)

(** An identifier: code units that [readIdentifier] reads. *)
Definition identifier (s : jsstring) : Prop :=
  s <> [] /\ Forall (fun c => isIdentifierChar c = true) s.

Lemma isIdentifierChar_range c :
  isIdentifierChar c = true ->
  (48 <= c <= 57 \/ 65 <= c <= 90 \/ 97 <= c <= 122 \/ c = 45 \/ c = 95 \/ c = 58)%Z.
Proof.
  unfold isIdentifierChar.
  rewrite !orb_true_iff, !andb_true_iff, !Z.leb_le, !Z.eqb_eq. lia.
Qed.

Lemma identifier_not_space c : isIdentifierChar c = true -> is_js_space c = false.
Proof.
  intros H%isIdentifierChar_range. unfold is_js_space.
  rewrite !orb_false_iff, !andb_false_iff, !Z.leb_gt, !Z.eqb_neq. lia.
Qed.

Lemma splitSelectorGroups_loop_one selector rest :
  Forall (fun c => plain_selector_char c /\ c <> 44%Z) rest ->
  forall i start groups,
    splitSelectorGroups_loop selector rest i start 0 0%Z groups =
    groups ++ [slice_from selector start].
Proof.
  induction 1 as [|code rest [(H34 & H39 & H91) H44] _ IH]; intros i start groups; [done|].
  simpl.
  rewrite (proj2 (Z.eqb_neq code 34)), (proj2 (Z.eqb_neq code 39)),
          (proj2 (Z.eqb_neq code 91)), (proj2 (Z.eqb_neq code 44)) by done.
  rewrite andb_false_r. simpl. apply IH.
Qed.

Lemma splitSelectorGroups_one selector :
  Forall (fun c => plain_selector_char c /\ c <> 44%Z) selector ->
  splitSelectorGroups selector = [selector].
Proof.
  intros H. unfold splitSelectorGroups.
  by rewrite (splitSelectorGroups_loop_one selector selector H).
Qed.

Lemma trim_start_id s :
  match s with [] => True | c :: _ => is_js_space c = false end -> trim_start s = s.
Proof. unfold trim_start. destruct s as [|c s]; [done|]. simpl. by intros ->. Qed.

Lemma trim_id s : Forall (fun c => is_js_space c = false) s -> trim s = s.
Proof.
  intros Hs. unfold trim.
  rewrite (trim_start_id s) by (by destruct Hs).
  rewrite trim_start_id; [apply reverse_involutive|].
  apply Forall_reverse in Hs. by destruct Hs.
Qed.

Lemma readIdentifier_all pre ident :
  Forall (fun c => isIdentifierChar c = true) ident ->
  readIdentifier (pre ++ ident) (length pre) = (ident, length (pre ++ ident)).
Proof.
  intros Hid. unfold readIdentifier, skip_while, slice.
  rewrite drop_app_length, (span_len_whole _ _ Hid), length_app.
  replace (length pre + length ident - length pre) with (length ident) by lia.
  by rewrite firstn_all.
Qed.

Lemma identifier_plain c :
  isIdentifierChar c = true \/ c = 35%Z \/ c = 46%Z ->
  (plain_selector_char c /\ c <> 44%Z) /\ is_js_space c = false.
Proof.
  intros [H|H].
  - pose proof (identifier_not_space c H). apply isIdentifierChar_range in H.
    unfold plain_selector_char. split; [lia|done].
  - unfold plain_selector_char. split; [lia|]. by destruct H as [-> | ->].
Qed.

(** The list of groups of a selector that is one group of one step. *)
Lemma parseSelectorList_one fuel selector p :
  Forall (fun c => isIdentifierChar c = true \/ c = 35%Z \/ c = 46%Z) selector ->
  selector <> [] -> 2 <= fuel ->
  parseSimpleSelector selector 0 = Some (p, length selector) ->
  parseSelectorList fuel selector = Some [[ {| combinator := Descendant; part := p |} ]].
Proof.
  intros Hchars Hne Hfuel Hsimple.
  assert (Hplain : Forall (fun c => plain_selector_char c /\ c <> 44%Z) selector).
  { eapply Forall_impl; [done|]. intros c Hc. by apply identifier_plain. }
  assert (Hspace : Forall (fun c => is_js_space c = false) selector).
  { eapply Forall_impl; [apply Hchars|]. intros c Hc. by apply identifier_plain. }
  unfold parseSelectorList. rewrite (splitSelectorGroups_one selector Hplain).
  simpl. rewrite (trim_id selector Hspace).
  rewrite bool_decide_eq_false_2 by done.
  destruct selector as [|c selector]; [done|].
  apply Forall_cons in Hchars as [Hc _].
  assert (Hws : isWhitespace c = false).
  { unfold isWhitespace. apply Z.leb_gt.
    destruct Hc as [Hc%isIdentifierChar_range|Hc]; lia. }
  assert (H62 : is_code (c :: selector) 0 62 = false).
  { unfold is_code. apply bool_decide_eq_false. simpl. intros [= ->].
    destruct Hc as [Hc%isIdentifierChar_range|Hc]; lia. }
  destruct fuel as [|[|fuel]]; [lia|lia|].
  unfold parseSelectorGroup, parseSelectorGroup_loop.
  change (length (c :: selector) <=? 0) with false. cbv iota.
  assert (Hskip : skip_while isWhitespace (c :: selector) 0 = 0).
  { unfold skip_while. simpl. by rewrite Hws. }
  rewrite Hskip. change (length (c :: selector) <=? 0) with false. cbv iota.
  rewrite H62, Hsimple. cbn [mbind option_bind].
  by rewrite Nat.leb_refl.
Qed.

Definition id_part (ident : jsstring) : SelectorPart :=
  {| part_tag := None; part_id := Some ident; part_classes := []; part_attrs := [] |}.

Definition tag_name_part (name : jsstring) : SelectorPart :=
  {| part_tag := Some name; part_id := None; part_classes := []; part_attrs := [] |}.

Lemma parseSimpleSelector_hash ident :
  identifier ident ->
  parseSimpleSelector (js "#" ++ ident) 0 =
  Some (id_part ident, length (js "#" ++ ident)).
Proof.
  intros [Hne Hid].
  pose proof (readIdentifier_all (js "#") ident Hid) as Hread.
  unfold parseSimpleSelector.
  change (js "#" ++ ident) with (35%Z :: ident) in *. simpl length in *.
  unfold parseSimpleSelector_loop. simpl lookup. cbn [mbind option_bind].
  change (S (length ident) <=? 0) with false. cbv iota.
  change (isWhitespace 35 || (35 =? 62)%Z || (35 =? 44)%Z) with false. cbv iota.
  change (35 =? 35)%Z with true. cbv iota.
  rewrite Hread.
  destruct ident as [|c ident]; [done|].
  simpl truthy. cbv iota. simpl length. by rewrite Nat.leb_refl.
Qed.

Lemma parseSimpleSelector_name name :
  identifier name ->
  parseSimpleSelector name 0 = Some (tag_name_part (toLowerCase name), length name).
Proof.
  intros [Hne Hid].
  pose proof (readIdentifier_all [] name Hid) as Hread. simpl in Hread.
  unfold parseSimpleSelector.
  destruct name as [|c name]; [done|]. simpl length in *.
  apply Forall_cons in Hid as [Hc%isIdentifierChar_range _].
  unfold parseSimpleSelector_loop. simpl lookup. cbn [mbind option_bind].
  change (S (length name) <=? 0) with false. cbv iota.
  assert (Hstop : isWhitespace c || (c =? 62)%Z || (c =? 44)%Z = false).
  { unfold isWhitespace. rewrite !orb_false_iff, Z.leb_gt, !Z.eqb_neq. lia. }
  rewrite Hstop. cbv iota.
  rewrite (proj2 (Z.eqb_neq c 35)), (proj2 (Z.eqb_neq c 46)),
          (proj2 (Z.eqb_neq c 91)), (proj2 (Z.eqb_neq c 42)) by lia.
  cbv iota. rewrite Hread. simpl truthy. cbv iota. by rewrite Nat.leb_refl.
Qed.

(** A chain of one step matches an element when the step does. *)
Lemma matches_any_one fuel h el c p :
  is_element h el = true ->
  matches_any fuel h el [[ {| combinator := c; part := p |} ]] =
  Some (elem_matches h el p).
Proof.
  intros Hel. unfold matches_any, matchesSelectorChain. simpl.
  rewrite (matches_at_element h el p Hel). by destruct (elem_matches h el p).
Qed.

Lemma visit_first_one fuel h c p order :
  visit h (fun el (found : option nat) =>
             match matches_any fuel h el [[ {| combinator := c; part := p |} ]] with
             | None => None
             | Some true => Some (Some el, false)
             | Some false => Some (found, true)
             end) order None =
  Some (head (List.filter (fun el => is_element h el && elem_matches h el p) order)).
Proof.
  induction order as [|el order IH]; [done|].
  cbn [visit List.filter]. destruct (is_element h el) eqn:Hel; [|done].
  rewrite (matches_any_one fuel h el c p Hel). simpl.
  by destruct (elem_matches h el p).
Qed.

Lemma visit_all_one fuel h c p order results :
  visit h (fun el results =>
             match matches_any fuel h el [[ {| combinator := c; part := p |} ]] with
             | None => None
             | Some true => Some (results ++ [el], true)
             | Some false => Some (results, true)
             end) order results =
  Some (results ++ List.filter (fun el => is_element h el && elem_matches h el p) order).
Proof.
  revert results. induction order as [|el order IH]; intros results.
  - simpl. by rewrite app_nil_r.
  - cbn [visit List.filter]. destruct (is_element h el) eqn:Hel; [|apply IH].
    rewrite (matches_any_one fuel h el c p Hel). simpl.
    destruct (elem_matches h el p); [|apply IH].
    rewrite IH. by rewrite <- app_assoc.
Qed.

(** Whether the node is an element whose [id] is [ident]. *)
Definition has_id (h : Store) (ident : jsstring) (el : nat) : bool :=
  match h !! el with
  | Some n => match kind n with
              | KElement _ a => bool_decide (Element_id a = ident)
              | _ => false
              end
  | None => false
  end.

Lemma elem_matches_id h el ident :
  ident <> [] -> is_element h el && elem_matches h el (id_part ident) = has_id h ident el.
Proof.
  intros Hne. unfold is_element, elem_matches, matches_at, has_id.
  destruct (h !! el) as [n|]; [|done]. simpl.
  destruct (kind n) as [t a| |]; try done. simpl.
  unfold matchesSelectorPart, Element_id. simpl.
  destruct ident as [|c ident]; [done|]. simpl.
  case_bool_decide as H1; case_bool_decide as H2; simpl; congruence.
Qed.

(** X10. For an identifier (letters, digits, [-], [_], [:]; not empty),
    [getElementById] returns the first element below the document, in
    document order, whose [id] is the identifier, or [null]. *)
Theorem getElementById_identifier (h : Store) (doc d : nat) (order : list nat)
    (fuel : nat) (ident : jsstring) :
  identifier ident ->
  subtree d h doc = Some (doc :: order) -> S (length order) < fuel ->
  getElementById fuel h doc ident = Some (head (List.filter (has_id h ident) order)).
Proof.
  intros Hid Hsub Hfuel.
  unfold getElementById, querySelectorOne.
  rewrite (parseSelectorList_one fuel (js "#" ++ ident) (id_part ident));
    [| |done|lia|by apply parseSimpleSelector_hash].
  - cbn [mbind option_bind].
    rewrite (walkElements_visit h _ doc d order fuel None false Hsub Hfuel).
    rewrite visit_first_one. do 2 f_equal.
    apply filter_ext. intros el. apply elem_matches_id. apply Hid.
  - constructor; [auto|]. destruct Hid as [_ Hid].
    eapply Forall_impl; [done|]. simpl. auto.
Qed.
Lemma getElementById_identifier_witness :
  let h := [ {| kind := KDocument; parent := None; children := [1; 2] |};
             {| kind := KElement (js "p") {[ js "id" := js "a" ]};
                parent := Some 0; children := [] |};
             {| kind := KElement (js "b") {[ js "id" := js "x" ]};
                parent := Some 0; children := [] |} ] in
  getElementById 5 h 0 (js "x") = Some (Some 2).
Proof.
  intros h.
  rewrite (getElementById_identifier h 0 3 [1; 2] 5 (js "x")).
  - vm_compute. reflexivity.
  - split; [discriminate|]. repeat constructor.
  - reflexivity.
  - simpl. lia.
Defined.
(** ** [find] and [findAll] *)

(** Whether the node is an element that passes the filter. *)
Definition passes (h : Store) (tagName : jsstring) (attrs : option AttrFilter)
    (el : nat) : bool :=
  is_element h el && default false (matches_filter_at h el tagName attrs).

Lemma matches_filter_at_element h el tagName attrs :
  is_element h el = true ->
  matches_filter_at h el tagName attrs = Some (passes h tagName attrs el).
Proof.
  unfold passes, is_element, matches_filter_at.
  destruct (h !! el) as [n|]; [|done]. simpl. by destruct (kind n).
Qed.

Lemma passes_element h tagName attrs el :
  is_element h el = false -> passes h tagName attrs el = false.
Proof. unfold passes. by intros ->. Qed.

Lemma visit_all_filter h tagName attrs order results :
  visit h (fun el results =>
             match matches_filter_at h el tagName attrs with
             | None => None
             | Some true => Some (results ++ [el], true)
             | Some false => Some (results, true)
             end) order results =
  Some (results ++ List.filter (passes h tagName attrs) order).
Proof.
  revert results. induction order as [|el order IH]; intros results.
  - simpl. by rewrite app_nil_r.
  - cbn [visit List.filter]. destruct (is_element h el) eqn:Hel.
    + rewrite (matches_filter_at_element h el tagName attrs Hel).
      destruct (passes h tagName attrs el); [|apply IH].
      rewrite IH. by rewrite <- app_assoc.
    + rewrite (passes_element h tagName attrs el Hel). apply IH.
Qed.

Lemma visit_first_filter h tagName attrs order :
  visit h (fun el (found : option nat) =>
             match matches_filter_at h el tagName attrs with
             | None => None
             | Some true => Some (Some el, false)
             | Some false => Some (found, true)
             end) order None =
  Some (head (List.filter (passes h tagName attrs) order)).
Proof.
  induction order as [|el order IH]; [done|].
  cbn [visit List.filter]. destruct (is_element h el) eqn:Hel.
  - rewrite (matches_filter_at_element h el tagName attrs Hel).
    by destruct (passes h tagName attrs el).
  - by rewrite (passes_element h tagName attrs el Hel).
Qed.

(** X11. [findAll] returns the elements that pass the filter among the
    node itself and the nodes below it, in document order; [find] returns
    the first of them or [null]; without a tag and a filter, [find] on an
    element returns the element itself. *)
Theorem findAll_document_order (h : Store) (node d : nat) (order : list nat)
    (fuel : nat) (tag : option jsstring) (attrs : option AttrFilter) :
  subtree d h node = Some (node :: order) -> S (length order) < fuel ->
  findAll fuel h node tag attrs =
    Some (List.filter (passes h (filter_tag tag) attrs) (node :: order)) /\
  find fuel h node tag attrs =
    Some (head (List.filter (passes h (filter_tag tag) attrs) (node :: order))) /\
  (is_element h node = true -> find fuel h node None None = Some (Some node)).
Proof.
  intros Hsub Hfuel.
  assert (Hfind : forall tag attrs, find fuel h node tag attrs =
    Some (head (List.filter (passes h (filter_tag tag) attrs) (node :: order)))).
  { intros tag' attrs'. unfold find, findInTree.
    rewrite (walkElements_visit h _ node d order fuel None true Hsub Hfuel).
    apply visit_first_filter. }
  split; [|split].
  - unfold findAll, findAllInTree.
    rewrite (walkElements_visit h _ node d order fuel [] true Hsub Hfuel).
    apply visit_all_filter.
  - apply Hfind.
  - intros Hel. rewrite Hfind. cbn [List.filter].
    assert (Hpass : passes h (filter_tag None) None node = true).
    { unfold passes, matches_filter_at, is_element in *.
      destruct (h !! node) as [n|]; [|done]. simpl.
      by destruct (kind n). }
    by rewrite Hpass.
Qed.

Lemma findAll_document_order_witness :
  let h := [ {| kind := KDocument; parent := None; children := [1] |};
             {| kind := KElement (js "div") ∅; parent := Some 0; children := [2; 3] |};
             {| kind := KElement (js "p") ∅; parent := Some 1; children := [] |};
             {| kind := KElement (js "div") ∅; parent := Some 1; children := [] |} ] in
  findAll 5 h 1 (Some (js "DIV")) None = Some [1; 3] /\
  find 5 h 1 (Some (js "DIV")) None = Some (Some 1) /\
  find 5 h 1 None None = Some (Some 1).
Proof.
  intros h.
  destruct (findAll_document_order h 1 3 [2; 3] 5 (Some (js "DIV")) None)
    as (Hall & Hone & Hself).
  - reflexivity.
  - simpl. lia.
  - split; [exact Hall|]. split; [exact Hone|]. by apply Hself.
Defined.

(** The tag of a filter is lower-cased in every script: [findAll] with
    the capital Cyrillic letter U+0414 finds the element that the small
    letter U+0434 names. *)
Example findAll_in_every_script :
  let h := [ {| kind := KDocument; parent := None; children := [1] |};
             {| kind := KElement [1076%Z] ∅; parent := Some 0; children := [] |} ] in
  findAll 5 h 0 (Some [1044%Z]) None = Some [1].
Proof. vm_compute. reflexivity. Qed.

(** The lower case of an identifier is not the wildcard. *)
Lemma identifier_lower name :
  identifier name -> toLowerCase name <> [] /\ toLowerCase name <> js "*".
Proof.
  intros [Hne Hid]. split; [by intros ?%toLowerCase_nil|].
  assert (Hlatin : Forall basic_latin name).
  { eapply Forall_impl; [exact Hid|]. intros c Hc%isIdentifierChar_range.
    unfold basic_latin. lia. }
  rewrite (toLowerCase_basic_latin name Hlatin).
  destruct name as [|c name]; [done|].
  apply Forall_cons in Hid as [Hc%isIdentifierChar_range _].
  change (js "*") with [42%Z]. cbn [fmap list_fmap]. intros [= Heq _].
  unfold fold_latin in Heq. repeat case_match; lia.
Qed.

Lemma passes_tag_name h name el :
  name <> [] -> name <> js "*" ->
  passes h name None el = is_element h el && elem_matches h el (tag_name_part name).
Proof.
  intros Hne Hstar. unfold passes, elem_matches, matches_at, matches_filter_at.
  destruct (h !! el) as [n|]; [|done]. simpl.
  destruct (kind n) as [t a| |]; try done. f_equal; simpl.
  unfold matchesTagAndAttrs, matchesSelectorPart, str_eqb. simpl.
  destruct name as [|c name]; [done|]. simpl.
  rewrite (bool_decide_eq_false_2 (c :: name = js "*")) by done.
  rewrite (bool_decide_eq_false_2 (Some (c :: name) = Some (js "*"))) by congruence.
  simpl. case_bool_decide as H1; case_bool_decide as H2; simpl; congruence.
Qed.

(** X12. On a document, for a tag name that is an identifier,
    [findAll(name)] and [querySelectorAll(name)] return the same elements,
    and [find(name)] and [querySelector(name)] the same element. *)
Theorem findAll_querySelectorAll (h : Store) (doc d : nat) (order : list nat)
    (fuel : nat) (name : jsstring) :
  identifier name ->
  subtree d h doc = Some (doc :: order) -> is_element h doc = false ->
  S (length order) < fuel ->
  findAll fuel h doc (Some name) None = querySelectorAll fuel h doc name false /\
  find fuel h doc (Some name) None = querySelectorOne fuel h doc name false.
Proof.
  intros Hid Hsub Hdoc Hfuel.
  destruct (identifier_lower name Hid) as [Hne Hstar].
  assert (Htag : filter_tag (Some name) = toLowerCase name).
  { destruct Hid as [Hn _]. by destruct name. }
  assert (Hcompile : parseSelectorList fuel name =
            Some [[ {| combinator := Descendant;
                       part := tag_name_part (toLowerCase name) |} ]]).
  { apply parseSelectorList_one; [|apply Hid|lia|by apply parseSimpleSelector_name].
    destruct Hid as [_ Hid]. eapply Forall_impl; [done|]. simpl. auto. }
  assert (Hfilter : List.filter (passes h (toLowerCase name) None) (doc :: order) =
            List.filter (fun el => is_element h el &&
                           elem_matches h el (tag_name_part (toLowerCase name))) order).
  { cbn [List.filter]. rewrite (passes_element h _ _ doc Hdoc).
    apply filter_ext. intros el. by apply passes_tag_name. }
  unfold findAll, findAllInTree, find, findInTree, querySelectorAll, querySelectorOne.
  rewrite Hcompile, Htag. cbn [mbind option_bind].
  rewrite !(walkElements_visit h _ doc d order fuel _ _ Hsub Hfuel).
  rewrite visit_all_filter, visit_first_filter, visit_all_one, visit_first_one.
  by rewrite Hfilter.
Qed.

Lemma findAll_querySelectorAll_witness :
  let h := [ {| kind := KDocument; parent := None; children := [1] |};
             {| kind := KElement (js "div") ∅; parent := Some 0; children := [2; 3] |};
             {| kind := KElement (js "p") ∅; parent := Some 1; children := [] |};
             {| kind := KElement (js "div") ∅; parent := Some 1; children := [] |} ] in
  findAll 5 h 0 (Some (js "Div")) None = querySelectorAll 5 h 0 (js "Div") false /\
  find 5 h 0 (Some (js "Div")) None = querySelectorOne 5 h 0 (js "Div") false.
Proof.
  intros h. apply (findAll_querySelectorAll h 0 3 [1; 2; 3]).
  - split; [discriminate|]. repeat constructor.
  - reflexivity.
  - reflexivity.
  - simpl. lia.
Defined.
(** ** Queries on a parsed document *)

Lemma parse_tree html h :
  parse html = Some h ->
  0 < length h /\
  subtree (length h) h 0 = Some (0 :: seq 1 (length h - 1)) /\
  Forall (fun el => is_Some (ancestors (length h) h el)) (seq 1 (length h - 1)).
Proof.
  intros Hparse. destruct (parse_order html h Hparse) as [Hlen Hsub].
  destruct (parse_returns_tree html h Hparse) as (_ & _ & Hanc).
  split; [done|]. split; [done|].
  apply Forall_forall. intros el Hel%elem_of_seq. apply Hanc. lia.
Qed.

(** X13. On the document that [parse] returns, for a selector list that
    compiles, [querySelectorAll] returns the elements that some group
    matches, in the order of their construction (document order), each once;
    [querySelector] returns the first of them, or [null]. *)
Theorem parse_querySelectorAll (html : jsstring) (h : Store) (fuel : nat)
    (selector : jsstring) (groups : list (list SelectorStep)) :
  parse html = Some h ->
  parseSelectorList fuel selector = Some groups ->
  length h < fuel ->
  let nodes := seq 1 (length h - 1) in
  querySelectorAll fuel h 0 selector false =
    Some (List.filter (selected (length h) h groups) nodes) /\
  querySelectorOne fuel h 0 selector false =
    Some (head (List.filter (selected (length h) h groups) nodes)).
Proof.
  intros Hparse Hcompile Hfuel nodes.
  destruct (parse_tree html h Hparse) as (Hlen & Hsub & Hanc).
  apply (querySelectorAll_selected h 0 selector groups (length h) nodes fuel false);
    try done.
  - unfold nodes. rewrite length_seq. lia.
  - lia.
Qed.

Lemma parse_querySelectorAll_witness :
  let html := js "<p><b>x</b></p><b></b>" in
  exists h, parse html = Some h /\
    querySelectorAll 8 h 0 (js "p b, b") false = Some [2; 4] /\
    querySelectorOne 8 h 0 (js "p b, b") false = Some (Some 2).
Proof.
  intros html.
  destruct (parse html) as [h|] eqn:Hparse; [|by vm_compute in Hparse].
  destruct (parseSelectorList 8 (js "p b, b")) as [groups|] eqn:Hcompile;
    [|by vm_compute in Hcompile].
  exists h. split; [done|].
  destruct (parse_querySelectorAll html h 8 (js "p b, b") groups Hparse Hcompile)
    as [Hall Hone].
  - vm_compute in Hparse. injection Hparse as <-. simpl. lia.
  - rewrite Hall, Hone.
    vm_compute in Hparse. injection Hparse as <-.
    vm_compute in Hcompile. injection Hcompile as <-.
    vm_compute. done.
Defined.

(** X14. On the document that [parse] returns, for a selector list that
    compiles, [querySelectorAll(selector)] returns exactly the elements [el]
    of the document with [el.matches(selector)], in document order. *)
Theorem parse_querySelectorAll_matches (html : jsstring) (h : Store) (fuel : nat)
    (selector : jsstring) :
  parse html = Some h ->
  is_Some (parseSelectorList fuel selector) ->
  length h < fuel ->
  querySelectorAll fuel h 0 selector false =
    Some (List.filter
            (fun el => is_element h el &&
                       bool_decide (matchesSelector fuel h el selector = Some true))
            (seq 1 (length h - 1))).
Proof.
  intros Hparse [groups Hcompile] Hfuel.
  destruct (parse_tree html h Hparse) as (Hlen & Hsub & Hanc).
  destruct (querySelectorAll_selected h 0 selector groups (length h)
              (seq 1 (length h - 1)) fuel false) as [-> _]; try done.
  - rewrite length_seq. lia.
  - lia.
  - f_equal. apply filter_ext_in. intros el Hel.
    rewrite Forall_forall in Hanc.
    assert (Ha : is_Some (ancestors (length h) h el)).
    { apply Hanc. by apply list_elem_of_In. }
    unfold matchesSelector. rewrite Hcompile. cbn [mbind option_bind].
    destruct (is_element h el) eqn:Helem.
    + rewrite (matches_any_selected (length h) h groups el fuel Helem Ha) by lia.
      simpl. destruct (selected (length h) h groups el); by case_bool_decide.
    + unfold selected. by rewrite Helem.
Qed.

Lemma parse_querySelectorAll_matches_witness :
  let html := js "<p><b>x</b></p><b></b>" in
  exists h, parse html = Some h /\
    querySelectorAll 8 h 0 (js "p > b") false =
    Some (List.filter
            (fun el => is_element h el &&
                       bool_decide (matchesSelector 8 h el (js "p > b") = Some true))
            (seq 1 (length h - 1))).
Proof.
  intros html.
  destruct (parse html) as [h|] eqn:Hparse; [|by vm_compute in Hparse].
  exists h. split; [done|].
  apply (parse_querySelectorAll_matches html h 8 (js "p > b") Hparse).
  - vm_compute. by eexists.
  - vm_compute in Hparse. injection Hparse as <-. simpl. lia.
Defined.
(** ** [documentElement] *)

(** When the children that are not elements are leaves, the first child
    that is an element is the first element in document order. *)
Lemma first_element_child_order h cs kids :
  Forall2 (in_order h) cs kids ->
  (forall c n, c ∈ cs -> h !! c = Some n -> nodeType n <> Element -> children n = []) ->
  first_element_child h cs = Some (head (List.filter (is_element h) (concat kids))).
Proof.
  induction 1 as [|c kid cs kids Hc _ IH]; intros Hleaf; [done|].
  destruct (in_order_inv h c kid Hc) as (n & sub & Hn & Hsub & ->).
  simpl. rewrite Hn. simpl. unfold is_element, nodeType in *. rewrite Hn.
  destruct (kind n) as [t a|d|] eqn:Hk; [done| |].
  - rewrite (Hleaf c n) in Hsub; [|by left|done|by rewrite Hk].
    apply Forall2_nil_inv_l in Hsub as ->. simpl. apply IH.
    intros c' n' Hin. apply Hleaf. by right.
  - rewrite (Hleaf c n) in Hsub; [|by left|done|by rewrite Hk].
    apply Forall2_nil_inv_l in Hsub as ->. simpl. apply IH.
    intros c' n' Hin. apply Hleaf. by right.
Qed.

Lemma compile_star fuel :
  2 <= fuel ->
  parseSelectorList fuel (js "*") =
  Some [[ {| combinator := Descendant; part := tag_name_part (js "*") |} ]].
Proof.
  intros Hfuel. destruct fuel as [|[|fuel]]; [lia|lia|]. reflexivity.
Qed.

Lemma elem_matches_star h el :
  is_element h el && elem_matches h el (tag_name_part (js "*")) = is_element h el.
Proof.
  unfold is_element, elem_matches, matches_at.
  destruct (h !! el) as [n|]; [|done]. simpl. by destruct (kind n).
Qed.

(** X15. On the document that [parse] returns, [documentElement] is the
    first element in document order; [querySelector("*")] and
    [getElementById("")] return the same element, or [null] with it. *)
Theorem parse_documentElement (html : jsstring) (h : Store) (fuel : nat) :
  parse html = Some h -> length h < fuel ->
  documentElement h 0 =
    Some (head (List.filter (is_element h) (seq 1 (length h - 1)))) /\
  querySelectorOne fuel h 0 (js "*") false = documentElement h 0 /\
  getElementById fuel h 0 (js "") = documentElement h 0.
Proof.
  intros Hparse Hfuel.
  destruct (parse_order html h Hparse) as [Hlen Hsub].
  destruct (parse_shaped html h Hparse) as (fin & _ & <- & [Hok Hl _ _]).
  set (h := store fin) in *. set (nodes := seq 1 (length h - 1)) in *.
  assert (Hwalk : S (length nodes) < fuel).
  { unfold nodes. rewrite length_seq. lia. }
  assert (Hdoc : documentElement h 0 = Some (head (List.filter (is_element h) nodes))).
  { destruct (in_order_inv h 0 (0 :: nodes)) as (n & kids & Hn & Hkids & Heq);
      [by exists (length h)|].
    injection Heq as ->. unfold documentElement. rewrite Hn. simpl.
    apply first_element_child_order; [done|].
    intros c cn Hc Hcn Hkind.
    destruct (linked_child _ Hl 0 n c Hn Hc) as (cn' & Hcn' & Hpar).
    rewrite Hcn in Hcn'. injection Hcn' as <-.
    assert (Hc0 : c <> 0).
    { intros ->. destruct (linked_root _ Hl) as (r & Hr & _ & Hnone). fold h in Hr.
      rewrite Hcn in Hr. injection Hr as <-. congruence. }
    destruct (linked_rest _ Hl c cn Hcn Hc0) as [Hnotdoc _].
    unfold nodeType in Hkind.
    destruct (kind cn) as [t a|d|] eqn:Hk; [done| |done].
    by destruct (ok_text _ Hok c cn d Hcn Hk). }
  split; [done|]. rewrite Hdoc. split.
  - unfold querySelectorOne. rewrite (compile_star fuel) by lia.
    cbn [mbind option_bind].
    rewrite (walkElements_visit h _ 0 (length h) nodes fuel None false Hsub Hwalk).
    rewrite visit_first_one. do 2 f_equal. apply filter_ext, elem_matches_star.
  - unfold getElementById, querySelectorOne. rewrite (compile_hash fuel) by lia.
    cbn [mbind option_bind].
    rewrite (walkElements_visit h _ 0 (length h) nodes fuel None false Hsub Hwalk).
    apply visit_first_element.
Qed.

Lemma parse_documentElement_witness :
  let html := js "text<!doctype html><html><body></body></html>" in
  exists h, parse html = Some h /\ documentElement h 0 = Some (Some 2) /\
            querySelectorOne 8 h 0 (js "*") false = Some (Some 2).
Proof.
  intros html.
  destruct (parse html) as [h|] eqn:Hparse; [|by vm_compute in Hparse].
  exists h. split; [done|].
  destruct (parse_documentElement html h 8 Hparse) as (Hdoc & Hquery & _).
  - vm_compute in Hparse. injection Hparse as <-. simpl. lia.
  - rewrite Hquery, Hdoc. vm_compute in Hparse. injection Hparse as <-.
    split; reflexivity.
Defined.
(** ** Input without markup *)

Lemma find_from_no_lt s k :
  Forall (fun c => c <> 60%Z) s -> find_from (js "<") s k = None.
Proof.
  intros Hs. revert k. induction Hs as [|c s Hc _ IH]; intros k; [done|].
  unfold find_from; fold find_from.
  change (starts_with (js "<") (c :: s)) with ((60 =? c)%Z && true).
  rewrite (proj2 (Z.eqb_neq 60 c)) by congruence. simpl. apply IH.
Qed.

(** X16. For an input without [<], [parse] returns a document whose
    only child is a text node holding the decoded input (no child when that
    is empty), and the [textContent] of the document is the decoded input:
    the input itself when it holds no [&]. *)
Theorem parse_plain_text (html : jsstring) :
  Forall (fun c => c <> 60%Z) html ->
  exists h, parse html = Some h /\
    h = (if decide (decodeEntities html = []) then [new_node KDocument]
         else [ {| kind := KDocument; parent := None; children := [1] |};
                {| kind := KText (decodeEntities html); parent := Some 0;
                   children := [] |} ]) /\
    (forall fuel, 2 <= fuel -> textContent fuel h 0 = Some (decodeEntities html)) /\
    (Forall (fun c => c <> 38%Z) html -> decodeEntities html = html).
Proof.
  intros Hlt.
  assert (Hplain : forall s, Forall (fun c => c <> 38%Z) s -> decodeEntities s = s).
  { intros s Hamp. rewrite decodeEntities_replace. by apply replace_entities_plain. }
  assert (Hempty : decodeEntities [] = []) by (by apply Hplain).
  destruct html as [|c html].
  { exists [new_node KDocument]. rewrite Hempty. split; [done|]. split; [done|].
    split; [|apply Hplain]. intros [|fuel] Hfuel; [lia|done]. }
  set (s := c :: html) in *.
  assert (Hc : c <> 60%Z) by (by apply Forall_cons in Hlt as [? _]).
  assert (Hindex : indexOf (js "<") s 0 = None).
  { unfold indexOf. by apply find_from_no_lt. }
  assert (Hslice : slice s 0 (length s) = s).
  { unfold slice. rewrite drop_0, Nat.sub_0_r. apply firstn_all. }
  assert (Hstep : parse_step s (toLowerCase s) parse_init =
            Some (Continue,
                  {| store := (if decide (decodeEntities s = []) then [new_node KDocument]
                               else [ {| kind := KDocument; parent := None;
                                         children := [1] |};
                                      {| kind := KText (decodeEntities s);
                                         parent := Some 0; children := [] |} ]);
                     stack := [0]; pos := length s |})).
  { unfold parse_step. change (s !! pos parse_init) with (Some c).
    cbn [mbind option_bind]. rewrite (proj2 (Z.eqb_neq c 60)) by done.
    unfold text_run. change (pos parse_init) with 0. rewrite Hindex.
    cbn [default]. rewrite Hslice.
    rewrite (bool_decide_eq_false_2 (s = [])) by done.
    case_decide as Htext.
    - by rewrite bool_decide_eq_true_2.
    - by rewrite bool_decide_eq_false_2. }
  eexists. split; [|split; [reflexivity|]].
  - unfold parse, parse_run.
    change (parse_loop (S (length s)) s (toLowerCase s) parse_init)
      with (r ← parse_step s (toLowerCase s) parse_init;
            match r with
            | (Break, st') => Some st'
            | (Continue, st') => parse_loop (length s) s (toLowerCase s) st'
            end).
    rewrite Hstep. cbn [mbind option_bind].
    unfold s at 1. simpl length. unfold parse_loop. cbn [pos].
    fold s. change (S (length html)) with (length s). by rewrite Nat.leb_refl.
  - split; [|apply Hplain]. intros [|[|fuel]] Hfuel; [lia|lia|].
    case_decide as Htext; [by rewrite Htext|]. done.
Qed.

Lemma parse_plain_text_witness :
  exists h, parse (js "a &lt; b") = Some h /\
    textContent 2 h 0 = Some (js "a < b").
Proof.
  destruct (parse_plain_text (js "a &lt; b")) as (h & Hparse & _ & Htext & _).
  - repeat constructor; vm_compute; discriminate.
  - exists h. split; [done|]. by rewrite Htext.
Defined.
(** ** Class lists *)

Definition no_space (s : jsstring) : Prop := Forall (fun c => is_js_space c = false) s.

Definition starts_no_space (s : jsstring) : Prop :=
  match s with
  | [] => True
  | c :: _ => is_js_space c = false
  end.

Lemma trim_start_starts s : starts_no_space (trim_start s).
Proof.
  unfold trim_start. induction s as [|c s IH]; [done|]. simpl.
  destruct (is_js_space c) eqn:Hc; [done|]. simpl. done.
Qed.

Lemma last_drop_Some {A} k (l : list A) x : last (drop k l) = Some x -> last l = Some x.
Proof.
  revert l. induction k as [|k IH]; intros l; [done|].
  destruct l as [|y l]; [done|]. simpl. intros H%IH.
  destruct l; [done|done].
Qed.

Lemma trim_ends s c :
  (head (trim s) = Some c -> is_js_space c = false) /\
  (last (trim s) = Some c -> is_js_space c = false).
Proof.
  unfold trim. set (t := trim_start s).
  pose proof (trim_start_starts s) as Ht. fold t in Ht.
  pose proof (trim_start_starts (reverse t)) as Hr.
  split.
  - rewrite head_reverse. intros Hlast%last_drop_Some.
    rewrite last_reverse in Hlast. destruct t; [done|]. simpl in *. congruence.
  - rewrite last_reverse. destruct (trim_start (reverse t)); [done|].
    simpl in *. congruence.
Qed.

Lemma split_spaces_classes s :
  forall cur in_space,
    no_space cur ->
    (in_space = false -> cur = [] -> s <> [] /\ starts_no_space s) ->
    (in_space = true -> cur = [] /\ s <> []) ->
    (forall c, last s = Some c -> is_js_space c = false) ->
    Forall (fun cls => cls <> [] /\ no_space cls) (split_spaces s cur in_space).
Proof.
  induction s as [|c s IH]; intros cur in_space Hcur Hstart Hspace Hlast.
  - simpl. apply Forall_singleton. split; [|done].
    destruct in_space; [by destruct Hspace|].
    intros ->. by destruct Hstart.
  - simpl. destruct (is_js_space c) eqn:Hc.
    + assert (Hs : s <> []).
      { intros ->. specialize (Hlast c eq_refl). congruence. }
      assert (Hlast' : forall c', last s = Some c' -> is_js_space c' = false).
      { intros c' Hc'. apply Hlast. destruct s; [done|]. done. }
      destruct in_space.
      * apply IH; [constructor|done|done|done].
      * constructor.
        -- split; [|done]. intros ->. destruct Hstart as [_ Hst]; [done|done|].
           simpl in Hst. congruence.
        -- apply IH; [constructor|done|done|done].
    + apply IH.
      * apply Forall_app. split; [done|]. by apply Forall_singleton.
      * intros _ Heq. by destruct cur.
      * done.
      * intros c' Hc'. apply Hlast. destruct s; [done|]. done.
Qed.

(** X17. The classes that [splitClassList] returns are not empty and
    hold no white space; a value of white space only has no class. *)
Theorem splitClassList_classes (value : jsstring) :
  Forall (fun cls => cls <> [] /\ Forall (fun c => is_js_space c = false) cls)
         (splitClassList value) /\
  (Forall (fun c => is_js_space c = true) value -> splitClassList value = []).
Proof.
  split.
  - unfold splitClassList. case_bool_decide as Hempty; [constructor|].
    apply split_spaces_classes; [constructor| |done|].
    + intros _ _. split; [done|].
      destruct (trim value) as [|c t] eqn:Ht; [done|]. simpl.
      destruct (trim_ends value c) as [Hhead _]. apply Hhead. by rewrite Ht.
    + intros c. by destruct (trim_ends value c).
  - intros Hall. unfold splitClassList.
    assert (Htrim : trim value = []); [|by rewrite Htrim].
    unfold trim, trim_start.
    rewrite (span_len_whole _ _ Hall), drop_all. done.
Qed.
(** * Parsing what was written out

    A document written out in the plain syntax below (start and end tags
    with attributes, void elements, text, comments) is read back by
    [parse] as the tree that the same calls of [appendChild] build. *)

#[local] Set Warnings "-register-all".

(** How an attribute is written: [name='value'] or [name="value"] (the
    quote is the code unit 39 or 34), [name=value], or the name alone. *)
Inductive AttrText :=
| Quoted (quote : Z) (name value : jsstring)
| Unquoted (name value : jsstring)
| Valueless (name : jsstring).

Definition written_name (t : AttrText) : jsstring :=
  match t with
  | Quoted _ name _ | Unquoted name _ | Valueless name => name
  end.

(** The value of an attribute written without one is the empty string. *)
Definition written_value (t : AttrText) : jsstring :=
  match t with
  | Quoted _ _ value | Unquoted _ value => value
  | Valueless _ => []
  end.

Inductive Markup :=
| MElement (name : jsstring) (attrs : list AttrText) (content : list Markup)
| MVoid (name : jsstring) (attrs : list AttrText)
| MEmpty (name : jsstring) (attrs : list AttrText)
| MText (data : jsstring)
| MComment (body : jsstring)
| MDeclaration (body : jsstring).

Definition write_attr_body (t : AttrText) : jsstring :=
  match t with
  | Quoted quote name value => name ++ js "=" ++ [quote] ++ value ++ [quote]
  | Unquoted name value => name ++ js "=" ++ value
  | Valueless name => name
  end.

Definition write_attr (t : AttrText) : jsstring := js " " ++ write_attr_body t.

(** A start tag, closed by [>] or, when marked as self-closing, by [/>]. *)
Definition write_close (slash : bool) : jsstring := if slash then js "/>" else js ">".

Definition write_start (name : jsstring) (attrs : list AttrText)
    (slash : bool) : jsstring :=
  js "<" ++ name ++ flat_map write_attr attrs ++ write_close slash.

Fixpoint write (m : Markup) : jsstring :=
  match m with
  | MElement name attrs content =>
      write_start name attrs false ++ flat_map write content ++
      js "</" ++ name ++ js ">"
  | MVoid name attrs => write_start name attrs false
  | MEmpty name attrs => write_start name attrs true
  | MText data => data
  | MComment body => js "<!--" ++ body ++ js "-->"
  | MDeclaration body => js "<!" ++ body ++ js ">"
  end.

(** The attributes of the element: each value decoded and stored under
    the lower-case name, a later one over an earlier one of the same name. *)
Definition stored_attrs (attrs : list AttrText) : Attributes :=
  foldl (fun a t => attrs_set (toLowerCase (written_name t))
                              (decodeEntities (written_value t)) a) ∅ attrs.

(** The nodes of [m] built under the node [p]. *)
Fixpoint build (m : Markup) (p : nat) (h : Store) : Store :=
  match m with
  | MElement name attrs content =>
      let '(h1, element) := new_Element h name (stored_attrs attrs) in
      foldl (fun h' c => build c element h') (appendChild h1 p element) content
  | MVoid name attrs | MEmpty name attrs =>
      let '(h1, element) := new_Element h name (stored_attrs attrs) in
      appendChild h1 p element
  | MText data =>
      let '(h1, text) := new_TextNode h data in
      appendChild h1 p text
  | MComment _ | MDeclaration _ => h
  end.

Definition build_all (ms : list Markup) (p : nat) (h : Store) : Store :=
  foldl (fun h' c => build c p h') h ms.

(** No text directly after text: the two would be read as one. *)
Fixpoint separated (ms : list Markup) : Prop :=
  match ms with
  | [] => True
  | m :: ms' =>
      match m, ms' with
      | MText _, MText _ :: _ => False
      | _, _ => separated ms'
      end
  end.

(** What a value without quotes is made of. *)
Definition unquoted_char (c : Z) : Prop :=
  isWhitespace c = false /\ c <> 47%Z /\ c <> 62%Z.

(** The name is an identifier; a quoted value does not hold its quote; a
    value without quotes is not empty, does not start with a quote and
    holds no white space, [/] or [>]. *)
Definition attr_ok (t : AttrText) : Prop :=
  identifier (written_name t) /\
  match t with
  | Quoted quote _ value =>
      (quote = 34%Z \/ quote = 39%Z) /\ Forall (fun c => c <> quote) value
  | Unquoted _ value =>
      value <> [] /\ head value <> Some 34%Z /\ head value <> Some 39%Z /\
      Forall unquoted_char value
  | Valueless _ => True
  end.

Inductive well_formed : Markup -> Prop :=
| wf_element name attrs content :
    identifier name ->
    table_truthy VOID_ELEMENTS (toLowerCase name) = false ->
    table_truthy RAWTEXT_ELEMENTS (toLowerCase name) = false ->
    Forall attr_ok attrs ->
    Forall well_formed content -> separated content ->
    well_formed (MElement name attrs content)
| wf_void name attrs :
    identifier name ->
    table_truthy VOID_ELEMENTS (toLowerCase name) = true ->
    Forall attr_ok attrs ->
    well_formed (MVoid name attrs)
| wf_empty name attrs :
    identifier name -> Forall attr_ok attrs -> well_formed (MEmpty name attrs)
| wf_text data :
    data <> [] -> Forall (fun c => c <> 60%Z /\ c <> 38%Z) data ->
    well_formed (MText data)
| wf_comment body :
    Forall (fun c => c <> 62%Z) body -> well_formed (MComment body)
| wf_declaration body :
    Forall (fun c => c <> 62%Z) body -> head body <> Some 45%Z ->
    well_formed (MDeclaration body).

(** Well-formedness of a given piece of markup. *)
Ltac markup_ok :=
  repeat match goal with
         | |- Forall _ [] => constructor
         | |- Forall _ (_ :: _) => constructor
         | |- Forall _ (js ?s) =>
             let l := eval vm_compute in (js s) in change (js s) with l
         | |- well_formed _ => constructor
         | |- attr_ok _ => split; simpl
         | |- unquoted_char _ => split
         | |- identifier _ => split
         | |- _ /\ _ => split
         | |- 34%Z = 34%Z \/ _ => left
         | |- 39%Z = 34%Z \/ _ => right
         | |- _ <> _ => discriminate
         | |- _ = _ => reflexivity
         | |- True => exact I
         | |- separated _ => exact I
         end.

(** Induction on markup, with the hypothesis for the content. *)
Section Markup_induction.
Variable P : Markup -> Prop.
Hypothesis Pelement : forall name attrs content,
  Forall P content -> P (MElement name attrs content).
Hypothesis Pvoid : forall name attrs, P (MVoid name attrs).
Hypothesis Pempty : forall name attrs, P (MEmpty name attrs).
Hypothesis Ptext : forall data, P (MText data).
Hypothesis Pcomment : forall body, P (MComment body).
Hypothesis Pdeclaration : forall body, P (MDeclaration body).

Fixpoint Markup_content_ind (m : Markup) : P m :=
  match m with
  | MElement name attrs content =>
      Pelement name attrs content
        ((fix all (l : list Markup) : Forall P l :=
            match l with
            | [] => @List.Forall_nil _ P
            | c :: l' => @List.Forall_cons _ P c l' (Markup_content_ind c) (all l')
            end) content)
  | MVoid name attrs => Pvoid name attrs
  | MEmpty name attrs => Pempty name attrs
  | MText data => Ptext data
  | MComment body => Pcomment body
  | MDeclaration body => Pdeclaration body
  end.
End Markup_induction.

(** ** The input from the cursor on

    What the loops read at the position [j] depends on [drop j html]. *)

Definition stops (p : Z -> bool) (rest : jsstring) : Prop :=
  match rest with
  | [] => True
  | c :: _ => p c = false
  end.

Lemma cursor_lookup (html : jsstring) j c rest : drop j html = c :: rest -> html !! j = Some c.
Proof.
  intros H. rewrite <- (Nat.add_0_r j), <- lookup_drop. by rewrite H.
Qed.

Lemma cursor_lt (html : jsstring) j c rest : drop j html = c :: rest -> j < length html.
Proof. intros H%cursor_lookup. by eapply lookup_lt_Some. Qed.

Lemma cursor_move (html : jsstring) j s rest :
  drop j html = s ++ rest -> drop (j + length s) html = rest.
Proof. intros H. by rewrite <- drop_drop, H, drop_app_length. Qed.

Lemma cursor_length (html : jsstring) j s rest :
  drop j html = s ++ rest -> j <= length html ->
  j + length s + length rest = length html.
Proof.
  intros H Hj. assert (Hl : length (drop j html) = length (s ++ rest)) by by rewrite H.
  rewrite length_drop, length_app in Hl. lia.
Qed.

Lemma cursor_length_mid (html : jsstring) j s c rest :
  drop j html = s ++ c :: rest -> j + length s + S (length rest) = length html.
Proof.
  intros H. assert (Hl : length (drop j html) = length (s ++ c :: rest)) by by rewrite H.
  rewrite length_drop, length_app in Hl. simpl in Hl. lia.
Qed.

Lemma cursor_end (html : jsstring) j : drop j html = [] -> length html <= j.
Proof.
  intros H. assert (Hl : length (drop j html) = 0) by by rewrite H.
  rewrite length_drop in Hl. lia.
Qed.

Lemma cursor_skip p (html : jsstring) j s rest :
  drop j html = s ++ rest -> Forall (fun c => p c = true) s -> stops p rest ->
  skip_while p html j = j + length s.
Proof.
  intros H Hs Hrest. unfold skip_while. rewrite H. f_equal.
  destruct rest as [|c rest].
  - rewrite app_nil_r. by apply span_len_whole.
  - by apply span_len_all.
Qed.

Lemma cursor_slice (html : jsstring) j s rest :
  drop j html = s ++ rest -> slice html j (j + length s) = s.
Proof.
  intros H. unfold slice. rewrite H.
  replace (j + length s - j) with (length s) by lia. by rewrite take_app_length.
Qed.

Lemma cursor_is_code (html : jsstring) j c rest : drop j html = c :: rest -> is_code html j c = true.
Proof. intros H%cursor_lookup. unfold is_code. by apply bool_decide_eq_true. Qed.

Lemma cursor_is_not_code (html : jsstring) j c c' rest :
  drop j html = c :: rest -> c <> c' -> is_code html j c' = false.
Proof.
  intros H%cursor_lookup Hne. unfold is_code. apply bool_decide_eq_false. congruence.
Qed.

Lemma find_from_code c s rest k :
  Forall (fun x => x <> c) s -> find_from [c] (s ++ c :: rest) k = Some (k + length s).
Proof.
  intros Hs. revert k. induction Hs as [|x s Hx _ IH]; intros k.
  - simpl. rewrite Z.eqb_refl. simpl. f_equal. lia.
  - cbn [app find_from starts_with].
    rewrite (proj2 (Z.eqb_neq c x)) by congruence. cbn [andb].
    rewrite IH. f_equal. simpl. lia.
Qed.

Lemma find_from_absent c s k :
  Forall (fun x => x <> c) s -> find_from [c] s k = None.
Proof.
  intros Hs. revert k. induction Hs as [|x s Hx _ IH]; intros k; [done|].
  cbn [find_from starts_with].
  rewrite (proj2 (Z.eqb_neq c x)) by congruence. cbn [andb]. apply IH.
Qed.

Lemma cursor_indexOf_code (html : jsstring) j c s rest :
  drop j html = s ++ c :: rest -> j <= length html ->
  Forall (fun x => x <> c) s ->
  indexOf [c] html j = Some (j + length s).
Proof.
  intros H Hj Hs. unfold indexOf. rewrite H, Nat.min_l by done.
  by apply find_from_code.
Qed.

Lemma cursor_indexOf_absent (html : jsstring) j c s :
  drop j html = s -> Forall (fun x => x <> c) s -> indexOf [c] html j = None.
Proof. intros H Hs. unfold indexOf. rewrite H. by apply find_from_absent. Qed.

(** The end of a comment: the first [-->] after a body without [>]. *)
Lemma find_from_comment_end body rest k :
  Forall (fun x => x <> 62%Z) body ->
  find_from (js "-->") (body ++ js "-->" ++ rest) k = Some (k + length body).
Proof.
  intros Hb. revert k. induction Hb as [|x body Hx Hb IH]; intros k.
  - change ([] ++ js "-->" ++ rest) with (45 :: 45 :: 62 :: rest)%Z.
    cbn [find_from starts_with]. change (js "-->") with [45; 45; 62]%Z.
    cbn [starts_with]. rewrite !Z.eqb_refl. simpl. f_equal. lia.
  - assert (Hno : starts_with (js "-->") ((x :: body) ++ js "-->" ++ rest) = false).
    { change (js "-->") with [45; 45; 62]%Z.
      destruct body as [|y [|z body]]; cbn [app starts_with].
      - change (45 =? 62)%Z with false. by rewrite !andb_false_r.
      - change (45 =? 62)%Z with false. by rewrite !andb_false_r.
      - apply Forall_cons in Hb as [_ Hb]. apply Forall_cons in Hb as [Hz _].
        rewrite (proj2 (Z.eqb_neq 62 z)) by congruence. by rewrite !andb_false_r. }
    change ((x :: body) ++ js "-->" ++ rest) with (x :: (body ++ js "-->" ++ rest)) in *.
    cbn [find_from]. rewrite Hno, IH. f_equal. simpl. lia.
Qed.

(** ** One attribute *)

Lemma identifier_char_props c :
  isIdentifierChar c = true ->
  isWhitespace c = false /\ tag_name_char c = true /\ is_js_space c = false /\
  c <> 60%Z /\ c <> 62%Z /\ c <> 47%Z /\ c <> 61%Z /\ c <> 33%Z /\ c <> 39%Z.
Proof.
  intros H. pose proof (identifier_not_space c H) as Hsp.
  apply isIdentifierChar_range in H.
  unfold isWhitespace, tag_name_char, isWhitespace.
  rewrite !andb_true_iff, !negb_true_iff, !Z.eqb_neq, Z.leb_gt.
  repeat split; try done; lia.
Qed.

(** The white space that the reading of an attribute without a value
    skips behind it. *)
Definition skipped (t : AttrText) (attrs : list AttrText) : nat :=
  match t, attrs with
  | Valueless _, _ :: _ => 1
  | _, _ => 0
  end.

Definition name_char (c : Z) : bool :=
  negb (isWhitespace c || (c =? 61) || (c =? 47) || (c =? 62))%Z.

Lemma identifier_name_chars k :
  Forall (fun c => isIdentifierChar c = true) k -> Forall (fun c => name_char c = true) k.
Proof.
  intros Hk. eapply Forall_impl; [exact Hk|]. intros c Hc%identifier_char_props.
  destruct Hc as (Hws & _ & _ & _ & H62 & H47 & H61 & _). unfold name_char.
  rewrite Hws. by rewrite (proj2 (Z.eqb_neq c 61)), (proj2 (Z.eqb_neq c 47)),
    (proj2 (Z.eqb_neq c 62)) by done.
Qed.

(** What follows an attribute in a start tag: a space and the name of the
    next attribute, or the end of the tag. *)
Lemma after_attribute attrs slash rest :
  Forall attr_ok attrs ->
  match attrs with
  | [] => exists c tail, write_close slash ++ rest = c :: tail /\ (c = 47%Z \/ c = 62%Z)
  | t :: attrs' =>
      exists c tail,
        flat_map write_attr attrs ++ write_close slash ++ rest = 32%Z :: c :: tail /\
        isIdentifierChar c = true
  end.
Proof.
  intros Hok. destruct attrs as [|t attrs].
  - destruct slash; [exists 47%Z|exists 62%Z]; eexists; (split; [reflexivity|tauto]).
  - apply Forall_cons in Hok as [[[Hne Hid] _] _].
    assert (Hbody : exists c tail, write_attr_body t = c :: tail /\
                      isIdentifierChar c = true).
    { destruct (written_name t) as [|c k] eqn:Hk; [done|].
      apply Forall_cons in Hid as [Hc _].
      destruct t; simpl in Hk; subst; simpl; eauto. }
    destruct Hbody as (c & tail & Heq & Hc). exists c. eexists. split; [|done].
    cbn [flat_map]. unfold write_attr. rewrite Heq. reflexivity.
Qed.

Lemma read_attribute_written html j t attrs slash rest :
  drop j html = write_attr_body t ++ flat_map write_attr attrs ++
                write_close slash ++ rest ->
  attr_ok t -> Forall attr_ok attrs ->
  read_attribute html j =
  (toLowerCase (written_name t), written_value t,
   j + length (write_attr_body t) + skipped t attrs).
Proof.
  intros Hcur [[Hne Hk] Hok] Hattrs.
  pose proof (identifier_name_chars _ Hk) as Hname.
  pose proof (after_attribute attrs slash rest Hattrs) as Hafter.
  set (follow := flat_map write_attr attrs ++ write_close slash ++ rest) in *.
  destruct t as [q k v|k v|k]; cbn [written_name written_value write_attr_body] in *.
  - destruct Hok as [Hq Hv]. rewrite <- !app_assoc in Hcur.
    change (js "=" ++ [q] ++ v ++ [q] ++ follow) with (61%Z :: q :: v ++ q :: follow) in Hcur.
    set (j1 := j + length k).
    assert (Hcur1 : drop j1 html = 61%Z :: q :: v ++ q :: follow)
      by by apply cursor_move in Hcur.
    assert (Hcur2 : drop (S j1) html = q :: v ++ q :: follow).
    { apply (cursor_move _ _ [61%Z]) in Hcur1. by rewrite Nat.add_1_r in Hcur1. }
    assert (Hcur3 : drop (S (S j1)) html = v ++ q :: follow).
    { apply (cursor_move _ _ [q]) in Hcur2. by rewrite Nat.add_1_r in Hcur2. }
    set (j4 := S (S j1) + length v).
    assert (Hcur4 : drop j4 html = q :: follow) by by apply cursor_move in Hcur3.
    pose proof (cursor_lt _ _ _ _ Hcur1) as Hlt1.
    pose proof (cursor_lt _ _ _ _ Hcur2) as Hlt2.
    pose proof (cursor_lt _ _ _ _ Hcur4) as Hlt4.
    assert (Hws : isWhitespace q = false) by (by destruct Hq as [-> | ->]).
    unfold read_attribute. fold name_char.
    rewrite (cursor_skip _ html j k _ Hcur Hname) by done.
    rewrite (cursor_slice html j k _ Hcur). fold j1.
    rewrite (skip_while_stop isWhitespace html j1 61%Z);
      [|by eapply cursor_lookup|done].
    rewrite (proj2 (Nat.ltb_lt _ _) Hlt1), (cursor_is_code _ _ _ _ Hcur1). cbn [andb].
    rewrite (skip_while_stop isWhitespace html (S j1) q);
      [|by eapply cursor_lookup|done].
    rewrite (proj2 (Nat.ltb_lt _ _) Hlt2).
    assert (Hquote : is_code html (S j1) 34 || is_code html (S j1) 39 = true).
    { destruct Hq as [-> | ->]; rewrite (cursor_is_code _ _ _ _ Hcur2);
        [done|apply orb_true_r]. }
    rewrite Hquote. cbn [andb].
    rewrite (cursor_lookup _ _ _ _ Hcur2). cbn [default from_option id].
    rewrite (cursor_skip _ html (S (S j1)) v (q :: follow) Hcur3); [| |simpl].
    2:{ eapply Forall_impl; [exact Hv|]. intros c Hc. simpl.
        by rewrite (proj2 (Z.eqb_neq c q)). }
    2:{ by rewrite Z.eqb_refl. }
    rewrite (cursor_slice html (S (S j1)) v _ Hcur3). fold j4.
    rewrite (proj2 (Nat.ltb_lt _ _) Hlt4), (cursor_is_code _ _ _ _ Hcur4). cbn [andb].
    f_equal. unfold j4, j1. rewrite !length_app. change (length (js "=")) with 1.
    simpl. lia.
  - destruct Hok as (Hv & H34 & H39 & Hchars). rewrite <- !app_assoc in Hcur.
    change (js "=" ++ v ++ follow) with (61%Z :: v ++ follow) in Hcur.
    set (j1 := j + length k).
    assert (Hcur1 : drop j1 html = 61%Z :: v ++ follow) by by apply cursor_move in Hcur.
    assert (Hcur2 : drop (S j1) html = v ++ follow).
    { apply (cursor_move _ _ [61%Z]) in Hcur1. by rewrite Nat.add_1_r in Hcur1. }
    pose proof (cursor_lt _ _ _ _ Hcur1) as Hlt1.
    destruct v as [|c v]; [done|].
    pose proof (Forall_inv Hchars) as (Hws & _).
    assert (Hc : html !! S j1 = Some c) by (by eapply cursor_lookup).
    unfold read_attribute. fold name_char.
    rewrite (cursor_skip _ html j k _ Hcur Hname) by done.
    rewrite (cursor_slice html j k _ Hcur). fold j1.
    rewrite (skip_while_stop isWhitespace html j1 61%Z);
      [|by eapply cursor_lookup|done].
    rewrite (proj2 (Nat.ltb_lt _ _) Hlt1), (cursor_is_code _ _ _ _ Hcur1). cbn [andb].
    rewrite (skip_while_stop isWhitespace html (S j1) c) by done.
    assert (Hquote : is_code html (S j1) 34 || is_code html (S j1) 39 = false).
    { unfold is_code. rewrite Hc. simpl in H34, H39.
      by rewrite !bool_decide_eq_false_2 by congruence. }
    rewrite Hquote, andb_false_r.
    rewrite (cursor_skip _ html (S j1) (c :: v) follow Hcur2).
    + rewrite (cursor_slice html (S j1) (c :: v) _ Hcur2).
      f_equal. unfold j1. rewrite length_app. simpl. lia.
    + eapply Forall_impl; [exact Hchars|]. intros x (Hx & H47 & H62). simpl.
      by rewrite Hx, (proj2 (Z.eqb_neq x 47)), (proj2 (Z.eqb_neq x 62)).
    + subst follow. destruct attrs as [|t attrs].
      * destruct Hafter as (x & tail & Heq & Hx). cbn [flat_map app]. rewrite Heq.
        by destruct Hx as [-> | ->].
      * destruct Hafter as (x & tail & Heq & Hx). by rewrite Heq.
  - set (j1 := j + length k).
    assert (Hcur1 : drop j1 html = follow) by by apply cursor_move in Hcur.
    unfold read_attribute. fold name_char. subst follow.
    destruct attrs as [|t attrs].
    + destruct Hafter as (x & tail & Heq & Hx).
      cbn [flat_map app] in Hcur, Hcur1. rewrite Heq in Hcur, Hcur1.
      assert (Hstop : name_char x = false) by (by destruct Hx as [-> | ->]).
      assert (Hws : isWhitespace x = false) by (by destruct Hx as [-> | ->]).
      rewrite (cursor_skip _ html j k _ Hcur Hname) by done.
      rewrite (cursor_slice html j k _ Hcur). fold j1.
      rewrite (skip_while_stop isWhitespace html j1 x);
        [|by eapply cursor_lookup|done].
      rewrite (cursor_is_not_code html j1 x 61%Z tail Hcur1)
        by (by destruct Hx as [-> | ->]).
      rewrite andb_false_r. f_equal. simpl. lia.
    + destruct Hafter as (x & tail & Heq & Hx). rewrite Heq in Hcur, Hcur1.
      rewrite (cursor_skip _ html j k _ Hcur Hname) by done.
      rewrite (cursor_slice html j k _ Hcur). fold j1.
      assert (Hcur2 : drop (j1 + 1) html = x :: tail).
      { by apply (cursor_move _ _ [32%Z]) in Hcur1. }
      apply identifier_char_props in Hx as (Hws & _ & _ & _ & _ & _ & H61 & _).
      rewrite (cursor_skip isWhitespace html j1 [32%Z] (x :: tail) Hcur1);
        [|by constructor|done].
      change (length [32%Z]) with 1.
      rewrite (cursor_is_not_code html (j1 + 1) x 61%Z tail Hcur2) by done.
      rewrite andb_false_r. f_equal; simpl; unfold j1; lia.
Qed.
(** ** The attributes of a start tag *)

Lemma length_write_attr t : length (write_attr t) = S (length (write_attr_body t)).
Proof. reflexivity. Qed.

Lemma write_attr_body_head t :
  attr_ok t ->
  exists c tail, write_attr_body t = c :: tail /\ isIdentifierChar c = true.
Proof.
  intros [[Hne Hid] _]. destruct (written_name t) as [|c k] eqn:Hk; [done|].
  apply Forall_cons in Hid as [Hc _].
  destruct t; simpl in Hk; subst; simpl; eauto.
Qed.

(** The loop at the end of the tag. *)
Lemma read_attributes_close fuel html j a sc slash rest :
  drop j html = write_close slash ++ rest -> 0 < fuel ->
  read_attributes fuel html j a sc =
  Some (a, (if slash then true else sc), j + length (write_close slash)).
Proof.
  intros Hcur Hfuel. destruct fuel as [|fuel]; [lia|].
  destruct slash; unfold write_close in *.
  - change (js "/>" ++ rest) with (47%Z :: 62%Z :: rest) in Hcur.
    pose proof (cursor_lt _ _ _ _ Hcur) as Hlt.
    pose proof (cursor_move html j [47%Z] _ Hcur) as Hcur1.
    change (length [47%Z]) with 1 in Hcur1. rewrite Nat.add_1_r in Hcur1.
    cbn [read_attributes]. rewrite (proj2 (Nat.leb_gt _ _) Hlt).
    rewrite (cursor_lookup _ _ _ _ Hcur). cbn [mbind option_bind].
    change (isWhitespace 47) with false. change (47 =? 47)%Z with true. cbv iota.
    rewrite (skip_while_stop isWhitespace html (S j) 62%Z);
      [|by eapply cursor_lookup|done].
    rewrite (proj2 (Nat.ltb_lt _ _) (cursor_lt _ _ _ _ Hcur1)).
    rewrite (cursor_is_code _ _ _ _ Hcur1). cbn [andb]. simpl. do 2 f_equal. lia.
  - change (js ">" ++ rest) with (62%Z :: rest) in Hcur.
    pose proof (cursor_lt _ _ _ _ Hcur) as Hlt.
    cbn [read_attributes]. rewrite (proj2 (Nat.leb_gt _ _) Hlt).
    rewrite (cursor_lookup _ _ _ _ Hcur). cbn [mbind option_bind].
    change (isWhitespace 62) with false. change (62 =? 47)%Z with false.
    change (62 =? 62)%Z with true. cbv iota. simpl. do 2 f_equal. lia.
Qed.

(** The loop at the name of an attribute. *)
Lemma read_attributes_body attrs :
  forall t fuel html j a sc slash rest,
    drop j html = write_attr_body t ++ flat_map write_attr attrs ++
                  write_close slash ++ rest ->
    attr_ok t -> Forall attr_ok attrs -> 2 * length (t :: attrs) <= fuel ->
    read_attributes fuel html j a sc =
    Some (foldl (fun a t => attrs_set (toLowerCase (written_name t))
                                      (decodeEntities (written_value t)) a) a (t :: attrs),
          (if slash then true else sc),
          j + length (write_attr_body t) + length (flat_map write_attr attrs) +
          length (write_close slash)).
Proof.
  induction attrs as [|t' attrs IH]; intros t fuel html j a sc slash rest Hcur Ht Hok Hfuel;
    (destruct fuel as [|fuel]; [simpl in Hfuel; lia|]);
    destruct (write_attr_body_head t Ht) as (c & tail & Hbody & Hc);
    pose proof Hcur as Hfirst; rewrite Hbody in Hfirst;
    pose proof (cursor_lt _ _ _ _ Hfirst) as Hlt;
    apply identifier_char_props in Hc as (Hws & _ & _ & _ & H62 & H47 & _);
    assert (Hname : toLowerCase (written_name t) <> [])
      by (intros Hnil%toLowerCase_nil; by destruct Ht as [[? _] _]);
    cbn [read_attributes]; rewrite (proj2 (Nat.leb_gt _ _) Hlt);
    rewrite (cursor_lookup _ _ _ _ Hfirst); cbn [mbind option_bind];
    rewrite Hws, (proj2 (Z.eqb_neq c 47)), (proj2 (Z.eqb_neq c 62)) by done;
    cbv iota;
    rewrite (read_attribute_written html j t _ slash rest Hcur Ht Hok);
    rewrite (bool_decide_eq_false_2 _ Hname);
    pose proof (cursor_move html j _ _ Hcur) as Hnext.
  - assert (Hskip : skipped t [] = 0) by (by destruct t). rewrite Hskip, Nat.add_0_r.
    cbn [flat_map app] in Hnext.
    rewrite (read_attributes_close fuel html _ _ sc slash rest Hnext)
      by (simpl in Hfuel; lia).
    cbn [foldl flat_map length]. do 2 f_equal. lia.
  - apply Forall_cons in Hok as [Ht' Hok].
    cbn [flat_map] in Hnext. unfold write_attr at 1 in Hnext.
    rewrite <- !app_assoc in Hnext.
    change (js " " ++ ?s) with (32%Z :: s) in Hnext.
    pose proof (cursor_move html _ [32%Z] _ Hnext) as Hnext1.
    change (length [32%Z]) with 1 in Hnext1.
    assert (Hlen : length (flat_map write_attr (t' :: attrs)) =
                   S (length (write_attr_body t') + length (flat_map write_attr attrs))).
    { cbn [flat_map]. by rewrite length_app, length_write_attr. }
    destruct (decide (skipped t (t' :: attrs) = 1)) as [Hone|Hzero].
    + rewrite Hone.
      rewrite (IH t' fuel html _ _ sc slash rest Hnext1 Ht' Hok)
        by (simpl in Hfuel |- *; lia).
      cbn [foldl]. do 2 f_equal. rewrite Hlen. lia.
    + assert (Hskip : skipped t (t' :: attrs) = 0) by (destruct t; simpl in *; lia).
      rewrite Hskip, Nat.add_0_r.
      pose proof (cursor_lt _ _ _ _ Hnext) as Hlt'.
      destruct fuel as [|fuel]; [simpl in Hfuel; lia|].
      cbn [read_attributes]. rewrite (proj2 (Nat.leb_gt _ _) Hlt').
      rewrite (cursor_lookup _ _ _ _ Hnext). cbn [mbind option_bind].
      change (isWhitespace 32) with true. cbv iota.
      rewrite Nat.add_1_r in Hnext1.
      rewrite (IH t' fuel html _ _ sc slash rest Hnext1 Ht' Hok)
        by (simpl in Hfuel |- *; lia).
      cbn [foldl]. do 2 f_equal. rewrite Hlen. lia.
Qed.

Lemma read_attributes_written attrs :
  forall fuel html j a sc slash rest,
    drop j html = flat_map write_attr attrs ++ write_close slash ++ rest ->
    Forall attr_ok attrs -> 2 * length attrs < fuel ->
    read_attributes fuel html j a sc =
    Some (foldl (fun a t => attrs_set (toLowerCase (written_name t))
                                      (decodeEntities (written_value t)) a) a attrs,
          (if slash then true else sc),
          j + length (flat_map write_attr attrs) + length (write_close slash)).
Proof.
  intros fuel html j a sc slash rest Hcur Hok Hfuel.
  destruct attrs as [|t attrs].
  - simpl in Hcur. rewrite (read_attributes_close fuel html j a sc slash rest Hcur) by lia.
    simpl. do 2 f_equal. lia.
  - apply Forall_cons in Hok as [Ht Hok].
    destruct fuel as [|fuel]; [lia|].
    cbn [flat_map] in Hcur. unfold write_attr at 1 in Hcur.
    rewrite <- !app_assoc in Hcur.
    change (js " " ++ ?s) with (32%Z :: s) in Hcur.
    pose proof (cursor_lt _ _ _ _ Hcur) as Hlt.
    pose proof (cursor_move html j [32%Z] _ Hcur) as Hcur1.
    change (length [32%Z]) with 1 in Hcur1. rewrite Nat.add_1_r in Hcur1.
    cbn [read_attributes]. rewrite (proj2 (Nat.leb_gt _ _) Hlt).
    rewrite (cursor_lookup _ _ _ _ Hcur). cbn [mbind option_bind].
    change (isWhitespace 32) with true. cbv iota.
    rewrite (read_attributes_body attrs t fuel html (S j) a sc slash rest Hcur1 Ht Hok)
      by (simpl in Hfuel |- *; lia).
    do 2 f_equal. cbn [flat_map]. rewrite length_app, length_write_attr. lia.
Qed.

Lemma length_write_start name attrs slash :
  length (write_start name attrs slash) =
  length name + length (flat_map write_attr attrs) + length (write_close slash) + 1.
Proof.
  unfold write_start. rewrite !length_app. change (length (js "<")) with 1. lia.
Qed.

Lemma length_attrs_fuel attrs :
  Forall attr_ok attrs -> 2 * length attrs <= length (flat_map write_attr attrs).
Proof.
  induction 1 as [|t attrs Ht _ IH]; [done|].
  destruct (write_attr_body_head t Ht) as (c & tail & Hbody & _).
  cbn [flat_map]. rewrite length_app, length_write_attr, Hbody. simpl. lia.
Qed.

(** The start tag that [write_start] writes, as the loop reads it. *)
Lemma start_tag_written html i name attrs slash rest :
  drop i html = write_start name attrs slash ++ rest ->
  identifier name -> Forall attr_ok attrs ->
  start_tag_at html i (toLowerCase name) (stored_attrs attrs) slash
               (i + length (write_start name attrs slash)).
Proof.
  intros Hcur Hname Hattrs. unfold write_start in Hcur.
  rewrite <- !app_assoc in Hcur.
  change (js "<" ++ ?t) with (60%Z :: t) in Hcur.
  pose proof (cursor_move html i [60%Z] _ Hcur) as Hcur1.
  change (length [60%Z]) with 1 in Hcur1.
  pose proof (cursor_move html (i + 1) name _ Hcur1) as Hcur2.
  pose proof (cursor_lt _ _ _ _ Hcur) as Hlt.
  destruct Hname as [Hne Hid].
  assert (Hfirst : exists c name', name = c :: name' /\ isIdentifierChar c = true).
  { destruct name as [|c name']; [done|]. apply Forall_cons in Hid as [? _]. eauto. }
  destruct Hfirst as (c & name' & Heq & Hc%identifier_char_props).
  split; [by eapply cursor_lookup|]. split.
  { rewrite Heq in Hcur1. rewrite (cursor_lookup _ _ _ _ Hcur1).
    intros [= ->]. by destruct Hc as (_ & _ & _ & _ & _ & _ & _ & ? & _). }
  unfold read_start_tag.
  rewrite (cursor_skip tag_name_char html (i + 1) name _ Hcur1).
  - rewrite (cursor_slice html (i + 1) name _ Hcur1).
    rewrite bool_decide_eq_false_2 by done.
    rewrite (read_attributes_written attrs _ html _ ∅ false slash rest Hcur2 Hattrs).
    + cbn [mbind option_bind]. rewrite length_write_start. unfold stored_attrs.
      destruct slash; do 3 f_equal; lia.
    + pose proof (length_attrs_fuel attrs Hattrs).
      assert (Hl : length (drop (i + 1 + length name) html) <= length html)
        by (rewrite length_drop; lia).
      rewrite Hcur2, !length_app in Hl. lia.
  - eapply Forall_impl; [done|]. by intros x (_ & ? & _)%identifier_char_props.
  - destruct attrs as [|t attrs]; [by destruct slash|done].
Qed.

(** ** The turns of the loop on written markup *)

Lemma step_start_tag html st top name attrs slash rest :
  drop (pos st) html = write_start name attrs slash ++ rest ->
  identifier name -> Forall attr_ok attrs ->
  slash = true \/ table_truthy RAWTEXT_ELEMENTS (toLowerCase name) = false \/
  table_truthy VOID_ELEMENTS (toLowerCase name) = true ->
  last (stack st) = Some top ->
  parse_step html (toLowerCase html) st =
  Some (Continue,
        {| store := appendChild
                      (store st ++ [new_node (KElement (toLowerCase name)
                                                       (stored_attrs attrs))])
                      top (length (store st));
           stack := (if slash || table_truthy VOID_ELEMENTS (toLowerCase name)
                     then stack st else stack st ++ [length (store st)]);
           pos := pos st + length (write_start name attrs slash) |}).
Proof.
  intros Hcur Hname Hattrs Hkind Htop.
  rewrite (parse_step_start_tag html _ st _ _ _ _
             (start_tag_written html (pos st) name attrs slash rest Hcur Hname Hattrs)).
  unfold open_element, new_Element. rewrite Htop. cbn [mbind option_bind].
  rewrite toLowerCase_idemp.
  destruct slash; cbn [negb andb orb]; [done|].
  destruct (table_truthy VOID_ELEMENTS (toLowerCase name)) eqn:Hvoid; cbn [negb]; [done|].
  destruct Hkind as [?|[-> | ?]]; done.
Qed.

Lemma not_comment_second (html : jsstring) i c rest :
  drop i html = 60%Z :: c :: rest -> c <> 33%Z ->
  (i + 3 <? length html) && str_eqb (slice html i (i + 4)) (js "<!--") = false.
Proof.
  intros Hcur Hc. rewrite (not_comment_start html i c); [apply andb_false_r| |done].
  apply (cursor_move html i [60%Z]) in Hcur. change (length [60%Z]) with 1 in Hcur.
  by eapply cursor_lookup.
Qed.

Lemma step_end_tag html st element name a rest :
  drop (pos st) html = js "</" ++ name ++ js ">" ++ rest ->
  identifier name ->
  last (stack st) = Some element -> 1 < length (stack st) ->
  (exists n, store st !! element = Some n /\ kind n = KElement (toLowerCase name) a) ->
  parse_step html (toLowerCase html) st =
  Some (Continue,
        {| store := store st; stack := removelast (stack st);
           pos := pos st + (length name + 3) |}).
Proof.
  intros Hcur [Hne Hid] Htop Hlen (n & Hn & Hkind).
  change (js "</" ++ name ++ js ">" ++ rest)
    with (60%Z :: 47%Z :: (name ++ 62%Z :: rest)) in Hcur.
  pose proof (cursor_move html (pos st) [60%Z; 47%Z] _ Hcur) as Hcur2.
  pose proof (cursor_move html (pos st) [60%Z] _ Hcur) as Hcur1.
  change (length [60%Z; 47%Z]) with 2 in Hcur2. change (length [60%Z]) with 1 in Hcur1.
  pose proof (cursor_lt _ _ _ _ Hcur) as Hlt.
  pose proof (cursor_lt _ _ _ _ Hcur1) as Hlt1.
  unfold parse_step. rewrite (cursor_lookup _ _ _ _ Hcur). cbn [mbind option_bind].
  change (60 =? 60)%Z with true. cbv iota.
  rewrite (not_comment_second html (pos st) 47%Z _ Hcur) by done.
  rewrite (cursor_is_not_code html (pos st + 1) 47%Z 33%Z _ Hcur1) by done.
  rewrite andb_false_r.
  rewrite (cursor_is_code html (pos st + 1) 47%Z _ Hcur1).
  rewrite (proj2 (Nat.ltb_lt _ _) Hlt1). cbn [andb].
  unfold end_tag. change (js ">") with [62%Z].
  rewrite (cursor_indexOf_code html (pos st + 2) 62%Z name rest Hcur2); [|lia|].
  2:{ eapply Forall_impl; [done|]. intros c Hc%identifier_char_props. tauto. }
  rewrite (cursor_slice html (pos st + 2) name _ Hcur2).
  rewrite trim_id.
  2:{ eapply Forall_impl; [done|]. intros c Hc%identifier_char_props. tauto. }
  rewrite bool_decide_eq_false_2 by (by intros ?%toLowerCase_nil).
  destruct (length (stack st)) as [|[|m]] eqn:Hm; [lia|lia|].
  replace (S (S m) - 1) with (S m) by lia.
  rewrite last_lookup, Hm in Htop. simpl in Htop.
  cbn [close_scan]. rewrite Htop. cbn [mbind option_bind].
  unfold is_element_named. rewrite Hn. cbn [mbind option_bind]. rewrite Hkind.
  unfold str_eqb. rewrite bool_decide_eq_true_2 by done.
  cbn [mbind option_bind]. do 3 f_equal; [|lia].
  rewrite removelast_firstn_len, Hm. done.
Qed.

Lemma step_text html st top data rest :
  drop (pos st) html = data ++ rest ->
  data <> [] -> Forall (fun c => c <> 60%Z /\ c <> 38%Z) data ->
  rest = [] \/ head rest = Some 60%Z ->
  last (stack st) = Some top ->
  parse_step html (toLowerCase html) st =
  Some (Continue,
        {| store := appendChild (store st ++ [new_node (KText data)]) top
                                (length (store st));
           stack := stack st; pos := pos st + length data |}).
Proof.
  intros Hcur Hne Hdata Hrest Htop.
  assert (Hlt60 : Forall (fun c => c <> 60%Z) data).
  { eapply Forall_impl; [exact Hdata|]. by intros c [? _]. }
  assert (Hamp : Forall (fun c => c <> 38%Z) data).
  { eapply Forall_impl; [exact Hdata|]. by intros c [_ ?]. }
  assert (Hfirst : exists c data', data = c :: data' /\ c <> 60%Z).
  { destruct data as [|c data']; [done|]. pose proof (Forall_inv Hlt60). eauto. }
  destruct Hfirst as (c & data' & Heq & Hc).
  assert (Hlt : pos st < length html).
  { rewrite Heq in Hcur. by eapply cursor_lt. }
  assert (Hend : default (length html) (indexOf (js "<") html (pos st)) =
                 pos st + length data).
  { change (js "<") with [60%Z]. destruct Hrest as [-> |Hhead].
    - rewrite app_nil_r in Hcur.
      rewrite (cursor_indexOf_absent html (pos st) 60%Z data Hcur Hlt60). simpl.
      pose proof (cursor_length html (pos st) data [] ) as Hl.
      rewrite app_nil_r in Hl. specialize (Hl Hcur). simpl in Hl. lia.
    - destruct rest as [|x rest]; [done|]. injection Hhead as ->.
      by rewrite (cursor_indexOf_code html (pos st) 60%Z data rest Hcur) by (lia || done). }
  unfold parse_step. rewrite Heq in Hcur. rewrite (cursor_lookup _ _ _ _ Hcur).
  rewrite <- Heq in Hcur. cbn [mbind option_bind].
  rewrite (proj2 (Z.eqb_neq c 60)) by done.
  unfold text_run. rewrite Hend, (cursor_slice html (pos st) data rest Hcur).
  rewrite bool_decide_eq_false_2 by done.
  assert (Hdecode : decodeEntities data = data).
  { rewrite decodeEntities_replace. by apply replace_entities_plain. }
  rewrite Hdecode, bool_decide_eq_false_2 by done.
  rewrite Htop. done.
Qed.

Lemma step_comment html st body rest :
  drop (pos st) html = js "<!--" ++ body ++ js "-->" ++ rest ->
  Forall (fun c => c <> 62%Z) body ->
  parse_step html (toLowerCase html) st =
  Some (Continue,
        {| store := store st; stack := stack st;
           pos := pos st + (length body + 7) |}).
Proof.
  intros Hcur Hbody.
  change (js "<!--" ++ body ++ js "-->" ++ rest)
    with (js "<!--" ++ (body ++ js "-->" ++ rest)) in Hcur.
  pose proof (cursor_move html (pos st) (js "<!--") _ Hcur) as Hcur4.
  change (length (js "<!--")) with 4 in Hcur4.
  assert (Hlt : pos st < length html).
  { change (js "<!--" ++ (body ++ js "-->" ++ rest))
      with (60%Z :: (js "!--" ++ body ++ js "-->" ++ rest)) in Hcur.
    by eapply cursor_lt. }
  pose proof (cursor_length html (pos st) _ _ Hcur) as Hlen.
  rewrite !length_app in Hlen. change (length (js "<!--")) with 4 in Hlen.
  change (length (js "-->")) with 3 in Hlen.
  unfold parse_step.
  assert (H60 : html !! pos st = Some 60%Z).
  { change (js "<!--" ++ (body ++ js "-->" ++ rest))
      with (60%Z :: (js "!--" ++ body ++ js "-->" ++ rest)) in Hcur.
    by eapply cursor_lookup. }
  rewrite H60. cbn [mbind option_bind]. change (60 =? 60)%Z with true. cbv iota.
  rewrite (proj2 (Nat.ltb_lt (pos st + 3) (length html))) by lia.
  pose proof (cursor_slice html (pos st) (js "<!--") _ Hcur) as Hslice.
  change (length (js "<!--")) with 4 in Hslice. rewrite Hslice.
  unfold str_eqb. rewrite bool_decide_eq_true_2 by done. cbn [andb].
  unfold indexOf. rewrite Hcur4, Nat.min_l by lia.
  rewrite (find_from_comment_end body rest _ Hbody). do 3 f_equal. lia.
Qed.

Lemma step_declaration html st body rest :
  drop (pos st) html = js "<!" ++ body ++ js ">" ++ rest ->
  Forall (fun c => c <> 62%Z) body -> head body <> Some 45%Z ->
  parse_step html (toLowerCase html) st =
  Some (Continue,
        {| store := store st; stack := stack st;
           pos := pos st + (length body + 3) |}).
Proof.
  intros Hcur Hbody Hhead.
  change (js "<!" ++ body ++ js ">" ++ rest)
    with (60%Z :: 33%Z :: (body ++ 62%Z :: rest)) in Hcur.
  pose proof (cursor_move html (pos st) [60%Z] _ Hcur) as Hcur1.
  pose proof (cursor_move html (pos st) [60%Z; 33%Z] _ Hcur) as Hcur2.
  change (length [60%Z]) with 1 in Hcur1. change (length [60%Z; 33%Z]) with 2 in Hcur2.
  assert (Hthird : html !! (pos st + 2) <> Some 45%Z).
  { destruct body as [|c body].
    - by rewrite (cursor_lookup _ _ _ _ Hcur2).
    - rewrite (cursor_lookup _ _ _ _ Hcur2). simpl in Hhead. congruence. }
  assert (Hnot : str_eqb (slice html (pos st) (pos st + 4)) (js "<!--") = false).
  { apply bool_decide_eq_false. intros Heq.
    assert (H : slice html (pos st) (pos st + 4) !! 2 = Some 45%Z) by by rewrite Heq.
    unfold slice in H. rewrite lookup_take_lt in H by lia.
    rewrite lookup_drop in H. congruence. }
  unfold parse_step. rewrite (cursor_lookup _ _ _ _ Hcur). cbn [mbind option_bind].
  change (60 =? 60)%Z with true. cbv iota.
  rewrite Hnot, andb_false_r.
  rewrite (proj2 (Nat.ltb_lt _ _) (cursor_lt _ _ _ _ Hcur1)).
  rewrite (cursor_is_code _ _ _ _ Hcur1). cbn [andb].
  change (js ">") with [62%Z].
  rewrite (cursor_indexOf_code html (pos st + 2) 62%Z body rest Hcur2);
    [|pose proof (cursor_lt _ _ _ _ Hcur1); lia|done].
  do 3 f_equal. lia.
Qed.
(** ** The run of the loop on written markup *)

Lemma steps_trans html a b c : steps html a b -> steps html b c -> steps html a c.
Proof.
  induction 1 as [|a a' b Hlt Hstep _ IH]; [done|].
  intros Hbc. eapply steps_cons; [done|done|by apply IH].
Qed.

Lemma steps_one html a b :
  pos a < length html -> parse_step html (toLowerCase html) a = Some (Continue, b) ->
  steps html a b.
Proof. intros Hlt Hstep. eapply steps_cons; [done|done|constructor]. Qed.

Lemma appendChild_kind h p c id n :
  h !! id = Some n -> exists n', appendChild h p c !! id = Some n' /\ kind n' = kind n.
Proof.
  intros Hn. unfold appendChild.
  assert (Halter : forall (f : Node -> Node) i (l : Store) x,
            (forall y, kind (f y) = kind y) -> l !! id = Some x ->
            exists x', alter f i l !! id = Some x' /\ kind x' = kind x).
  { intros f i l x Hf Hx. destruct (decide (i = id)) as [->|Hne].
    - rewrite list_lookup_alter_eq, Hx. simpl. eauto.
    - rewrite list_lookup_alter_ne by done. eauto. }
  destruct (Halter (set_parent p) c h n) as (x & Hx & Hkx); [done|done|].
  destruct (Halter (push_child c) p (alter (set_parent p) c h) x)
    as (y & Hy & Hky); [done|done|].
  exists y. split; [done|congruence].
Qed.

Definition keeps_kinds (m : Markup) : Prop :=
  forall p h id n, h !! id = Some n ->
    exists n', build m p h !! id = Some n' /\ kind n' = kind n.

Lemma build_all_kinds ms :
  Forall keeps_kinds ms ->
  forall p h id n, h !! id = Some n ->
    exists n', build_all ms p h !! id = Some n' /\ kind n' = kind n.
Proof.
  induction 1 as [|m ms Hm _ IH]; intros p h id n Hn; [eauto|].
  unfold build_all. cbn [foldl].
  destruct (Hm p h id n Hn) as (n1 & Hn1 & Hk1).
  destruct (IH p _ id n1 Hn1) as (n2 & Hn2 & Hk2).
  exists n2. split; [done|congruence].
Qed.

Lemma build_kinds m : keeps_kinds m.
Proof.
  induction m as [name attrs content IH|name attrs|name attrs|data|body|body]
    using Markup_content_ind;
    intros p h id n Hn; cbn [build]; unfold new_Element, new_TextNode.
  - destruct (appendChild_kind (h ++ [new_node (KElement (toLowerCase name)
                                                         (stored_attrs attrs))])
                p (length h) id n) as (n1 & Hn1 & Hk1); [by apply lookup_app_l_Some|].
    destruct (build_all_kinds content IH (length h) _ id n1 Hn1) as (n2 & Hn2 & Hk2).
    exists n2. split; [done|congruence].
  - apply appendChild_kind. by apply lookup_app_l_Some.
  - apply appendChild_kind. by apply lookup_app_l_Some.
  - apply appendChild_kind. by apply lookup_app_l_Some.
  - eauto.
  - eauto.
Qed.

Definition opens (rest : jsstring) : Prop := rest = [] \/ head rest = Some 60%Z.

Definition is_text (m : Markup) : bool :=
  match m with
  | MText _ => true
  | _ => false
  end.

Lemma write_opens m rest : is_text m = false -> opens (write m ++ rest).
Proof. destruct m; try done; intros _; by right. Qed.

Lemma write_start_lt (html : jsstring) j name attrs slash rest :
  drop j html = write_start name attrs slash ++ rest -> j < length html.
Proof.
  change (write_start name attrs slash ++ rest)
    with (60%Z :: ((name ++ flat_map write_attr attrs ++ write_close slash) ++ rest)).
  apply cursor_lt.
Qed.

(** The loop reads [write m] at the cursor and builds [m] under the
    current container. *)
Definition runs (m : Markup) : Prop :=
  forall html st top rest,
    drop (pos st) html = write m ++ rest ->
    last (stack st) = Some top ->
    (is_text m = true -> opens rest) ->
    well_formed m ->
    steps html st {| store := build m top (store st); stack := stack st;
                     pos := pos st + length (write m) |}.

Lemma runs_all ms :
  Forall runs ms ->
  forall html st top rest,
    drop (pos st) html = flat_map write ms ++ rest ->
    last (stack st) = Some top -> opens rest ->
    Forall well_formed ms -> separated ms ->
    steps html st {| store := build_all ms top (store st); stack := stack st;
                     pos := pos st + length (flat_map write ms) |}.
Proof.
  induction 1 as [|m ms Hm _ IH]; intros html st top rest Hcur Htop Hrest Hwf Hsep.
  - simpl. rewrite Nat.add_0_r. destruct st. constructor.
  - apply Forall_cons in Hwf as [Hwfm Hwf].
    cbn [flat_map] in *. rewrite <- app_assoc in Hcur.
    eapply steps_trans.
    + apply (Hm html st top (flat_map write ms ++ rest) Hcur Htop); [|done].
      intros Htext. destruct ms as [|m' ms]; [done|].
      cbn [flat_map]. rewrite <- app_assoc. apply write_opens.
      destruct m; try done. by destruct m'.
    + set (st1 := {| store := build m top (store st); stack := stack st;
                     pos := pos st + length (write m) |}).
      pose proof (cursor_move html (pos st) _ _ Hcur) as Hcur1.
      assert (Hsep' : separated ms).
      { destruct m; try done. simpl in Hsep. by destruct ms as [|[] ms]. }
      pose proof (IH html st1 top rest Hcur1 Htop Hrest Hwf Hsep') as Hrun.
      unfold st1 in Hrun. cbn [store stack pos] in Hrun.
      rewrite length_app, Nat.add_assoc. exact Hrun.
Qed.

Lemma runs_markup m : runs m.
Proof.
  induction m as [name attrs content IH|name attrs|name attrs|data|body|body]
    using Markup_content_ind;
    intros html st top rest Hcur Htop Htext Hwf.
  - inversion Hwf as [? ? ? Hname Hvoid Hraw Hattrs Hcontent Hsep| | | | |]; subst.
    cbn [write] in Hcur. rewrite <- !app_assoc in Hcur.
    assert (Hlt : pos st < length html) by (by eapply write_start_lt).
    pose proof (step_start_tag html st top name attrs false _ Hcur Hname Hattrs
                  (or_intror (or_introl Hraw)) Htop) as Hstep.
    rewrite Hvoid in Hstep. cbn [orb] in Hstep.
    set (e := length (store st)) in *.
    set (h1 := appendChild (store st ++ [new_node (KElement (toLowerCase name)
                                                            (stored_attrs attrs))])
                           top e) in *.
    set (st1 := {| store := h1; stack := stack st ++ [e];
                   pos := pos st + length (write_start name attrs false) |}) in *.
    pose proof (cursor_move html (pos st) _ _ Hcur) as Hcur1.
    assert (Hrun : steps html st1
              {| store := build_all content e h1; stack := stack st ++ [e];
                 pos := pos st1 + length (flat_map write content) |}).
    { apply (runs_all content IH html st1 e (js "</" ++ name ++ js ">" ++ rest));
        [done|apply last_snoc|by right|done|done]. }
    set (st2 := {| store := build_all content e h1; stack := stack st ++ [e];
                   pos := pos st1 + length (flat_map write content) |}) in *.
    pose proof (cursor_move html (pos st1) _ _ Hcur1) as Hcur2.
    assert (Hkind : exists n, store st2 !! e = Some n /\
                      kind n = KElement (toLowerCase name) (stored_attrs attrs)).
    { destruct (appendChild_kind
                  (store st ++ [new_node (KElement (toLowerCase name)
                                                   (stored_attrs attrs))])
                  top e e (new_node (KElement (toLowerCase name) (stored_attrs attrs))))
        as (n1 & Hn1 & Hk1).
      { unfold e. by rewrite lookup_app_r, Nat.sub_diag by lia. }
      destruct (build_all_kinds content (proj2 (Forall_forall _ _) (fun m _ => build_kinds m))
                  e h1 e n1 Hn1) as (n2 & Hn2 & Hk2).
      exists n2. split; [done|]. by rewrite Hk2, Hk1. }
    destruct Hkind as (n & Hn & Hkind).
    assert (Hstack : 1 < length (stack st2)).
    { simpl. rewrite length_app. simpl.
      destruct (stack st) as [|x l]; [done|]. simpl. lia. }
    pose proof (step_end_tag html st2 e name (stored_attrs attrs) rest Hcur2 Hname
                  (last_snoc _ _) Hstack (ex_intro _ n (conj Hn Hkind))) as Hend.
    assert (Hlt2 : pos st2 < length html).
    { apply (cursor_lt html _ 60%Z (js "/" ++ name ++ js ">" ++ rest)). exact Hcur2. }
    eapply steps_cons; [done|exact Hstep|].
    eapply steps_snoc; [exact Hrun|exact Hlt2|].
    rewrite Hend. do 2 f_equal. cbn [store stack pos]. f_equal.
    + apply removelast_last.
    + unfold st2, st1. cbn [pos write]. rewrite !length_app. change (length (js "</")) with 2.
      change (length (js ">")) with 1. lia.
  - inversion Hwf as [|? ? Hname Hvoid Hattrs| | | |]; subst.
    cbn [write] in Hcur.
    assert (Hlt : pos st < length html) by (by eapply write_start_lt).
    pose proof (step_start_tag html st top name attrs false _ Hcur Hname Hattrs
                  (or_intror (or_intror Hvoid)) Htop) as Hstep.
    rewrite Hvoid in Hstep. by apply steps_one.
  - inversion Hwf as [| |? ? Hname Hattrs| | |]; subst.
    cbn [write] in Hcur.
    assert (Hlt : pos st < length html) by (by eapply write_start_lt).
    pose proof (step_start_tag html st top name attrs true _ Hcur Hname Hattrs
                  (or_introl eq_refl) Htop) as Hstep.
    by apply steps_one.
  - inversion Hwf as [| | |? Hne Hdata| |]; subst. cbn [write] in Hcur.
    apply steps_one; [destruct data; [done|by eapply cursor_lt]|].
    by apply (step_text html st top data rest Hcur Hne Hdata (Htext eq_refl) Htop).
  - inversion Hwf as [| | | |? Hbody|]; subst. cbn [write] in Hcur.
    rewrite <- !app_assoc in Hcur.
    apply steps_one.
    { apply (cursor_lt html _ 60%Z (js "!--" ++ body ++ js "-->" ++ rest)). exact Hcur. }
    rewrite (step_comment html st body rest Hcur Hbody). do 3 f_equal.
    cbn [write]. rewrite !length_app. change (length (js "<!--")) with 4.
    change (length (js "-->")) with 3. lia.
  - inversion Hwf as [| | | | |? Hbody Hhead]; subst. cbn [write] in Hcur.
    rewrite <- !app_assoc in Hcur.
    apply steps_one.
    { apply (cursor_lt html _ 60%Z (js "!" ++ body ++ js ">" ++ rest)). exact Hcur. }
    rewrite (step_declaration html st body rest Hcur Hbody Hhead). do 3 f_equal.
    cbn [write]. rewrite !length_app. change (length (js "<!")) with 2.
    change (length (js ">")) with 1. lia.
Qed.

(** The run on a written document, followed by something that does not
    go on a text at its end. *)
Lemma written_run ms tail :
  Forall well_formed ms -> separated ms -> opens tail ->
  steps (flat_map write ms ++ tail) parse_init
        {| store := build_all ms 0 [new_node KDocument]; stack := [0];
           pos := length (flat_map write ms) |}.
Proof.
  intros Hwf Hsep Htail.
  by apply (runs_all ms (proj2 (Forall_forall _ _) (fun m _ => runs_markup m))
              (flat_map write ms ++ tail) parse_init 0 tail).
Qed.

(** The result of [parse], from a run that ends. *)
Lemma run_result html st :
  steps html parse_init st -> finished html st -> parse html = Some (store st).
Proof.
  intros Hrun Hend.
  destruct (parse_loop_total html (S (length html)) parse_init parse_init_ok)
    as (fin & Hfin & Hsteps & Hdone); [simpl; lia|].
  pose proof (steps_to_final html _ _ _ Hsteps Hrun Hend) as Hrest.
  pose proof (steps_to_final html _ _ _ Hrun Hsteps Hdone) as Hback.
  unfold parse, parse_run. rewrite Hfin. simpl. f_equal.
  inversion Hback as [|? st1 ? Hlt Hstep Hmore]; subst; [done|].
  exfalso. destruct Hend as [Hlen|[_ Htr]]; [lia|].
  rewrite (truncated_breaks _ _ _ Htr) in Hstep. done.
Qed.

(** X18. A document written out in the plain syntax (elements with
    attributes and content, void and self-closing elements, text without
    [<] and [&], comments and declarations without [>]; no text directly
    after text; an attribute written as [name='value'], [name="value"],
    [name=value] or [name]) is read back by [parse] as the tree that the
    same constructor and [appendChild] calls build: every start tag opens
    its element with its attributes decoded, an attribute without a value
    holding the empty string, every end tag closes it, void and self-closing
    elements stay empty, comments and declarations leave no node. *)
Theorem parse_written (ms : list Markup) :
  Forall well_formed ms -> separated ms ->
  parse (flat_map write ms) = Some (build_all ms 0 [new_node KDocument]).
Proof.
  intros Hwf Hsep.
  pose proof (written_run ms [] Hwf Hsep (or_introl eq_refl)) as Hrun.
  rewrite app_nil_r in Hrun.
  apply (run_result _ _ Hrun). left. simpl. lia.
Qed.
Lemma parse_written_witness :
  parse (js "<!doctype html><!-- c --><div id='a' class='b c'>x<br><p hidden lang=en></p><i/></div>y") =
  Some (build_all
          [ MDeclaration (js "doctype html"); MComment (js " c ");
            MElement (js "div")
              [Quoted 39 (js "id") (js "a"); Quoted 39 (js "class") (js "b c")]
              [ MText (js "x"); MVoid (js "br") [];
                MElement (js "p") [Valueless (js "hidden"); Unquoted (js "lang") (js "en")] [];
                MEmpty (js "i") [] ];
            MText (js "y") ]
          0 [new_node KDocument]).
Proof.
  apply (parse_written
           [ MDeclaration (js "doctype html"); MComment (js " c ");
             MElement (js "div")
               [Quoted 39 (js "id") (js "a"); Quoted 39 (js "class") (js "b c")]
               [ MText (js "x"); MVoid (js "br") [];
                 MElement (js "p") [Valueless (js "hidden"); Unquoted (js "lang") (js "en")] [];
                 MEmpty (js "i") [] ];
             MText (js "y") ]).
  - markup_ok.
  - exact I.
Defined.
(** * Compiling what was printed

    A selector list printed in the plain syntax below is compiled by
    [parseSelectorList] to the groups it was printed from. *)

Definition print_attr (a : SelectorAttr) : jsstring :=
  js "[" ++ attr_name a ++
  match attr_value a with
  | None => []
  | Some v => js "='" ++ v ++ js "'"
  end ++ js "]".

Definition print_part (p : SelectorPart) : jsstring :=
  default [] (part_tag p) ++
  match part_id p with
  | None => []
  | Some i => js "#" ++ i
  end ++
  flat_map (fun c => js "." ++ c) (part_classes p) ++
  flat_map print_attr (part_attrs p).

Definition print_step (s : SelectorStep) : jsstring :=
  match combinator s with
  | Descendant => js " "
  | Child => js " > "
  end ++ print_part (part s).

Definition print_group (steps : list SelectorStep) : jsstring :=
  match steps with
  | [] => []
  | s :: steps' => print_part (part s) ++ flat_map print_step steps'
  end.

Fixpoint print_list (groups : list (list SelectorStep)) : jsstring :=
  match groups with
  | [] => []
  | [g] => print_group g
  | g :: groups' => print_group g ++ js ", " ++ print_list groups'
  end.

Definition attr_selector_ok (a : SelectorAttr) : Prop :=
  identifier (attr_name a) /\ toLowerCase (attr_name a) = attr_name a /\
  match attr_value a with
  | None => True
  | Some v => Forall (fun c => c <> 39%Z) v
  end.

Record part_ok (p : SelectorPart) : Prop := {
  part_tag_ok : match part_tag p with
           | None => True
           | Some t => t = js "*" \/ (identifier t /\ toLowerCase t = t)
           end;
  part_id_ok : match part_id p with
          | None => True
          | Some i => identifier i
          end;
  part_classes_ok : Forall identifier (part_classes p);
  part_attrs_ok : Forall attr_selector_ok (part_attrs p);
  part_printed : print_part p <> []
}.

Definition group_ok (steps : list SelectorStep) : Prop :=
  match steps with
  | [] => False
  | s :: _ => combinator s = Descendant /\ Forall (fun s => part_ok (part s)) steps
  end.

(** ** Identifiers and attribute selectors at the cursor *)

Lemma readIdentifier_cursor input i ident rest :
  drop i input = ident ++ rest ->
  Forall (fun c => isIdentifierChar c = true) ident -> stops isIdentifierChar rest ->
  readIdentifier input i = (ident, i + length ident).
Proof.
  intros Hcur Hid Hrest. unfold readIdentifier.
  rewrite (cursor_skip _ input i ident rest Hcur Hid Hrest).
  by rewrite (cursor_slice input i ident rest Hcur).
Qed.

Lemma length_print_attr a :
  length (print_attr a) =
  length (attr_name a) + match attr_value a with None => 0 | Some v => length v + 3 end + 2.
Proof.
  unfold print_attr. rewrite !length_app. change (length (js "[")) with 1.
  change (length (js "]")) with 1. destruct (attr_value a) as [v|].
  - rewrite !length_app. change (length (js "='")) with 2.
    change (length (js "'")) with 1. lia.
  - simpl. lia.
Qed.

Lemma readAttributeSelector_cursor input i a rest :
  drop i input = print_attr a ++ rest -> attr_selector_ok a ->
  readAttributeSelector input i = (a, i + length (print_attr a)).
Proof.
  intros Hcur ([Hne Hid] & Hlow & Hvalue).
  rewrite length_print_attr. destruct a as [name value]. cbn [attr_name attr_value] in *.
  unfold print_attr in Hcur. cbn [attr_name attr_value] in Hcur.
  rewrite <- !app_assoc in Hcur.
  change (js "[" ++ name ++ ?t) with (91%Z :: (name ++ t)) in Hcur.
  pose proof (cursor_move input i [91%Z] _ Hcur) as Hcur1.
  change (length [91%Z]) with 1 in Hcur1.
  assert (Hfirst : exists c name', name = c :: name' /\ isWhitespace c = false).
  { destruct name as [|c name']; [done|]. exists c, name'. split; [done|].
    apply Forall_cons in Hid as [Hc%identifier_char_props _]. tauto. }
  destruct Hfirst as (c & name' & Hname & Hws).
  assert (Hskip1 : skip_while isWhitespace input (i + 1) = i + 1).
  { apply (skip_while_stop _ _ _ c); [|done]. rewrite Hname in Hcur1.
    by eapply cursor_lookup. }
  unfold readAttributeSelector. rewrite Hskip1.
  set (j := i + 1 + length name).
  pose proof (cursor_move input (i + 1) name _ Hcur1) as Hcur2. fold j in Hcur2.
  destruct value as [v|].
  - rewrite <- !app_assoc in Hcur1, Hcur2.
    change (js "='" ++ v ++ js "'" ++ js "]" ++ rest)
      with (61%Z :: 39%Z :: (v ++ 39%Z :: 93%Z :: rest)) in Hcur1, Hcur2.
    rewrite (readIdentifier_cursor input (i + 1) name _ Hcur1 Hid) by done.
    fold j. rewrite Hlow.
    pose proof (cursor_move input j [61%Z] _ Hcur2) as Hcur3.
    pose proof (cursor_move input j [61%Z; 39%Z] _ Hcur2) as Hcur4.
    change (length [61%Z]) with 1 in Hcur3. change (length [61%Z; 39%Z]) with 2 in Hcur4.
    rewrite Nat.add_1_r in Hcur3.
    replace (j + 2) with (S (S j)) in Hcur4 by lia.
    pose proof (cursor_move input (S (S j)) v _ Hcur4) as Hcur5.
    pose proof (cursor_move input (S (S j) + length v) [39%Z] _ Hcur5) as Hcur6.
    change (length [39%Z]) with 1 in Hcur6. rewrite Nat.add_1_r in Hcur6.
    set (k := S (S j) + length v) in *.
    pose proof (cursor_lt _ _ _ _ Hcur2) as Hlt2.
    pose proof (cursor_lt _ _ _ _ Hcur3) as Hlt3.
    pose proof (cursor_lt _ _ _ _ Hcur5) as Hlt5.
    pose proof (cursor_lt _ _ _ _ Hcur6) as Hlt6.
    rewrite (skip_while_stop isWhitespace input j 61%Z);
      [|by eapply cursor_lookup|done].
    rewrite (proj2 (Nat.ltb_lt _ _) Hlt2), (cursor_is_code _ _ _ _ Hcur2). cbn [andb].
    rewrite (skip_while_stop isWhitespace input (S j) 39%Z);
      [|by eapply cursor_lookup|done].
    rewrite (proj2 (Nat.ltb_lt _ _) Hlt3), (cursor_is_code _ _ _ _ Hcur3).
    rewrite orb_true_r. cbn [andb].
    rewrite (cursor_lookup _ _ _ _ Hcur3). cbn [default from_option id].
    rewrite (cursor_skip _ input (S (S j)) v (39%Z :: 93%Z :: rest) Hcur4); [| |simpl].
    2:{ eapply Forall_impl; [exact Hvalue|]. intros x Hx. simpl.
        by rewrite (proj2 (Z.eqb_neq x 39)). }
    2:{ done. }
    rewrite (cursor_slice input (S (S j)) v _ Hcur4). fold k.
    rewrite (proj2 (Nat.ltb_lt _ _) Hlt5), (cursor_is_code _ _ _ _ Hcur5). cbn [andb].
    rewrite (skip_while_stop isWhitespace input (S k) 93%Z);
      [|by eapply cursor_lookup|done].
    rewrite (proj2 (Nat.ltb_lt _ _) Hlt6), (cursor_is_code _ _ _ _ Hcur6). cbn [andb].
    f_equal. unfold k, j. lia.
  - change ([] ++ js "]" ++ rest) with (93%Z :: rest) in Hcur1, Hcur2.
    rewrite (readIdentifier_cursor input (i + 1) name _ Hcur1 Hid) by done.
    fold j. rewrite Hlow.
    pose proof (cursor_lt _ _ _ _ Hcur2) as Hlt2.
    rewrite (skip_while_stop isWhitespace input j 93%Z);
      [|by eapply cursor_lookup|done].
    rewrite (cursor_is_not_code input j 93%Z 61%Z rest Hcur2) by done.
    rewrite andb_false_r.
    rewrite (skip_while_stop isWhitespace input j 93%Z);
      [|by eapply cursor_lookup|done].
    rewrite (proj2 (Nat.ltb_lt _ _) Hlt2), (cursor_is_code _ _ _ _ Hcur2). cbn [andb].
    f_equal. unfold j. lia.
Qed.
(** ** The parts of a compound selector, one after the other *)

Inductive Component :=
| CTag (name : jsstring)
| CStar
| CId (ident : jsstring)
| CClass (cls : jsstring)
| CAttr (a : SelectorAttr).

Definition print_component (c : Component) : jsstring :=
  match c with
  | CTag name => name
  | CStar => js "*"
  | CId ident => js "#" ++ ident
  | CClass cls => js "." ++ cls
  | CAttr a => print_attr a
  end.

(** What the loop of [parseSimpleSelector] does with the component. *)
Definition apply_component (p : SelectorPart) (c : Component) : SelectorPart :=
  match c with
  | CTag name =>
      if truthy (part_tag p) then p
      else {| part_tag := Some (toLowerCase name); part_id := part_id p;
              part_classes := part_classes p; part_attrs := part_attrs p |}
  | CStar =>
      {| part_tag := Some (js "*"); part_id := part_id p;
         part_classes := part_classes p; part_attrs := part_attrs p |}
  | CId ident =>
      {| part_tag := part_tag p; part_id := Some ident;
         part_classes := part_classes p; part_attrs := part_attrs p |}
  | CClass cls =>
      {| part_tag := part_tag p; part_id := part_id p;
         part_classes := part_classes p ++ [cls]; part_attrs := part_attrs p |}
  | CAttr a =>
      {| part_tag := part_tag p; part_id := part_id p;
         part_classes := part_classes p; part_attrs := part_attrs p ++ [a] |}
  end.

Definition component_ok (c : Component) : Prop :=
  match c with
  | CTag name => identifier name
  | CStar => True
  | CId ident => identifier ident
  | CClass cls => identifier cls
  | CAttr a => attr_selector_ok a
  end.

Definition is_tag (c : Component) : bool :=
  match c with
  | CTag _ => true
  | _ => false
  end.

(** A tag name comes first or after [*] or an attribute: after another
    name it would be read as part of that name. *)
Fixpoint tags_apart (cs : list Component) : Prop :=
  match cs with
  | [] => True
  | c :: cs' =>
      match c, cs' with
      | (CTag _ | CId _ | CClass _), CTag _ :: _ => False
      | _, _ => tags_apart cs'
      end
  end.

(** Where a compound selector ends: at the end of the input, at white
    space, at [>] or at a comma. *)
Definition part_ends (rest : jsstring) : Prop :=
  match rest with
  | [] => True
  | c :: _ => isWhitespace c || (c =? 62)%Z || (c =? 44)%Z = true
  end.

Lemma part_ends_stops rest : part_ends rest -> stops isIdentifierChar rest.
Proof.
  destruct rest as [|c rest]; [done|]. simpl.
  unfold isWhitespace. rewrite !orb_true_iff, Z.leb_le, !Z.eqb_eq. intros H.
  destruct (isIdentifierChar c) eqn:Hc; [|done].
  apply isIdentifierChar_range in Hc. lia.
Qed.

Lemma component_first c :
  component_ok c ->
  exists x tail, print_component c = x :: tail /\
    isWhitespace x = false /\ x <> 62%Z /\ x <> 44%Z /\ is_js_space x = false /\
    (is_tag c = false -> isIdentifierChar x = false).
Proof.
  destruct c as [name| |ident|cls|a]; simpl.
  - intros [Hne Hid]. destruct name as [|x name]; [done|].
    apply Forall_cons in Hid as [Hx _].
    pose proof (identifier_char_props x Hx) as Hp. apply isIdentifierChar_range in Hx.
    exists x, name. split; [done|]. repeat split; try tauto; try lia.
  - intros _. by exists 42%Z, [].
  - intros _. by exists 35%Z, ident.
  - intros _. by exists 46%Z, cls.
  - intros _. eexists 91%Z, _. split; [reflexivity|]. done.
Qed.

Lemma components_stop cs rest :
  Forall component_ok cs -> part_ends rest ->
  match cs with
  | CTag _ :: _ => False
  | _ => True
  end ->
  stops isIdentifierChar (flat_map print_component cs ++ rest).
Proof.
  intros Hok Hrest Hsep. destruct cs as [|c' cs]; [by apply part_ends_stops|].
  apply Forall_cons in Hok as [Hc' _].
  destruct (component_first c' Hc') as (x & tail & Heq & _ & _ & _ & _ & Hx).
  cbn [flat_map]. rewrite Heq. simpl. apply Hx. by destruct c'.
Qed.

Lemma parseSimpleSelector_loop_components cs :
  forall fuel input i p rest,
    drop i input = flat_map print_component cs ++ rest ->
    Forall component_ok cs -> tags_apart cs -> part_ends rest ->
    length cs < fuel ->
    parseSimpleSelector_loop fuel input i p =
    Some (foldl apply_component p cs, i + length (flat_map print_component cs)).
Proof.
  induction cs as [|c cs IH]; intros fuel input i p rest Hcur Hok Hsep Hrest Hfuel.
  - destruct fuel as [|fuel]; [simpl in Hfuel; lia|]. simpl in Hcur.
    cbn [parseSimpleSelector_loop]. simpl. rewrite Nat.add_0_r.
    destruct rest as [|x rest].
    + by rewrite (proj2 (Nat.leb_le _ _) (cursor_end _ _ Hcur)).
    + rewrite (proj2 (Nat.leb_gt _ _) (cursor_lt _ _ _ _ Hcur)).
      rewrite (cursor_lookup _ _ _ _ Hcur). cbn [mbind option_bind].
      simpl in Hrest. by rewrite Hrest.
  - apply Forall_cons in Hok as [Hc Hok].
    destruct fuel as [|fuel]; [simpl in Hfuel; lia|].
    assert (Hsep' : tags_apart cs).
    { simpl in Hsep. destruct c, cs as [|[] cs]; done. }
    assert (Hstop : match c with
                    | CTag _ | CId _ | CClass _ =>
                        stops isIdentifierChar (flat_map print_component cs ++ rest)
                    | _ => True
                    end).
    { destruct c; try done; apply (components_stop cs rest Hok Hrest);
        simpl in Hsep; by destruct cs as [|[] cs]. }
    cbn [flat_map] in Hcur. rewrite <- app_assoc in Hcur.
    pose proof (cursor_move input i _ _ Hcur) as Hnext.
    assert (Hgo : forall p',
      parseSimpleSelector_loop fuel input (i + length (print_component c)) p' =
      Some (foldl apply_component p' cs,
            i + length (flat_map print_component (c :: cs)))).
    { intros p'. rewrite (IH fuel input _ p' rest Hnext Hok Hsep' Hrest)
        by (simpl in Hfuel; lia).
      cbn [flat_map]. rewrite length_app. do 2 f_equal. lia. }
    assert (Hlt : i < length input).
    { destruct (component_first c Hc) as (x & tail & Heq & _).
      rewrite Heq in Hcur. by eapply cursor_lt. }
    cbn [parseSimpleSelector_loop]. rewrite (proj2 (Nat.leb_gt _ _) Hlt).
    destruct c as [name| |ident|cls|a]; cbn [print_component] in *.
    + destruct Hc as [Hne Hid].
      assert (Hx : exists x name', name = x :: name' /\ isIdentifierChar x = true).
      { destruct name as [|x name']; [done|]. apply Forall_cons in Hid as [? _]. eauto. }
      destruct Hx as (x & name' & Hname & Hx).
      pose proof (identifier_char_props x Hx) as (Hws & _).
      apply isIdentifierChar_range in Hx.
      assert (Hcode : input !! i = Some x).
      { rewrite Hname in Hcur. by eapply cursor_lookup. }
      rewrite Hcode. cbn [mbind option_bind].
      rewrite Hws, (proj2 (Z.eqb_neq x 62)), (proj2 (Z.eqb_neq x 44)),
              (proj2 (Z.eqb_neq x 35)), (proj2 (Z.eqb_neq x 46)),
              (proj2 (Z.eqb_neq x 91)), (proj2 (Z.eqb_neq x 42)) by lia.
      cbn [orb]. cbv iota.
      rewrite (readIdentifier_cursor input i name _ Hcur Hid Hstop).
      assert (Htrue : truthy (Some name) = true) by (by rewrite Hname).
      rewrite Htrue. cbn [foldl apply_component].
      destruct (truthy (part_tag p)); apply Hgo.
    + change (js "*" ++ ?t) with (42%Z :: t) in Hcur.
      rewrite (cursor_lookup _ _ _ _ Hcur). cbn [mbind option_bind].
      change (isWhitespace 42 || (42 =? 62)%Z || (42 =? 44)%Z) with false.
      change (42 =? 35)%Z with false. change (42 =? 46)%Z with false.
      change (42 =? 91)%Z with false. change (42 =? 42)%Z with true. cbv iota.
      change (length (js "*")) with 1 in Hgo. rewrite Nat.add_1_r in Hgo.
      cbn [foldl apply_component]. apply Hgo.
    + rewrite <- app_assoc in Hcur.
      change (js "#" ++ ident ++ ?t) with (35%Z :: (ident ++ t)) in Hcur.
      rewrite (cursor_lookup _ _ _ _ Hcur). cbn [mbind option_bind].
      change (isWhitespace 35 || (35 =? 62)%Z || (35 =? 44)%Z) with false.
      change (35 =? 35)%Z with true. cbv iota.
      pose proof (cursor_move input i [35%Z] _ Hcur) as Hcur1.
      change (length [35%Z]) with 1 in Hcur1. rewrite Nat.add_1_r in Hcur1.
      destruct Hc as [Hne Hid].
      rewrite (readIdentifier_cursor input (S i) ident _ Hcur1 Hid Hstop).
      destruct ident as [|y ident]; [done|]. cbn [truthy]. cbv iota.
      cbn [foldl apply_component].
      rewrite length_app in Hgo. change (length (js "#")) with 1 in Hgo.
      replace (i + (1 + length (y :: ident))) with (S i + length (y :: ident)) in Hgo by lia.
      apply Hgo.
    + rewrite <- app_assoc in Hcur.
      change (js "." ++ cls ++ ?t) with (46%Z :: (cls ++ t)) in Hcur.
      rewrite (cursor_lookup _ _ _ _ Hcur). cbn [mbind option_bind].
      change (isWhitespace 46 || (46 =? 62)%Z || (46 =? 44)%Z) with false.
      change (46 =? 35)%Z with false. change (46 =? 46)%Z with true. cbv iota.
      pose proof (cursor_move input i [46%Z] _ Hcur) as Hcur1.
      change (length [46%Z]) with 1 in Hcur1. rewrite Nat.add_1_r in Hcur1.
      destruct Hc as [Hne Hid].
      rewrite (readIdentifier_cursor input (S i) cls _ Hcur1 Hid Hstop).
      destruct cls as [|y cls]; [done|]. cbn [truthy]. cbv iota.
      cbn [foldl apply_component].
      rewrite length_app in Hgo. change (length (js ".")) with 1 in Hgo.
      replace (i + (1 + length (y :: cls))) with (S i + length (y :: cls)) in Hgo by lia.
      apply Hgo.
    + assert (Hcode : input !! i = Some 91%Z).
      { unfold print_attr in Hcur. rewrite <- !app_assoc in Hcur.
        change (js "[" ++ ?t) with (91%Z :: t) in Hcur. by eapply cursor_lookup. }
      rewrite Hcode. cbn [mbind option_bind].
      change (isWhitespace 91 || (91 =? 62)%Z || (91 =? 44)%Z) with false.
      change (91 =? 35)%Z with false. change (91 =? 46)%Z with false.
      change (91 =? 91)%Z with true. cbv iota.
      rewrite (readAttributeSelector_cursor input i a _ Hcur Hc).
      destruct Hc as ([Hne _] & _). destruct (attr_name a) as [|y n] eqn:Hn; [done|].
      cbn [truthy]. cbv iota. cbn [foldl apply_component]. apply Hgo.
Qed.
(** ** A compound selector *)

Definition components_of (p : SelectorPart) : list Component :=
  match part_tag p with
  | None => []
  | Some t => if bool_decide (t = js "*") then [CStar] else [CTag t]
  end ++
  match part_id p with
  | None => []
  | Some i => [CId i]
  end ++
  map CClass (part_classes p) ++ map CAttr (part_attrs p).

Lemma flat_map_map {A B C} (f : B -> list C) (g : A -> B) l :
  flat_map f (map g l) = flat_map (fun x => f (g x)) l.
Proof. induction l as [|x l IH]; [done|]. simpl. by rewrite IH. Qed.

Lemma print_components p : flat_map print_component (components_of p) = print_part p.
Proof.
  unfold components_of, print_part. rewrite !flat_map_app, !flat_map_map.
  f_equal; [|f_equal].
  - destruct (part_tag p) as [t|]; [|done]. case_bool_decide; subst; simpl;
      by rewrite ?app_nil_r.
  - destruct (part_id p); [|done]. simpl. by rewrite app_nil_r.
Qed.

Lemma components_ok p : part_ok p -> Forall component_ok (components_of p).
Proof.
  intros [Htag Hid Hcls Hattrs _]. unfold components_of.
  rewrite !Forall_app. split; [|split; [|split]].
  - destruct (part_tag p) as [t|]; [|constructor]. case_bool_decide as Hstar.
    + by repeat constructor.
    + apply Forall_singleton. destruct Htag as [?|[? _]]; done.
  - destruct (part_id p); [|constructor]. by apply Forall_singleton.
  - by apply Forall_fmap.
  - by apply Forall_fmap.
Qed.

Lemma tags_apart_cons c cs :
  Forall (fun c => is_tag c = false) cs -> tags_apart (c :: cs).
Proof.
  revert c. induction cs as [|c' cs IH]; intros c Hcs; [by destruct c|].
  apply Forall_cons in Hcs as [Hc' Hcs].
  assert (tags_apart (c' :: cs)) by by apply IH.
  destruct c, c'; done.
Qed.

Lemma components_apart p : tags_apart (components_of p).
Proof.
  assert (Hrest : Forall (fun c => is_tag c = false)
            (match part_id p with
             | None => []
             | Some i => [CId i]
             end ++ map CClass (part_classes p) ++ map CAttr (part_attrs p))).
  { rewrite !Forall_app. split; [|split].
    - destruct (part_id p); by repeat constructor.
    - by apply Forall_fmap, Forall_forall.
    - by apply Forall_fmap, Forall_forall. }
  unfold components_of. destruct (part_tag p) as [t|].
  - case_bool_decide; by apply tags_apart_cons.
  - simpl. destruct (_ ++ _) as [|c cs]; [done|].
    apply Forall_cons in Hrest as [_ ?]. by apply tags_apart_cons.
Qed.

Lemma foldl_classes p cls :
  foldl apply_component p (map CClass cls) =
  {| part_tag := part_tag p; part_id := part_id p;
     part_classes := part_classes p ++ cls; part_attrs := part_attrs p |}.
Proof.
  revert p. induction cls as [|c cls IH]; intros p.
  - simpl. rewrite app_nil_r. by destruct p.
  - simpl. rewrite IH. simpl. by rewrite <- app_assoc.
Qed.

Lemma foldl_attrs p attrs :
  foldl apply_component p (map CAttr attrs) =
  {| part_tag := part_tag p; part_id := part_id p;
     part_classes := part_classes p; part_attrs := part_attrs p ++ attrs |}.
Proof.
  revert p. induction attrs as [|a attrs IH]; intros p.
  - simpl. rewrite app_nil_r. by destruct p.
  - simpl. rewrite IH. simpl. by rewrite <- app_assoc.
Qed.

Lemma fold_components p :
  part_ok p -> foldl apply_component empty_part (components_of p) = p.
Proof.
  intros [Htag Hid _ _ _]. unfold components_of.
  rewrite !foldl_app, foldl_attrs, foldl_classes.
  destruct p as [tag ident cls attrs]. cbn [part_tag part_id part_classes part_attrs] in *.
  destruct tag as [t|], ident as [i|]; simpl.
  - case_bool_decide as Hstar; simpl; [by subst|].
    destruct Htag as [?|[_ ->]]; done.
  - case_bool_decide as Hstar; simpl; [by subst|].
    destruct Htag as [?|[_ ->]]; done.
  - done.
  - done.
Qed.

Lemma length_components p : part_ok p -> length (components_of p) <= length (print_part p).
Proof.
  intros Hok%components_ok. rewrite <- print_components.
  induction Hok as [|c cs Hc _ IH]; [done|].
  cbn [flat_map]. rewrite length_app. simpl.
  destruct (component_first c Hc) as (x & tail & -> & _). simpl. lia.
Qed.

Lemma part_first p :
  part_ok p ->
  exists x tail, print_part p = x :: tail /\
    isWhitespace x = false /\ x <> 62%Z /\ x <> 44%Z /\ is_js_space x = false.
Proof.
  intros Hok. pose proof (components_ok p Hok) as Hcs.
  pose proof (part_printed p Hok) as Hne. rewrite <- print_components in *.
  destruct (components_of p) as [|c cs]; [done|].
  apply Forall_cons in Hcs as [Hc _].
  destruct (component_first c Hc) as (x & tail & Heq & Hws & H62 & H44 & Hsp & _).
  exists x, (tail ++ flat_map print_component cs).
  cbn [flat_map]. rewrite Heq. done.
Qed.

Lemma parseSimpleSelector_printed input i p rest :
  drop i input = print_part p ++ rest -> part_ok p -> part_ends rest ->
  parseSimpleSelector input i = Some (p, i + length (print_part p)).
Proof.
  intros Hcur Hok Hrest. unfold parseSimpleSelector.
  rewrite <- print_components in Hcur.
  rewrite (parseSimpleSelector_loop_components (components_of p) _ input i empty_part rest
             Hcur (components_ok p Hok) (components_apart p) Hrest).
  - by rewrite (fold_components p Hok), print_components.
  - pose proof (length_components p Hok) as Hlen.
    assert (Hl : length (drop i input) <= length input) by (rewrite length_drop; lia).
    rewrite Hcur, length_app, print_components in Hl. lia.
Qed.

(** ** A group *)

Lemma print_step_ends steps rest :
  part_ends rest -> part_ends (flat_map print_step steps ++ rest).
Proof.
  intros Hrest. destruct steps as [|[[] p] steps]; [done|done|done].
Qed.

Lemma parseSelectorGroup_loop_steps steps :
  forall fuel input i acc,
    drop i input = flat_map print_step steps ->
    Forall (fun s => part_ok (part s)) steps ->
    length (flat_map print_step steps) < fuel ->
    parseSelectorGroup_loop fuel input i Descendant acc = Some (acc ++ steps).
Proof.
  induction steps as [|[comb p] steps IH]; intros fuel input i acc Hcur Hok Hfuel.
  - destruct fuel as [|fuel]; [simpl in Hfuel; lia|]. simpl in Hcur.
    cbn [parseSelectorGroup_loop]. cbv zeta.
    rewrite (proj2 (Nat.leb_le _ _) (cursor_end _ _ Hcur)). by rewrite app_nil_r.
  - apply Forall_cons in Hok as [Hp Hok]. cbn [part] in Hp.
    destruct (part_first p Hp) as (x & tail & Hfirst & Hws & H62 & _).
    cbn [flat_map] in Hcur, Hfuel.
    unfold print_step at 1 in Hcur. unfold print_step at 1 in Hfuel.
    cbn [combinator part] in Hcur, Hfuel. rewrite <- !app_assoc in Hcur.
    rewrite !length_app in Hfuel.
    assert (Hends : part_ends (flat_map print_step steps)).
    { rewrite <- (app_nil_r (flat_map _ _)). by apply print_step_ends. }
    destruct comb.
    + change (js " " ++ ?t) with (32%Z :: t) in Hcur.
      change (length (js " ")) with 1 in Hfuel.
      destruct fuel as [|fuel]; [lia|].
      pose proof (cursor_move input i [32%Z] _ Hcur) as Hcur1.
      change (length [32%Z]) with 1 in Hcur1.
      assert (Hcur1x : drop (i + 1) input = x :: (tail ++ flat_map print_step steps))
        by by rewrite Hcur1, Hfirst.
      cbn [parseSelectorGroup_loop]. cbv zeta.
      rewrite (proj2 (Nat.leb_gt _ _) (cursor_lt _ _ _ _ Hcur)).
      rewrite (cursor_skip isWhitespace input i [32%Z] _ Hcur);
        [|by repeat constructor|by rewrite Hfirst].
      change (length [32%Z]) with 1.
      rewrite (proj2 (Nat.leb_gt _ _) (cursor_lt _ _ _ _ Hcur1x)).
      rewrite (cursor_is_not_code input (i + 1) x 62%Z _ Hcur1x) by done.
      rewrite (parseSimpleSelector_printed input (i + 1) p _ Hcur1 Hp Hends).
      cbn [mbind option_bind].
      rewrite (IH fuel input _ _ (cursor_move input (i + 1) _ _ Hcur1) Hok) by lia.
      by rewrite <- app_assoc.
    + change (js " > " ++ ?t) with (32%Z :: 62%Z :: 32%Z :: t) in Hcur.
      change (length (js " > ")) with 3 in Hfuel.
      destruct fuel as [|[|fuel]]; [lia..|].
      pose proof (cursor_move input i [32%Z] _ Hcur) as Hcur1.
      pose proof (cursor_move input i [32%Z; 62%Z] _ Hcur) as Hcur2.
      pose proof (cursor_move input i [32%Z; 62%Z; 32%Z] _ Hcur) as Hcur3.
      change (length [32%Z]) with 1 in Hcur1.
      change (length [32%Z; 62%Z]) with 2 in Hcur2.
      change (length [32%Z; 62%Z; 32%Z]) with 3 in Hcur3.
      assert (Hcur3x : drop (i + 3) input = x :: (tail ++ flat_map print_step steps))
        by by rewrite Hcur3, Hfirst.
      cbn [parseSelectorGroup_loop]. cbv zeta.
      rewrite (proj2 (Nat.leb_gt _ _) (cursor_lt _ _ _ _ Hcur)).
      rewrite (cursor_skip isWhitespace input i [32%Z] _ Hcur);
        [|by repeat constructor|done].
      change (length [32%Z]) with 1.
      rewrite (proj2 (Nat.leb_gt _ _) (cursor_lt _ _ _ _ Hcur1)).
      rewrite (cursor_is_code input (i + 1) 62%Z _ Hcur1).
      rewrite (proj2 (Nat.leb_gt (length input) (S (i + 1)))).
      2:{ replace (S (i + 1)) with (i + 2) by lia. by eapply cursor_lt. }
      replace (S (i + 1)) with (i + 2) by lia.
      rewrite (cursor_skip isWhitespace input (i + 2) [32%Z] _ Hcur2);
        [|by repeat constructor|by rewrite Hfirst].
      change (length [32%Z]) with 1. replace (i + 2 + 1) with (i + 3) by lia.
      rewrite (proj2 (Nat.leb_gt _ _) (cursor_lt _ _ _ _ Hcur3x)).
      rewrite (cursor_is_not_code input (i + 3) x 62%Z _ Hcur3x) by done.
      rewrite (parseSimpleSelector_printed input (i + 3) p _ Hcur3 Hp Hends).
      cbn [mbind option_bind].
      rewrite (IH fuel input _ _ (cursor_move input (i + 3) _ _ Hcur3) Hok) by lia.
      by rewrite <- app_assoc.
Qed.

Lemma parseSelectorGroup_printed fuel steps :
  group_ok steps -> length (print_group steps) < fuel ->
  parseSelectorGroup fuel (print_group steps) = Some steps.
Proof.
  destruct steps as [|[comb p] steps]; [done|].
  intros [Hcomb Hok] Hfuel. cbn [combinator] in Hcomb. subst comb.
  apply Forall_cons in Hok as [Hp Hok]. cbn [part] in Hp.
  cbn [print_group part] in *. rewrite length_app in Hfuel.
  destruct (part_first p Hp) as (x & tail & Hfirst & Hws & H62 & _).
  set (input := print_part p ++ flat_map print_step steps).
  assert (Hcur : drop 0 input = print_part p ++ flat_map print_step steps) by done.
  assert (Hcurx : drop 0 input = x :: (tail ++ flat_map print_step steps)).
  { rewrite Hcur, Hfirst. done. }
  assert (Hends : part_ends (flat_map print_step steps)).
  { rewrite <- (app_nil_r (flat_map _ _)). by apply print_step_ends. }
  destruct fuel as [|fuel]; [lia|].
  unfold parseSelectorGroup. cbn [parseSelectorGroup_loop]. cbv zeta.
  rewrite (proj2 (Nat.leb_gt _ _) (cursor_lt _ _ _ _ Hcurx)).
  rewrite (skip_while_stop isWhitespace input 0 x); [|by eapply cursor_lookup|done].
  rewrite (proj2 (Nat.leb_gt _ _) (cursor_lt _ _ _ _ Hcurx)).
  rewrite (cursor_is_not_code input 0 x 62%Z _ Hcurx) by done.
  rewrite (parseSimpleSelector_printed input 0 p _ Hcur Hp Hends).
  cbn [mbind option_bind].
  assert (0 < length (print_part p)) by (rewrite Hfirst; simpl; lia).
  rewrite (parseSelectorGroup_loop_steps steps fuel input _ _
             (cursor_move input 0 _ _ Hcur) Hok) by lia.
  done.
Qed.
(** ** The groups of a printed list *)

(** A string that [splitSelectorGroups] passes over, outside brackets and
    quotes before it and after it, without cutting in it. *)
Definition passed (s : jsstring) : Prop :=
  forall selector rest i start groups,
    splitSelectorGroups_loop selector (s ++ rest) i start 0 0%Z groups =
    splitSelectorGroups_loop selector rest (i + length s) start 0 0%Z groups.

Lemma passed_nil : passed [].
Proof. intros selector rest i start groups. simpl. by rewrite Nat.add_0_r. Qed.

Lemma passed_app a b : passed a -> passed b -> passed (a ++ b).
Proof.
  intros Ha Hb selector rest i start groups.
  rewrite <- app_assoc, Ha, Hb, length_app. f_equal. lia.
Qed.

Lemma passed_flat_map {A} (f : A -> jsstring) l :
  Forall (fun x => passed (f x)) l -> passed (flat_map f l).
Proof.
  induction 1 as [|x l Hx _ IH]; [apply passed_nil|]. by apply passed_app.
Qed.

Definition plain_char (c : Z) : Prop :=
  c <> 34%Z /\ c <> 39%Z /\ c <> 91%Z /\ c <> 93%Z /\ c <> 44%Z.

Lemma split_plain s :
  Forall plain_char s ->
  forall selector rest i start depth groups,
    splitSelectorGroups_loop selector (s ++ rest) i start depth 0%Z groups =
    splitSelectorGroups_loop selector rest (i + length s) start depth 0%Z groups.
Proof.
  induction 1 as [|c s (H34 & H39 & H91 & H93 & H44) _ IH];
    intros selector rest i start depth groups.
  - simpl. by rewrite Nat.add_0_r.
  - cbn [app splitSelectorGroups_loop].
    change (negb (0 =? 0)%Z) with false. cbv iota.
    rewrite (proj2 (Z.eqb_neq c 34)), (proj2 (Z.eqb_neq c 39)),
            (proj2 (Z.eqb_neq c 91)), (proj2 (Z.eqb_neq c 93)),
            (proj2 (Z.eqb_neq c 44)) by done.
    cbn [orb andb]. rewrite IH. f_equal. simpl. lia.
Qed.

Lemma split_quoted v :
  Forall (fun c => c <> 39%Z) v ->
  forall selector rest i start depth groups,
    splitSelectorGroups_loop selector (v ++ rest) i start depth 39%Z groups =
    splitSelectorGroups_loop selector rest (i + length v) start depth 39%Z groups.
Proof.
  induction 1 as [|c v Hc _ IH]; intros selector rest i start depth groups.
  - simpl. by rewrite Nat.add_0_r.
  - cbn [app splitSelectorGroups_loop].
    change (negb (39 =? 0)%Z) with true. cbv iota.
    rewrite (proj2 (Z.eqb_neq c 39)) by done. rewrite IH. f_equal. simpl. lia.
Qed.

Lemma identifier_plain_chars s :
  Forall (fun c => isIdentifierChar c = true) s -> Forall plain_char s.
Proof.
  intros Hs. eapply Forall_impl; [exact Hs|]. intros c Hc%isIdentifierChar_range.
  unfold plain_char. lia.
Qed.

Lemma passed_plain s : Forall plain_char s -> passed s.
Proof. intros Hs selector rest i start groups. by apply split_plain. Qed.

Lemma passed_attr a : attr_selector_ok a -> passed (print_attr a).
Proof.
  intros ([_ Hid%identifier_plain_chars] & _ & Hvalue) selector rest i start groups.
  rewrite length_print_attr. unfold print_attr. rewrite <- !app_assoc.
  change (js "[" ++ ?t) with (91%Z :: t).
  cbn [splitSelectorGroups_loop]. change (negb (0 =? 0)%Z) with false. cbv iota.
  change ((91 =? 34)%Z || (91 =? 39)%Z) with false. change (91 =? 91)%Z with true.
  cbv iota. rewrite (split_plain _ Hid).
  destruct (attr_value a) as [v|].
  - rewrite <- !app_assoc.
    change (js "='" ++ v ++ ?t) with (61%Z :: 39%Z :: (v ++ t)).
    change (js "'" ++ js "]" ++ rest) with (39%Z :: 93%Z :: rest).
    cbn [splitSelectorGroups_loop]. change (negb (0 =? 0)%Z) with false. cbv iota.
    change ((61 =? 34)%Z || (61 =? 39)%Z) with false.
    change (61 =? 91)%Z with false. change ((61 =? 93)%Z && negb (1 =? 0)) with false.
    change ((61 =? 44)%Z && (1 =? 0)) with false. cbv iota.
    change ((39 =? 34)%Z || (39 =? 39)%Z) with true. cbv iota.
    rewrite (split_quoted v Hvalue).
    cbn [splitSelectorGroups_loop]. change (negb (39 =? 0)%Z) with true. cbv iota.
    change (39 =? 39)%Z with true. cbv iota.
    change (negb (0 =? 0)%Z) with false. cbv iota.
    change ((93 =? 34)%Z || (93 =? 39)%Z) with false. change (93 =? 91)%Z with false.
    change ((93 =? 93)%Z && negb (1 =? 0)) with true. cbv iota.
    f_equal. simpl. lia.
  - change ([] ++ js "]" ++ rest) with (93%Z :: rest).
    cbn [splitSelectorGroups_loop]. change (negb (0 =? 0)%Z) with false. cbv iota.
    change ((93 =? 34)%Z || (93 =? 39)%Z) with false. change (93 =? 91)%Z with false.
    change ((93 =? 93)%Z && negb (1 =? 0)) with true. cbv iota.
    f_equal. simpl. lia.
Qed.

Lemma passed_part p : part_ok p -> passed (print_part p).
Proof.
  intros [Htag Hid Hcls Hattrs _]. unfold print_part.
  repeat apply passed_app.
  - apply passed_plain. destruct (part_tag p) as [t|]; [|constructor].
    destruct Htag as [->|[[_ Ht] _]]; [|by apply identifier_plain_chars].
    repeat constructor; discriminate.
  - apply passed_plain. destruct (part_id p) as [i|]; [|constructor].
    constructor; [repeat split; discriminate|]. apply identifier_plain_chars, Hid.
  - apply passed_flat_map. eapply Forall_impl; [exact Hcls|].
    intros c [_ Hc]. apply passed_plain.
    constructor; [repeat split; discriminate|]. by apply identifier_plain_chars.
  - apply passed_flat_map. eapply Forall_impl; [exact Hattrs|]. apply passed_attr.
Qed.

Lemma passed_group steps : group_ok steps -> passed (print_group steps).
Proof.
  destruct steps as [|s steps]; [done|]. intros [_ Hok].
  apply Forall_cons in Hok as [Hs Hok]. cbn [print_group].
  apply passed_app; [by apply passed_part|].
  apply passed_flat_map. eapply Forall_impl; [exact Hok|].
  intros s' Hs'. unfold print_step. apply passed_app; [|by apply passed_part].
  apply passed_plain. destruct (combinator s'); repeat constructor; discriminate.
Qed.

(** The strings between the commas of a printed list: after the first
    one, each begins with the space that follows the comma. *)
Fixpoint pieces (lead : jsstring) (groups : list (list SelectorStep)) : list jsstring :=
  match groups with
  | [] => [lead]
  | [g] => [lead ++ print_group g]
  | g :: groups' => (lead ++ print_group g) :: pieces (js " ") groups'
  end.

Lemma split_printed groups :
  forall selector start acc lead,
    drop start selector = lead ++ print_list groups ->
    passed lead -> Forall group_ok groups ->
    splitSelectorGroups_loop selector (lead ++ print_list groups) start start 0 0%Z acc =
    acc ++ pieces lead groups.
Proof.
  induction groups as [|g groups IH]; intros selector start acc lead Hcur Hlead Hok.
  - simpl in *. rewrite app_nil_r in *. rewrite <- (app_nil_r lead) at 1.
    rewrite Hlead. simpl. unfold slice_from. by rewrite Hcur.
  - apply Forall_cons in Hok as [Hg Hok].
    destruct groups as [|g' groups].
    + cbn [print_list pieces] in *.
      rewrite <- (app_nil_r (lead ++ print_group g)) at 1.
      rewrite (passed_app _ _ Hlead (passed_group g Hg)). simpl.
      unfold slice_from. by rewrite Hcur.
    + change (print_list (g :: g' :: groups))
        with (print_group g ++ js ", " ++ print_list (g' :: groups)) in *.
      change (pieces lead (g :: g' :: groups))
        with ((lead ++ print_group g) :: pieces (js " ") (g' :: groups)).
      rewrite app_assoc in Hcur. rewrite app_assoc.
      rewrite (passed_app _ _ Hlead (passed_group g Hg)).
      change (js ", " ++ ?t) with (44%Z :: (js " " ++ t)) in *.
      cbn [splitSelectorGroups_loop].
      change (negb (0 =? 0)%Z) with false. cbv iota.
      change ((44 =? 34)%Z || (44 =? 39)%Z) with false. change (44 =? 91)%Z with false.
      change ((44 =? 93)%Z && negb (0 =? 0)) with false.
      change ((44 =? 44)%Z && (0 =? 0)) with true. cbv iota.
      rewrite (cursor_slice selector start _ _ Hcur).
      pose proof (cursor_move selector start _ _ Hcur) as Hcur1.
      pose proof (cursor_move selector _ [44%Z] _ Hcur1) as Hcur2.
      change (length [44%Z]) with 1 in Hcur2. rewrite Nat.add_1_r in Hcur2.
      rewrite (IH selector _ _ (js " ") Hcur2); [by rewrite <- app_assoc| |done].
      apply passed_plain. repeat constructor; discriminate.
Qed.

(** ** White space around a group *)

Lemma trim_start_space s : trim_start (32%Z :: s) = trim_start s.
Proof. unfold trim_start. by simpl. Qed.

Lemma trim_ends_id s :
  starts_no_space s -> starts_no_space (reverse s) -> trim s = s.
Proof.
  intros Hs Hr. unfold trim.
  rewrite (trim_start_id s Hs), (trim_start_id _ Hr). apply reverse_involutive.
Qed.

Lemma component_last c :
  component_ok c ->
  exists y, last (print_component c) = Some y /\ is_js_space y = false.
Proof.
  assert (Hident : forall pre s, identifier s ->
            exists y, last (pre ++ s) = Some y /\ is_js_space y = false).
  { intros pre s [Hne Hs].
    destruct (last s) as [y|] eqn:Hlast; [|by apply last_None in Hlast].
    exists y. split.
    - destruct s as [|x s] using rev_ind; [done|].
      rewrite last_snoc in Hlast. injection Hlast as ->.
      by rewrite app_assoc, last_snoc.
    - apply identifier_not_space. rewrite Forall_forall in Hs. apply Hs.
      by apply last_Some_elem_of. }
  destruct c as [name| |ident|cls|a]; cbn [print_component component_ok].
  - apply (Hident []).
  - intros _. by exists 42%Z.
  - apply (Hident (js "#")).
  - apply (Hident (js ".")).
  - intros _. exists 93%Z. split; [|done]. unfold print_attr.
    rewrite !app_assoc. apply last_snoc.
Qed.

Lemma last_app_Some {A} (l k : list A) y : last k = Some y -> last (l ++ k) = Some y.
Proof.
  intros Hk. destruct k as [|x k] using rev_ind; [done|].
  rewrite last_snoc in Hk. injection Hk as ->. by rewrite app_assoc, last_snoc.
Qed.

Lemma part_last p :
  part_ok p -> exists y, last (print_part p) = Some y /\ is_js_space y = false.
Proof.
  intros Hok. pose proof (components_ok p Hok) as Hcs.
  pose proof (part_printed p Hok) as Hne. rewrite <- print_components in *.
  destruct (components_of p) as [|c cs] using rev_ind; [done|].
  rewrite Forall_app, Forall_singleton in Hcs. destruct Hcs as [_ Hc].
  destruct (component_last c Hc) as (y & Hy & Hsp). exists y. split; [|done].
  rewrite flat_map_app. simpl. rewrite app_nil_r. by apply last_app_Some.
Qed.

Lemma group_last steps :
  group_ok steps -> exists y, last (print_group steps) = Some y /\ is_js_space y = false.
Proof.
  destruct steps as [|s steps]; [done|]. intros [_ Hok]. cbn [print_group].
  destruct steps as [|s' steps] using rev_ind.
  - simpl. rewrite app_nil_r. apply part_last. by apply Forall_cons in Hok as [? _].
  - apply Forall_cons in Hok as [_ Hok].
    rewrite Forall_app, Forall_singleton in Hok. destruct Hok as [_ Hs'].
    destruct (part_last _ Hs') as (y & Hy & Hsp). exists y. split; [|done].
    rewrite flat_map_app. simpl. rewrite app_nil_r, app_assoc.
    unfold print_step. rewrite app_assoc. by apply last_app_Some.
Qed.

Lemma trim_group steps : group_ok steps -> trim (print_group steps) = print_group steps.
Proof.
  intros Hok. apply trim_ends_id.
  - destruct steps as [|s steps]; [done|]. destruct Hok as [_ Hok].
    apply Forall_cons in Hok as [Hs _].
    destruct (part_first _ Hs) as (x & tail & Heq & _ & _ & _ & Hsp).
    cbn [print_group]. rewrite Heq. done.
  - destruct (group_last steps Hok) as (y & Hy & Hsp).
    rewrite <- head_reverse in Hy. by destruct (reverse _) as [|z r]; simplify_eq/=.
Qed.

Lemma group_printed steps : group_ok steps -> print_group steps <> [].
Proof.
  destruct steps as [|s steps]; [done|]. intros [_ Hok].
  apply Forall_cons in Hok as [Hs _].
  destruct (part_first _ Hs) as (x & tail & Heq & _).
  cbn [print_group]. by rewrite Heq.
Qed.

Lemma parseSelectorList_loop_pieces fuel groups :
  forall lead acc,
    lead = [] \/ lead = js " " -> groups <> [] ->
    Forall group_ok groups ->
    length (lead ++ print_list groups) < fuel ->
    parseSelectorList_loop fuel (pieces lead groups) acc = Some (acc ++ groups).
Proof.
  induction groups as [|g groups IH]; intros lead acc Hlead Hne Hok Hfuel; [done|].
  apply Forall_cons in Hok as [Hg Hok].
  assert (Htrim : trim (lead ++ print_group g) = print_group g).
  { destruct Hlead as [-> | ->]; [by apply trim_group|].
    change (js " " ++ print_group g) with (32%Z :: print_group g).
    unfold trim. rewrite trim_start_space. by apply trim_group. }
  assert (Hstep : forall rest acc',
            length (print_group g) < fuel ->
            parseSelectorList_loop fuel ((lead ++ print_group g) :: rest) acc' =
            parseSelectorList_loop fuel rest (acc' ++ [g])).
  { intros rest acc' Hf. cbn [parseSelectorList_loop]. cbv zeta. rewrite Htrim.
    rewrite bool_decide_eq_false_2 by (by apply group_printed).
    rewrite (parseSelectorGroup_printed fuel g Hg Hf). cbn [mbind option_bind].
    destruct g; [done|done]. }
  destruct groups as [|g' groups].
  - cbn [pieces print_list] in *. rewrite Hstep; [done|].
    rewrite length_app in Hfuel. lia.
  - change (pieces lead (g :: g' :: groups))
      with ((lead ++ print_group g) :: pieces (js " ") (g' :: groups)).
    change (print_list (g :: g' :: groups))
      with (print_group g ++ js ", " ++ print_list (g' :: groups)) in Hfuel.
    rewrite !length_app in Hfuel. change (length (js ", ")) with 2 in Hfuel.
    rewrite Hstep by lia.
    rewrite (IH (js " ") _); [by rewrite <- app_assoc|by right|done|done|].
    rewrite length_app. change (length (js " ")) with 1. lia.
Qed.

(** The list of one group. *)
Lemma compile_printed_group fuel steps :
  group_ok steps -> length (print_group steps) < fuel ->
  parseSelectorList fuel (print_group steps) = Some [steps].
Proof.
  intros Hok Hfuel. unfold parseSelectorList, splitSelectorGroups.
  pose proof (split_printed [steps] (print_group steps) 0 [] []) as Hsplit.
  simpl in Hsplit. rewrite Hsplit; [|done|apply passed_nil|by constructor].
  cbn [pieces parseSelectorList_loop app]. cbv zeta.
  rewrite (trim_group steps Hok).
  rewrite bool_decide_eq_false_2 by (by apply group_printed).
  rewrite (parseSelectorGroup_printed fuel steps Hok Hfuel). cbn [mbind option_bind].
  by destruct steps.
Qed.

(** X19. A selector list printed in the plain syntax (groups joined by
    a comma and a space; steps joined by a space or by [ > ]; in a step the
    tag name or [*], then [#id], [.class] ..., [[name]] or [[name='value']]
    ...) compiles to the groups it was printed from: names and values are
    kept as they are, a quoted value may hold commas, brackets and spaces. *)
Theorem parseSelectorList_printed (fuel : nat) (groups : list (list SelectorStep)) :
  Forall group_ok groups -> length (print_list groups) < fuel ->
  parseSelectorList fuel (print_list groups) = Some groups.
Proof.
  intros Hok Hfuel. unfold parseSelectorList, splitSelectorGroups.
  pose proof (split_printed groups (print_list groups) 0 [] []) as Hsplit.
  simpl in Hsplit. rewrite Hsplit; [|done|apply passed_nil|done].
  destruct groups as [|g groups]; [done|].
  by rewrite (parseSelectorList_loop_pieces fuel (g :: groups) [] []); [|left|..].
Qed.

Lemma parseSelectorList_printed_witness :
  parseSelectorList 40 (js "div#main.a.b > a[href='x,y'][title], *") =
  Some [ [ {| combinator := Descendant;
              part := {| part_tag := Some (js "div"); part_id := Some (js "main");
                         part_classes := [js "a"; js "b"]; part_attrs := [] |} |};
           {| combinator := Child;
              part := {| part_tag := Some (js "a"); part_id := None;
                         part_classes := [];
                         part_attrs := [ {| attr_name := js "href";
                                            attr_value := Some (js "x,y") |};
                                         {| attr_name := js "title";
                                            attr_value := None |} ] |} |} ];
         [ {| combinator := Descendant;
              part := {| part_tag := Some (js "*"); part_id := None;
                         part_classes := []; part_attrs := [] |} |} ] ].
Proof.
  apply (parseSelectorList_printed 40
    [ [ {| combinator := Descendant;
           part := {| part_tag := Some (js "div"); part_id := Some (js "main");
                      part_classes := [js "a"; js "b"]; part_attrs := [] |} |};
        {| combinator := Child;
           part := {| part_tag := Some (js "a"); part_id := None;
                      part_classes := [];
                      part_attrs := [ {| attr_name := js "href";
                                         attr_value := Some (js "x,y") |};
                                      {| attr_name := js "title";
                                         attr_value := None |} ] |} |} ];
      [ {| combinator := Descendant;
           part := {| part_tag := Some (js "*"); part_id := None;
                      part_classes := []; part_attrs := [] |} |} ] ]).
  - repeat first [ apply Forall_cons_2 | apply Forall_nil_2 | split | discriminate
                 | reflexivity | exact I | by left
                 | right; split; [split; [discriminate|by repeat constructor]|reflexivity] ].
  - vm_compute. lia.
Defined.
(** ** Filters and selectors *)

(** The classes, with one space between them. *)
Definition join_classes (classes : list jsstring) : jsstring :=
  match classes with
  | [] => []
  | c :: classes' => c ++ flat_map (fun c' => js " " ++ c') classes'
  end.

(** The filter that asks what a selector part asks: its classes under
    [class], its id under [id], each attribute under its name. *)
Definition part_filter (p : SelectorPart) : AttrFilter :=
  match part_classes p with
  | [] => []
  | classes => [(js "class", FilterString (join_classes classes))]
  end ++
  match part_id p with
  | None => []
  | Some i => [(js "id", FilterString i)]
  end ++
  map (fun a => (attr_name a,
                 match attr_value a with
                 | None => FilterTrue
                 | Some v => FilterString v
                 end)) (part_attrs p).

Definition plain_attr_name (a : SelectorAttr) : Prop :=
  attr_name a <> js "class" /\ attr_name a <> js "classname" /\ attr_name a <> js "id".

Lemma split_spaces_word w :
  forall rest cur, no_space w ->
    split_spaces (w ++ rest) cur false = split_spaces rest (cur ++ w) false.
Proof.
  induction w as [|c w IH]; intros rest cur Hw.
  - by rewrite app_nil_r.
  - apply Forall_cons in Hw as [Hc Hw]. simpl. rewrite Hc.
    rewrite (IH rest (cur ++ [c]) Hw). by rewrite <- app_assoc.
Qed.

Lemma split_spaces_joined classes :
  forall w cur, no_space w ->
    Forall (fun c => c <> [] /\ no_space c) classes ->
    split_spaces (w ++ flat_map (fun c' => js " " ++ c') classes) cur false =
    (cur ++ w) :: classes.
Proof.
  induction classes as [|c classes IH]; intros w cur Hw Hcs.
  - simpl. by rewrite (split_spaces_word w [] cur Hw).
  - apply Forall_cons in Hcs as [[Hne Hc] Hcs].
    rewrite (split_spaces_word w _ cur Hw). cbn [flat_map].
    change (js " ") with [32%Z]. destruct c as [|x c]; [done|].
    apply Forall_cons in Hc as [Hx Hc]. simpl. rewrite Hx.
    f_equal. exact (IH c [x] Hc Hcs).
Qed.

Lemma identifier_class c : identifier c -> c <> [] /\ no_space c.
Proof.
  intros [Hne Hc]. split; [done|].
  eapply Forall_impl; [exact Hc|]. apply identifier_not_space.
Qed.

Lemma no_space_last w :
  w <> [] -> no_space w -> exists y, last w = Some y /\ is_js_space y = false.
Proof.
  intros Hne Hw. destruct w as [|y w _] using rev_ind; [done|].
  unfold no_space in Hw. rewrite Forall_app, Forall_singleton in Hw.
  destruct Hw as [_ Hy]. exists y. by rewrite last_snoc.
Qed.

(** The classes of a class list written with one space between them. *)
Lemma splitClassList_joined c classes :
  Forall identifier (c :: classes) ->
  splitClassList (join_classes (c :: classes)) = c :: classes.
Proof.
  intros Hcs. apply Forall_cons in Hcs as [Hc Hcs].
  destruct (identifier_class c Hc) as [Hne Hsp].
  assert (Hrest : Forall (fun c => c <> [] /\ no_space c) classes).
  { eapply Forall_impl; [exact Hcs|]. apply identifier_class. }
  assert (Htrim : trim (join_classes (c :: classes)) = join_classes (c :: classes)).
  { apply trim_ends_id.
    - cbn [join_classes]. destruct c as [|x c]; [done|].
      by apply Forall_cons in Hsp as [Hx _].
    - assert (Hlast : exists y, last (join_classes (c :: classes)) = Some y /\
                                is_js_space y = false).
      { cbn [join_classes].
        destruct classes as [|c' classes _] using rev_ind.
        - simpl. rewrite app_nil_r. by apply no_space_last.
        - rewrite Forall_app, Forall_singleton in Hrest.
          destruct Hrest as [_ [Hne' Hsp']].
          destruct (no_space_last c' Hne' Hsp') as (y & Hy & Hsp'').
          exists y. split; [|done].
          rewrite flat_map_app. cbn [flat_map]. rewrite app_nil_r, !app_assoc.
          by apply last_app_Some. }
      destruct Hlast as (y & Hy & Hsp').
      rewrite <- head_reverse in Hy. by destruct (reverse _) as [|z r]; simplify_eq/=. }
  unfold splitClassList. rewrite Htrim.
  rewrite bool_decide_eq_false_2 by (cbn [join_classes]; by destruct c).
  cbn [join_classes]. by rewrite (split_spaces_joined classes c [] Hsp Hrest).
Qed.

(** An element passes the filter of a part exactly when the part matches
    it. *)
Lemma matches_part_filter t a p :
  part_ok p -> Forall plain_attr_name (part_attrs p) ->
  matchesTagAndAttrs t a (filter_tag (part_tag p)) (Some (part_filter p)) =
  matchesSelectorPart t a p.
Proof.
  intros [Htag Hid Hclasses Hattrs _] Hplain.
  destruct p as [tag i classes attrs]. cbn [part_tag part_id part_classes part_attrs] in *.
  unfold matchesTagAndAttrs, matchesSelectorPart, part_filter.
  cbn [part_tag part_id part_classes part_attrs].
  assert (Hfirst :
    negb (str_eqb (filter_tag tag) []) && negb (str_eqb (filter_tag tag) (js "*"))
      && negb (str_eqb t (filter_tag tag)) =
    truthy tag && negb (bool_decide (tag = Some (js "*")))
      && negb (bool_decide (Some t = tag))).
  { destruct tag as [name|]; [|done].
    assert (Hname : filter_tag (Some name) = name /\ name <> []).
    { destruct Htag as [->|[[Hne _] Hlow]]; [done|].
      destruct name as [|c name]; [done|]. by cbn [filter_tag]. }
    destruct Hname as [-> Hne]. unfold str_eqb.
    destruct name as [|c name]; [done|]. cbn [truthy].
    rewrite (bool_decide_eq_false_2 (c :: name = [])) by done.
    repeat case_bool_decide; simpl; congruence. }
  rewrite Hfirst.
  destruct (truthy tag && negb (bool_decide (tag = Some (js "*")))
              && negb (bool_decide (Some t = tag))); [done|].
  rewrite !forallb_app.
  assert (Hsecond :
    forallb (fun '(k, v) => matches_filter a k v)
      match i with None => [] | Some i' => [(js "id", FilterString i')] end =
    negb (truthy i && negb (bool_decide (Some (or_empty (getAttribute a (js "id"))) = i)))).
  { destruct i as [i'|]; [|done]. destruct Hid as [Hne _].
    destruct i' as [|c i']; [done|]. cbn [truthy forallb].
    unfold matches_filter. change (toLowerCase (js "id")) with (js "id").
    change (str_eqb (js "id") (js "class")) with false.
    change (str_eqb (js "id") (js "classname")) with false.
    change (str_eqb (js "id") (js "id")) with true. cbv iota. cbn [orb andb].
    unfold str_eqb, Element_id.
    repeat case_bool_decide; simpl; congruence. }
  assert (Hthird :
    forallb (fun '(k, v) => matches_filter a k v)
      match classes with
      | [] => []
      | c :: cs => [(js "class", FilterString (join_classes (c :: cs)))]
      end =
    forallb (fun c => mem_str c (classList a)) classes).
  { destruct classes as [|c classes]; [done|]. cbn [forallb].
    unfold matches_filter. change (toLowerCase (js "class")) with (js "class").
    change (str_eqb (js "class") (js "class")) with true. cbn [orb].
    rewrite (splitClassList_joined c classes Hclasses). by rewrite andb_true_r. }
  assert (Hfourth :
    forallb (fun '(k, v) => matches_filter a k v)
      (map (fun a0 => (attr_name a0,
                       match attr_value a0 with
                       | None => FilterTrue
                       | Some v => FilterString v
                       end)) attrs) =
    forallb (matches_attr a) attrs).
  { clear Hfirst Hsecond Hthird.
    induction attrs as [|at1 attrs IH]; [done|].
    apply Forall_cons in Hattrs as [(_ & Hlow & _) Hattrs].
    apply Forall_cons in Hplain as [(Hn1 & Hn2 & Hn3) Hplain].
    cbn [map forallb]. rewrite (IH Hattrs Hplain). f_equal.
    unfold matches_filter, matches_attr, hasAttribute, getAttribute, str_eqb.
    rewrite Hlow.
    rewrite (bool_decide_eq_false_2 (attr_name at1 = js "class")) by done.
    rewrite (bool_decide_eq_false_2 (attr_name at1 = js "classname")) by done.
    rewrite (bool_decide_eq_false_2 (attr_name at1 = js "id")) by done.
    cbn [orb]. cbv iota. rewrite ?Hlow.
    destruct (attr_value at1) as [v|]; [|by rewrite andb_true_r].
    destruct (a !! attr_name at1) as [w|] eqn:Hw.
    - rewrite (bool_decide_eq_true_2 (is_Some (Some w))) by by eexists. done.
    - rewrite (bool_decide_eq_false_2 (is_Some None)) by (by intros [? ?]).
      by rewrite bool_decide_eq_false_2. }
  rewrite Hthird, Hsecond, Hfourth.
  by destruct (truthy i && _), (forallb _ classes).
Qed.

Lemma passes_part_filter h p el :
  part_ok p -> Forall plain_attr_name (part_attrs p) ->
  passes h (filter_tag (part_tag p)) (Some (part_filter p)) el =
  is_element h el && elem_matches h el p.
Proof.
  intros Hok Hplain. unfold passes, elem_matches, matches_at, matches_filter_at.
  destruct (h !! el) as [n|]; [|done]. simpl.
  destruct (kind n) as [t a| |]; try done. f_equal; simpl.
  by apply matches_part_filter.
Qed.

(** X20. On a document, [findAll] with the tag name, the classes, the
    id and the attributes of a selector part given as tag and filter
    returns the elements that [querySelectorAll] returns for the part
    written as a selector, and [find] the element that [querySelector]
    returns: a class filter asks what [.class] asks, an [id] filter what
    [#id] asks, another key what [[name]] or [[name='value']] asks. *)
Theorem findAll_filter_selector (h : Store) (doc d : nat) (order : list nat)
    (fuel : nat) (p : SelectorPart) :
  part_ok p -> Forall plain_attr_name (part_attrs p) ->
  subtree d h doc = Some (doc :: order) -> is_element h doc = false ->
  S (length order) < fuel -> length (print_part p) < fuel ->
  findAll fuel h doc (part_tag p) (Some (part_filter p)) =
    querySelectorAll fuel h doc (print_part p) false /\
  find fuel h doc (part_tag p) (Some (part_filter p)) =
    querySelectorOne fuel h doc (print_part p) false.
Proof.
  intros Hok Hplain Hsub Hdoc Hfuel Hlen.
  set (step := {| combinator := Descendant; part := p |}).
  assert (Hcompile : parseSelectorList fuel (print_part p) = Some [[step]]).
  { pose proof (compile_printed_group fuel [step]) as Hc.
    cbn [print_group flat_map] in Hc. rewrite app_nil_r in Hc.
    apply Hc; [|done]. split; [done|]. by apply Forall_singleton. }
  assert (Hfilter :
    List.filter (passes h (filter_tag (part_tag p)) (Some (part_filter p)))
      (doc :: order) =
    List.filter (fun el => is_element h el && elem_matches h el p) order).
  { cbn [List.filter]. rewrite (passes_element h _ _ doc Hdoc).
    apply filter_ext. intros el. by apply passes_part_filter. }
  unfold findAll, findAllInTree, find, findInTree, querySelectorAll, querySelectorOne.
  rewrite Hcompile. cbn [mbind option_bind].
  rewrite !(walkElements_visit h _ doc d order fuel _ _ Hsub Hfuel).
  rewrite visit_all_filter, visit_first_filter.
  unfold step. rewrite visit_all_one, visit_first_one.
  by rewrite Hfilter.
Qed.

Lemma findAll_filter_selector_witness :
  let h := [ {| kind := KDocument; parent := None; children := [1] |};
             {| kind := KElement (js "div")
                         {[ js "class" := js "a  b c"; js "id" := js "x" ]};
                parent := Some 0; children := [2; 3] |};
             {| kind := KElement (js "p") ∅; parent := Some 1; children := [] |};
             {| kind := KElement (js "div") {[ js "lang" := js "en" ]};
                parent := Some 1; children := [] |} ] in
  let p := {| part_tag := Some (js "div"); part_id := Some (js "x");
              part_classes := [js "c"; js "a"]; part_attrs := [] |} in
  findAll 20 h 0 (Some (js "div"))
          (Some [(js "class", FilterString (js "c a")); (js "id", FilterString (js "x"))]) =
    querySelectorAll 20 h 0 (js "div#x.c.a") false /\
  find 20 h 0 (Some (js "div"))
       (Some [(js "class", FilterString (js "c a")); (js "id", FilterString (js "x"))]) =
    querySelectorOne 20 h 0 (js "div#x.c.a") false.
Proof.
  intros h p. apply (findAll_filter_selector h 0 3 [1; 2; 3] 20 p).
  - split; simpl.
    + right. split; [|reflexivity]. split; [discriminate|]. repeat constructor.
    + split; [discriminate|]. repeat constructor.
    + repeat constructor; discriminate.
    + constructor.
    + discriminate.
  - constructor.
  - reflexivity.
  - reflexivity.
  - simpl. lia.
  - vm_compute. lia.
Defined.
(** * Input that ends early

    End tags that are missing at the end of the input are implied, and
    a comment, a declaration or an end tag that the input cuts off is
    dropped. *)

(** An element that is still open at the end of the input: the markup
    before its start tag, its name and its attributes. *)
Record Frame := mkFrame {
  frame_before : list Markup;
  frame_name : jsstring;
  frame_attrs : list AttrText
}.

(** The input: for each open element what stands before it and its
    start tag, then the content of the innermost one; no end tag. *)
Fixpoint write_unclosed (frames : list Frame) (ms : list Markup) : jsstring :=
  match frames with
  | [] => flat_map write ms
  | f :: frames' =>
      flat_map write (frame_before f) ++
      write_start (frame_name f) (frame_attrs f) false ++
      write_unclosed frames' ms
  end.

(** The same markup with every open element closed. *)
Fixpoint closed (frames : list Frame) (ms : list Markup) : list Markup :=
  match frames with
  | [] => ms
  | f :: frames' =>
      frame_before f ++ [MElement (frame_name f) (frame_attrs f) (closed frames' ms)]
  end.

(** What the input may be cut off in. *)
Inductive cut_off : jsstring -> Prop :=
| cut_comment body :
    (forall a b, body <> a ++ js "-->" ++ b) -> cut_off (js "<!--" ++ body)
| cut_declaration body :
    Forall (fun c => c <> 62%Z) body -> cut_off (js "<!" ++ body)
| cut_end_tag body :
    Forall (fun c => c <> 62%Z) body -> cut_off (js "</" ++ body).

Lemma separated_app_l ms ms' : separated (ms ++ ms') -> separated ms.
Proof.
  induction ms as [|m ms IH]; [done|].
  cbn [app separated]. destruct m; try (by destruct ms).
  destruct ms as [|m ms]; [done|]. cbn [app]. by destruct m.
Qed.

Lemma unclosed_run frames ms :
  forall html st top rest,
    drop (pos st) html = write_unclosed frames ms ++ rest ->
    last (stack st) = Some top -> opens rest ->
    Forall well_formed (closed frames ms) -> separated (closed frames ms) ->
    exists stk,
      steps html st {| store := build_all (closed frames ms) top (store st);
                       stack := stk;
                       pos := pos st + length (write_unclosed frames ms) |}.
Proof.
  induction frames as [|[before name attrs] frames IH];
    intros html st top rest Hcur Htop Hrest Hwf Hsep.
  - exists (stack st). cbn [write_unclosed closed] in *.
    by apply (runs_all ms (proj2 (Forall_forall _ _) (fun m _ => runs_markup m))
                html st top rest).
  - cbn [write_unclosed closed frame_before frame_name frame_attrs] in *.
    rewrite Forall_app, Forall_singleton in Hwf. destruct Hwf as [Hwfb Hwfe].
    inversion Hwfe as [? ? ? Hname Hvoid Hraw Hattrs Hcontent Hsepc| | | | |]; subst.
    rewrite <- !app_assoc in Hcur.
    pose proof (runs_all before (proj2 (Forall_forall _ _) (fun m _ => runs_markup m))
                  html st top _ Hcur Htop (or_intror eq_refl) Hwfb
                  (separated_app_l _ _ Hsep)) as Hrun1.
    set (st1 := {| store := build_all before top (store st); stack := stack st;
                   pos := pos st + length (flat_map write before) |}) in *.
    pose proof (cursor_move html (pos st) _ _ Hcur) as Hcur1.
    pose proof (step_start_tag html st1 top name attrs false _ Hcur1 Hname Hattrs
                  (or_intror (or_introl Hraw)) Htop) as Hstep.
    rewrite Hvoid in Hstep. cbn [orb] in Hstep.
    set (st2 := {| store := appendChild
                              (store st1 ++ [new_node (KElement (toLowerCase name)
                                                               (stored_attrs attrs))])
                              top (length (store st1));
                   stack := stack st1 ++ [length (store st1)];
                   pos := pos st1 + length (write_start name attrs false) |}) in *.
    pose proof (cursor_move html (pos st1) _ _ Hcur1) as Hcur2.
    destruct (IH html st2 (length (store st1)) rest Hcur2 (last_snoc _ _) Hrest
                Hcontent Hsepc) as (stk & Hrun2).
    exists stk. eapply steps_trans; [exact Hrun1|].
    eapply steps_cons; [by eapply write_start_lt|exact Hstep|].
    unfold build_all. rewrite foldl_app. cbn [foldl build]. unfold new_Element.
    unfold build_all in Hrun2. unfold st2, st1 in Hrun2. cbn [store pos] in Hrun2.
    rewrite !length_app, !Nat.add_assoc. exact Hrun2.
Qed.

(** The run on an input without its last end tags, followed by something
    that does not go on a text at its end. *)
Lemma unclosed_run_init frames ms tail :
  Forall well_formed (closed frames ms) -> separated (closed frames ms) ->
  opens tail ->
  exists stk,
    steps (write_unclosed frames ms ++ tail) parse_init
          {| store := build_all (closed frames ms) 0 [new_node KDocument];
             stack := stk; pos := length (write_unclosed frames ms) |}.
Proof.
  intros Hwf Hsep Htail.
  by apply (unclosed_run frames ms (write_unclosed frames ms ++ tail) parse_init 0 tail).
Qed.

Lemma starts_with_app pat s : starts_with pat s = true -> exists b, s = pat ++ b.
Proof.
  revert s. induction pat as [|p pat IH]; intros s; [by exists s|].
  destruct s as [|c s]; [done|]. cbn [starts_with].
  intros [->%Z.eqb_eq [b ->]%IH]%andb_true_iff. by exists b.
Qed.

Lemma find_from_none pat s :
  (forall a b, s <> a ++ pat ++ b) -> forall k, find_from pat s k = None.
Proof.
  induction s as [|x s IH]; intros Hno k.
  - cbn [find_from]. destruct (starts_with pat []) eqn:Hst; [|done].
    apply starts_with_app in Hst as [b Hb]. by destruct (Hno [] b).
  - cbn [find_from]. destruct (starts_with pat (x :: s)) eqn:Hst.
    + apply starts_with_app in Hst as [b Hb]. by destruct (Hno [] b).
    + apply IH. intros a b ->. by apply (Hno (x :: a) b).
Qed.

(** A comment that nothing ends: the cursor moves to the end. *)
Lemma step_cut_comment html st body :
  drop (pos st) html = js "<!--" ++ body ->
  (forall a b, body <> a ++ js "-->" ++ b) ->
  parse_step html (toLowerCase html) st =
  Some (Continue, {| store := store st; stack := stack st; pos := length html |}).
Proof.
  intros Hcur Hbody.
  pose proof (cursor_move html (pos st) (js "<!--") _ Hcur) as Hcur4.
  change (length (js "<!--")) with 4 in Hcur4.
  pose proof (cursor_length html (pos st) _ _ Hcur) as Hlen.
  change (length (js "<!--")) with 4 in Hlen.
  assert (Hlt : pos st < length html).
  { change (js "<!--" ++ body) with (60%Z :: (js "!--" ++ body)) in Hcur.
    by eapply cursor_lt. }
  assert (H60 : html !! pos st = Some 60%Z).
  { change (js "<!--" ++ body) with (60%Z :: (js "!--" ++ body)) in Hcur.
    by eapply cursor_lookup. }
  unfold parse_step. rewrite H60. cbn [mbind option_bind].
  change (60 =? 60)%Z with true. cbv iota.
  rewrite (proj2 (Nat.ltb_lt (pos st + 3) (length html))) by lia.
  pose proof (cursor_slice html (pos st) (js "<!--") _ Hcur) as Hslice.
  change (length (js "<!--")) with 4 in Hslice. rewrite Hslice.
  unfold str_eqb. rewrite bool_decide_eq_true_2 by done. cbn [andb].
  unfold indexOf. rewrite Hcur4. by rewrite (find_from_none _ body Hbody).
Qed.

(** A declaration that nothing ends: the cursor moves to the end. *)
Lemma step_cut_declaration html st body :
  drop (pos st) html = js "<!" ++ body ->
  Forall (fun c => c <> 62%Z) body ->
  parse_step html (toLowerCase html) st =
  Some (Continue, {| store := store st; stack := stack st; pos := length html |}).
Proof.
  intros Hcur Hbody.
  destruct (decide (take 2 body = js "--")) as [Htwo|Hnot].
  { rewrite <- (take_drop 2 body), Htwo in Hcur, Hbody.
    apply (step_cut_comment html st (drop 2 body)); [done|].
    intros a b Heq. rewrite Heq in Hbody. apply Forall_cons in Hbody as [_ Hbody].
    apply Forall_cons in Hbody as [_ Hbody].
    rewrite !Forall_app in Hbody. destruct Hbody as (_ & Hend & _).
    change (js "-->") with [45; 45; 62]%Z in Hend.
    do 2 apply Forall_cons in Hend as [_ Hend]. by apply Forall_cons in Hend as [? _]. }
  change (js "<!" ++ body) with (60%Z :: 33%Z :: body) in Hcur.
  pose proof (cursor_move html (pos st) [60%Z] _ Hcur) as Hcur1.
  pose proof (cursor_move html (pos st) [60%Z; 33%Z] _ Hcur) as Hcur2.
  change (length [60%Z]) with 1 in Hcur1. change (length [60%Z; 33%Z]) with 2 in Hcur2.
  assert (Hno : (pos st + 3 <? length html)
                && str_eqb (slice html (pos st) (pos st + 4)) (js "<!--") = false).
  { apply andb_false_iff. right. apply bool_decide_eq_false. intros Heq.
    apply Hnot. unfold slice in Heq.
    replace (pos st + 4 - pos st) with 4 in Heq by lia. rewrite Hcur in Heq.
    destruct body as [|c1 [|c2 body']]; try done.
    by injection Heq as -> ->. }
  unfold parse_step. rewrite (cursor_lookup _ _ _ _ Hcur). cbn [mbind option_bind].
  change (60 =? 60)%Z with true. cbv iota. rewrite Hno.
  rewrite (proj2 (Nat.ltb_lt _ _) (cursor_lt _ _ _ _ Hcur1)).
  rewrite (cursor_is_code _ _ _ _ Hcur1). cbn [andb].
  change (js ">") with [62%Z].
  by rewrite (cursor_indexOf_absent html (pos st + 2) 62%Z body Hcur2 Hbody).
Qed.

(** From a cursor on what the input is cut off in, the loop ends with
    the store as it is. *)
Lemma cut_off_run html st tail :
  drop (pos st) html = tail -> cut_off tail ->
  exists fin, steps html st fin /\ finished html fin /\ store fin = store st.
Proof.
  intros Hcur Hcut. destruct Hcut as [body Hbody|body Hbody|body Hbody].
  - eexists. split; [|split]; [apply steps_one| |].
    + change (js "<!--" ++ body) with (60%Z :: (js "!--" ++ body)) in Hcur.
      by eapply cursor_lt.
    + by apply (step_cut_comment html st body).
    + left. simpl. lia.
    + done.
  - eexists. split; [|split]; [apply steps_one| |].
    + change (js "<!" ++ body) with (60%Z :: (js "!" ++ body)) in Hcur.
      by eapply cursor_lt.
    + by apply (step_cut_declaration html st body).
    + left. simpl. lia.
    + done.
  - exists st. split; [constructor|]. split; [|done].
    change (js "</" ++ body) with (60%Z :: 47%Z :: body) in Hcur.
    pose proof (cursor_move html (pos st) [60%Z] _ Hcur) as Hcur1.
    pose proof (cursor_move html (pos st) [60%Z; 47%Z] _ Hcur) as Hcur2.
    change (length [60%Z]) with 1 in Hcur1. change (length [60%Z; 47%Z]) with 2 in Hcur2.
    right. split; [by eapply cursor_lt|].
    split; [by eapply cursor_is_code|]. split; [by eapply cursor_is_code|].
    change (js ">") with [62%Z].
    by apply (cursor_indexOf_absent html (pos st + 2) 62%Z body).
Qed.

Lemma cut_off_opens tail : cut_off tail -> opens tail.
Proof. intros []; by right. Qed.

(** X21. End tags that are missing at the end of the input are
    implied: an input in the plain syntax that ends inside elements (each
    one open after some written markup, the innermost with written
    content) is read by [parse] as the tree of the same input with the end
    tags of these elements added at its end. *)
Theorem parse_unclosed (frames : list Frame) (ms : list Markup) :
  Forall well_formed (closed frames ms) -> separated (closed frames ms) ->
  parse (write_unclosed frames ms) =
    Some (build_all (closed frames ms) 0 [new_node KDocument]) /\
  parse (write_unclosed frames ms) = parse (flat_map write (closed frames ms)).
Proof.
  intros Hwf Hsep.
  destruct (unclosed_run_init frames ms [] Hwf Hsep (or_introl eq_refl))
    as (stk & Hrun).
  rewrite app_nil_r in Hrun.
  assert (Hopen : parse (write_unclosed frames ms) =
            Some (build_all (closed frames ms) 0 [new_node KDocument])).
  { apply (run_result _ _ Hrun). left. simpl. lia. }
  split; [done|]. rewrite Hopen. symmetry.
  pose proof (written_run (closed frames ms) [] Hwf Hsep (or_introl eq_refl)) as Hrun'.
  rewrite app_nil_r in Hrun'.
  apply (run_result _ _ Hrun'). left. simpl. lia.
Qed.

Lemma parse_unclosed_witness :
  let frames := [ {| frame_before := [MText (js "a")]; frame_name := js "div";
                     frame_attrs := [Quoted 39 (js "id") (js "x")] |};
                  {| frame_before := []; frame_name := js "p"; frame_attrs := [] |} ] in
  let ms := [MText (js "b"); MVoid (js "br") []] in
  parse (js "a<div id='x'><p>b<br>") =
    Some (build_all (closed frames ms) 0 [new_node KDocument]) /\
  parse (js "a<div id='x'><p>b<br>") = parse (js "a<div id='x'><p>b<br></p></div>").
Proof.
  intros frames ms. apply (parse_unclosed frames ms).
  - unfold frames, ms. cbn [closed frame_before frame_name frame_attrs app]. markup_ok.
  - done.
Defined.

(** X22. A comment that no [-->] ends, a declaration that no [>] ends
    and an end tag that no [>] ends are dropped at the end of the input:
    [parse] returns the tree of the input before them. *)
Theorem parse_cut_off (frames : list Frame) (ms : list Markup) (tail : jsstring) :
  Forall well_formed (closed frames ms) -> separated (closed frames ms) ->
  cut_off tail ->
  parse (write_unclosed frames ms ++ tail) =
    Some (build_all (closed frames ms) 0 [new_node KDocument]) /\
  parse (write_unclosed frames ms ++ tail) = parse (write_unclosed frames ms).
Proof.
  intros Hwf Hsep Hcut.
  destruct (unclosed_run_init frames ms tail Hwf Hsep (cut_off_opens tail Hcut))
    as (stk & Hrun).
  set (html := write_unclosed frames ms ++ tail) in *.
  set (st := {| store := build_all (closed frames ms) 0 [new_node KDocument];
                stack := stk; pos := length (write_unclosed frames ms) |}) in *.
  assert (Hcur : drop (pos st) html = tail).
  { unfold html, st. cbn [pos]. by rewrite drop_app_length. }
  destruct (cut_off_run html st tail Hcur Hcut) as (fin & Hrest & Hfin & Hstore).
  assert (Hcutoff : parse html =
            Some (build_all (closed frames ms) 0 [new_node KDocument])).
  { rewrite (run_result html fin (steps_trans _ _ _ _ Hrun Hrest) Hfin).
    by rewrite Hstore. }
  split; [done|]. rewrite Hcutoff. symmetry.
  destruct (unclosed_run_init frames ms [] Hwf Hsep (or_introl eq_refl))
    as (stk' & Hrun').
  rewrite app_nil_r in Hrun'.
  apply (run_result _ _ Hrun'). left. simpl. lia.
Qed.

Lemma parse_cut_off_witness :
  let frames := [ {| frame_before := []; frame_name := js "p"; frame_attrs := [] |} ] in
  let ms := [MText (js "b")] in
  parse (js "<p>b<!-- > c -") =
    Some (build_all (closed frames ms) 0 [new_node KDocument]) /\
  parse (js "<p>b<!-- > c -") = parse (js "<p>b").
Proof.
  intros frames ms. apply (parse_cut_off frames ms (js "<!--" ++ js " > c -")).
  - unfold frames, ms. cbn [closed frame_before frame_name frame_attrs app]. markup_ok.
  - done.
  - constructor. intros a b Heq.
    assert (Hlen : length (js " > c -") = length (a ++ js "-->" ++ b)) by by rewrite <- Heq.
    destruct a as [|a0 [|a1 [|a2 [|a3 a]]]]; try discriminate Heq.
    rewrite !length_app in Hlen. simpl in Hlen. lia.
Defined.
(** ** The text of a parsed document *)

Lemma textContent_subtree h id d order fuel :
  (forall x n t, h !! x = Some n -> kind n = KText t -> children n = []) ->
  subtree d h id = Some order -> length order <= fuel ->
  textContent fuel h id = Some (flat_map (text_of h) order).
Proof.
  intros Hleaf Hsub Hfuel.
  destruct (in_order_inv h id order) as (n & kids & Hn & Hkids & ->); [by exists d|].
  unfold textContent. rewrite Hn. simpl.
  assert (Htext : text_of h id = match kind n with KText t => t | _ => [] end).
  { unfold text_of. by rewrite Hn. }
  rewrite Htext, push_children_app, app_nil_r.
  simpl in Hfuel.
  destruct (kind n) as [t a|t|] eqn:Hk.
  - by rewrite (textContent_loop_order h Hleaf (length (concat kids)) fuel _ kids [])
      by (done || lia).
  - rewrite (Hleaf id n t Hn Hk) in Hkids.
    apply Forall2_nil_inv_l in Hkids as ->. simpl. by rewrite app_nil_r.
  - by rewrite (textContent_loop_order h Hleaf (length (concat kids)) fuel _ kids [])
      by (done || lia).
Qed.

(** The data of the text nodes of a store, in the order of the store. *)
Definition texts (h : Store) : jsstring :=
  flat_map (fun n => match kind n with KText d => d | _ => [] end) h.

Lemma text_of_seq pre h :
  flat_map (text_of (pre ++ h)) (seq (length pre) (length h)) = texts h.
Proof.
  revert pre. induction h as [|n h IH]; intros pre; [done|].
  cbn [length seq flat_map texts]. f_equal.
  - unfold text_of. by rewrite lookup_app_r, Nat.sub_diag by lia.
  - specialize (IH (pre ++ [n])). rewrite <- app_assoc, length_app in IH.
    simpl in IH. by rewrite Nat.add_1_r in IH.
Qed.

Lemma shaped_textContent st fuel :
  shaped st -> length (store st) <= fuel ->
  textContent fuel (store st) 0 = Some (texts (store st)).
Proof.
  intros Hshape Hfuel. rewrite <- (text_of_seq [] (store st)).
  apply (textContent_subtree _ 0 (length (store st))).
  - intros x n t Hn Hk. by destruct (ok_text _ (shaped_ok _ Hshape) x n t Hn Hk).
  - by apply shaped_subtree.
  - by rewrite length_seq.
Qed.

(** X23. The [textContent] of the document that [parse] returns is the
    data of all the text nodes that [parse] made, concatenated in the order
    in which it made them. *)
Theorem parse_textContent (html : jsstring) :
  exists h, parse html = Some h /\
    forall fuel, length h <= fuel -> textContent fuel h 0 = Some (texts h).
Proof.
  destruct (parse_run_shaped html) as (fin & Hrun & Hshape).
  exists (store fin). unfold parse. rewrite Hrun. split; [done|].
  intros fuel Hfuel. by apply shaped_textContent.
Qed.

(** The text that a piece of markup holds. *)
Fixpoint text_data (m : Markup) : jsstring :=
  match m with
  | MElement _ _ content => flat_map text_data content
  | MText data => data
  | _ => []
  end.

Lemma texts_alter (f : Node -> Node) i h :
  (forall n, kind (f n) = kind n) -> texts (alter f i h) = texts h.
Proof.
  intros Hf. revert i. induction h as [|n h IH]; intros i; [done|].
  destruct i as [|i]; simpl.
  - by rewrite Hf.
  - f_equal. apply IH.
Qed.

Lemma texts_appendChild h p c : texts (appendChild h p c) = texts h.
Proof. unfold appendChild. by rewrite !texts_alter. Qed.

Lemma texts_app h h' : texts (h ++ h') = texts h ++ texts h'.
Proof. apply flat_map_app. Qed.

Lemma texts_build_all ms :
  Forall (fun m => forall p h, texts (build m p h) = texts h ++ text_data m) ms ->
  forall p h, texts (build_all ms p h) = texts h ++ flat_map text_data ms.
Proof.
  induction 1 as [|m ms Hm _ IH]; intros p h.
  - simpl. by rewrite app_nil_r.
  - unfold build_all. cbn [foldl flat_map]. fold (build_all ms p (build m p h)).
    by rewrite IH, Hm, <- app_assoc.
Qed.

Lemma texts_build m : forall p h, texts (build m p h) = texts h ++ text_data m.
Proof.
  induction m as [name attrs content IH|name attrs|name attrs|data|body|body]
    using Markup_content_ind; intros p h; cbn [build text_data];
    unfold new_Element, new_TextNode.
  - fold (build_all content (length h)
            (appendChild (h ++ [new_node (KElement (toLowerCase name)
                                                   (stored_attrs attrs))])
                         p (length h))).
    rewrite (texts_build_all content IH), texts_appendChild, texts_app.
    simpl. by rewrite app_nil_r.
  - rewrite texts_appendChild, texts_app. simpl. by rewrite app_nil_r.
  - rewrite texts_appendChild, texts_app. simpl. by rewrite app_nil_r.
  - rewrite texts_appendChild, texts_app. simpl. by rewrite app_nil_r.
  - by rewrite app_nil_r.
  - by rewrite app_nil_r.
Qed.

(** X24. The [textContent] of the document read from a document
    written out in the plain syntax is the text that the markup holds, in
    the order in which it is written; tags, attributes, comments and
    declarations add nothing to it. *)
Theorem parse_written_textContent (ms : list Markup) :
  Forall well_formed ms -> separated ms ->
  exists h, parse (flat_map write ms) = Some h /\
    forall fuel, length h <= fuel ->
      textContent fuel h 0 = Some (flat_map text_data ms).
Proof.
  intros Hwf Hsep.
  pose proof (written_run ms [] Hwf Hsep (or_introl eq_refl)) as Hrun.
  rewrite app_nil_r in Hrun.
  assert (Hparse : parse (flat_map write ms) =
            Some (build_all ms 0 [new_node KDocument])).
  { apply (run_result _ _ Hrun). left. simpl. lia. }
  exists (build_all ms 0 [new_node KDocument]). split; [done|].
  intros fuel Hfuel.
  destruct (parse_shaped _ _ Hparse) as (fin & _ & Hstore & Hshape).
  rewrite <- Hstore in Hfuel |- *.
  rewrite (shaped_textContent fin fuel Hshape Hfuel), Hstore.
  by rewrite (texts_build_all ms (proj2 (Forall_forall _ _) (fun m _ => texts_build m))).
Qed.

Lemma parse_written_textContent_witness :
  exists h, parse (js "a<p id='x'>b<!-- c --><br>d</p>") = Some h /\
    forall fuel, length h <= fuel -> textContent fuel h 0 = Some (js "abd").
Proof.
  apply (parse_written_textContent
           [MText (js "a");
            MElement (js "p") [Quoted 39 (js "id") (js "x")]
              [MText (js "b"); MComment (js " c "); MVoid (js "br") []; MText (js "d")]]).
  - markup_ok.
  - done.
Defined.
(** ** Queries below an element *)

Lemma filter_none {A} (f : A -> bool) l :
  (forall x, In x l -> f x = false) -> List.filter f l = [].
Proof.
  induction l as [|y l IH]; intros Hall; [done|]. simpl.
  rewrite (Hall y) by (by left). apply IH. intros x Hx. apply Hall. by right.
Qed.

Lemma filter_every {A} (f : A -> bool) l :
  (forall x, In x l -> f x = true) -> List.filter f l = l.
Proof.
  induction l as [|y l IH]; intros Hall; [done|]. simpl.
  rewrite (Hall y) by (by left). f_equal. apply IH. intros x Hx. apply Hall. by right.
Qed.

(** The part of a filtered run of numbers that lies in a segment of it. *)
Lemma filter_segment (P : nat -> bool) a b c d :
  List.filter (fun x => bool_decide (x ∈ seq (a + b) c))
              (List.filter P (seq a (b + c + d))) =
  List.filter P (seq (a + b) c).
Proof.
  rewrite !seq_app, !List.filter_app.
  rewrite (filter_none _ (List.filter P (seq a b))).
  2:{ intros x [Hx _]%filter_In. apply in_seq in Hx.
      apply bool_decide_eq_false. rewrite elem_of_seq. lia. }
  rewrite (filter_none _ (List.filter P (seq (a + (b + c)) d))).
  2:{ intros x [Hx _]%filter_In. apply in_seq in Hx.
      apply bool_decide_eq_false. rewrite elem_of_seq. lia. }
  rewrite app_nil_r. simpl. apply filter_every.
  intros x [Hx _]%filter_In. apply in_seq in Hx.
  apply bool_decide_eq_true. rewrite elem_of_seq. lia.
Qed.

(** X25. On a parsed document, [querySelectorAll] of an element returns
    the elements that [querySelectorAll] of the document returns, without
    those that are not below the element: the element itself is never in
    the result, the order is the document order, and a selector is matched
    against the whole document (an ancestor that a selector names may lie
    above the element). [querySelector] returns the first of them. *)
Theorem parse_querySelectorAll_below (html : jsstring) (h : Store) (fuel : nat)
    (selector : jsstring) (el : nat) (order : list nat) :
  parse html = Some h ->
  is_Some (parseSelectorList fuel selector) ->
  subtree (length h) h el = Some (el :: order) ->
  length h < fuel ->
  exists all,
    querySelectorAll fuel h 0 selector false = Some all /\
    querySelectorAll fuel h el selector false =
      Some (List.filter (fun x => bool_decide (x ∈ order)) all) /\
    querySelectorOne fuel h el selector false =
      Some (head (List.filter (fun x => bool_decide (x ∈ order)) all)).
Proof.
  intros Hparse [groups Hcompile] Hsub Hfuel.
  destruct (parse_tree html h Hparse) as (Hlen & Hsub0 & Hanc0).
  destruct (parse_returns_tree html h Hparse) as (_ & _ & Hanc).
  destruct (parse_shaped html h Hparse) as (fin & _ & Hstore & Hshape).
  destruct (shaped_order _ Hshape) as [size Hpo]. rewrite Hstore in Hpo.
  assert (Hel : el < length h).
  { destruct (in_order_inv h el (el :: order)) as (n & _ & Hn & _); [by eexists|].
    apply lookup_lt_is_Some. by eexists. }
  pose proof (po_pos _ _ _ Hpo el) as Hpos.
  pose proof (po_bound _ _ _ Hpo el Hel) as Hbound.
  pose proof Hsub as Hseq.
  rewrite (preorder_subtree _ _ _ Hpo (length h) el) in Hseq by lia.
  assert (Horder : order = seq (el + 1) (size el - 1)).
  { destruct (size el) as [|k]; [lia|]. simpl in Hseq. injection Hseq as <-.
    replace (S k - 1) with k by lia. by rewrite Nat.add_1_r. }
  destruct (querySelectorAll_selected h 0 selector groups (length h)
              (seq 1 (length h - 1)) fuel false) as [Hall _]; try done.
  { rewrite length_seq. lia. }
  { lia. }
  destruct (querySelectorAll_selected h el selector groups (length h) order fuel false)
    as [Hbelow Hone]; try done.
  { apply Forall_forall. intros x Hx. apply Hanc.
    rewrite Horder in Hx. apply elem_of_seq in Hx. lia. }
  { rewrite Horder, length_seq. lia. }
  { lia. }
  exists (List.filter (selected (length h) h groups) (seq 1 (length h - 1))).
  split; [done|].
  assert (Hsegment :
    List.filter (fun x => bool_decide (x ∈ order))
      (List.filter (selected (length h) h groups) (seq 1 (length h - 1))) =
    List.filter (selected (length h) h groups) order).
  { rewrite Horder.
    replace (length h - 1) with (el + (size el - 1) + (length h - el - size el)) by lia.
    rewrite (Nat.add_comm el 1). apply filter_segment. }
  rewrite Hsegment. by split.
Qed.

Lemma parse_querySelectorAll_below_witness :
  let html := js "<div><p><b>x</b></p></div><b></b>" in
  exists h, parse html = Some h /\
    exists all,
      querySelectorAll 9 h 0 (js "div b, p") false = Some all /\
      querySelectorAll 9 h 2 (js "div b, p") false =
        Some (List.filter (fun x => bool_decide (x ∈ [3; 4])) all) /\
      querySelectorOne 9 h 2 (js "div b, p") false =
        Some (head (List.filter (fun x => bool_decide (x ∈ [3; 4])) all)).
Proof.
  intros html.
  destruct (parse html) as [h|] eqn:Hparse; [|by vm_compute in Hparse].
  exists h. split; [done|].
  apply (parse_querySelectorAll_below html h 9 (js "div b, p") 2 [3; 4] Hparse).
  - vm_compute. by eexists.
  - vm_compute in Hparse. injection Hparse as <-. reflexivity.
  - vm_compute in Hparse. injection Hparse as <-. simpl. lia.
Defined.
(** ** A [<] that starts no tag *)

(** The text after a [<] that starts no tag: nothing, or a text that
    starts with white space or [>]. *)
Definition after_lone_lt (text : jsstring) : Prop :=
  match text with
  | [] => True
  | c :: _ =>
      (isWhitespace c = true \/ c = 62%Z) /\
      Forall (fun x => x <> 60%Z /\ x <> 38%Z) text
  end.

Definition text_markup (text : jsstring) : list Markup :=
  match text with
  | [] => []
  | _ :: _ => [MText text]
  end.

(** [<] before white space, [>] or the end of the input: the cursor
    moves over it. *)
Lemma step_lone_lt html st rest :
  drop (pos st) html = 60%Z :: rest ->
  match rest with
  | [] => True
  | c :: _ => isWhitespace c = true \/ c = 62%Z
  end ->
  parse_step html (toLowerCase html) st =
  Some (Continue, {| store := store st; stack := stack st; pos := pos st + 1 |}).
Proof.
  intros Hcur Hrest.
  pose proof (cursor_move html (pos st) [60%Z] _ Hcur) as Hcur1.
  change (length [60%Z]) with 1 in Hcur1.
  assert (Hskip : skip_while tag_name_char html (pos st + 1) = pos st + 1).
  { unfold skip_while. rewrite Hcur1. destruct rest as [|c rest]; [simpl; lia|].
    simpl. unfold tag_name_char.
    destruct Hrest as [-> | ->]; [simpl; lia|]. rewrite andb_false_r. lia. }
  assert (Hstart : start_tag html (toLowerCase html) st =
            Some (Continue, {| store := store st; stack := stack st;
                               pos := pos st + 1 |})).
  { unfold start_tag, read_start_tag. rewrite Hskip. unfold slice.
    rewrite Nat.sub_diag, take_0. by rewrite bool_decide_eq_true_2. }
  unfold parse_step. rewrite (cursor_lookup _ _ _ _ Hcur). cbn [mbind option_bind].
  change (60 =? 60)%Z with true. cbv iota.
  destruct rest as [|c rest].
  - pose proof (cursor_end html _ Hcur1) as Hend.
    rewrite (proj2 (Nat.ltb_ge (pos st + 3) (length html))) by lia.
    rewrite (proj2 (Nat.ltb_ge (pos st + 1) (length html))) by lia.
    done.
  - assert (H33 : c <> 33%Z).
    { destruct Hrest as [Hws | ->]; [|done]. intros ->. done. }
    assert (H47 : c <> 47%Z).
    { destruct Hrest as [Hws | ->]; [|done]. intros ->. done. }
    rewrite (not_comment_second html (pos st) c rest Hcur H33).
    rewrite (cursor_is_not_code html (pos st + 1) c 33%Z rest Hcur1 H33).
    rewrite (cursor_is_not_code html (pos st + 1) c 47%Z rest Hcur1 H47).
    by rewrite !andb_false_r.
Qed.

(** X26. A [<] that starts no tag is dropped: after a document written
    out in the plain syntax, a [<] at the end of the input adds nothing,
    and a [<] before a text that starts with white space or [>] adds a text
    node with that text alone, apart from a text before the [<]. *)
Theorem parse_lone_lt (ms : list Markup) (text : jsstring) :
  Forall well_formed ms -> separated ms -> after_lone_lt text ->
  parse (flat_map write ms ++ js "<" ++ text) =
  Some (build_all (ms ++ text_markup text) 0 [new_node KDocument]).
Proof.
  intros Hwf Hsep Htext.
  set (html := flat_map write ms ++ js "<" ++ text).
  pose proof (written_run ms (js "<" ++ text) Hwf Hsep (or_intror eq_refl)) as Hrun.
  fold html in Hrun.
  set (st1 := {| store := build_all ms 0 [new_node KDocument]; stack := [0];
                 pos := length (flat_map write ms) |}) in *.
  assert (Hcur : drop (pos st1) html = 60%Z :: text).
  { unfold html, st1. cbn [pos]. by rewrite drop_app_length. }
  assert (Hstep : parse_step html (toLowerCase html) st1 =
            Some (Continue, {| store := store st1; stack := stack st1;
                               pos := pos st1 + 1 |})).
  { apply (step_lone_lt html st1 text Hcur). destruct text as [|c text]; [done|].
    by destruct Htext. }
  pose proof (steps_snoc html _ _ _ Hrun (cursor_lt _ _ _ _ Hcur) Hstep) as Hrun2.
  set (st2 := {| store := store st1; stack := stack st1; pos := pos st1 + 1 |}) in *.
  pose proof (cursor_move html (pos st1) [60%Z] _ Hcur) as Hcur2.
  change (length [60%Z]) with 1 in Hcur2.
  destruct text as [|c text].
  - rewrite (run_result html st2 Hrun2); [|left; by apply cursor_end].
    cbn [text_markup]. by rewrite app_nil_r.
  - destruct Htext as [_ Hdata].
    assert (Hcur3 : drop (pos st2) html = write (MText (c :: text)) ++ []).
    { by rewrite app_nil_r. }
    assert (Hne : c :: text <> []) by done.
    pose proof (runs_markup (MText (c :: text)) html st2 0 [] Hcur3 eq_refl
                  (fun _ => or_introl eq_refl) (wf_text _ Hne Hdata)) as Hrun3.
    rewrite (run_result html _ (steps_trans _ _ _ _ Hrun2 Hrun3)).
    + cbn [store text_markup]. unfold build_all. by rewrite foldl_app.
    + left. cbn [pos write]. unfold html. rewrite !length_app. simpl. lia.
Qed.

Lemma parse_lone_lt_witness :
  parse (js "<p>a</p>b< c") =
  Some (build_all [MElement (js "p") [] [MText (js "a")]; MText (js "b"); MText (js " c")]
                  0 [new_node KDocument]).
Proof.
  apply (parse_lone_lt [MElement (js "p") [] [MText (js "a")]; MText (js "b")] (js " c")).
  - markup_ok.
  - exact I.
  - split; [by left|]. markup_ok.
Defined.
